(** * AVL tree with slab allocator: a shallow embedding of avl.c / avl.h

    The C program keeps its nodes in malloc-ed blocks and rewires raw
    child pointers in place.  The embedding keeps that shape: memory is a
    finite map from addresses to node cells, pointers are optional
    addresses ([None] is NULL), every loop of the source is a fuel-bounded
    recursive function over the same local variables, and a dereference of
    NULL or of a released cell is an explicit error result. *)

From stdpp Require Import gmap list sorting.
From Stdlib Require Import ZArith Lia.

Local Open Scope Z_scope.

(** ** Machine integers *)

(** [int8_t] and [int] values are integers with the wrap-around of a
    conversion to the signed type written out. *)
Definition wrap8 (z : Z) : Z := (z + 128) mod 256 - 128.
Definition wrap_int (z : Z) : Z := (z + 2147483648) mod 4294967296 - 2147483648.
Definition INT_MAX : Z := 2147483647.

(** ** The flag field [f] (avl.c, macros) *)

Definition AVL_FLG_BAL : Z := 112.   (* 0x70 *)
Definition AVL_FLG_1ST : Z := 3.
Definition AVL_FLG_USD : Z := 2.
Definition AVL_FLG_CLN : Z := 1.

Definition AVL_getbal (f : Z) : Z :=
  wrap8 (Z.shiftr (Z.land f AVL_FLG_BAL) 4) - 2.
Definition AVL_setbal (f b : Z) : Z :=
  wrap8 (Z.lor (Z.land f (Z.lnot AVL_FLG_BAL)) (Z.shiftl (wrap8 b + 2) 4)).
Definition AVL_incbal (f : Z) : Z := wrap8 (f + wrap8 16).
Definition AVL_decbal (f : Z) : Z := wrap8 (f - wrap8 16).
Definition AVL_getbit (f b : Z) : Z := Z.land f (Z.shiftl (wrap8 1) b).
Definition AVL_setbit (f b : Z) : Z := wrap8 (Z.lor f (Z.shiftl (wrap8 1) b)).
Definition AVL_clrbit (f b : Z) : Z :=
  wrap8 (Z.land f (Z.lnot (Z.shiftl (wrap8 1) b))).

(** The bound of the explicit path stacks (avl.h). *)
Definition AVL_MAX_DEPTH : nat := 64.

(** ** Results of running a piece of the program *)

Inductive err : Type :=
  | NullDeref        (* dereference of NULL or of a cell that is not allocated *)
  | NullPayload      (* the comparator would be handed a NULL data pointer *)
  | StackOverflow    (* access outside stack[0 .. AVL_MAX_DEPTH-1] *)
  | BadFree          (* free() of an address that is not a block base *)
  | OutOfFuel.       (* the loop did not finish within the given fuel *)

Inductive res (T : Type) : Type :=
  | Ok (x : T)
  | Err (e : err).
Arguments Ok {T} x.
Arguments Err {T} e.

Global Instance res_bind : MBind res := λ T V k m,
  match m with
  | Ok x => k x
  | Err e => Err e
  end.

Definition ptr : Type := option nat.

Definition ptr_eqb (p q : ptr) : bool := bool_decide (p = q).

Section AVL.

Variables (A U : Type).

(** ** Data model (avl.h) *)

Record AVL_NODE : Type := mkNode {
  l : ptr;            (* left sub-tree *)
  r : ptr;            (* right sub-tree, or next node on the free stack *)
  f : Z;              (* flags, an int8_t *)
  d : option A        (* the user data pointer *)
}.

Record AVL_TREE : Type := mkTree {
  freeStack : ptr;
  allocAtOnce : Z;
  top : ptr;
  height : Z;
  size : Z;
  eval : A -> A -> U -> Z;
  user : U
}.

Definition set_l (n : AVL_NODE) (v : ptr) : AVL_NODE := mkNode v (r n) (f n) (d n).
Definition set_r (n : AVL_NODE) (v : ptr) : AVL_NODE := mkNode (l n) v (f n) (d n).
Definition set_f (n : AVL_NODE) (v : Z) : AVL_NODE := mkNode (l n) (r n) v (d n).
Definition set_d (n : AVL_NODE) (v : option A) : AVL_NODE := mkNode (l n) (r n) (f n) v.

Definition set_freeStack (t : AVL_TREE) (v : ptr) : AVL_TREE :=
  mkTree v (allocAtOnce t) (top t) (height t) (size t) (eval t) (user t).
Definition set_top (t : AVL_TREE) (v : ptr) : AVL_TREE :=
  mkTree (freeStack t) (allocAtOnce t) v (height t) (size t) (eval t) (user t).
Definition set_height (t : AVL_TREE) (v : Z) : AVL_TREE :=
  mkTree (freeStack t) (allocAtOnce t) (top t) v (size t) (eval t) (user t).
Definition set_size (t : AVL_TREE) (v : Z) : AVL_TREE :=
  mkTree (freeStack t) (allocAtOnce t) (top t) (height t) v (eval t) (user t).

(** ** The backing memory system

    [cells] holds the node cells that are currently allocated, [blocks]
    the length of every malloc-ed block by base address, and [oracle] the
    outcomes of the coming malloc calls (an exhausted oracle fails). *)

Record mem : Type := mkMem {
  cells : gmap nat AVL_NODE;
  blocks : gmap nat nat;
  oracle : list bool
}.

Definition set_cells (m : mem) (h : gmap nat AVL_NODE) : mem :=
  mkMem h (blocks m) (oracle m).

Definition load (h : gmap nat AVL_NODE) (p : ptr) : res AVL_NODE :=
  match p with
  | None => Err NullDeref
  | Some a => match h !! a with
              | Some n => Ok n
              | None => Err NullDeref
              end
  end.

Definition store (h : gmap nat AVL_NODE) (p : ptr) (n : AVL_NODE)
  : res (gmap nat AVL_NODE) :=
  match p with
  | None => Err NullDeref
  | Some a => match h !! a with
              | Some _ => Ok (<[a := n]> h)
              | None => Err NullDeref
              end
  end.

(** [( *p).field = v] and friends: read the cell, change it, write it back. *)
Definition upd (h : gmap nat AVL_NODE) (p : ptr) (g : AVL_NODE -> AVL_NODE)
  : res (gmap nat AVL_NODE) :=
  n ← load h p; store h p (g n).

Definition payload (n : AVL_NODE) : res A :=
  match d n with
  | Some x => Ok x
  | None => Err NullPayload
  end.

(** A cell as malloc hands it out; the program writes a field before it
    reads it. *)
Definition raw_cell : AVL_NODE := mkNode None None 0 None.

(** The first address above every allocated cell. *)
Definition fresh_base (h : gmap nat AVL_NODE) : nat :=
  S (max_list (elements (dom h))).

Fixpoint fill_block (h : gmap nat AVL_NODE) (base : nat) (n : nat)
  : gmap nat AVL_NODE :=
  match n with
  | O => h
  | S n' => <[(base + n')%nat := raw_cell]> (fill_block h base n')
  end.

Definition malloc (m : mem) (n : nat) : ptr * mem :=
  match oracle m with
  | true :: o =>
      let base := fresh_base (cells m) in
      (Some base,
       mkMem (fill_block (cells m) base n) (<[base := n]> (blocks m)) o)
  | false :: o => (None, mkMem (cells m) (blocks m) o)
  | [] => (None, m)
  end.

Fixpoint free_block (h : gmap nat AVL_NODE) (base : nat) (n : nat)
  : gmap nat AVL_NODE :=
  match n with
  | O => h
  | S n' => delete (base + n')%nat (free_block h base n')
  end.

Definition free (m : mem) (q : nat) : res mem :=
  match blocks m !! q with
  | Some n => Ok (mkMem (free_block (cells m) q n) (delete q (blocks m)) (oracle m))
  | None => Err BadFree
  end.

(** ** Memory management (avl.c) *)

(** [AVL_newTree]: the handle itself is malloc-ed, so the call can return
    NULL; [memset] clears every field before the three assignments. *)
Definition AVL_newTree (o : list bool) (allocAtOnce : Z)
    (eval : A -> A -> U -> Z) (user : U) : option AVL_TREE * list bool :=
  match o with
  | true :: o' =>
      let allocAtOnce := if allocAtOnce <? 1 then 1 else allocAtOnce in
      (Some (mkTree None allocAtOnce None 0 0 eval user), o')
  | false :: o' => (None, o')
  | [] => (None, [])
  end.

(** The for loop of [AVL_newNode] that pushes the fresh cells n[0], n[1],
    ... on the free stack; [i] counts up, [todo] is what is left. *)
Fixpoint newNode_push (todo : nat) (i : nat) (base : nat) (t : AVL_TREE)
    (h : gmap nat AVL_NODE) : res (AVL_TREE * gmap nat AVL_NODE) :=
  match todo with
  | O => Ok (t, h)
  | S todo' =>
      h ← upd h (Some (base + i)%nat) (fun n => set_f n 0);
      h ← upd h (Some (base + i)%nat) (fun n => set_r n (freeStack t));
      newNode_push todo' (S i) base (set_freeStack t (Some (base + i)%nat)) h
  end.

(** The block [if (( *t).freeStack==NULL) { ... }] of [AVL_newNode]: a
    fresh batch is allocated and stacked. *)
Definition newNode_refill (t : AVL_TREE) (m : mem) : res (AVL_TREE * mem) :=
  match freeStack t with
  | None =>
      let '(n, m) := malloc m (Z.to_nat (allocAtOnce t)) in
      match n with
      | Some base =>
          '(t, h) ← newNode_push (Z.to_nat (allocAtOnce t)) 0 base t (cells m);
          h ← upd h (Some base) (fun c => set_f c (AVL_setbit (f c) AVL_FLG_1ST));
          Ok (t, set_cells m h)
      | None => Ok (t, m)
      end
  | Some _ => Ok (t, m)
  end.

(** The rest of [AVL_newNode]: one node is popped and reset. *)
Definition newNode_pop (t : AVL_TREE) (m : mem) : res (ptr * AVL_TREE * mem) :=
  match freeStack t with
  | Some a =>
      let n := Some a in
      c ← load (cells m) n;
      let t := set_freeStack t (r c) in
      h ← store (cells m) n
             (mkNode None None (AVL_setbit (AVL_setbal (f c) 0) AVL_FLG_USD) None);
      Ok (n, set_size t (wrap_int (size t + 1)), set_cells m h)
  | None => Ok (None, t, m)
  end.

Definition AVL_newNode (t : AVL_TREE) (m : mem) : res (ptr * AVL_TREE * mem) :=
  '(t, m) ← newNode_refill t m;
  newNode_pop t m.

(** *** Reclaiming whole blocks: [AVL_dealloc] *)

(** Step 1 of [AVL_dealloc] for the block at [n]: the for loop that counts
    in [j] the cells not in the tree and marks them, and bails out at the
    first cell that is in use. *)
Fixpoint dealloc_mark (todo : nat) (i : nat) (h : gmap nat AVL_NODE)
    (n : nat) (j : Z) : res (Z * gmap nat AVL_NODE) :=
  match todo with
  | O => Ok (j, h)
  | S todo' =>
      c ← load h (Some (n + i)%nat);
      if AVL_getbit (f c) AVL_FLG_USD =? 0 then
        h ← upd h (Some (n + i)%nat)
              (fun c => set_f c (AVL_setbit (f c) AVL_FLG_CLN));
        dealloc_mark todo' (S i) h n (wrap_int (j + 1))
      else Ok (j, h)
  end.

(** The for loop that takes the marks of a block back. *)
Fixpoint dealloc_unmark (todo : nat) (i : nat) (h : gmap nat AVL_NODE)
    (n : nat) : res (gmap nat AVL_NODE) :=
  match todo with
  | O => Ok h
  | S todo' =>
      h ← upd h (Some (n + i)%nat)
            (fun c => set_f c (AVL_clrbit (f c) AVL_FLG_CLN));
      dealloc_unmark todo' (S i) h n
  end.

(** The first run over the free list: [lst] is the to-be-freed list [l]
    of the source, linked through the left pointers, [c] the count. *)
Fixpoint dealloc_collect (fuel : nat) (t : AVL_TREE) (h : gmap nat AVL_NODE)
    (n lst : ptr) (c : Z) : res (ptr * Z * gmap nat AVL_NODE) :=
  match fuel with
  | O => Err OutOfFuel
  | S fuel =>
      match n with
      | None => Ok (lst, c, h)
      | Some a =>
          nn ← load h n;
          '(lst, c, h) ←
            (if negb (AVL_getbit (f nn) AVL_FLG_1ST =? 0) then
               '(j, h) ← dealloc_mark (Z.to_nat (allocAtOnce t)) 0 h a 0;
               if j =? allocAtOnce t then
                 h ← upd h n (fun x => set_l x lst);
                 Ok (n, wrap_int (c + allocAtOnce t), h)
               else
                 h ← dealloc_unmark (Z.to_nat (allocAtOnce t)) 0 h a;
                 Ok (lst, c, h)
             else Ok (lst, c, h));
          nn ← load h n;
          dealloc_collect fuel t h (r nn) lst c
      end
  end.

(** The second run: every marked node is taken out of the free list. *)
Fixpoint dealloc_unchain (fuel : nat) (t : AVL_TREE) (h : gmap nat AVL_NODE)
    (n p : ptr) : res (AVL_TREE * gmap nat AVL_NODE) :=
  match fuel with
  | O => Err OutOfFuel
  | S fuel =>
      match n with
      | None => Ok (t, h)
      | Some _ =>
          nn ← load h n;
          '(t, h, p) ←
            (if negb (AVL_getbit (f nn) AVL_FLG_CLN =? 0) then
               match p with
               | Some _ =>
                   h ← upd h p (fun x => set_r x (r nn));
                   Ok (t, h, p)
               | None => Ok (set_freeStack t (r nn), h, p)
               end
             else Ok (t, h, n));
          nn ← load h n;
          dealloc_unchain fuel t h (r nn) p
      end
  end.

(** The loop that hands the collected blocks back with [free]. *)
Fixpoint dealloc_free (fuel : nat) (m : mem) (lst : ptr) : res mem :=
  match fuel with
  | O => Err OutOfFuel
  | S fuel =>
      match lst with
      | None => Ok m
      | Some q =>
          nq ← load (cells m) lst;
          m ← free m q;
          dealloc_free fuel m (l nq)
      end
  end.

Definition AVL_dealloc (fuel : nat) (t : AVL_TREE) (m : mem)
  : res (Z * AVL_TREE * mem) :=
  '(lst, c, h) ← dealloc_collect fuel t (cells m) (freeStack t) None 0;
  match lst with
  | Some _ =>
      '(t, h) ← dealloc_unchain fuel t h (freeStack t) None;
      m ← dealloc_free fuel (set_cells m h) lst;
      Ok (c, t, m)
  | None => Ok (c, t, set_cells m h)
  end.

(** ** Tree operations (avl.c) *)

(** The while loop of [AVL_find]: [c] walks down from the top; the result
    is the data pointer [d] the loop leaves behind (NULL when [c] runs off
    the tree). *)
Fixpoint find_loop (fuel : nat) (t : AVL_TREE) (h : gmap nat AVL_NODE)
    (c : ptr) (k : A) : res (option A) :=
  match fuel with
  | O => Err OutOfFuel
  | S fuel =>
      match c with
      | None => Ok None
      | Some _ =>
          n ← load h c;
          x ← payload n;
          let e := eval t x k (user t) in
          if e =? 0 then Ok (d n)
          else if e <? 0 then find_loop fuel t h (l n) k
          else find_loop fuel t h (r n) k
      end
  end.

Definition AVL_find (fuel : nat) (t : AVL_TREE) (m : mem) (k : A)
  : res (option A) :=
  find_loop fuel t (cells m) (top t) k.

(** What the rebalancing step of an insert did to the shape of the tree;
    not a value of the C program, recorded at the two places the source
    marks as (A8) and (A9). *)
Inductive rotation : Type := NoRotation | SingleRotation | DoubleRotation.

(** The search loop of [AVL_insert] ([while (rc==-1)]).  It returns [rc],
    the new node [n] (NULL if none was added), the balance node [b] and
    its parent [p]. *)
Fixpoint insert_search (fuel : nat) (t : AVL_TREE) (m : mem) (dd : A)
    (c b p : ptr) : res (Z * ptr * ptr * ptr * AVL_TREE * mem) :=
  match fuel with
  | O => Err OutOfFuel
  | S fuel =>
      nc ← load (cells m) c;
      x ← payload nc;
      let e := eval t x dd (user t) in
      if e =? 0 then Ok (1, None, b, p, t, m)
      else if e <? 0 then
        match l nc with
        | Some _ =>
            nl ← load (cells m) (l nc);
            if negb (AVL_getbal (f nl) =? 0)
            then insert_search fuel t m dd (l nc) (l nc) c
            else insert_search fuel t m dd (l nc) b p
        | None =>
            '(n, t, m) ← AVL_newNode t m;
            match n with
            | Some _ =>
                h ← upd (cells m) n (fun c => set_d c (Some dd));
                h ← upd h c (fun c => set_l c n);
                Ok (0, n, b, p, t, set_cells m h)
            | None => Ok (2, None, b, p, t, m)
            end
        end
      else
        match r nc with
        | Some _ =>
            nr ← load (cells m) (r nc);
            if negb (AVL_getbal (f nr) =? 0)
            then insert_search fuel t m dd (r nc) (r nc) c
            else insert_search fuel t m dd (r nc) b p
        | None =>
            '(n, t, m) ← AVL_newNode t m;
            match n with
            | Some _ =>
                h ← upd (cells m) n (fun c => set_d c (Some dd));
                h ← upd h c (fun c => set_r c n);
                Ok (0, n, b, p, t, set_cells m h)
            | None => Ok (2, None, b, p, t, m)
            end
        end
  end.

(** The loop that runs from the rotate node down to the new node [n] and
    sets the balance of every node on the way ([while (c!=n)]). *)
Fixpoint insert_setbal (fuel : nat) (t : AVL_TREE) (h : gmap nat AVL_NODE)
    (dd : A) (c n : ptr) : res (gmap nat AVL_NODE) :=
  match fuel with
  | O => Err OutOfFuel
  | S fuel =>
      if ptr_eqb c n then Ok h
      else
        nc ← load h c;
        x ← payload nc;
        let e := eval t x dd (user t) in
        if e <? 0 then
          h ← upd h c (fun c => set_f c (AVL_setbal (f c) (-1)));
          nc ← load h c;
          insert_setbal fuel t h dd (l nc) n
        else
          h ← upd h c (fun c => set_f c (AVL_setbal (f c) 1));
          nc ← load h c;
          insert_setbal fuel t h dd (r nc) n
  end.

(** The single rotation (A8) of [AVL_insert]; returns the new subtree
    root [c]. *)
Definition insert_single (h : gmap nat AVL_NODE) (a : Z) (b r' : ptr)
  : res (ptr * gmap nat AVL_NODE) :=
  let c := r' in
  h ← (if a =? -1 then
         nr ← load h r';
         h ← upd h b (fun n => set_l n (r nr));
         upd h r' (fun n => set_r n b)
       else
         nr ← load h r';
         h ← upd h b (fun n => set_r n (l nr));
         upd h r' (fun n => set_l n b));
  h ← upd h b (fun n => set_f n (AVL_setbal (f n) 0));
  h ← upd h r' (fun n => set_f n (AVL_setbal (f n) 0));
  Ok (c, h).

(** The double rotation (A9) of [AVL_insert]. *)
Definition insert_double (h : gmap nat AVL_NODE) (a : Z) (b r' : ptr)
  : res (ptr * gmap nat AVL_NODE) :=
  '(c, h) ← (if a =? -1 then
         nr ← load h r';
         let c := r nr in
         nc ← load h c;
         h ← upd h r' (fun n => set_r n (l nc));
         h ← upd h c (fun n => set_l n r');
         nc ← load h c;
         h ← upd h b (fun n => set_l n (r nc));
         h ← upd h c (fun n => set_r n b);
         Ok (c, h)
       else
         nr ← load h r';
         let c := l nr in
         nc ← load h c;
         h ← upd h r' (fun n => set_l n (r nc));
         h ← upd h c (fun n => set_r n r');
         nc ← load h c;
         h ← upd h b (fun n => set_r n (l nc));
         h ← upd h c (fun n => set_l n b);
         Ok (c, h));
  nc ← load h c;
  h ← (if AVL_getbal (f nc) =? a then
         h ← upd h b (fun n => set_f n (AVL_setbal (f n) (- a)));
         upd h r' (fun n => set_f n (AVL_setbal (f n) 0))
       else if AVL_getbal (f nc) =? 0 then
         h ← upd h b (fun n => set_f n (AVL_setbal (f n) 0));
         upd h r' (fun n => set_f n (AVL_setbal (f n) 0))
       else
         h ← upd h b (fun n => set_f n (AVL_setbal (f n) 0));
         upd h r' (fun n => set_f n (AVL_setbal (f n) a)));
  h ← upd h c (fun n => set_f n (AVL_setbal (f n) 0));
  Ok (c, h).

(** [if (p) { if (( *p).l==a) ( *p).l=b; else ( *p).r=b; } else ( *t).top=b;]
    the reattachment that follows every rotation, in [AVL_insert] (A10)
    and in [AVL_delete]. *)
Definition relink (t : AVL_TREE) (h : gmap nat AVL_NODE) (p a b : ptr)
  : res (AVL_TREE * gmap nat AVL_NODE) :=
  match p with
  | Some _ =>
      np ← load h p;
      h ← (if ptr_eqb (l np) a
           then upd h p (fun n => set_l n b)
           else upd h p (fun n => set_r n b));
      Ok (t, h)
  | None => Ok (set_top t b, h)
  end.

(** The body of [if (n)] in [AVL_insert]: steps A6 to A10. *)
Definition insert_rebalance (fuel : nat) (t : AVL_TREE) (h : gmap nat AVL_NODE)
    (dd : A) (n b p : ptr) : res (rotation * AVL_TREE * gmap nat AVL_NODE) :=
  nb ← load h b;
  x ← payload nb;
  let e := eval t x dd (user t) in
  let '(a, r') := if e <? 0 then (-1, l nb) else (1, r nb) in
  h ← insert_setbal fuel t h dd r' n;
  nb ← load h b;
  if AVL_getbal (f nb) =? 0 then
    h ← upd h b (fun n => set_f n (AVL_setbal (f n) a));
    Ok (NoRotation, set_height t (wrap_int (height t + 1)), h)
  else if AVL_getbal (f nb) =? - a then
    h ← upd h b (fun n => set_f n (AVL_setbal (f n) 0));
    Ok (NoRotation, t, h)
  else
    nr ← load h r';
    '(rot, c, h) ←
      (if AVL_getbal (f nr) =? a
       then '(c, h) ← insert_single h a b r'; Ok (SingleRotation, c, h)
       else '(c, h) ← insert_double h a b r'; Ok (DoubleRotation, c, h));
    '(t, h) ← relink t h p b c;
    Ok (rot, t, h).

(** [AVL_insert], with the kind of rotation it performed next to the
    return code. *)
Definition AVL_insert_rot (fuel : nat) (t : AVL_TREE) (m : mem) (dd : A)
  : res (Z * rotation * AVL_TREE * mem) :=
  match top t with
  | None =>
      '(c, t, m) ← AVL_newNode t m;
      match c with
      | Some _ =>
          h ← upd (cells m) c (fun n => set_d n (Some dd));
          Ok (0, NoRotation, set_height (set_top t c) 1, set_cells m h)
      | None => Ok (2, NoRotation, t, m)
      end
  | Some _ =>
      '(rc, n, b, p, t, m) ← insert_search fuel t m dd (top t) (top t) None;
      match n with
      | Some _ =>
          '(rot, t, h) ← insert_rebalance fuel t (cells m) dd n b p;
          Ok (rc, rot, t, set_cells m h)
      | None => Ok (rc, NoRotation, t, m)
      end
  end.

Definition AVL_insert (fuel : nat) (t : AVL_TREE) (m : mem) (dd : A)
  : res (Z * AVL_TREE * mem) :=
  '(rc, _, t, m) ← AVL_insert_rot fuel t m dd;
  Ok (rc, t, m).

(** *** Deletion *)

(** The local array [AVL_NODE *stack[AVL_MAX_DEPTH]]. *)
Definition stack_init : list ptr := replicate AVL_MAX_DEPTH None.

Definition stack_set (stack : list ptr) (i : nat) (v : ptr) : res (list ptr) :=
  if (i <? length stack)%nat then Ok (<[i := v]> stack) else Err StackOverflow.

Definition stack_get (stack : list ptr) (i : nat) : res ptr :=
  match stack !! i with
  | Some v => Ok v
  | None => Err StackOverflow
  end.

(** The loop that records the path to the node to be deleted; it leaves
    [stack], [top], [c], [p] and the data pointer [d]. *)
Fixpoint delete_search (fuel : nat) (t : AVL_TREE) (h : gmap nat AVL_NODE)
    (k : A) (stack : list ptr) (top : nat) (c p : ptr)
  : res (list ptr * nat * ptr * ptr * option A) :=
  match fuel with
  | O => Err OutOfFuel
  | S fuel =>
      match c with
      | Some _ =>
          if (top <? AVL_MAX_DEPTH)%nat then
            stack ← stack_set stack top c;
            nc ← load h c;
            x ← payload nc;
            let e := eval t x k (user t) in
            if e =? 0 then Ok (stack, top, c, p, d nc)
            else if e <? 0 then delete_search fuel t h k stack (S top) (l nc) c
            else delete_search fuel t h k stack (S top) (r nc) c
          else Ok (stack, top, c, p, None)
      | None => Ok (stack, top, c, p, None)
      end
  end.

(** [while (( *c).l && top<AVL_MAX_DEPTH)]: down to the in-order successor. *)
Fixpoint delete_leftmost (fuel : nat) (h : gmap nat AVL_NODE)
    (stack : list ptr) (top : nat) (c p : ptr)
  : res (list ptr * nat * ptr * ptr) :=
  match fuel with
  | O => Err OutOfFuel
  | S fuel =>
      nc ← load h c;
      match l nc with
      | Some _ =>
          if (top <? AVL_MAX_DEPTH)%nat then
            stack ← stack_set stack top c;
            delete_leftmost fuel h stack (S top) (l nc) c
          else Ok (stack, top, c, p)
      | None => Ok (stack, top, c, p)
      end
  end.

(** [while (( *c).r && top<AVL_MAX_DEPTH)]: down to the in-order precursor. *)
Fixpoint delete_rightmost (fuel : nat) (h : gmap nat AVL_NODE)
    (stack : list ptr) (top : nat) (c p : ptr)
  : res (list ptr * nat * ptr * ptr) :=
  match fuel with
  | O => Err OutOfFuel
  | S fuel =>
      nc ← load h c;
      match r nc with
      | Some _ =>
          if (top <? AVL_MAX_DEPTH)%nat then
            stack ← stack_set stack top c;
            delete_rightmost fuel h stack (S top) (r nc) c
          else Ok (stack, top, c, p)
      | None => Ok (stack, top, c, p)
      end
  end.

(** The choice of the in-order neighbour of a node [c] with two children:
    it returns the path, the neighbour [c], its parent [p] and the subtree
    [s] that may still hang under the neighbour. *)
Definition delete_pick (fuel : nat) (h : gmap nat AVL_NODE)
    (stack : list ptr) (top : nat) (c : ptr)
  : res (list ptr * nat * ptr * ptr * ptr) :=
  let top := S top in
  let p := c in
  nc ← load h c;
  if AVL_getbal (f nc) >? 0 then
    '(stack, top, c, p) ← delete_leftmost fuel h stack top (r nc) p;
    nc ← load h c;
    Ok (stack, top, c, p, r nc)
  else
    '(stack, top, c, p) ← delete_rightmost fuel h stack top (l nc) p;
    nc ← load h c;
    Ok (stack, top, c, p, l nc).

(** The block that both branches of the removal share: [s] takes the
    place of [c] under its parent [p], the balance of [p] moves away from
    that side, and the height flag [h] is set when the balance arrives
    at 0. *)
Definition delete_detach (h : gmap nat AVL_NODE) (c p s : ptr)
  : res (Z * gmap nat AVL_NODE) :=
  np ← load h p;
  h ← (if ptr_eqb (l np) c then
         h ← upd h p (fun n => set_l n s);
         upd h p (fun n => set_f n (AVL_incbal (f n)))
       else
         h ← upd h p (fun n => set_r n s);
         upd h p (fun n => set_f n (AVL_decbal (f n))));
  np ← load h p;
  Ok (if AVL_getbal (f np) =? 0 then -1 else 0, h).

(** The in-order neighbour [c] is swapped into the place of [sc], whose
    parent is [sp] and whose index in the path is [cpos]. *)
Definition delete_replace (t : AVL_TREE) (h : gmap nat AVL_NODE)
    (stack : list ptr) (cpos : nat) (c sc sp : ptr)
  : res (list ptr * AVL_TREE * gmap nat AVL_NODE) :=
  nsc ← load h sc;
  h ← upd h c (fun n => set_l n (l nsc));
  nsc ← load h sc;
  h ← upd h c (fun n => set_r n (r nsc));
  nsc ← load h sc;
  h ← upd h c (fun n => set_f n (AVL_setbal (f n) (AVL_getbal (f nsc))));
  '(t, h) ← relink t h sp sc c;
  stack ← stack_set stack cpos c;
  Ok (stack, t, h).

(** Taking [c] out of the tree: the branch for at most one subtree and the
    branch for two.  It returns the height flag [h], the node to discard,
    and the updated path. *)
Definition delete_unlink (fuel : nat) (t : AVL_TREE) (h : gmap nat AVL_NODE)
    (stack : list ptr) (top : nat) (c p : ptr)
  : res (Z * ptr * list ptr * nat * AVL_TREE * gmap nat AVL_NODE) :=
  nc ← load h c;
  if ptr_eqb (l nc) None || ptr_eqb (r nc) None then
    let s := if ptr_eqb (l nc) None then r nc else l nc in
    match p with
    | Some _ =>
        '(hh, h) ← delete_detach h c p s;
        Ok (hh, c, stack, top, t, h)
    | None => Ok (-1, c, stack, top, set_top t s, h)
    end
  else
    let cpos := top in
    let sc := c in
    let sp := p in
    '(stack, top, c, p, s) ← delete_pick fuel h stack top c;
    '(hh, h) ← delete_detach h c p s;
    '(stack, t, h) ← delete_replace t h stack cpos c sc sp;
    Ok (hh, sc, stack, top, t, h).

(** Rotation at a node [a] whose balance is +2 (heavy on the right). *)
Definition delete_rotate_r (t : AVL_TREE) (h : gmap nat AVL_NODE) (a p : ptr)
  : res (Z * ptr * AVL_TREE * gmap nat AVL_NODE) :=
  na ← load h a;
  let s1 := l na in
  let b := r na in
  nb ← load h b;
  if AVL_getbal (f nb) >=? 0 then
    let s2 := l nb in
    let c := r nb in
    nc ← load h c;
    h ← upd h a (fun n => set_l n s1);
    h ← upd h a (fun n => set_r n s2);
    h ← upd h b (fun n => set_l n a);
    h ← upd h b (fun n => set_r n c);
    '(t, h) ← relink t h p a b;
    nb ← load h b;
    if AVL_getbal (f nb) =? 0 then
      h ← upd h a (fun n => set_f n (AVL_setbal (f n) 1));
      h ← upd h b (fun n => set_f n (AVL_setbal (f n) (-1)));
      Ok (0, b, t, h)
    else
      h ← upd h a (fun n => set_f n (AVL_setbal (f n) 0));
      h ← upd h b (fun n => set_f n (AVL_setbal (f n) 0));
      Ok (-1, b, t, h)
  else
    let c := l nb in
    let s4 := r nb in
    nc ← load h c;
    let s2 := l nc in
    let s3 := r nc in
    h ← upd h c (fun n => set_l n a);
    h ← upd h c (fun n => set_r n b);
    h ← upd h a (fun n => set_r n s2);
    h ← upd h b (fun n => set_l n s3);
    '(t, h) ← relink t h p a c;
    nc ← load h c;
    h ← (if AVL_getbal (f nc) =? -1 then
           h ← upd h a (fun n => set_f n (AVL_setbal (f n) 0));
           upd h b (fun n => set_f n (AVL_setbal (f n) 1))
         else if AVL_getbal (f nc) =? 0 then
           h ← upd h a (fun n => set_f n (AVL_setbal (f n) 0));
           upd h b (fun n => set_f n (AVL_setbal (f n) 0))
         else
           h ← upd h a (fun n => set_f n (AVL_setbal (f n) (-1)));
           upd h b (fun n => set_f n (AVL_setbal (f n) 0)));
    h ← upd h c (fun n => set_f n (AVL_setbal (f n) 0));
    Ok (-1, c, t, h).

(** Rotation at a node [a] whose balance is -2 (heavy on the left). *)
Definition delete_rotate_l (t : AVL_TREE) (h : gmap nat AVL_NODE) (a p : ptr)
  : res (Z * ptr * AVL_TREE * gmap nat AVL_NODE) :=
  na ← load h a;
  let s1 := r na in
  let b := l na in
  nb ← load h b;
  if AVL_getbal (f nb) <=? 0 then
    let s2 := r nb in
    let c := l nb in
    nc ← load h c;
    h ← upd h a (fun n => set_r n s1);
    h ← upd h a (fun n => set_l n s2);
    h ← upd h b (fun n => set_r n a);
    h ← upd h b (fun n => set_l n c);
    '(t, h) ← relink t h p a b;
    nb ← load h b;
    if AVL_getbal (f nb) =? 0 then
      h ← upd h a (fun n => set_f n (AVL_setbal (f n) (-1)));
      h ← upd h b (fun n => set_f n (AVL_setbal (f n) 1));
      Ok (0, b, t, h)
    else
      h ← upd h a (fun n => set_f n (AVL_setbal (f n) 0));
      h ← upd h b (fun n => set_f n (AVL_setbal (f n) 0));
      Ok (-1, b, t, h)
  else
    let c := r nb in
    let s4 := l nb in
    nc ← load h c;
    let s2 := r nc in
    let s3 := l nc in
    h ← upd h c (fun n => set_r n a);
    h ← upd h c (fun n => set_l n b);
    h ← upd h a (fun n => set_l n s2);
    h ← upd h b (fun n => set_r n s3);
    '(t, h) ← relink t h p a c;
    nc ← load h c;
    h ← (if AVL_getbal (f nc) =? 1 then
           h ← upd h a (fun n => set_f n (AVL_setbal (f n) 0));
           upd h b (fun n => set_f n (AVL_setbal (f n) (-1)))
         else if AVL_getbal (f nc) =? 0 then
           h ← upd h a (fun n => set_f n (AVL_setbal (f n) 0));
           upd h b (fun n => set_f n (AVL_setbal (f n) 0))
         else
           h ← upd h a (fun n => set_f n (AVL_setbal (f n) 1));
           upd h b (fun n => set_f n (AVL_setbal (f n) 0)));
    h ← upd h c (fun n => set_f n (AVL_setbal (f n) 0));
    Ok (-1, c, t, h).

(** The rotations of the loop body: a node [a] out of balance by two is
    rotated, which sets the height flag; any other node is left alone. *)
Definition delete_rotate (t : AVL_TREE) (h : gmap nat AVL_NODE) (a p : ptr)
    (hh : Z) : res (Z * ptr * AVL_TREE * gmap nat AVL_NODE) :=
  na ← load h a;
  if AVL_getbal (f na) =? 2 then delete_rotate_r t h a p
  else if AVL_getbal (f na) =? -2 then delete_rotate_l t h a p
  else Ok (hh, a, t, h).

(** The block [if (h!=0)] at the end of the loop body: a subtree that
    lost a level changes the balance of its parent [p]. *)
Definition delete_propagate (h : gmap nat AVL_NODE) (a p : ptr) (hh : Z)
  : res (Z * gmap nat AVL_NODE) :=
  if negb (hh =? 0) then
    match p with
    | Some _ =>
        np ← load h p;
        h ← (if ptr_eqb (l np) a
             then upd h p (fun n => set_f n (AVL_incbal (f n)))
             else upd h p (fun n => set_f n (AVL_decbal (f n))));
        np ← load h p;
        Ok (if AVL_getbal (f np) =? 0 then -1 else 0, h)
    | None => Ok (hh, h)
    end
  else Ok (hh, h).

(** The rebalancing loop [while (top>0)] of [AVL_delete]; [hh] is the
    height flag [h] of the source. *)
Fixpoint delete_rebalance (top : nat) (t : AVL_TREE) (h : gmap nat AVL_NODE)
    (stack : list ptr) (hh : Z) : res (Z * AVL_TREE * gmap nat AVL_NODE) :=
  match top with
  | O => Ok (hh, t, h)
  | S top =>
      a ← stack_get stack top;
      p ← match top with
          | S top1 => stack_get stack top1
          | O => Ok None
          end;
      '(hh, a, t, h) ← delete_rotate t h a p hh;
      '(hh, h) ← delete_propagate h a p hh;
      delete_rebalance top t h stack hh
  end.

Definition AVL_delete (fuel : nat) (t : AVL_TREE) (m : mem) (k : A)
  : res (option A * AVL_TREE * mem) :=
  match top t with
  | None => Ok (None, t, m)
  | Some _ =>
      '(stack, top, c, p, dd) ←
        delete_search fuel t (cells m) k stack_init 0 (top t) None;
      match dd with
      | None => Ok (None, t, m)
      | Some _ =>
          '(hh, c, stack, top, t, h) ←
            delete_unlink fuel t (cells m) stack top c p;
          h ← upd h c (fun n => set_f n (AVL_clrbit (f n) AVL_FLG_USD));
          h ← upd h c (fun n => set_d n None);
          h ← upd h c (fun n => set_l n None);
          h ← upd h c (fun n => set_r n (freeStack t));
          let t := set_freeStack t c in
          let t := set_size t (wrap_int (size t - 1)) in
          '(hh, t, h) ← delete_rebalance top t h stack hh;
          let t := if hh <? 0 then set_height t (wrap_int (height t - 1)) else t in
          Ok (dd, t, set_cells m h)
      end
  end.

(** *** Traversal *)

(** The three blocks of the body of the do-while loop of [AVL_walk];
    [acc] collects the data pointers handed to the callback, in call
    order. *)

(** [if (stack[top-1]==p)]: the walk has just come down into [c]. *)
Definition walk_down (h : gmap nat AVL_NODE) (c p : ptr) (stack : list ptr)
    (top : nat) : res (ptr * ptr * list ptr * nat) :=
  s ← match top with
      | S top1 => stack_get stack top1
      | O => Err StackOverflow
      end;
  if ptr_eqb s p then
    nc ← load h c;
    match l nc with
    | Some _ =>
        stack ← stack_set stack top c;
        Ok (l nc, c, stack, S top)
    | None => Ok (c, None, stack, top)
    end
  else Ok (c, p, stack, top).

(** [if (p==( *c).l)]: the left side is done; the callback, then right. *)
Definition walk_visit (h : gmap nat AVL_NODE) (c p : ptr) (stack : list ptr)
    (top : nat) (acc : list (option A))
  : res (ptr * ptr * list ptr * nat * list (option A)) :=
  nc ← load h c;
  if ptr_eqb p (l nc) then
    let acc := acc ++ [d nc] in
    match r nc with
    | Some _ =>
        stack ← stack_set stack top c;
        Ok (r nc, c, stack, S top, acc)
    | None => Ok (c, None, stack, top, acc)
    end
  else Ok (c, p, stack, top, acc).

(** [if (p==( *c).r)]: the right side is done; up the stack. *)
Definition walk_up (h : gmap nat AVL_NODE) (c p : ptr) (stack : list ptr)
    (top : nat) : res (ptr * ptr * nat) :=
  nc ← load h c;
  if ptr_eqb p (r nc) then
    match top with
    | S top1 =>
        c' ← stack_get stack top1;
        Ok (c', c, top1)
    | O => Err StackOverflow
    end
  else Ok (c, p, top).

Definition walk_body (h : gmap nat AVL_NODE) (c p : ptr) (stack : list ptr)
    (top : nat) (acc : list (option A))
  : res (ptr * ptr * list ptr * nat * list (option A)) :=
  '(c, p, stack, top) ← walk_down h c p stack top;
  '(c, p, stack, top, acc) ← walk_visit h c p stack top acc;
  '(c, p, top) ← walk_up h c p stack top;
  Ok (c, p, stack, top, acc).

(** [while (top>0 && top<AVL_MAX_DEPTH-1)]. *)
Definition walk_continue (top : nat) : bool :=
  (0 <? top)%nat && (top <? AVL_MAX_DEPTH - 1)%nat.

Fixpoint walk_loop (fuel : nat) (h : gmap nat AVL_NODE) (c p : ptr)
    (stack : list ptr) (top : nat) (acc : list (option A))
  : res (list (option A)) :=
  match fuel with
  | O => Err OutOfFuel
  | S fuel =>
      '(c, p, stack, top, acc) ← walk_body h c p stack top acc;
      if walk_continue top
      then walk_loop fuel h c p stack top acc
      else Ok acc
  end.

(** [AVL_walk]; the result is the sequence of arguments of the callback. *)
Definition AVL_walk (fuel : nat) (t : AVL_TREE) (m : mem)
  : res (list (option A)) :=
  match top t with
  | None => Ok []
  | Some _ =>
      stack ← stack_set stack_init 0 (top t);
      walk_loop fuel (cells m) (top t) (top t) stack 1 []
  end.

(** [AVL_checkBalance]: the recursive validator; -1 reports a balance or
    height error. *)
Fixpoint AVL_checkBalance (fuel : nat) (h : gmap nat AVL_NODE) (n : ptr) : res Z :=
  match fuel with
  | O => Err OutOfFuel
  | S fuel =>
      match n with
      | None => Ok 0
      | Some _ =>
          c ← load h n;
          lh ← AVL_checkBalance fuel h (l c);
          rh ← AVL_checkBalance fuel h (r c);
          if (lh =? -1) || (rh =? -1) then Ok (-1)
          else
            let b := rh - lh in
            let a := AVL_getbal (f c) in
            if negb (b =? a) || (b <? -1) || (b >? 1) then Ok (-1)
            else if b >? 0 then Ok (rh + 1) else Ok (lh + 1)
      end
  end.

(** *** Tearing the tree down: [AVL_flush], [AVL_destroy] *)

(** The loop [while (top>0)] of [AVL_flush]: [n] goes down to a leaf,
    which is cut off its parent [stack[top-1]] and pushed on the free
    stack. The source writes [stack[top]] without a bound. *)
Fixpoint flush_loop (fuel : nat) (t : AVL_TREE) (h : gmap nat AVL_NODE)
    (n : ptr) (stack : list ptr) (top : nat)
  : res (AVL_TREE * gmap nat AVL_NODE) :=
  match fuel with
  | O => Err OutOfFuel
  | S fuel =>
      match top with
      | O => Ok (t, h)
      | S top1 =>
          nn ← load h n;
          match l nn with
          | Some _ =>
              stack ← stack_set stack top n;
              flush_loop fuel t h (l nn) stack (S top)
          | None =>
              match r nn with
              | Some _ =>
                  stack ← stack_set stack top n;
                  flush_loop fuel t h (r nn) stack (S top)
              | None =>
                  m ← stack_get stack top1;
                  nm ← load h m;
                  h ← (if ptr_eqb (l nm) n then upd h m (fun c => set_l c None)
                       else if ptr_eqb (r nm) n then upd h m (fun c => set_r c None)
                       else Ok h);
                  h ← upd h n (fun c => set_r c (freeStack t));
                  let t := set_freeStack t n in
                  h ← upd h n (fun c => set_f c (AVL_clrbit (f c) AVL_FLG_USD));
                  flush_loop fuel t h m stack top1
              end
          end
      end
  end.

Definition AVL_flush (fuel : nat) (t : AVL_TREE) (m : mem)
  : res (AVL_TREE * mem) :=
  match top t with
  | None => Ok (t, m)
  | Some _ =>
      stack ← stack_set stack_init 0 (top t);
      '(t, h) ← flush_loop fuel t (cells m) (top t) stack 1;
      Ok (set_size (set_height (set_top t None) 0) 0, set_cells m h)
  end.

(** [AVL_destroy]: flush, dealloc, and the handle is freed; what is left
    is the memory. *)
Definition AVL_destroy (fuel : nat) (t : AVL_TREE) (m : mem) : res mem :=
  '(t, m) ← AVL_flush fuel t m;
  '(_, _, m) ← AVL_dealloc fuel t m;
  Ok m.

(** *** A client: one insert per element of a list, as the test driver
    does; the result lists the elements whose insert returned 0. *)
Fixpoint insert_all (fuel : nat) (t : AVL_TREE) (m : mem) (ks : list A)
  : res (AVL_TREE * mem * list A) :=
  match ks with
  | [] => Ok (t, m, [])
  | k :: ks =>
      '(rc, t, m) ← AVL_insert fuel t m k;
      '(t, m, done) ← insert_all fuel t m ks;
      Ok (t, m, if rc =? 0 then k :: done else done)
  end.

End AVL.

Arguments mkNode {A} _ _ _ _.
Arguments l {A} _.
Arguments r {A} _.
Arguments f {A} _.
Arguments d {A} _.
Arguments mkTree {A U} _ _ _ _ _ _ _.
Arguments freeStack {A U} _.
Arguments allocAtOnce {A U} _.
Arguments top {A U} _.
Arguments height {A U} _.
Arguments size {A U} _.
Arguments eval {A U} _ _ _ _.
Arguments user {A U} _.
Arguments mkMem {A} _ _ _.
Arguments cells {A} _.
Arguments blocks {A} _.
Arguments oracle {A} _.
Arguments AVL_newTree {A U} _ _ _ _.
Arguments AVL_newNode {A U} _ _.
Arguments AVL_dealloc {A U} _ _ _.
Arguments AVL_find {A U} _ _ _ _.
Arguments AVL_insert_rot {A U} _ _ _ _.
Arguments AVL_insert {A U} _ _ _ _.
Arguments AVL_delete {A U} _ _ _ _.
Arguments AVL_walk {A U} _ _ _.
Arguments AVL_checkBalance {A} _ _ _.
Arguments load {A} _ _.
Arguments store {A} _ _ _.
Arguments upd {A} _ _ _.
Arguments payload {A} _.
Arguments set_l {A} _ _.
Arguments set_r {A} _ _.
Arguments set_f {A} _ _.
Arguments set_d {A} _ _.
Arguments set_freeStack {A U} _ _.
Arguments set_top {A U} _ _.
Arguments set_height {A U} _ _.
Arguments set_size {A U} _ _.
Arguments set_cells {A} _ _.
Arguments raw_cell {A}.
Arguments fresh_base {A} _.
Arguments fill_block {A} _ _ _.
Arguments malloc {A} _ _.
Arguments free_block {A} _ _ _.
Arguments free {A} _ _.
Arguments newNode_push {A U} _ _ _ _ _.
Arguments newNode_refill {A U} _ _.
Arguments newNode_pop {A U} _ _.
Arguments dealloc_mark {A} _ _ _ _ _.
Arguments dealloc_unmark {A} _ _ _ _.
Arguments dealloc_collect {A U} _ _ _ _ _ _.
Arguments dealloc_unchain {A U} _ _ _ _ _.
Arguments dealloc_free {A} _ _ _.
Arguments find_loop {A U} _ _ _ _ _.
Arguments insert_search {A U} _ _ _ _ _ _ _.
Arguments insert_setbal {A U} _ _ _ _ _ _.
Arguments insert_single {A} _ _ _ _.
Arguments insert_double {A} _ _ _ _.
Arguments insert_rebalance {A U} _ _ _ _ _ _ _.
Arguments relink {A U} _ _ _ _ _.
Arguments delete_search {A U} _ _ _ _ _ _ _ _.
Arguments delete_leftmost {A} _ _ _ _ _ _.
Arguments delete_rightmost {A} _ _ _ _ _ _.
Arguments delete_pick {A} _ _ _ _ _.
Arguments delete_detach {A} _ _ _ _.
Arguments delete_replace {A U} _ _ _ _ _ _ _.
Arguments delete_unlink {A U} _ _ _ _ _ _ _.
Arguments delete_rotate_r {A U} _ _ _ _.
Arguments delete_rotate_l {A U} _ _ _ _.
Arguments delete_rotate {A U} _ _ _ _ _.
Arguments delete_propagate {A} _ _ _ _.
Arguments delete_rebalance {A U} _ _ _ _ _.
Arguments walk_down {A} _ _ _ _ _.
Arguments walk_visit {A} _ _ _ _ _ _.
Arguments walk_up {A} _ _ _ _ _.
Arguments walk_body {A} _ _ _ _ _ _.
Arguments walk_loop {A} _ _ _ _ _ _ _.
Arguments flush_loop {A U} _ _ _ _ _ _.
Arguments AVL_flush {A U} _ _ _.
Arguments AVL_destroy {A U} _ _ _.
Arguments insert_all {A U} _ _ _ _.

(** [AVL_exampleEval] (avl.h): the data pointers point to ints; the
    subtraction is that of the machine. *)
Definition AVL_exampleEval {U : Type} (data1 data2 : Z) (user : U) : Z :=
  wrap_int (data2 - data1).


(** * Abstraction: the tree a heap holds

    The proofs read a well-formed heap as an inductive tree whose nodes
    carry their address, so that every write of the program has an exact
    counterpart on the tree, and a path from the top as a zipper. *)

Section Abstraction.

Variables (A U : Type).

(** The flag byte of a node whose balance is [b] and whose low nibble
    (first-in-block, used, clean-up and spare bit) is [fl]. *)
Definition enc (b fl : Z) : Z := (b + 2) * 16 + fl.

(** Low nibbles of a node in the tree (used, not marked for clean-up) and
    of a node on the free stack. *)
Definition used_fl (fl : Z) : Prop := fl = 4 ∨ fl = 12.
Definition free_fl (fl : Z) : Prop := fl = 0 ∨ fl = 8.

Inductive tree : Type :=
  | E
  | T (a : nat) (tl : tree) (b fl : Z) (x : A) (tr : tree).

Definition root (t : tree) : ptr :=
  match t with
  | E => None
  | T a _ _ _ _ _ => Some a
  end.

Fixpoint addrs (t : tree) : list nat :=
  match t with
  | E => []
  | T a tl _ _ _ tr => a :: addrs tl ++ addrs tr
  end.

Fixpoint inorder (t : tree) : list A :=
  match t with
  | E => []
  | T _ tl _ _ x tr => inorder tl ++ x :: inorder tr
  end.

Fixpoint hgt (t : tree) : nat :=
  match t with
  | E => O
  | T _ tl _ _ _ tr => S (Nat.max (hgt tl) (hgt tr))
  end.

Fixpoint count (t : tree) : nat :=
  match t with
  | E => O
  | T _ tl _ _ _ tr => S (count tl + count tr)
  end.

(** The heap [h] holds the tree [t], cell for cell. *)
Fixpoint rep (h : gmap nat (AVL_NODE A)) (t : tree) : Prop :=
  match t with
  | E => True
  | T a tl b fl x tr =>
      h !! a = Some (mkNode (root tl) (root tr) (enc b fl) (Some x))
      ∧ rep h tl ∧ rep h tr
  end.

(** Every stored balance is the height of the right subtree minus the
    height of the left subtree, and lies in {-1,0,1}. *)
Fixpoint avl (t : tree) : Prop :=
  match t with
  | E => True
  | T _ tl b _ _ tr =>
      b = Z.of_nat (hgt tr) - Z.of_nat (hgt tl) ∧ -1 ≤ b ≤ 1
      ∧ avl tl ∧ avl tr
  end.

(** The flag byte of every node is that of a node in use, with a balance
    field that the three balance bits can hold without wrapping. *)
Fixpoint flags_ok (t : tree) : Prop :=
  match t with
  | E => True
  | T _ tl b fl _ tr => used_fl fl ∧ -2 ≤ b ≤ 2 ∧ flags_ok tl ∧ flags_ok tr
  end.

(** *** Zippers *)

Inductive frame : Type :=
  | FL (a : nat) (b fl : Z) (x : A) (sib : tree)   (* the hole is the left child *)
  | FR (a : nat) (sib : tree) (b fl : Z) (x : A).  (* the hole is the right child *)

Definition faddr (fr : frame) : nat :=
  match fr with FL a _ _ _ _ => a | FR a _ _ _ _ => a end.
Definition fbal (fr : frame) : Z :=
  match fr with FL _ b _ _ _ => b | FR _ _ b _ _ => b end.
Definition ffl (fr : frame) : Z :=
  match fr with FL _ _ fl _ _ => fl | FR _ _ _ fl _ => fl end.
Definition fdata (fr : frame) : A :=
  match fr with FL _ _ _ x _ => x | FR _ _ _ _ x => x end.
Definition fsib (fr : frame) : tree :=
  match fr with FL _ _ _ _ s => s | FR _ s _ _ _ => s end.
Definition fset_bal (fr : frame) (b : Z) : frame :=
  match fr with
  | FL a _ fl x s => FL a b fl x s
  | FR a s _ fl x => FR a s b fl x
  end.

Definition fill1 (fr : frame) (s : tree) : tree :=
  match fr with
  | FL a b fl x sib => T a s b fl x sib
  | FR a sib b fl x => T a sib b fl x s
  end.

(** A context is the list of frames from the hole up to the top. *)
Fixpoint plug (C : list frame) (s : tree) : tree :=
  match C with
  | [] => s
  | fr :: C' => plug C' (fill1 fr s)
  end.

Fixpoint ctx_root (C : list frame) (q : ptr) : ptr :=
  match C with
  | [] => q
  | fr :: C' => ctx_root C' (Some (faddr fr))
  end.

Definition fcell (fr : frame) (q : ptr) : AVL_NODE A :=
  match fr with
  | FL a b fl x sib => mkNode q (root sib) (enc b fl) (Some x)
  | FR a sib b fl x => mkNode (root sib) q (enc b fl) (Some x)
  end.

(** The heap holds the context [C] around a hole whose pointer is [q]. *)
Fixpoint rep_ctx (h : gmap nat (AVL_NODE A)) (C : list frame) (q : ptr) : Prop :=
  match C with
  | [] => True
  | fr :: C' =>
      h !! faddr fr = Some (fcell fr q) ∧ rep h (fsib fr)
      ∧ rep_ctx h C' (Some (faddr fr))
  end.

Fixpoint addrs_ctx (C : list frame) : list nat :=
  match C with
  | [] => []
  | fr :: C' => faddr fr :: addrs (fsib fr) ++ addrs_ctx C'
  end.

Definition hd_addr (C : list frame) : ptr :=
  match C with
  | [] => None
  | fr :: _ => Some (faddr fr)
  end.

(** The balance node [b] and its parent [p] that the search loop of
    [AVL_insert] has recorded when it stands at a node with address [a]
    and balance [bal] below the context [C]: the lowest node on the path
    with a balance other than 0, or the top. *)
Definition bp_node (a : nat) (bal : Z) (C : list frame) (above : ptr * ptr)
  : ptr * ptr :=
  match C with
  | [] => (Some a, None)
  | fr :: _ => if bal =? 0 then above else (Some a, Some (faddr fr))
  end.

Fixpoint bp_ctx (C : list frame) : ptr * ptr :=
  match C with
  | [] => (None, None)
  | fr :: C' => bp_node (faddr fr) (fbal fr) C' (bp_ctx C')
  end.

(** The side of its node on which the hole of a frame lies, as the
    off-balance angle [a] of the source: -1 for left, +1 for right. *)
Definition fside (fr : frame) : Z :=
  match fr with FL _ _ _ _ _ => -1 | FR _ _ _ _ _ => 1 end.

(** The balances that the loop below the balance node writes. *)
Definition set_path_bal (lo : list frame) : list frame :=
  map (λ fr, fset_bal fr (fside fr)) lo.

(** The path split at the balance node: the frames below it, and the
    rest with the frame of the balance node in front. *)
Fixpoint split_pivot (C : list frame) : list frame * list frame :=
  match C with
  | [] => ([], [])
  | fr :: C' =>
      match C' with
      | [] => ([], [fr])
      | _ :: _ =>
          if fbal fr =? 0
          then let '(lo, up) := split_pivot C' in (fr :: lo, up)
          else ([], fr :: C')
      end
  end.

(** The rotations (A8), (A9) of [AVL_insert] on the subtree [S] of the
    balance node, for the angle [a]. *)
Definition ins_rot (a : Z) (S : tree) : option (rotation * tree) :=
  if a =? -1 then
    match S with
    | T b (T r rl br flr xr rr) bb flb xb sib =>
        if br =? a then
          Some (SingleRotation, T r rl 0 flr xr (T b rr 0 flb xb sib))
        else
          match rr with
          | T c cl bc flc xc cr =>
              let '(bb', br') :=
                if bc =? a then (- a, 0) else if bc =? 0 then (0, 0) else (0, a) in
              Some (DoubleRotation,
                    T c (T r rl br' flr xr cl) 0 flc xc (T b cr bb' flb xb sib))
          | E => None
          end
    | _ => None
    end
  else
    match S with
    | T b sib bb flb xb (T r rl br flr xr rr) =>
        if br =? a then
          Some (SingleRotation, T r (T b sib 0 flb xb rl) 0 flr xr rr)
        else
          match rl with
          | T c cl bc flc xc cr =>
              let '(bb', br') :=
                if bc =? a then (- a, 0) else if bc =? 0 then (0, 0) else (0, a) in
              Some (DoubleRotation,
                    T c (T b sib bb' flb xb cl) 0 flc xc (T r cr br' flr xr rr))
          | E => None
          end
    | _ => None
    end.

(** The tree after steps A6 to A10, from the path [Cf] to the new leaf
    [new]: the rotation made, the change of the height, the tree. *)
Definition ins_fix (Cf : list frame) (new : tree) : option (rotation * Z * tree) :=
  match split_pivot Cf with
  | (lo, pv :: up) =>
      let S' := plug (set_path_bal lo) new in
      if fbal pv =? 0 then
        Some (NoRotation, 1, plug (fset_bal pv (fside pv) :: up) S')
      else if fbal pv =? - fside pv then
        Some (NoRotation, 0, plug (fset_bal pv 0 :: up) S')
      else
        match ins_rot (fside pv) (fill1 pv S') with
        | Some (rot, S2) => Some (rot, 0, plug up S2)
        | None => None
        end
  | (_, []) => None
  end.

(** The tree after a successful insert along the path [Cf]. *)
Definition ins_tree (Cf : list frame) (new : tree) : option (rotation * Z * tree) :=
  match Cf with
  | [] => Some (NoRotation, 1, new)
  | _ :: _ => ins_fix Cf new
  end.

(** A context into which an AVL tree of height [hs] fits: every frame
    stores the balance that results, within {-1,0,1}. *)
Fixpoint ctx_avl (C : list frame) (hs : nat) : Prop :=
  match C with
  | [] => True
  | fr :: C' =>
      avl (fsib fr)
      ∧ fbal fr = fside fr * (Z.of_nat hs - Z.of_nat (hgt (fsib fr)))
      ∧ -1 ≤ fbal fr ≤ 1
      ∧ ctx_avl C' (S (Nat.max hs (hgt (fsib fr))))
  end.

(** The elements before and after the hole of a context, in order. *)
Fixpoint lefts (C : list frame) : list A :=
  match C with
  | [] => []
  | FL _ _ _ _ _ :: C' => lefts C'
  | FR _ sib _ _ x :: C' => lefts C' ++ inorder sib ++ [x]
  end.

Fixpoint rights (C : list frame) : list A :=
  match C with
  | [] => []
  | FL _ _ _ x sib :: C' => x :: inorder sib ++ rights C'
  | FR _ _ _ _ _ :: C' => rights C'
  end.

Definition bp_at (s : tree) (C : list frame) : ptr * ptr :=
  match s with
  | E => (None, None)
  | T a _ b _ _ _ => bp_node a b C (bp_ctx C)
  end.

Definition leaf (n : nat) (fl : Z) (x : A) : tree := T n E 0 fl x E.

(** The free stack: the cells [fs], chained through their right
    pointers. *)
Fixpoint free_list (h : gmap nat (AVL_NODE A)) (p : ptr) (fs : list nat) : Prop :=
  match fs with
  | [] => p = None
  | a :: fs' =>
      p = Some a ∧
      ∃ pl nxt b fl dd,
        h !! a = Some (mkNode pl nxt (enc b fl) dd)
        ∧ -2 ≤ b ≤ 2 ∧ free_fl fl ∧ free_list h nxt fs'
  end.

(** Reading a tree and a free stack back from the heap: the tree below
    [p], when the cells within [fuel] levels hold one. *)
Fixpoint read_tree (fuel : nat) (h : gmap nat (AVL_NODE A)) (p : ptr)
  : option tree :=
  match fuel with
  | O => None
  | S fuel =>
      match p with
      | None => Some E
      | Some a =>
          n ← h !! a;
          x ← d n;
          tl ← read_tree fuel h (l n);
          tr ← read_tree fuel h (r n);
          if (0 <=? f n) && (f n <? 80)
          then Some (T a tl (f n / 16 - 2) (f n mod 16) x tr)
          else None
      end
  end.

Fixpoint read_free (fuel : nat) (h : gmap nat (AVL_NODE A)) (p : ptr)
  : option (list nat) :=
  match fuel with
  | O => None
  | S fuel =>
      match p with
      | None => Some []
      | Some a =>
          n ← h !! a;
          fs ← read_free fuel h (r n);
          Some (a :: fs)
      end
  end.

(** *** The comparator as an order *)

Section Order.

Variable cmp : A → A → Z.   (* [cmp stored key] is [eval stored key user] *)

(** [klt x y]: [x] sorts before [y]. *)
Definition klt (x y : A) : Prop := cmp y x < 0.

Record total_order : Prop := {
  cmp_antisym : ∀ x y, cmp x y < 0 ↔ 0 < cmp y x;
  cmp_trans : ∀ x y z, cmp y x < 0 → cmp z y < 0 → cmp z x < 0;
  cmp_eq_compat : ∀ x y z, cmp x y = 0 → (cmp x z < 0 ↔ cmp y z < 0)
}.

Definition bst (t : tree) : Prop := StronglySorted klt (inorder t).

(** The search path of [k] below the context [C]: [None] when a node
    matches, otherwise the context of the empty place where [k] belongs. *)
Fixpoint ins_path (k : A) (C : list frame) (s : tree) : option (list frame) :=
  match s with
  | E => Some C
  | T a tl b fl x tr =>
      if cmp x k =? 0 then None
      else if cmp x k <? 0 then ins_path k (FL a b fl x tr :: C) tl
      else ins_path k (FR a tl b fl x :: C) tr
  end.

(** Every frame of [C] lies on the search path of [k]. *)
Definition on_path (k : A) (fr : frame) : Prop :=
  match fr with
  | FL _ _ _ x _ => cmp x k < 0
  | FR _ _ _ _ x => 0 < cmp x k
  end.

(** The result of the search loops on a tree. *)
Fixpoint lookup_tree (k : A) (s : tree) : option A :=
  match s with
  | E => None
  | T a tl b fl x tr =>
      if cmp x k =? 0 then Some x
      else if cmp x k <? 0 then lookup_tree k tl
      else lookup_tree k tr
  end.

(** The search path of [AVL_delete]: [None] when no node matches,
    otherwise the context of the node that matches and its subtree. *)
Fixpoint del_path (k : A) (C : list frame) (s : tree)
  : option (list frame * tree) :=
  match s with
  | E => None
  | T a tl b fl x tr =>
      if cmp x k =? 0 then Some (C, s)
      else if cmp x k <? 0 then del_path k (FL a b fl x tr :: C) tl
      else del_path k (FR a tl b fl x :: C) tr
  end.

End Order.

(** *** Deletion on trees *)

(** The way down to the in-order successor (the leftmost node) and to the
    in-order precursor (the rightmost node) of a subtree: the context of
    that node within the subtree, and the node with what hangs under it. *)
Fixpoint leftmost (s : tree) (D : list frame) : list frame * tree :=
  match s with
  | E => (D, E)
  | T a tl b fl x tr =>
      match tl with
      | E => (D, s)
      | T _ _ _ _ _ _ => leftmost tl (FL a b fl x tr :: D)
      end
  end.

Fixpoint rightmost (s : tree) (D : list frame) : list frame * tree :=
  match s with
  | E => (D, E)
  | T a tl b fl x tr =>
      match tr with
      | E => (D, s)
      | T _ _ _ _ _ _ => rightmost tr (FR a tl b fl x :: D)
      end
  end.

(** The rotation of [AVL_delete] at a node with balance +2: the height
    flag it leaves and the rotated subtree. *)
Definition del_rot_r (S : tree) : option (Z * tree) :=
  match S with
  | T a s1 _ fla xa (T b bl bb flb xb br) =>
      if bb >=? 0 then
        match br with
        | T _ _ _ _ _ _ =>
            if bb =? 0
            then Some (0, T b (T a s1 1 fla xa bl) (-1) flb xb br)
            else Some (-1, T b (T a s1 0 fla xa bl) 0 flb xb br)
        | E => None
        end
      else
        match bl with
        | T c s2 bc flc xc s3 =>
            let '(ba', bb') :=
              if bc =? -1 then (0, 1) else if bc =? 0 then (0, 0) else (-1, 0) in
            Some (-1, T c (T a s1 ba' fla xa s2) 0 flc xc (T b s3 bb' flb xb br))
        | E => None
        end
  | _ => None
  end.

(** The same at a node with balance -2. *)
Definition del_rot_l (S : tree) : option (Z * tree) :=
  match S with
  | T a (T b bl bb flb xb br) _ fla xa s1 =>
      if bb <=? 0 then
        match bl with
        | T _ _ _ _ _ _ =>
            if bb =? 0
            then Some (0, T b bl 1 flb xb (T a br (-1) fla xa s1))
            else Some (-1, T b bl 0 flb xb (T a br 0 fla xa s1))
        | E => None
        end
      else
        match br with
        | T c s3 bc flc xc s2 =>
            let '(ba', bb') :=
              if bc =? 1 then (0, -1) else if bc =? 0 then (0, 0) else (1, 0) in
            Some (-1, T c (T b bl bb' flb xb s3) 0 flc xc (T a s2 ba' fla xa s1))
        | E => None
        end
  | _ => None
  end.

Definition del_rot (s : tree) (hh : Z) : option (Z * tree) :=
  match s with
  | E => None
  | T _ _ b _ _ _ =>
      if b =? 2 then del_rot_r s
      else if b =? -2 then del_rot_l s
      else Some (hh, s)
  end.

(** The frame of a node one of whose subtrees, the one in the hole, has
    lost one level, and the height flag that results. *)
Definition fshrink (fr : frame) : frame := fset_bal fr (fbal fr - fside fr).
Definition shrink_flag (fr : frame) : Z :=
  if fbal fr - fside fr =? 0 then -1 else 0.

(** The loop [while (top>0)] of [AVL_delete] from the node at the root of
    [s], below the context [C], with the height flag [hh]. *)
Fixpoint del_up (C : list frame) (s : tree) (hh : Z) : option (Z * tree) :=
  match del_rot s hh with
  | None => None
  | Some (hh, s) =>
      match C with
      | [] => Some (hh, s)
      | fr :: C' =>
          if hh =? 0 then del_up C' (fill1 fr s) hh
          else del_up C' (fill1 (fshrink fr) s) (shrink_flag fr)
      end
  end.

(** The tree after the subtree in the hole of [C] was replaced by [s],
    one level lower. *)
Definition del_shrink (C : list frame) (s : tree) : option (Z * tree) :=
  match C with
  | [] => Some (-1, s)
  | fr :: C' => del_up C' (fill1 (fshrink fr) s) (shrink_flag fr)
  end.

(** The frame [fr] with another node, at [c] with the low nibble [fl] and
    the payload [x], in the place of its node. *)
Definition freplace (fr : frame) (c : nat) (fl : Z) (x : A) : frame :=
  match fr with
  | FL _ b _ _ sib => FL c b fl x sib
  | FR _ sib b _ _ => FR c sib b fl x
  end.

(** The in-order neighbour that [AVL_delete] picks for a node with two
    subtrees: the frame [Fa] of the node around the subtree of the
    neighbour, the context [D] of the neighbour in that subtree, the
    neighbour, and the subtree that may still hang under it. *)
Definition del_pick (s : tree)
  : option (frame * list frame * tree * tree) :=
  match s with
  | E => None
  | T a tl b fl x tr =>
      if b >? 0 then
        match leftmost tr [] with
        | (D, T c cl bc flc xc cr) =>
            Some (FR a tl b fl x, D, T c cl bc flc xc cr, cr)
        | (_, E) => None
        end
      else
        match rightmost tl [] with
        | (D, T c cl bc flc xc cr) =>
            Some (FL a b fl x tr, D, T c cl bc flc xc cr, cl)
        | (_, E) => None
        end
  end.

(** The node that [AVL_delete] takes out of the subtree [s] below [C]
    (the root of [s] itself, when that has at most one subtree; else the
    in-order neighbour it picks), as the context and the subtree that
    take its place. *)
Definition del_unlink (C : list frame) (s : tree)
  : option (list frame * tree) :=
  match s with
  | E => None
  | T a tl b fl x tr =>
      match tl, tr with
      | E, _ => Some (C, tr)
      | _, E => Some (C, tl)
      | _, _ =>
          match del_pick s with
          | Some (Fa, D, T c _ _ flc xc _, s') =>
              Some (D ++ freplace Fa c flc xc :: C, s')
          | _ => None
          end
      end
  end.

(** The context [C] after the subtree in its hole lost a level: the
    balance of the lowest frame has moved. *)
Definition shrink_hd (C : list frame) : list frame :=
  match C with
  | [] => []
  | fr :: C' => fshrink fr :: C'
  end.

Definition shrink_hd_flag (C : list frame) : Z :=
  match C with
  | [] => -1
  | fr :: _ => shrink_flag fr
  end.

(** The height of a tree that consists of the context [C] around a
    subtree of height [hs]. *)
Fixpoint ctx_hgt (C : list frame) (hs : nat) : nat :=
  match C with
  | [] => hs
  | fr :: C' => ctx_hgt C' (S (Nat.max hs (hgt (fsib fr))))
  end.

(** A subtree on the way up: its subtrees are balanced and its balance
    is the true one, possibly 2 off; [h0] is the height the context
    expects, and the flag [hh] tells whether the subtree is one short. *)
Definition shrunk_ok (s : tree) (h0 : nat) (hh : Z) : Prop :=
  match s with
  | E => False
  | T _ tl b _ _ tr =>
      avl tl ∧ avl tr ∧ b = Z.of_nat (hgt tr) - Z.of_nat (hgt tl)
      ∧ (((b = 2 ∨ b = -2) ∧ hgt s = h0)
         ∨ (-1 ≤ b ≤ 1
            ∧ ((hh = 0 ∧ hgt s = h0) ∨ (hh = -1 ∧ S (hgt s) = h0))))
  end.

(** The least number of nodes of a balanced tree of height [h], with
    that of height [h+1]: 0, 1, 2, 4, 7, 12, ... *)
Fixpoint min_count2 (h : nat) : Z * Z :=
  match h with
  | O => (0, 1)
  | S h' => let '(a, b) := min_count2 h' in (b, a + b + 1)
  end.

Definition min_count (h : nat) : Z := (min_count2 h).1.

(** The number of passes through the loop of [AVL_walk] that a subtree
    takes. *)
Fixpoint walk_steps (s : tree) : nat :=
  match s with
  | E => O
  | T _ tl _ _ _ tr =>
      S ((match tl with E => O | T _ _ _ _ _ _ => S (walk_steps tl) end)
         + (match tr with E => O | T _ _ _ _ _ _ => S (walk_steps tr) end))
  end.

(** The array [stack] holds the addresses [path], the deepest first, from
    index 0 on. *)
Definition stack_path (stack : list ptr) (path : list nat) : Prop :=
  ∀ i a, reverse path !! i = Some a → stack !! i = Some (Some a).

(** The result of [AVL_delete] on a tree: the payload that was stored,
    the height flag, the new tree. *)
Definition del_tree (cmp : A → A → Z) (k : A) (tr : tree)
  : option (A * Z * tree) :=
  match del_path cmp k [] tr with
  | Some (C, T a tl b fl x tr1) =>
      match del_unlink C (T a tl b fl x tr1) with
      | Some (C', s') =>
          match del_shrink C' s' with
          | Some (hh, tr') => Some (x, hh, tr')
          | None => None
          end
      | None => None
      end
  | _ => None
  end.

(** The comparator of a tree handle with its user pointer applied. *)
Definition cmp_of (t : AVL_TREE A U) : A → A → Z :=
  λ x k, eval t x k (user t).

(** The state of the program holds the tree [tr] and the free stack
    [fs]. *)
Record represents (t : AVL_TREE A U) (h : gmap nat (AVL_NODE A))
    (tr : tree) (fs : list nat) : Prop := {
  rp_top : top t = root tr;
  rp_rep : rep h tr;
  rp_free : free_list h (freeStack t) fs;
  rp_nodup : NoDup (addrs tr ++ fs);
  rp_flags : flags_ok tr;
  rp_alloc : 1 ≤ allocAtOnce t
}.

(** The free stack that [AVL_newNode] pops: [fs], or the cells of a
    fresh block, the last one on top, when [fs] is empty. *)
Definition refilled (t : AVL_TREE A U) (m : mem A) (fs : list nat)
  : list nat :=
  match fs with
  | [] => reverse (seq (fresh_base (cells m)) (Z.to_nat (allocAtOnce t)))
  | _ :: _ => fs
  end.

(** What the search loop of [AVL_insert] returns on a state that holds
    [tr], given the search path [o] of the new element [k]: "already
    there" and no change; or, with the empty place at the end of the
    context [Cf], "no memory" and no change of the cells, or the new leaf
    [n] hung into that place. *)
Definition insert_search_post (t : AVL_TREE A U) (m : mem A) (k : A)
    (fs : list nat) (tr : tree)
    (res_ : res (Z * ptr * ptr * ptr * AVL_TREE A U * mem A))
    (o : option (list frame)) : Prop :=
  match o with
  | None => ∃ b' p', res_ = Ok (1, None, b', p', t, m)
  | Some Cf =>
      tr = plug Cf E ∧ Cf ≠ [] ∧ Forall (on_path (cmp_of t) k) Cf
      ∧ ((∃ b' p' m',
            res_ = Ok (2, None, b', p', t, m')
            ∧ cells m' = cells m ∧ blocks m' = blocks m
            ∧ fs = [] ∧ hd false (oracle m) = false)
         ∨ (∃ n fsp m' fs' fl,
              res_ = Ok (0, Some n, (bp_ctx Cf).1, (bp_ctx Cf).2,
                         set_size (set_freeStack t fsp) (wrap_int (size t + 1)),
                         m')
              ∧ rep (cells m') (plug Cf (leaf n fl k))
              ∧ used_fl fl
              ∧ free_list (cells m') fsp fs'
              ∧ NoDup (addrs (plug Cf (leaf n fl k)) ++ fs')
              ∧ (fs ≠ [] ∨ hd false (oracle m) = true)
              ∧ refilled t m fs = n :: fs'))
  end.

(** *** The allocation blocks *)

(** The three marks of a cell in its flag byte. *)
Definition in_use (c : AVL_NODE A) : bool :=
  negb (AVL_getbit (f c) AVL_FLG_USD =? 0).
Definition is_first (c : AVL_NODE A) : bool :=
  negb (AVL_getbit (f c) AVL_FLG_1ST =? 0).
Definition is_marked (c : AVL_NODE A) : bool :=
  negb (AVL_getbit (f c) AVL_FLG_CLN =? 0).

Definition mark_cell (c : AVL_NODE A) : AVL_NODE A :=
  set_f c (AVL_setbit (f c) AVL_FLG_CLN).
Definition unmark_cell (c : AVL_NODE A) : AVL_NODE A :=
  set_f c (AVL_clrbit (f c) AVL_FLG_CLN).

(** A flag byte between two calls: a balance and the low nibble of a
    node in the tree or of a node on the free stack. *)
Definition wf_flag (z : Z) : Prop :=
  ∃ b fl, z = enc b fl ∧ -2 ≤ b ≤ 2 ∧ (used_fl fl ∨ free_fl fl).

(** The cells of the block of [n] cells at [q], and of the blocks at
    the addresses [F]. *)
Definition blk (n q : nat) : list nat := seq q n.
Definition cells_of (n : nat) (F : list nat) : list nat := F ≫= blk n.

(** The block at [q] is handed back by [AVL_dealloc]: its first cell
    carries the mark of a first cell and none of its cells is in use. *)
Definition free_at (h : gmap nat (AVL_NODE A)) (a : nat) : bool :=
  match h !! a with
  | Some c => negb (in_use c)
  | None => false
  end.
Definition full (h : gmap nat (AVL_NODE A)) (n : nat) (q : nat) : bool :=
  match h !! q with
  | Some c => is_first c && forallb (free_at h) (blk n q)
  | None => false
  end.

(** Lists of cells chained through the right pointers, from [p] to [q],
    and through the left pointers, from [p] to NULL. *)
Fixpoint rseg (h : gmap nat (AVL_NODE A)) (p : ptr) (xs : list nat) (q : ptr)
  : Prop :=
  match xs with
  | [] => p = q
  | a :: xs' => p = Some a ∧ ∃ c, h !! a = Some c ∧ rseg h (r c) xs' q
  end.

Fixpoint lseg (h : gmap nat (AVL_NODE A)) (p : ptr) (xs : list nat) : Prop :=
  match xs with
  | [] => p = None
  | a :: xs' => p = Some a ∧ ∃ c, h !! a = Some c ∧ lseg h (l c) xs'
  end.

Definition hd_ptr (xs : list nat) : ptr :=
  match xs with
  | [] => None
  | a :: _ => Some a
  end.

(** The heap [h] is [h0] after the first loop of [AVL_dealloc] has
    marked the blocks [F]: the cells of these blocks carry the clean-up
    mark, and nothing else has changed but the left pointers of the
    first cells. *)
Definition collected (n : nat) (h0 : gmap nat (AVL_NODE A)) (F : list nat)
    (h : gmap nat (AVL_NODE A)) : Prop :=
  (∀ a, h !! a = None ↔ h0 !! a = None)
  ∧ (∀ a c0, h0 !! a = Some c0 →
       ∃ c, h !! a = Some c ∧ r c = r c0 ∧ d c = d c0
         ∧ f c = (if bool_decide (a ∈ cells_of n F)
                  then AVL_setbit (f c0) AVL_FLG_CLN else f c0)
         ∧ (a ∉ F → l c = l c0)).

(** The layout that [AVL_newNode] gives the memory: blocks of
    [allocAtOnce] cells that do not overlap and that make up the heap;
    the mark of a first cell on the first cell of every block and on no
    other; every cell that is not in use on the free stack [fs]. *)
Record Slabs (t : AVL_TREE A U) (m : mem A) (fs : list nat) : Prop := {
  sl_max : allocAtOnce t ≤ INT_MAX;
  sl_size : ∀ q n, blocks m !! q = Some n → n = Z.to_nat (allocAtOnce t);
  sl_cells : ∀ q n i,
    blocks m !! q = Some n → (i < n)%nat → is_Some (cells m !! (q + i)%nat);
  sl_cover : ∀ a,
    is_Some (cells m !! a) →
    ∃ q n, blocks m !! q = Some n ∧ (q ≤ a < q + n)%nat;
  sl_disj : ∀ q q' n n' a,
    blocks m !! q = Some n → blocks m !! q' = Some n' →
    (q ≤ a < q + n)%nat → (q' ≤ a < q' + n')%nat → q = q';
  sl_first : ∀ a c,
    cells m !! a = Some c → is_first c = true ↔ is_Some (blocks m !! a);
  sl_flags : ∀ a c, cells m !! a = Some c → wf_flag (f c);
  sl_free : ∀ a c, cells m !! a = Some c → in_use c = false → a ∈ fs
}.

(** The invariant of the container between two calls. *)
Record Inv (t : AVL_TREE A U) (m : mem A) (tr : tree) (fs : list nat) : Prop := {
  inv_rep : represents t (cells m) tr fs;
  inv_avl : avl tr;
  inv_height : height t = Z.of_nat (hgt tr);
  inv_size : size t = Z.of_nat (count tr);
  inv_size_max : size t ≤ INT_MAX
}.

(** *** Tearing down: what [AVL_flush] leaves *)

(** The nodes in the order in which [AVL_flush] frees them: the left
    subtree, the right subtree, the node. *)
Fixpoint postorder (t : tree) : list nat :=
  match t with
  | E => []
  | T a tl _ _ _ tr => postorder tl ++ postorder tr ++ [a]
  end.

(** The head of the free stack, [p] before, after the nodes of [s] have
    been pushed; and the heap [h] after that: every node of [s] has lost
    its subtrees and its mark of use, and points to the node pushed
    before it. *)
Definition flush_ptr (p : ptr) (s : tree) : ptr :=
  match s with
  | E => p
  | T a _ _ _ _ _ => Some a
  end.

Fixpoint flush_heap (h : gmap nat (AVL_NODE A)) (p : ptr) (s : tree)
  : gmap nat (AVL_NODE A) :=
  match s with
  | E => h
  | T a tl b fl x tr =>
      let p1 := flush_ptr p tl in
      <[a := mkNode None (flush_ptr p1 tr)
               (AVL_clrbit (enc b fl) AVL_FLG_USD) (Some x)]>
        (flush_heap (flush_heap h p tl) p1 tr)
  end.

(** What the loop of [AVL_flush] does from the moment it stands on the
    root of [s], with [top1] entries of the stack below it, to the moment
    it stands there again with both subtrees gone. *)
Definition flush_kids_spec (s : tree) : Prop :=
  ∀ (t : AVL_TREE A U) (h : gmap nat (AVL_NODE A)) (stack : list ptr)
    (top1 fuel : nat),
    rep h s → NoDup (addrs s) →
    length stack = AVL_MAX_DEPTH → (top1 + hgt s ≤ AVL_MAX_DEPTH)%nat →
    match s with
    | E => True
    | T a tl b fl x tr =>
        let p1 := flush_ptr (freeStack t) tl in
        ∃ stack',
          flush_loop (2 * (count tl + count tr) + fuel) t h (Some a) stack
            (S top1)
          = flush_loop fuel (set_freeStack t (flush_ptr p1 tr))
              (<[a := mkNode None None (enc b fl) (Some x)]>
                 (flush_heap (flush_heap h (freeStack t) tl) p1 tr))
              (Some a) stack' (S top1)
          ∧ length stack' = AVL_MAX_DEPTH
          ∧ ∀ i, (i ≤ top1)%nat → stack' !! i = stack !! i
    end.

(** The number of nodes on the path that the loop of [AVL_flush] goes
    down first: to the left where there is a left subtree, else to the
    right. *)
Fixpoint first_path (s : tree) : nat :=
  match s with
  | E => O
  | T _ tl _ _ _ tr =>
      S (match tl with
         | E => first_path tr
         | T _ _ _ _ _ _ => first_path tl
         end)
  end.

(** The number of nodes on the leftmost path, the one that the loop of
    [AVL_walk] goes down first. *)
Fixpoint left_spine (s : tree) : nat :=
  match s with
  | E => O
  | T _ tl _ _ _ _ => S (left_spine tl)
  end.

(** Cell for cell, [h'] has the cells of [h], each with the mark of a
    first cell that it has in [h]. *)
Definition keeps (h h' : gmap nat (AVL_NODE A)) : Prop :=
  ∀ a, match h !! a with
       | Some c => ∃ c', h' !! a = Some c' ∧ is_first c' = is_first c
       | None => h' !! a = None
       end.

(** Every cell that carries the mark of use is a node of the tree. *)
Definition no_leak (h : gmap nat (AVL_NODE A)) (tr : tree) : Prop :=
  ∀ a c, h !! a = Some c → in_use c = true → a ∈ addrs tr.

End Abstraction.

Arguments E {A}.
Arguments T {A} _ _ _ _ _ _.
Arguments root {A} _.
Arguments addrs {A} _.
Arguments inorder {A} _.
Arguments hgt {A} _.
Arguments count {A} _.
Arguments rep {A} _ _.
Arguments avl {A} _.
Arguments flags_ok {A} _.
Arguments FL {A} _ _ _ _ _.
Arguments FR {A} _ _ _ _ _.
Arguments faddr {A} _.
Arguments fbal {A} _.
Arguments ffl {A} _.
Arguments fdata {A} _.
Arguments fsib {A} _.
Arguments fset_bal {A} _ _.
Arguments fill1 {A} _ _.
Arguments plug {A} _ _.
Arguments ctx_root {A} _ _.
Arguments fcell {A} _ _.
Arguments rep_ctx {A} _ _ _.
Arguments addrs_ctx {A} _.
Arguments free_list {A} _ _ _.
Arguments read_tree {A} _ _ _.
Arguments read_free {A} _ _ _.
Arguments hd_addr {A} _.
Arguments bp_node {A} _ _ _ _.
Arguments bp_ctx {A} _.
Arguments bp_at {A} _ _.
Arguments fside {A} _.
Arguments set_path_bal {A} _.
Arguments split_pivot {A} _.
Arguments ins_rot {A} _ _.
Arguments ins_fix {A} _ _.
Arguments ins_tree {A} _ _.
Arguments ctx_avl {A} _ _.
Arguments lefts {A} _.
Arguments rights {A} _.
Arguments leaf {A} _ _ _.
Arguments on_path {A} _ _ _.
Arguments klt {A} _ _ _.
Arguments total_order {A} _.
Arguments bst {A} _ _.
Arguments ins_path {A} _ _ _ _.
Arguments lookup_tree {A} _ _ _.
Arguments del_path {A} _ _ _ _.
Arguments leftmost {A} _ _.
Arguments rightmost {A} _ _.
Arguments del_rot_r {A} _.
Arguments del_rot_l {A} _.
Arguments del_rot {A} _ _.
Arguments fshrink {A} _.
Arguments shrink_flag {A} _.
Arguments del_up {A} _ _ _.
Arguments del_shrink {A} _ _.
Arguments freplace {A} _ _ _ _.
Arguments del_pick {A} _.
Arguments del_unlink {A} _ _.
Arguments shrink_hd {A} _.
Arguments shrink_hd_flag {A} _.
Arguments ctx_hgt {A} _ _.
Arguments walk_steps {A} _.
Arguments shrunk_ok {A} _ _ _.
Arguments del_tree {A} _ _ _.
Arguments cmp_of {A U} _ _ _.
Arguments represents {A U} _ _ _ _.
Arguments insert_search_post {A U} _ _ _ _ _ _ _.
Arguments Inv {A U} _ _ _ _.
Arguments in_use {A} _.
Arguments is_first {A} _.
Arguments is_marked {A} _.
Arguments mark_cell {A} _.
Arguments unmark_cell {A} _.
Arguments free_at {A} _ _.
Arguments full {A} _ _ _.
Arguments rseg {A} _ _ _ _.
Arguments lseg {A} _ _ _.
Arguments collected {A} _ _ _ _.
Arguments Slabs {A U} _ _ _.
Arguments postorder {A} _.
Arguments flush_ptr {A} _ _.
Arguments flush_heap {A} _ _ _.
Arguments flush_kids_spec {A U} _.
Arguments no_leak {A} _ _.
Arguments refilled {A U} _ _ _.
Arguments keeps {A} _ _.
Arguments first_path {A} _.
Arguments left_spine {A} _.
Arguments sl_max {A U t m fs} _.
Arguments sl_size {A U t m fs} _ _ _ _.
Arguments sl_cells {A U t m fs} _ _ _ _ _ _.
Arguments sl_cover {A U t m fs} _ _ _.
Arguments sl_disj {A U t m fs} _ _ _ _ _ _ _ _ _ _.
Arguments sl_first {A U t m fs} _ _ _ _.
Arguments sl_flags {A U t m fs} _ _ _ _.
Arguments sl_free {A U t m fs} _ _ _ _ _.
Arguments rp_top {A U t h tr fs} _.
Arguments rp_rep {A U t h tr fs} _.
Arguments rp_free {A U t h tr fs} _.
Arguments rp_nodup {A U t h tr fs} _.
Arguments rp_flags {A U t h tr fs} _.
Arguments rp_alloc {A U t h tr fs} _.
Arguments inv_rep {A U t m tr fs} _.
Arguments inv_avl {A U t m tr fs} _.
Arguments inv_height {A U t m tr fs} _.
Arguments inv_size {A U t m tr fs} _.
Arguments inv_size_max {A U t m tr fs} _.
Arguments cmp_antisym {A cmp} _ _ _.
Arguments cmp_trans {A cmp} _ _ _ _ _ _.
Arguments cmp_eq_compat {A cmp} _ _ _ _ _.


(** ** States of the program on integer payloads

    The states below instantiate the statements that follow. *)

(** The comparator of the example on integers, without the wrap-around
    of [int]. *)
Definition Z_eval (d1 d2 : Z) (_ : unit) : Z := d2 - d1.

(** A fresh tree with batches of four nodes, and a memory in which three
    more calls of malloc succeed. *)
Definition ex_t0 : AVL_TREE Z unit := mkTree None 4 None 0 0 Z_eval tt.
Definition ex_m0 : mem Z := mkMem ∅ ∅ [true; true; true].

(** The state after the inserts of 5, 3, 8, 1, 4, 7, 9: two batches, one
    cell left on the free stack. *)
Definition ex_keys : list Z := [5; 3; 8; 1; 4; 7; 9].

Definition ex_cells : gmap nat (AVL_NODE Z) :=
  list_to_map
    [ (1%nat, mkNode None None 44 (Some 1));
      (2%nat, mkNode (Some 7%nat) (Some 6%nat) 36 (Some 8));
      (3%nat, mkNode (Some 1%nat) (Some 8%nat) 36 (Some 3));
      (4%nat, mkNode (Some 3%nat) (Some 2%nat) 36 (Some 5));
      (5%nat, mkNode None None 8 None);
      (6%nat, mkNode None None 36 (Some 9));
      (7%nat, mkNode None None 36 (Some 7));
      (8%nat, mkNode None None 36 (Some 4)) ].

Definition ex_t : AVL_TREE Z unit :=
  mkTree (Some 5%nat) 4 (Some 4%nat) 3 7 Z_eval tt.
Definition ex_m : mem Z :=
  mkMem ex_cells (list_to_map [(1%nat, 4%nat); (5%nat, 4%nat)]) [true].

Definition ex_tr : tree Z :=
  T 4 (T 3 (T 1 E 0 12 1 E) 0 4 3 (T 8 E 0 4 4 E)) 0 4 5
      (T 2 (T 7 E 0 4 7 E) 0 4 8 (T 6 E 0 4 9 E)).
Definition ex_fs : list nat := [5%nat].



(** The first state after the deletes of 9, 7 and 4: the second batch
    (the cells 5 to 8) is on the free stack as a whole. *)
Definition slab_cells : gmap nat (AVL_NODE Z) :=
  list_to_map
    [ (1%nat, mkNode None None 44 (Some 1));
      (2%nat, mkNode None None 36 (Some 8));
      (3%nat, mkNode (Some 1%nat) None 20 (Some 3));
      (4%nat, mkNode (Some 3%nat) (Some 2%nat) 20 (Some 5));
      (5%nat, mkNode None None 8 None);
      (6%nat, mkNode None (Some 5%nat) 32 None);
      (7%nat, mkNode None (Some 6%nat) 32 None);
      (8%nat, mkNode None (Some 7%nat) 32 None) ].

Definition slab_t : AVL_TREE Z unit :=
  mkTree (Some 8%nat) 4 (Some 4%nat) 3 4 Z_eval tt.
Definition slab_m : mem Z :=
  mkMem slab_cells (list_to_map [(1%nat, 4%nat); (5%nat, 4%nat)]) [true].
Definition slab_tr : tree Z :=
  T 4 (T 3 (T 1 E 0 12 1 E) (-1) 4 3 E) (-1) 4 5 (T 2 E 0 4 8 E).
Definition slab_fs : list nat := [8%nat; 7%nat; 6%nat; 5%nat].

(** A degenerate heap: a chain of [n] cells from address [a] on, each
    the left child of the one before, with the payloads [x], [x-1], ...
    No sequence of inserts builds it; it stands for a tree deeper than
    [AVL_MAX_DEPTH]. *)
Fixpoint chain_cells (n a : nat) (x : Z) : gmap nat (AVL_NODE Z) :=
  match n with
  | O => ∅
  | S n' =>
      <[a := mkNode (match n' with O => None | S _ => Some (S a) end)
                    None 36 (Some x)]> (chain_cells n' (S a) (x - 1))
  end.

Fixpoint chain_tree (n a : nat) (x : Z) : tree Z :=
  match n with
  | O => E
  | S n' => T a (chain_tree n' (S a) (x - 1)) 0 4 x E
  end.

Definition deep_t : AVL_TREE Z unit :=
  mkTree None 1 (Some 1%nat) 65 65 Z_eval tt.
Definition deep_m : mem Z := mkMem (chain_cells 65 1 100) ∅ [].
Definition deep_tr : tree Z := chain_tree 65 1 100.

(** The search path of the key 36 in that chain, and the subtree it
    ends at. *)
Definition deep_C : list (frame Z) :=
  match del_path (cmp_of deep_t) 36 [] deep_tr with
  | Some (C, _) => C
  | None => []
  end.
Definition deep_s : tree Z :=
  match del_path (cmp_of deep_t) 36 [] deep_tr with
  | Some (_, s) => s
  | None => E
  end.

(** Another degenerate heap: the node 200 holds 500 and leans right; on
    its left the leaf 201 with 0, on its right a chain of 70 cells that
    hold 1000 down to 931, each the left child of the one before. The
    in-order successor of 500 is the end of the chain, at depth 70. *)
Definition lost_cells : gmap nat (AVL_NODE Z) :=
  <[200%nat := mkNode (Some 201%nat) (Some 1%nat) 52 (Some 500)]>
    (<[201%nat := mkNode None None 36 (Some 0)]> (chain_cells 70 1 1000)).
Definition lost_t : AVL_TREE Z unit :=
  mkTree None 1 (Some 200%nat) 71 72 Z_eval tt.
Definition lost_m : mem Z := mkMem lost_cells ∅ [].
Definition lost_tr : tree Z :=
  T 200 (T 201 E 0 4 0 E) 1 4 500 (chain_tree 70 1 1000).


(** * Basic facts *)

(** ** The flag byte *)

Ltac split_bal b :=
  let H := fresh in
  assert (H : b = -2 ∨ b = -1 ∨ b = 0 ∨ b = 1 ∨ b = 2) by lia;
  destruct H as [-> | [-> | [-> | [-> | ->]]]].

Ltac split_nibble fl :=
  let H := fresh in
  assert (H : fl = 0 ∨ fl = 1 ∨ fl = 2 ∨ fl = 3 ∨ fl = 4 ∨ fl = 5 ∨ fl = 6
              ∨ fl = 7 ∨ fl = 8 ∨ fl = 9 ∨ fl = 10 ∨ fl = 11 ∨ fl = 12
              ∨ fl = 13 ∨ fl = 14 ∨ fl = 15) by lia;
  destruct H as [-> | [-> | [-> | [-> | [-> | [-> | [-> | [-> | [-> | [->
                | [-> | [-> | [-> | [-> | [-> | ->]]]]]]]]]]]]]]].

Lemma getbal_enc b fl :
  -2 ≤ b ≤ 2 → 0 ≤ fl < 16 → AVL_getbal (enc b fl) = b.
Proof. intros Hb Hfl. split_bal b; split_nibble fl; reflexivity. Qed.

Lemma setbal_enc b b' fl :
  -2 ≤ b ≤ 2 → -2 ≤ b' ≤ 2 → 0 ≤ fl < 16 →
  AVL_setbal (enc b fl) b' = enc b' fl.
Proof. intros Hb Hb' Hfl. split_bal b; split_bal b'; split_nibble fl; reflexivity. Qed.

Lemma incbal_enc b fl :
  -2 ≤ b ≤ 1 → 0 ≤ fl < 16 → AVL_incbal (enc b fl) = enc (b + 1) fl.
Proof. intros Hb Hfl. split_bal b; try lia; split_nibble fl; reflexivity. Qed.

Lemma decbal_enc b fl :
  -1 ≤ b ≤ 2 → 0 ≤ fl < 16 → AVL_decbal (enc b fl) = enc (b - 1) fl.
Proof. intros Hb Hfl. split_bal b; try lia; split_nibble fl; reflexivity. Qed.

Lemma used_fl_range fl : used_fl fl → 0 ≤ fl < 16.
Proof. unfold used_fl. lia. Qed.

Lemma free_fl_range fl : free_fl fl → 0 ≤ fl < 16.
Proof. unfold free_fl. lia. Qed.

Lemma clrbit_usd_enc b fl :
  -2 ≤ b ≤ 2 → used_fl fl →
  AVL_clrbit (enc b fl) AVL_FLG_USD = enc b (fl - 4) ∧ free_fl (fl - 4).
Proof.
  intros Hb [-> | ->]; split_bal b; (split; [reflexivity | unfold free_fl; lia]).
Qed.

Lemma setbit_usd_enc b fl :
  -2 ≤ b ≤ 2 → free_fl fl →
  AVL_setbit (enc b fl) AVL_FLG_USD = enc b (fl + 4) ∧ used_fl (fl + 4).
Proof.
  intros Hb [-> | ->]; split_bal b; (split; [reflexivity | unfold used_fl; lia]).
Qed.

Lemma setbit_1st_enc b fl :
  -2 ≤ b ≤ 2 → free_fl fl → AVL_setbit (enc b fl) AVL_FLG_1ST = enc b 8.
Proof. intros Hb [-> | ->]; split_bal b; reflexivity. Qed.

Lemma getbit_usd_used b fl :
  -2 ≤ b ≤ 2 → used_fl fl → AVL_getbit (enc b fl) AVL_FLG_USD = 4.
Proof. intros Hb [-> | ->]; split_bal b; reflexivity. Qed.

Lemma getbit_usd_free b fl :
  -2 ≤ b ≤ 2 → free_fl fl → AVL_getbit (enc b fl) AVL_FLG_USD = 0.
Proof. intros Hb [-> | ->]; split_bal b; reflexivity. Qed.

(** ** Running the program on a known heap *)

Section Heap.

Variable A : Type.
Implicit Types (h : gmap nat (AVL_NODE A)) (n : AVL_NODE A).

Lemma bind_Ok {T V} (x : T) (k : T → res V) : (Ok x ≫= k) = k x.
Proof. reflexivity. Qed.

Lemma bind_Err {T V} e (k : T → res V) : (Err e ≫= k) = Err e.
Proof. reflexivity. Qed.

Lemma load_Some h a n : h !! a = Some n → load h (Some a) = Ok n.
Proof. intros H. unfold load. by rewrite H. Qed.

Lemma upd_Some h a n g : h !! a = Some n → upd h (Some a) g = Ok (<[a := g n]> h).
Proof. intros H. unfold upd, load, store. by rewrite H. Qed.

Lemma store_Some h a n n' : h !! a = Some n → store h (Some a) n' = Ok (<[a := n']> h).
Proof. intros H. unfold store. by rewrite H. Qed.

Lemma ptr_eqb_refl (p : ptr) : ptr_eqb p p = true.
Proof. unfold ptr_eqb. by rewrite bool_decide_eq_true. Qed.

Lemma ptr_eqb_ne (p q : ptr) : p ≠ q → ptr_eqb p q = false.
Proof. unfold ptr_eqb. by rewrite bool_decide_eq_false. Qed.

Lemma ptr_eqb_Some_ne (a b : nat) : a ≠ b → ptr_eqb (Some a) (Some b) = false.
Proof. intros. apply ptr_eqb_ne. congruence. Qed.

End Heap.

Arguments load_Some {A} _ _ _ _.
Arguments load : simpl never.
Arguments upd : simpl never.
Arguments store : simpl never.
Arguments payload : simpl never.
Arguments malloc : simpl never.
Arguments free : simpl never.
Arguments newNode_refill : simpl never.
Arguments newNode_pop : simpl never.
Arguments AVL_newNode : simpl never.
Arguments insert_single : simpl never.
Arguments insert_double : simpl never.
Arguments insert_rebalance : simpl never.
Arguments relink : simpl never.
Arguments delete_pick : simpl never.
Arguments delete_unlink : simpl never.
Arguments delete_rotate_r : simpl never.
Arguments delete_rotate_l : simpl never.
Arguments walk_body : simpl never.
Arguments walk_continue : simpl never.
Arguments walk_down : simpl never.
Arguments walk_visit : simpl never.
Arguments walk_up : simpl never.
Arguments stack_set : simpl never.
Arguments stack_get : simpl never.
Arguments AVL_getbal : simpl never.
Arguments AVL_setbal : simpl never.
Arguments AVL_incbal : simpl never.
Arguments AVL_decbal : simpl never.
Arguments AVL_getbit : simpl never.
Arguments AVL_setbit : simpl never.
Arguments AVL_clrbit : simpl never.
Arguments enc : simpl never.
Arguments delete_detach : simpl never.
Arguments delete_replace : simpl never.
Arguments delete_propagate : simpl never.
Arguments delete_rotate : simpl never.
Arguments stack_init : simpl never.
Arguments del_unlink : simpl never.
Arguments del_pick : simpl never.
Arguments del_shrink : simpl never.
Arguments del_rot : simpl never.
Arguments del_rot_r : simpl never.
Arguments del_rot_l : simpl never.
Arguments del_tree : simpl never.
Arguments wrap_int : simpl never.
Arguments wrap8 : simpl never.
Arguments upd_Some {A} _ _ _ _ _.
Arguments store_Some {A} _ _ _ _ _.

(** ** Trees and contexts in the heap *)

Section Rep.

Variable A : Type.
Implicit Types (h : gmap nat (AVL_NODE A)) (t s : tree A) (C : list (frame A)).

Lemma rep_frame h h' t :
  (∀ a, a ∈ addrs t → h' !! a = h !! a) → rep h t → rep h' t.
Proof.
  induction t as [|a tl IHl b fl x tr IHr]; simpl; [done|].
  intros Hag (Ha & Hl & Hr). split_and!.
  - rewrite Hag; [done | set_solver].
  - apply IHl; [|done]. intros; apply Hag; set_solver.
  - apply IHr; [|done]. intros; apply Hag; set_solver.
Qed.

Lemma rep_insert h a n t : a ∉ addrs t → rep h t → rep (<[a := n]> h) t.
Proof.
  intros Ha. apply rep_frame. intros a' Ha'.
  rewrite lookup_insert_ne; [done | set_solver].
Qed.

Lemma rep_ctx_frame h h' C q :
  (∀ a, a ∈ addrs_ctx C → h' !! a = h !! a) → rep_ctx h C q → rep_ctx h' C q.
Proof.
  revert q. induction C as [|fr C IH]; simpl; [done|].
  intros q Hag (Ha & Hs & HC). split_and!.
  - rewrite Hag; [done | set_solver].
  - eapply rep_frame; [|done]. intros; apply Hag; set_solver.
  - apply IH; [|done]. intros; apply Hag; set_solver.
Qed.

Lemma rep_ctx_insert h a n C q :
  a ∉ addrs_ctx C → rep_ctx h C q → rep_ctx (<[a := n]> h) C q.
Proof.
  intros Ha. apply rep_ctx_frame. intros a' Ha'.
  rewrite lookup_insert_ne; [done | set_solver].
Qed.

Lemma root_fill1 (fr : frame A) s : root (fill1 fr s) = Some (faddr fr).
Proof. by destruct fr. Qed.

Lemma root_plug C s : root (plug C s) = ctx_root C (root s).
Proof.
  revert s. induction C as [|fr C IH]; simpl; [done|].
  intros s. by rewrite IH, root_fill1.
Qed.

Lemma rep_fill1 h (fr : frame A) s :
  rep h (fill1 fr s) ↔
  h !! faddr fr = Some (fcell fr (root s)) ∧ rep h (fsib fr) ∧ rep h s.
Proof. destruct fr; simpl; tauto. Qed.

Lemma rep_plug h C s : rep h (plug C s) ↔ rep_ctx h C (root s) ∧ rep h s.
Proof.
  revert s. induction C as [|fr C IH]; simpl; intros s; [tauto|].
  rewrite IH, rep_fill1, root_fill1. tauto.
Qed.

Lemma addrs_fill1 (fr : frame A) s :
  addrs (fill1 fr s) ≡ₚ addrs s ++ faddr fr :: addrs (fsib fr).
Proof.
  destruct fr; simpl.
  - by rewrite Permutation_middle.
  - rewrite (Permutation_app_comm (addrs sib)). by rewrite Permutation_middle.
Qed.

Lemma addrs_plug C s : addrs (plug C s) ≡ₚ addrs s ++ addrs_ctx C.
Proof.
  revert s. induction C as [|fr C IH]; simpl; intros s.
  - by rewrite app_nil_r.
  - rewrite IH, addrs_fill1. rewrite <- app_assoc. simpl. done.
Qed.

Lemma plug_app C1 C2 s : plug (C1 ++ C2) s = plug C2 (plug C1 s).
Proof. revert s. induction C1 as [|fr C1 IH]; simpl; [done|]. intros; apply IH. Qed.

Lemma ctx_root_app C1 C2 q : ctx_root (C1 ++ C2) q = ctx_root C2 (ctx_root C1 q).
Proof. revert q. induction C1 as [|fr C1 IH]; simpl; [done|]. intros; apply IH. Qed.

Lemma addrs_ctx_app C1 C2 : addrs_ctx (C1 ++ C2) = addrs_ctx C1 ++ addrs_ctx C2.
Proof.
  induction C1 as [|fr C1 IH]; simpl; [done|]. by rewrite IH, app_assoc.
Qed.

Lemma rep_ctx_app h C1 C2 q :
  rep_ctx h (C1 ++ C2) q ↔ rep_ctx h C1 q ∧ rep_ctx h C2 (ctx_root C1 q).
Proof.
  revert q. induction C1 as [|fr C1 IH]; simpl; intros q; [tauto|].
  rewrite IH. tauto.
Qed.

Lemma ctx_root_cons_ne (fr : frame A) C q q' :
  ctx_root (fr :: C) q = ctx_root (fr :: C) q'.
Proof. done. Qed.

Lemma rep_is_Some h t a : rep h t → a ∈ addrs t → is_Some (h !! a).
Proof.
  induction t as [|a' tl IHl b fl x tr IHr]; simpl; [set_solver|].
  intros (Ha & Hl & Hr) Hin.
  apply elem_of_cons in Hin as [-> | Hin]; [by eexists|].
  apply elem_of_app in Hin as [Hin | Hin]; auto.
Qed.

Lemma root_addrs t a : root t = Some a → a ∈ addrs t.
Proof. destruct t; simpl; [done|]. intros [= ->]. set_solver. Qed.

Lemma root_not_in t a : a ∉ addrs t → root t ≠ Some a.
Proof. intros Hn Hr. by apply Hn, root_addrs. Qed.

Lemma count_plug_le C s : (count s ≤ count (plug C s))%nat.
Proof.
  revert s. induction C as [|fr C IH]; simpl; intros s; [lia|].
  etrans; [|apply IH]. destruct fr; simpl; lia.
Qed.

End Rep.

Arguments rep_frame {A} _ _ _.
Arguments rep_insert {A} _ _ _ _.
Arguments rep_ctx_frame {A} _ _ _ _.
Arguments rep_ctx_insert {A} _ _ _ _ _.
Arguments root_fill1 {A} _ _.
Arguments root_plug {A} _ _.
Arguments rep_fill1 {A} _ _ _.
Arguments rep_plug {A} _ _ _.
Arguments plug_app {A} _ _ _.
Arguments ctx_root_app {A} _ _ _.
Arguments addrs_ctx_app {A} _ _.
Arguments rep_ctx_app {A} _ _ _ _.
Arguments addrs_fill1 {A} _ _.
Arguments addrs_plug {A} _ _.
Arguments rep_is_Some {A} _ _ _.
Arguments root_addrs {A} _ _.
Arguments root_not_in {A} _ _.

(** ** Permutations of concatenations *)

Section Perm.
Context {T : Type}.
Implicit Types (X a r : list T).

Lemma perm_pull_here X r : X ++ r ≡ₚ X ++ r.
Proof. done. Qed.

Lemma perm_pull_step X a r r' : r ≡ₚ X ++ r' → a ++ r ≡ₚ X ++ a ++ r'.
Proof. intros ->. apply Permutation_app_swap_app. Qed.

Lemma perm_cancel X L' R R' : R ≡ₚ X ++ R' → L' ≡ₚ R' → X ++ L' ≡ₚ R.
Proof. intros -> ->. done. Qed.

End Perm.

Ltac cons2app :=
  repeat match goal with
    | |- context [?a :: ?l] =>
        lazymatch l with
        | [] => fail
        | _ => change (a :: l) with ([a] ++ l)
        end
    end.

Ltac perm_pull :=
  first [ apply perm_pull_here | eapply perm_pull_step; perm_pull ].

(** Both sides are concatenations of the same pieces, in any order. *)
Ltac solve_perm :=
  simpl; cons2app;
  match goal with |- ?L ≡ₚ ?R =>
    rewrite <- (app_nil_r L), <- (app_nil_r R) end;
  rewrite <- ?app_assoc;
  repeat (eapply perm_cancel; [ solve [perm_pull] | ]);
  reflexivity.

(** Concatenations, re-associated to the right. *)
Ltac list_norm := repeat (progress (simpl; rewrite <- ?app_assoc)).

(** ** Proof automation for straight-line heap code *)

Section Disj.
Context {T : Type}.
Implicit Types (L K : list T).

Lemma disj_cons_l a L K :
  (∀ y, y ∈ (a :: L) → y ∉ K) → (a ∉ K) ∧ (∀ y, y ∈ L → y ∉ K).
Proof. intros H. split; [apply H; left | intros y Hy; apply H; by right]. Qed.

Lemma disj_app_l L L' K :
  (∀ y, y ∈ (L ++ L') → y ∉ K) →
  (∀ y, y ∈ L → y ∉ K) ∧ (∀ y, y ∈ L' → y ∉ K).
Proof. intros H. split; intros y Hy; apply H, elem_of_app; auto. Qed.

Lemma disj_cons_r a L K :
  (∀ y, y ∈ L → y ∉ (a :: K)) → (a ∉ L) ∧ (∀ y, y ∈ L → y ∉ K).
Proof.
  intros H. split.
  - intros Ha. apply (H a Ha). left.
  - intros y Hy Hk. apply (H y Hy). by right.
Qed.

Lemma disj_app_r L K K' :
  (∀ y, y ∈ L → y ∉ (K ++ K')) →
  (∀ y, y ∈ L → y ∉ K) ∧ (∀ y, y ∈ L → y ∉ K').
Proof. intros H. split; intros y Hy Hk; apply (H y Hy), elem_of_app; auto. Qed.

Lemma lookup_insert_ne_Some {V} (m : gmap nat V) a b v n :
  a ≠ b → m !! b = Some n → <[a := v]> m !! b = Some n.
Proof. intros. by rewrite lookup_insert_ne. Qed.

End Disj.

Ltac neq := first [ assumption | apply not_eq_sym; assumption | congruence ].

(** [H !! a = Some ?n] for a heap [H] built from inserts. *)
Ltac hlook :=
  first
    [ apply lookup_insert_eq
    | apply lookup_insert_ne_Some; [neq | hlook]
    | eassumption ].

Ltac hstep :=
  first
    [ erewrite load_Some by hlook
    | erewrite upd_Some by hlook
    | rewrite getbal_enc by lia
    | rewrite setbal_enc by lia
    | rewrite incbal_enc by lia
    | rewrite decbal_enc by lia
    | rewrite ptr_eqb_refl
    | rewrite ptr_eqb_Some_ne by neq
    | rewrite ptr_eqb_ne by (done || congruence) ];
  simpl.

(** All distinctness facts that a [NoDup] of concrete shape contains, as
    atoms [x ≠ y], [x ∉ addrs s]. *)
Ltac atomize :=
  repeat match goal with
    | H : NoDup (_ :: _) |- _ => apply NoDup_cons in H as [? ?]
    | H : NoDup (_ ++ _) |- _ => apply NoDup_app in H as (? & ? & ?)
    | H : NoDup [] |- _ => clear H
    | H : _ ∉ (_ :: _) |- _ => apply not_elem_of_cons in H as [? ?]
    | H : _ ∉ (_ ++ _) |- _ => apply not_elem_of_app in H as [? ?]
    | H : _ ∉ [] |- _ => clear H
    | H : ∀ y, y ∈ (_ :: _) → y ∉ _ |- _ => apply disj_cons_l in H as [? ?]
    | H : ∀ y, y ∈ (_ ++ _) → y ∉ _ |- _ => apply disj_app_l in H as [? ?]
    | H : ∀ y, y ∈ [] → y ∉ _ |- _ => clear H
    | H : ∀ y, y ∈ _ → y ∉ (_ :: _) |- _ => apply disj_cons_r in H as [? ?]
    | H : ∀ y, y ∈ _ → y ∉ (_ ++ _) |- _ => apply disj_app_r in H as [? ?]
    | H : ∀ y, y ∈ _ → y ∉ [] |- _ => clear H
    end.

Ltac nodup_split := atomize.

(** Ranges of the flag nibbles from [used_fl] facts. *)
Ltac fl_ranges :=
  repeat match goal with
    | H : used_fl ?fl |- _ =>
        lazymatch goal with
        | _ : 0 ≤ fl < 16 |- _ => fail
        | _ => pose proof (used_fl_range fl H)
        end
    end.

(** [rep H s] for a subtree that none of the inserts of [H] touches. *)
Ltac rep_frame_tac :=
  repeat (apply rep_insert; [first [assumption | set_solver]|]); assumption.


(** * Searching *)

Section Find.

Variables (A U : Type).
Implicit Types (h : gmap nat (AVL_NODE A)) (t : AVL_TREE A U) (s : tree A).

Lemma find_loop_rep fuel t h s k :
  rep h s → (hgt s < fuel)%nat →
  find_loop fuel t h (root s) k = Ok (lookup_tree (cmp_of t) k s).
Proof.
  revert fuel. induction s as [|a tl IHl b fl x tr IHr]; intros fuel Hrep Hf.
  - destruct fuel; [simpl in Hf; lia | done].
  - destruct fuel as [|fuel]; [simpl in Hf; lia|].
    simpl in Hrep, Hf. destruct Hrep as (Ha & Hl & Hr).
    simpl. rewrite (load_Some _ _ _ Ha). simpl. unfold cmp_of.
    destruct (eval t x k (user t) =? 0); [done|].
    destruct (eval t x k (user t) <? 0).
    + apply IHl; [done | lia].
    + apply IHr; [done | lia].
Qed.

End Find.


(** * The allocator: [AVL_newNode] *)

Section Alloc.

Variables (A U : Type).
Implicit Types (h : gmap nat (AVL_NODE A)) (t : AVL_TREE A U) (m : mem A).

Lemma fresh_base_None h i : h !! (fresh_base h + i)%nat = None.
Proof.
  apply not_elem_of_dom. intros Hin.
  apply elem_of_elements in Hin. apply max_list_elem_of_le in Hin.
  unfold fresh_base in Hin. lia.
Qed.

Lemma fill_block_lookup h base n a :
  fill_block h base n !! a =
  if decide (base ≤ a < base + n)%nat then Some raw_cell else h !! a.
Proof.
  induction n as [|n IH]; simpl.
  - by rewrite decide_False by lia.
  - destruct (decide (a = base + n)%nat) as [-> | Hne].
    + rewrite lookup_insert_eq. by rewrite decide_True by lia.
    + rewrite lookup_insert_ne by done. rewrite IH.
      destruct (decide (base ≤ a < base + n)%nat).
      * by rewrite decide_True by lia.
      * by rewrite decide_False by lia.
Qed.

Lemma free_list_frame h h' p fs :
  (∀ a, a ∈ fs → h' !! a = h !! a) → free_list h p fs → free_list h' p fs.
Proof.
  revert p. induction fs as [|a fs IH]; simpl; [done|].
  intros p Hag (-> & pl & nxt & b & fl & dd & Ha & Hb & Hfl & Hfs).
  split; [done|]. exists pl, nxt, b, fl, dd. split_and!; try done; try lia.
  - rewrite Hag; [done | set_solver].
  - apply IH; [|done]. intros; apply Hag; set_solver.
Qed.

Lemma free_list_insert h a n p fs :
  a ∉ fs → free_list h p fs → free_list (<[a := n]> h) p fs.
Proof.
  intros Ha. apply free_list_frame. intros a' Ha'.
  rewrite lookup_insert_ne; [done | set_solver].
Qed.

Lemma free_list_is_Some h p fs a : free_list h p fs → a ∈ fs → is_Some (h !! a).
Proof.
  revert p. induction fs as [|a' fs IH]; simpl; [set_solver|].
  intros p (-> & pl & nxt & b & fl & dd & Ha & Hb & Hfl & Hfs) Hin.
  apply elem_of_cons in Hin as [-> | Hin]; [by eexists | eauto].
Qed.

(** Rewriting the flags of one cell keeps the chain. *)
Lemma free_list_reflag h a pl nxt b fl dd pl' b' fl' dd' p fs :
  h !! a = Some (mkNode pl nxt (enc b fl) dd) →
  -2 ≤ b' ≤ 2 → free_fl fl' →
  free_list h p fs →
  free_list (<[a := mkNode pl' nxt (enc b' fl') dd']> h) p fs.
Proof.
  intros Ha Hb' Hfl'. revert p. induction fs as [|a0 fs IH]; simpl; [done|].
  intros p (-> & pl0 & nxt0 & b0 & fl0 & dd0 & Ha0 & Hb0 & Hfl0 & Hfs).
  split; [done|]. destruct (decide (a0 = a)) as [-> | Hne].
  - rewrite Ha in Ha0. injection Ha0 as <- <- _ <-.
    exists pl', nxt, b', fl', dd'. rewrite lookup_insert_eq.
    split_and!; auto; lia.
  - exists pl0, nxt0, b0, fl0, dd0. rewrite lookup_insert_ne by done.
    split_and!; auto; lia.
Qed.

(** The loop that chains a fresh block into the free stack. *)
Lemma newNode_push_spec todo : ∀ i base t h fs0,
  (∀ k, (i ≤ k < i + todo)%nat → h !! (base + k)%nat = Some raw_cell) →
  (∀ k, (i ≤ k < i + todo)%nat → (base + k)%nat ∉ fs0) →
  free_list h (freeStack t) fs0 →
  ∃ h' fsp,
    newNode_push todo i base t h = Ok (set_freeStack t fsp, h') ∧
    free_list h' fsp (reverse (seq (base + i) todo) ++ fs0) ∧
    (∀ a, ¬ (base + i ≤ a < base + i + todo)%nat → h' !! a = h !! a).
Proof.
  induction todo as [|todo IH]; intros i base t h fs0 Hc Hn Hfs.
  - exists h, (freeStack t). simpl. split_and!; [by destruct t | done | done].
  - simpl.
    assert (Hci : h !! (base + i)%nat = Some raw_cell) by (apply Hc; lia).
    rewrite (upd_Some _ _ _ _ Hci). simpl.
    erewrite upd_Some by apply lookup_insert_eq. simpl.
    rewrite insert_insert_eq.
    set (h1 := <[(base + i)%nat := _]> h).
    destruct (IH (S i) base (set_freeStack t (Some (base + i)%nat)) h1
                ((base + i)%nat :: fs0)) as (h' & fsp & Hrun & Hfl & Hfr).
    + intros k Hk. unfold h1. rewrite lookup_insert_ne by lia. apply Hc. lia.
    + intros k Hk. apply not_elem_of_cons. split; [lia | apply Hn; lia].
    + simpl. split; [done|].
      exists None, (freeStack t), (-2), 0, None. split_and!; try lia.
      * unfold h1. by rewrite lookup_insert_eq.
      * by left.
      * apply free_list_insert; [apply Hn; lia | done].
    + exists h', fsp. split_and!.
      * rewrite Hrun. by destruct t.
      * replace (base + S i)%nat with (S (base + i)) in Hfl by lia.
        simpl. rewrite reverse_cons. by rewrite <- app_assoc.
      * intros a Ha. rewrite Hfr by lia. unfold h1.
        rewrite lookup_insert_ne by lia. done.
Qed.

Lemma free_list_cell h p fs a :
  free_list h p fs → a ∈ fs →
  ∃ pl nxt b fl dd,
    h !! a = Some (mkNode pl nxt (enc b fl) dd) ∧ -2 ≤ b ≤ 2 ∧ free_fl fl.
Proof.
  revert p. induction fs as [|a' fs IH]; simpl; [set_solver|].
  intros p (-> & pl & nxt & b & fl & dd & Ha & Hb & Hfl & Hfs) Hin.
  apply elem_of_cons in Hin as [-> | Hin]; [|eauto].
  exists pl, nxt, b, fl, dd. done.
Qed.

Lemma newNode_pop_spec t m a fs :
  free_list (cells m) (freeStack t) (a :: fs) → a ∉ fs →
  ∃ fsp fl,
    newNode_pop t m
    = Ok (Some a, set_size (set_freeStack t fsp) (wrap_int (size t + 1)),
          set_cells m (<[a := mkNode None None (enc 0 fl) None]> (cells m)))
    ∧ used_fl fl
    ∧ free_list (<[a := mkNode None None (enc 0 fl) None]> (cells m)) fsp fs.
Proof.
  simpl. intros (Hp & pl & nxt & b & fl & dd & Ha & Hb & Hfl & Hfs) Hn.
  exists nxt, (fl + 4). unfold newNode_pop. rewrite Hp.
  rewrite (load_Some _ _ _ Ha). simpl.
  rewrite (store_Some _ _ _ _ Ha). simpl.
  rewrite setbal_enc by (try lia; by apply free_fl_range).
  destruct (setbit_usd_enc 0 fl) as [-> Hu]; [lia | done |].
  split_and!; [by destruct t | done |].
  by apply free_list_insert.
Qed.

Lemma newNode_refill_spec t m o :
  freeStack t = None → oracle m = true :: o → 1 ≤ allocAtOnce t →
  ∃ fsp h',
    newNode_refill t m
    = Ok (set_freeStack t fsp,
          mkMem h' (<[fresh_base (cells m) := Z.to_nat (allocAtOnce t)]> (blocks m)) o)
    ∧ free_list h' fsp
        (reverse (seq (fresh_base (cells m)) (Z.to_nat (allocAtOnce t))))
    ∧ (∀ a, (a < fresh_base (cells m))%nat → h' !! a = cells m !! a).
Proof.
  intros Hfree Ho Hal. unfold newNode_refill, malloc. rewrite Hfree, Ho.
  simpl.
  set (N := Z.to_nat (allocAtOnce t)).
  set (base := fresh_base (cells m)).
  assert (HN : (1 ≤ N)%nat) by (unfold N; lia).
  destruct (newNode_push_spec N 0 base t (fill_block (cells m) base N) [])
    as (h' & fsp & Hrun & Hfs & Hfr).
  { intros k Hk. rewrite fill_block_lookup. by rewrite decide_True by lia. }
  { intros; set_solver. }
  { by rewrite Hfree. }
  rewrite Hrun. simpl.
  rewrite app_nil_r in Hfs. replace (base + 0)%nat with base in * by lia.
  destruct (free_list_cell _ _ _ base Hfs)
    as (pl & nxt & b & fl & dd & Hb & Hbr & Hfl).
  { apply elem_of_reverse, elem_of_seq. lia. }
  rewrite (upd_Some _ _ _ _ Hb). simpl.
  rewrite setbit_1st_enc by done.
  eexists _, _. split_and!; [reflexivity | |].
  - eapply free_list_reflag; eauto. by right.
  - intros a Ha. rewrite lookup_insert_ne by lia. rewrite Hfr by lia.
    rewrite fill_block_lookup. by rewrite decide_False by lia.
Qed.

(** What a call of [AVL_newNode] yields on a well-formed state: no node
    and no change when the free stack is empty and malloc fails, otherwise
    a reset cell [n] outside the tree and outside the remaining free stack. *)
Lemma newNode_spec t m tr fs :
  represents t (cells m) tr fs →
  (∃ m', AVL_newNode t m = Ok (None, t, m') ∧ cells m' = cells m
         ∧ blocks m' = blocks m ∧ fs = [] ∧ hd false (oracle m) = false)
  ∨ (∃ n fsp m' fs' fl,
       AVL_newNode t m
       = Ok (Some n, set_size (set_freeStack t fsp) (wrap_int (size t + 1)), m')
       ∧ cells m' !! n = Some (mkNode None None (enc 0 fl) None)
       ∧ used_fl fl
       ∧ free_list (cells m') fsp fs'
       ∧ NoDup (n :: addrs tr ++ fs')
       ∧ (∀ a, a ∈ addrs tr → cells m' !! a = cells m !! a)
       ∧ (fs ≠ [] ∨ hd false (oracle m) = true)
       ∧ refilled t m fs = n :: fs').
Proof.
  intros [Htop Hrep Hfree Hnd Hfl Hal].
  destruct fs as [|a fs].
  - (* empty free stack: malloc *)
    simpl in Hfree. unfold AVL_newNode.
    destruct (oracle m) as [|[] o] eqn:Ho.
    + left. exists m. unfold newNode_refill, newNode_pop, malloc.
      rewrite Hfree, Ho. simpl. unfold newNode_pop. by rewrite Hfree.
    + right.
      destruct (newNode_refill_spec t m o Hfree Ho Hal)
        as (fsp & h' & -> & Hfs & Hfr). simpl.
      set (base := fresh_base (cells m)) in *.
      set (N := Z.to_nat (allocAtOnce t)) in *.
      assert (HN : (1 ≤ N)%nat) by (unfold N; lia).
      assert (Hseq : reverse (seq base N)
                     = (base + (N - 1))%nat :: reverse (seq base (N - 1))).
      { replace N with (S (N - 1)) at 1 by lia.
        rewrite seq_S, reverse_app. done. }
      rewrite Hseq in Hfs.
      set (m1 := mkMem h' (<[base:=N]> (blocks m)) o).
      destruct (newNode_pop_spec (set_freeStack t fsp) m1 _ _ Hfs)
        as (fsp' & fl & Hpop & Hu & Hfs').
      { rewrite elem_of_reverse, elem_of_seq. lia. }
      assert (Hlt : ∀ a, a ∈ addrs tr → (a < base)%nat).
      { intros a Ha. destruct (rep_is_Some _ _ _ Hrep Ha) as [c Hc].
        destruct (decide (a < base)%nat); [done|].
        pose proof (fresh_base_None (cells m) (a - base)) as Hn.
        fold base in Hn. replace (base + (a - base))%nat with a in Hn by lia.
        congruence. }
      exists (base + (N - 1))%nat, fsp',
        (set_cells m1 (<[(base + (N - 1))%nat
                         := mkNode None None (enc 0 fl) None]> (cells m1))),
        (reverse (seq base (N - 1))), fl.
      split_and!; [| apply lookup_insert_eq | done | done | | | by right
                  | exact Hseq].
      * simpl. fold m1. rewrite Hpop. destruct t; reflexivity.
      * apply NoDup_cons. rewrite app_nil_r in Hnd.
        split.
        -- rewrite elem_of_app, elem_of_reverse, elem_of_seq.
           intros [Ha | Ha]; [apply Hlt in Ha|]; lia.
        -- apply NoDup_app. split_and!; [done | |].
           ++ intros a Ha. rewrite elem_of_reverse, elem_of_seq.
              apply Hlt in Ha. lia.
           ++ rewrite reverse_Permutation. apply NoDup_seq.
      * intros a Ha. apply Hlt in Ha. change (cells (set_cells m1 ?x)) with x.
        rewrite lookup_insert_ne by lia. by apply Hfr.
    + left. exists (mkMem (cells m) (blocks m) o).
      unfold newNode_refill, newNode_pop, malloc.
      rewrite Hfree, Ho. simpl. unfold newNode_pop. by rewrite Hfree.
  - (* a node is waiting on the free stack *)
    right. unfold AVL_newNode, newNode_refill.
    assert (Hs : freeStack t = Some a) by (simpl in Hfree; tauto).
    rewrite Hs. simpl.
    assert (Hnd' : NoDup (a :: addrs tr ++ fs)).
    { eapply NoDup_Permutation_proper; [|done]. by rewrite Permutation_middle. }
    apply NoDup_cons in Hnd' as [Ha Hnd'].
    destruct (newNode_pop_spec t m _ _ Hfree) as (fsp' & fl & Hpop & Hu & Hfs').
    { set_solver. }
    exists a, fsp',
      (set_cells m (<[a := mkNode None None (enc 0 fl) None]> (cells m))), fs, fl.
    split_and!; [| apply lookup_insert_eq | done | done | | | by left | done].
    + simpl. by rewrite Hpop.
    + by apply NoDup_cons.
    + intros a' Ha'. simpl. rewrite lookup_insert_ne; [done | set_solver].
Qed.

End Alloc.


(** * Insertion *)

Section InsertSearch.

Variables (A U : Type).
Implicit Types (h : gmap nat (AVL_NODE A)) (t : AVL_TREE A U) (m : mem A).
Implicit Types (s tr : tree A) (C : list (frame A)).

Lemma flags_ok_fill1 (fr : frame A) s :
  flags_ok (fill1 fr s) ↔
  used_fl (ffl fr) ∧ -2 ≤ fbal fr ≤ 2 ∧ flags_ok (fsib fr) ∧ flags_ok s.
Proof. destruct fr; simpl; tauto. Qed.

Lemma flags_ok_plug C s :
  flags_ok (plug C s) → flags_ok s.
Proof.
  revert s. induction C as [|fr C IH]; simpl; intros s H; [done|].
  apply IH in H. apply flags_ok_fill1 in H. tauto.
Qed.

(** Hanging the new leaf into the empty place below the frame [fr]; [g]
    is the assignment to the left or to the right pointer. *)
Lemma insert_attach_spec t m fs C (fr : frame A) k b p
    (g : AVL_NODE A → ptr → AVL_NODE A) :
  (∀ q q', g (fcell fr q) q' = fcell fr q') →
  represents t (cells m) (plug (fr :: C) E) fs →
  Forall (on_path (cmp_of t) k) (fr :: C) →
  (b, p) = bp_ctx (fr :: C) →
  insert_search_post t m k fs (plug (fr :: C) E)
    (AVL_newNode t m
     ≫= (λ pat : option nat * AVL_TREE A U * mem A,
           match pat with
           | (Some _ as n, t0, m0) =>
               upd (cells m0) n (λ c : AVL_NODE A, set_d c (Some k))
               ≫= λ h, upd h (Some (faddr fr)) (λ c : AVL_NODE A, g c n)
               ≫= λ h0, Ok (0, n, b, p, t0, set_cells m0 h0)
           | (None, t0, m0) => Ok (2, None, b, p, t0, m0)
           end))
    (Some (fr :: C)).
Proof.
  intros Hg Hrp Hpath Hbp. unfold insert_search_post.
  split_and!; [done | done | done |].
  destruct (newNode_spec _ _ _ _ _ _ Hrp)
    as [(m' & -> & Hc & Hb & -> & Ho)
       |(n & fsp & m' & fs' & fl & -> & Hn & Hu & Hfs & Hnd & Hfr & Ho & Hpop)].
  { left. by exists b, p, m'. }
  right. exists n, fsp.
  pose proof (rp_rep Hrp) as Hrep.
  apply (rep_plug _ (fr :: C) E) in Hrep as [HrC _]. simpl in HrC.
  destruct HrC as (Ha & Hsib & HrC).
  assert (Hperm : addrs (plug (fr :: C) E) ≡ₚ
                  faddr fr :: addrs (fsib fr) ++ addrs_ctx C).
  { by rewrite addrs_plug. }
  rewrite Hperm in Hnd.
  assert (Hfr' : ∀ a, a ∈ faddr fr :: addrs (fsib fr) ++ addrs_ctx C →
                      cells m' !! a = cells m !! a).
  { intros a Hin. apply Hfr. by rewrite Hperm. }
  apply NoDup_cons in Hnd as [Hn1 Hnd].
  assert (Hnd2 := Hnd). rewrite <- app_comm_cons in Hnd2.
  apply NoDup_cons in Hnd2 as [Ha1 Hnd2].
  simpl. rewrite (upd_Some _ _ _ _ Hn). simpl.
  assert (Hne : faddr fr ≠ n) by set_solver.
  erewrite upd_Some; last first.
  { rewrite lookup_insert_ne by done. rewrite Hfr' by set_solver. exact Ha. }
  simpl. rewrite Hg.
  eexists _, fs', fl.
  split_and!; [simpl in Hbp; by rewrite <- Hbp | | done | | | done | done].
  - apply (rep_plug _ (fr :: C)). simpl. split_and!.
    + by rewrite lookup_insert_eq.
    + apply rep_insert; [set_solver|]. apply rep_insert; [set_solver|].
      eapply rep_frame; [|exact Hsib]. intros; apply Hfr'; set_solver.
    + apply rep_ctx_insert; [set_solver|]. apply rep_ctx_insert; [set_solver|].
      eapply rep_ctx_frame; [|exact HrC]. intros; apply Hfr'; set_solver.
    + rewrite lookup_insert_ne by done. by rewrite lookup_insert_eq.
    + done.
    + done.
  - simpl. apply free_list_insert; [set_solver|].
    apply free_list_insert; [set_solver | done].
  - change (plug C (fill1 fr (leaf n fl k)))
      with (plug (fr :: C) (leaf n fl k)).
    rewrite (addrs_plug (fr :: C)). simpl.
    apply NoDup_cons. split; [exact Hn1 | exact Hnd].
Qed.

(** The search loop of [AVL_insert] below a context [C]. *)
Lemma insert_search_spec k : ∀ s C fuel t m b p fs,
  s ≠ E →
  represents t (cells m) (plug C s) fs →
  Forall (on_path (cmp_of t) k) C →
  (hgt s < fuel)%nat →
  (b, p) = bp_at s C →
  insert_search_post t m k fs (plug C s)
    (insert_search fuel t m k (root s) b p) (ins_path (cmp_of t) k C s).
Proof.
  induction s as [|a tl IHl b0 fl0 x tr IHr]; [done|].
  intros C fuel t m b p fs _ Hrp Hpath Hfuel Hbp.
  destruct fuel as [|fuel]; [simpl in Hfuel; lia|].
  pose proof (rp_rep Hrp) as Hrep.
  apply rep_plug in Hrep as [HrC Hrs]. simpl in Hrs.
  destruct Hrs as (Ha & Hrl & Hrr).
  pose proof (flags_ok_plug _ _ (rp_flags Hrp)) as Hfl. simpl in Hfl.
  destruct Hfl as (Hu0 & Hb0 & Hfll & Hflr).
  simpl. rewrite (load_Some _ _ _ Ha). simpl. unfold payload. simpl.
  unfold cmp_of at 1 2.
  destruct (eval t x k (user t) =? 0) eqn:He0; [by eexists _, _|].
  destruct (eval t x k (user t) <? 0) eqn:Hlt.
  - assert (Hpath' : Forall (on_path (cmp_of t) k) (FL a b0 fl0 x tr :: C)).
    { constructor; [|done]. simpl. unfold cmp_of. lia. }
    destruct tl as [|a' tl' b' fl' x' tr'].
    + (* the place is empty: a node is added on the left *)
      simpl. apply (insert_attach_spec t m fs C (FL a b0 fl0 x tr) k b p
                      (λ c n, set_l c n)); try done.
    + (* one step down to the left *)
      simpl in Hrl, Hfll. destruct Hrl as (Ha' & _).
      destruct Hfll as (Hu' & Hb' & _).
      simpl. rewrite (load_Some _ _ _ Ha'). simpl.
      rewrite getbal_enc by (try done; by apply used_fl_range).
      destruct (b' =? 0) eqn:Hz; simpl.
      * apply (IHl (FL a b0 fl0 x tr :: C)); try done.
        -- simpl in Hfuel |- *. lia.
        -- simpl. rewrite Hz. exact Hbp.
      * apply (IHl (FL a b0 fl0 x tr :: C)); try done.
        -- simpl in Hfuel |- *. lia.
        -- simpl. by rewrite Hz.
  - assert (Hpath' : Forall (on_path (cmp_of t) k) (FR a tl b0 fl0 x :: C)).
    { constructor; [|done]. simpl. unfold cmp_of. lia. }
    destruct tr as [|a' tl' b' fl' x' tr'].
    + (* the place is empty: a node is added on the right *)
      simpl. apply (insert_attach_spec t m fs C (FR a tl b0 fl0 x) k b p
                      (λ c n, set_r c n)); try done.
    + (* one step down to the right *)
      simpl in Hrr, Hflr. destruct Hrr as (Ha' & _).
      destruct Hflr as (Hu' & Hb' & _).
      simpl. rewrite (load_Some _ _ _ Ha'). simpl.
      rewrite getbal_enc by (try done; by apply used_fl_range).
      destruct (b' =? 0) eqn:Hz; simpl.
      * apply (IHr (FR a tl b0 fl0 x :: C)); try done.
        -- simpl in Hfuel |- *. lia.
        -- simpl. rewrite Hz. exact Hbp.
      * apply (IHr (FR a tl b0 fl0 x :: C)); try done.
        -- simpl in Hfuel |- *. lia.
        -- simpl. by rewrite Hz.
Qed.

End InsertSearch.

Section InsertRotate.

Variables (A U : Type).
Implicit Types (h : gmap nat (AVL_NODE A)) (t : AVL_TREE A U) (m : mem A).
Implicit Types (s tr : tree A) (C : list (frame A)).

Lemma insert_single_L h b r rl br flr xr rr bb flb xb sib :
  rep h (T b (T r rl br flr xr rr) bb flb xb sib) →
  NoDup (addrs (T b (T r rl br flr xr rr) bb flb xb sib)) →
  flags_ok (T b (T r rl br flr xr rr) bb flb xb sib) →
  ∃ h', insert_single h (-1) (Some b) (Some r) = Ok (Some r, h')
    ∧ rep h' (T r rl 0 flr xr (T b rr 0 flb xb sib))
    ∧ (∀ a, a ≠ b → a ≠ r → h' !! a = h !! a).
Proof.
  simpl. intros (Hb & (Hr & Hrl & Hrr) & Hsib) Hnd (Hub & Hbb & (Hur & Hbr & _) & _).
  nodup_split. fl_ranges.
  unfold insert_single. simpl. repeat hstep.
  eexists. split_and!; [reflexivity | ..].
  - hlook.
  - rep_frame_tac.
  - hlook.
  - rep_frame_tac.
  - rep_frame_tac.
  - intros a ? ?. by rewrite !lookup_insert_ne by neq.
Qed.

Lemma insert_single_R h b r rl br flr xr rr bb flb xb sib :
  rep h (T b sib bb flb xb (T r rl br flr xr rr)) →
  NoDup (addrs (T b sib bb flb xb (T r rl br flr xr rr))) →
  flags_ok (T b sib bb flb xb (T r rl br flr xr rr)) →
  ∃ h', insert_single h 1 (Some b) (Some r) = Ok (Some r, h')
    ∧ rep h' (T r (T b sib 0 flb xb rl) 0 flr xr rr)
    ∧ (∀ a, a ≠ b → a ≠ r → h' !! a = h !! a).
Proof.
  simpl. intros (Hb & Hsib & (Hr & Hrl & Hrr)) Hnd (Hub & Hbb & _ & (Hur & Hbr & _)).
  nodup_split. fl_ranges.
  unfold insert_single. simpl. repeat hstep.
  eexists. split_and!; [reflexivity | ..].
  - hlook.
  - hlook.
  - rep_frame_tac.
  - rep_frame_tac.
  - rep_frame_tac.
  - intros a ? ?. by rewrite !lookup_insert_ne by neq.
Qed.

Lemma insert_double_L h b r rl br flr xr c cl bc flc xc cr bb flb xb sib :
  let S := T b (T r rl br flr xr (T c cl bc flc xc cr)) bb flb xb sib in
  rep h S → NoDup (addrs S) → flags_ok S →
  ∃ h', insert_double h (-1) (Some b) (Some r) = Ok (Some c, h')
    ∧ rep h' (T c (T r rl (if bc =? -1 then 0 else if bc =? 0 then 0 else -1)
                      flr xr cl)
                0 flc xc
                (T b cr (if bc =? -1 then 1 else if bc =? 0 then 0 else 0)
                   flb xb sib))
    ∧ (∀ a, a ≠ b → a ≠ r → a ≠ c → h' !! a = h !! a).
Proof.
  simpl.
  intros (Hb & (Hr & Hrl & (Hc & Hcl & Hcr)) & Hsib) Hnd
         (Hub & Hbb & (Hur & Hbr & _ & (Huc & Hbc & _)) & _).
  nodup_split. fl_ranges.
  unfold insert_double. simpl. repeat hstep.
  destruct (bc =? -1) eqn:E1; [|destruct (bc =? 0) eqn:E2]; simpl;
    repeat hstep; (eexists; split_and!; [reflexivity | ..];
      [ hlook | hlook | rep_frame_tac | rep_frame_tac | hlook
      | rep_frame_tac | rep_frame_tac
      | intros a ? ? ?; by rewrite !lookup_insert_ne by neq ]).
Qed.

Lemma insert_double_R h b r rr br flr xr c cl bc flc xc cr bb flb xb sib :
  let S := T b sib bb flb xb (T r (T c cl bc flc xc cr) br flr xr rr) in
  rep h S → NoDup (addrs S) → flags_ok S →
  ∃ h', insert_double h 1 (Some b) (Some r) = Ok (Some c, h')
    ∧ rep h' (T c (T b sib (if bc =? 1 then -1 else if bc =? 0 then 0 else 0)
                      flb xb cl)
                0 flc xc
                (T r cr (if bc =? 1 then 0 else if bc =? 0 then 0 else 1)
                   flr xr rr))
    ∧ (∀ a, a ≠ b → a ≠ r → a ≠ c → h' !! a = h !! a).
Proof.
  simpl.
  intros (Hb & Hsib & (Hr & (Hc & Hcl & Hcr) & Hrr)) Hnd
         (Hub & Hbb & _ & (Hur & Hbr & (Huc & Hbc & _) & _)).
  nodup_split. fl_ranges.
  unfold insert_double. simpl. repeat hstep.
  destruct (bc =? 1) eqn:E1; [|destruct (bc =? 0) eqn:E2]; simpl;
    repeat hstep; (eexists; split_and!; [reflexivity | ..];
      [ hlook | hlook | rep_frame_tac | rep_frame_tac | hlook
      | rep_frame_tac | rep_frame_tac
      | intros a ? ? ?; by rewrite !lookup_insert_ne by neq ]).
Qed.

(** The rotation at the balance node, whichever it is. *)
Lemma ins_rot_heap h (pv : frame A) S' rot S2 :
  rep h (fill1 pv S') →
  NoDup (addrs (fill1 pv S')) →
  flags_ok (fill1 pv S') →
  ins_rot (fside pv) (fill1 pv S') = Some (rot, S2) →
  ∃ h',
    (nr ← load h (root S');
     if AVL_getbal (f nr) =? fside pv
     then '(c, h) ← insert_single h (fside pv) (Some (faddr pv)) (root S');
          Ok (SingleRotation, c, h)
     else '(c, h) ← insert_double h (fside pv) (Some (faddr pv)) (root S');
          Ok (DoubleRotation, c, h))
    = Ok (rot, root S2, h')
    ∧ rep h' S2
    ∧ (∀ x, x ∉ addrs (fill1 pv S') → h' !! x = h !! x).
Proof.
  intros Hrep Hnd Hfl Hrot.
  destruct pv as [b bb flb xb sib | b sib bb flb xb];
    (destruct S' as [|r rl br flr xr rr]; [done|]);
    unfold ins_rot in Hrot; simpl in Hrot.
  - assert (Hr : h !! r = Some (mkNode (root rl) (root rr) (enc br flr) (Some xr))
                 ∧ 0 ≤ flr < 16 ∧ -2 ≤ br ≤ 2).
    { simpl in Hrep, Hfl. split; [tauto|]. split; [apply used_fl_range|]; tauto. }
    destruct Hr as (Hr & ? & ?).
    simpl. rewrite (load_Some _ _ _ Hr). simpl. rewrite getbal_enc by lia.
    destruct (br =? -1) eqn:Hbr1.
    + injection Hrot as <- <-.
      destruct (insert_single_L h b r rl br flr xr rr bb flb xb sib)
        as (h' & -> & Hrep' & Hfr'); try done.
      exists h'. split; [done|]. split; [exact Hrep'|].
      intros x Hx. apply Hfr'; intros ->; apply Hx; simpl; set_solver.
    + destruct rr as [|c cl bc flc xc cr]; [done|].
      destruct (insert_double_L h b r rl br flr xr c cl bc flc xc cr bb flb xb sib)
        as (h' & -> & Hrep' & Hfr'); try done.
      exists h'.
      destruct (bc =? -1); [|destruct (bc =? 0)]; simpl in Hrot;
        injection Hrot as <- <-; (split; [done|]); (split; [exact Hrep'|]).
      all: intros x Hx; apply Hfr'; intros ->; apply Hx; simpl; set_solver.
  - assert (Hr : h !! r = Some (mkNode (root rl) (root rr) (enc br flr) (Some xr))
                 ∧ 0 ≤ flr < 16 ∧ -2 ≤ br ≤ 2).
    { simpl in Hrep, Hfl. split; [tauto|]. split; [apply used_fl_range|]; tauto. }
    destruct Hr as (Hr & ? & ?).
    simpl. rewrite (load_Some _ _ _ Hr). simpl. rewrite getbal_enc by lia.
    destruct (br =? 1) eqn:Hbr1.
    + injection Hrot as <- <-.
      destruct (insert_single_R h b r rl br flr xr rr bb flb xb sib)
        as (h' & -> & Hrep' & Hfr'); try done.
      exists h'. split; [done|]. split; [exact Hrep'|].
      intros x Hx. apply Hfr'; intros ->; apply Hx; simpl; set_solver.
    + destruct rl as [|c cl bc flc xc cr]; [done|].
      destruct (insert_double_R h b r rr br flr xr c cl bc flc xc cr bb flb xb sib)
        as (h' & -> & Hrep' & Hfr'); try done.
      exists h'.
      destruct (bc =? 1); [|destruct (bc =? 0)]; simpl in Hrot;
        injection Hrot as <- <-; (split; [done|]); (split; [exact Hrep'|]).
      all: intros x Hx; apply Hfr'; intros ->; apply Hx; simpl; set_solver.
Qed.

End InsertRotate.



(** * Balance, height and order of the tree after an insert *)

Section InsertPure.

Variable A : Type.
Implicit Types (s tr : tree A) (C lo up : list (frame A)) (fr pv : frame A).

Lemma hgt_fill1 fr s :
  hgt (fill1 fr s) = S (Nat.max (hgt s) (hgt (fsib fr))).
Proof. destruct fr; simpl; lia. Qed.

Lemma avl_fill1 fr s :
  avl (fill1 fr s) ↔
  avl s ∧ avl (fsib fr)
  ∧ fbal fr = fside fr * (Z.of_nat (hgt s) - Z.of_nat (hgt (fsib fr)))
  ∧ -1 ≤ fbal fr ≤ 1.
Proof. destruct fr; simpl; intuition lia. Qed.

Lemma avl_plug C s : avl (plug C s) ↔ avl s ∧ ctx_avl C (hgt s).
Proof.
  revert s. induction C as [|fr C IH]; simpl; intros s; [tauto|].
  rewrite IH, avl_fill1, hgt_fill1. tauto.
Qed.

Lemma hgt_plug_eq C s s' : hgt s = hgt s' → hgt (plug C s) = hgt (plug C s').
Proof.
  revert s s'. induction C as [|fr C IH]; simpl; intros s s' H; [done|].
  apply IH. rewrite !hgt_fill1. lia.
Qed.

Lemma count_fill1 fr s : count (fill1 fr s) = S (count s + count (fsib fr)).
Proof. destruct fr; simpl; lia. Qed.

Lemma count_plug C s s' :
  (count (plug C s') + count s = count (plug C s) + count s')%nat.
Proof.
  revert s s'. induction C as [|fr C IH]; simpl; intros s s'; [lia|].
  specialize (IH (fill1 fr s) (fill1 fr s')). rewrite !count_fill1 in IH. lia.
Qed.

Lemma inorder_plug C s : inorder (plug C s) = lefts C ++ inorder s ++ rights C.
Proof.
  revert s. induction C as [|fr C IH]; simpl; intros s.
  - by rewrite app_nil_r.
  - rewrite IH. destruct fr; simpl; by rewrite <- ?app_assoc.
Qed.

Lemma hgt_le_count s : (hgt s ≤ count s)%nat.
Proof. induction s; simpl; lia. Qed.

(** The loop below the balance node: every node on the way was balanced
    and now leans to the side of the new leaf; the subtree is one higher. *)
Lemma grow_path lo : ∀ s s',
  Forall (λ fr, fbal fr = 0) lo →
  avl (plug lo s) → avl s' → hgt s' = S (hgt s) →
  avl (plug (set_path_bal lo) s')
  ∧ hgt (plug (set_path_bal lo) s') = S (hgt (plug lo s)).
Proof.
  induction lo as [|fr lo IH]; simpl; intros s s' Hz Ha Hs' Hh; [done|].
  apply Forall_cons in Hz as [Hfr Hz].
  pose proof Ha as Ha'. apply avl_plug in Ha' as [Hfs _].
  apply avl_fill1 in Hfs as (Hs & Hsib & Hb & Hr).
  apply IH; try done.
  - apply avl_fill1. destruct fr; simpl in *; split_and!; try done; lia.
  - rewrite !hgt_fill1. destruct fr; simpl in *; lia.
Qed.

Lemma set_path_bal_root lo s :
  lo ≠ [] →
  ∃ r rl br flr xr rr,
    plug (set_path_bal lo) s = T r rl br flr xr rr ∧ (br = -1 ∨ br = 1).
Proof.
  destruct lo as [|fr lo _] using rev_ind; [done|]. intros _.
  unfold set_path_bal. rewrite map_app, plug_app. simpl.
  destruct fr; simpl; eexists _, _, _, _, _, _; split; eauto.
Qed.

Lemma split_pivot_spec C :
  C ≠ [] →
  ∃ lo pv up,
    split_pivot C = (lo, pv :: up) ∧ C = lo ++ pv :: up
    ∧ Forall (λ fr, fbal fr = 0) lo
    ∧ (fbal pv ≠ 0 ∨ up = [])
    ∧ bp_ctx C = (Some (faddr pv), hd_addr up).
Proof.
  induction C as [|fr C IH]; [done|]. intros _.
  destruct C as [|fr' C].
  { exists [], fr, []. simpl. split_and!; auto. }
  destruct IH as (lo & pv & up & Hsp & HC & Hlo & Hpv & Hbp); [done|].
  change (split_pivot (fr :: fr' :: C))
    with (if fbal fr =? 0
          then let '(lo, up) := split_pivot (fr' :: C) in (fr :: lo, up)
          else ([], fr :: fr' :: C)).
  change (bp_ctx (fr :: fr' :: C))
    with (if fbal fr =? 0 then bp_ctx (fr' :: C)
          else (Some (faddr fr), Some (faddr fr'))).
  destruct (Z.eqb_spec (fbal fr) 0) as [Hz | Hz].
  - rewrite Hsp. exists (fr :: lo), pv, up.
    split_and!; auto; [by rewrite HC].
  - exists [], fr, (fr' :: C). split_and!; auto.
Qed.

(** The rotations (A8), (A9) restore the balance and the old height. *)
Lemma ins_rot_avl pv r rl br flr xr rr :
  let S' := T r rl br flr xr rr in
  avl (fsib pv) → avl S' → br ≠ 0 →
  Z.of_nat (hgt S') = Z.of_nat (hgt (fsib pv)) + 2 →
  ∃ rot S2,
    ins_rot (fside pv) (fill1 pv S') = Some (rot, S2)
    ∧ avl S2
    ∧ hgt S2 = hgt S'
    ∧ inorder S2 = inorder (fill1 pv S')
    ∧ count S2 = count (fill1 pv S')
    ∧ rot = (if br =? fside pv then SingleRotation else DoubleRotation).
Proof.
  intros S' Hsib HS' Hbr Hh. subst S'.
  destruct pv as [b bb flb xb sib | b sib bb flb xb]; simpl in *;
    unfold ins_rot; simpl.
  - destruct HS' as (Hbr' & Hrange & Hrl & Hrr).
    destruct (Z.eqb_spec br (-1)) as [-> | Hne].
    + eexists _, _. split; [reflexivity|]. simpl.
      split_and!; try done; try lia. by list_norm.
    + destruct rr as [|c cl bc flc xc cr]; simpl in *; [lia|].
      destruct Hrr as (Hbc & Hrc & Hcl & Hcr).
      destruct (Z.eqb_spec bc (-1)) as [-> | Hn1];
        [|destruct (Z.eqb_spec bc 0) as [-> | Hn0]];
        (eexists _, _; split; [reflexivity|]; simpl;
         split_and!; try done; try lia;
         [by list_norm]).
  - destruct HS' as (Hbr' & Hrange & Hrl & Hrr).
    destruct (Z.eqb_spec br 1) as [-> | Hne].
    + eexists _, _. split; [reflexivity|]. simpl.
      split_and!; try done; try lia. by list_norm.
    + destruct rl as [|c cl bc flc xc cr]; simpl in *; [lia|].
      destruct Hrl as (Hbc & Hrc & Hcl & Hcr).
      destruct (Z.eqb_spec bc 1) as [-> | Hn1];
        [|destruct (Z.eqb_spec bc 0) as [-> | Hn0]];
        (eexists _, _; split; [reflexivity|]; simpl;
         split_and!; try done; try lia;
         [by list_norm]).
Qed.

Lemma lefts_set_path_bal lo : lefts (set_path_bal lo) = lefts lo.
Proof. induction lo as [|[] lo IH]; simpl; [done | done |]. by rewrite IH. Qed.

Lemma rights_set_path_bal lo : rights (set_path_bal lo) = rights lo.
Proof. induction lo as [|[] lo IH]; simpl; [done | | done]. by rewrite IH. Qed.

Lemma inorder_fill1_eq fr s s' :
  inorder s = inorder s' → inorder (fill1 fr s) = inorder (fill1 fr s').
Proof. intros H. destruct fr; simpl; by rewrite H. Qed.

Lemma inorder_plug_eq C s s' :
  inorder s = inorder s' → inorder (plug C s) = inorder (plug C s').
Proof. intros H. by rewrite !inorder_plug, H. Qed.

Lemma fsib_fset_bal' fr b : fsib (fset_bal fr b) = fsib fr.
Proof. by destruct fr. Qed.

Lemma fside_fset_bal fr b : fside (fset_bal fr b) = fside fr.
Proof. by destruct fr. Qed.

Lemma fbal_fset_bal fr b : fbal (fset_bal fr b) = b.
Proof. by destruct fr. Qed.

Lemma inorder_fset_bal fr b s : inorder (fill1 (fset_bal fr b) s) = inorder (fill1 fr s).
Proof. by destruct fr. Qed.

Lemma count_fset_bal fr b s : count (fill1 (fset_bal fr b) s) = count (fill1 fr s).
Proof. by destruct fr. Qed.

(** Steps A6 to A10 on a balanced tree: the result is balanced, and the
    height grows by [dh]. *)
Lemma ins_fix_ok Cf new :
  Cf ≠ [] → avl (plug Cf E) → avl new → hgt new = 1%nat →
  ∃ rot dh tr',
    ins_fix Cf new = Some (rot, dh, tr')
    ∧ avl tr'
    ∧ Z.of_nat (hgt tr') = Z.of_nat (hgt (plug Cf E)) + dh
    ∧ (dh = 0 ∨ dh = 1)
    ∧ inorder tr' = inorder (plug Cf new)
    ∧ (count tr' = count (plug Cf E) + count new)%nat.
Proof.
  intros Hne Havl Hnew Hh.
  destruct (split_pivot_spec Cf Hne) as (lo & pv & up & Hsp & -> & Hlo & Hpv & _).
  unfold ins_fix. rewrite Hsp.
  rewrite !plug_app in *. simpl in *.
  pose proof Havl as Havl'. apply avl_plug in Havl' as [Hpvs Hup].
  pose proof Hpvs as Hpvs'.
  apply avl_fill1 in Hpvs' as (HloE & Hsib & Hb & Hr).
  destruct (grow_path lo E new Hlo HloE Hnew) as [HS' HhS']; [by rewrite Hh|].
  set (S' := plug (set_path_bal lo) new) in *.
  assert (HinS : inorder S' = inorder (plug lo new)).
  { unfold S'. by rewrite !inorder_plug, lefts_set_path_bal, rights_set_path_bal. }
  assert (HcS : (count S' = count (plug lo E) + count new)%nat).
  { unfold S'. pose proof (count_plug (set_path_bal lo) E new).
    pose proof (count_plug lo E new).
    assert (count (plug (set_path_bal lo) E) = count (plug lo E)) as Hc.
    { clear. induction lo as [|fr lo IH] using rev_ind; [done|].
      unfold set_path_bal in *. rewrite map_app, !plug_app. simpl.
      rewrite count_fset_bal. rewrite !count_fill1. rewrite IH. done. }
    simpl in *. lia. }
  destruct (Z.eqb_spec (fbal pv) 0) as [Hz | Hnz].
  { (* the balance node was balanced: it is the top *)
    destruct Hpv as [? | ->]; [done|]. simpl in *.
    eexists _, _, _. split; [reflexivity|]. split_and!.
    - apply avl_fill1. rewrite fsib_fset_bal', fside_fset_bal, fbal_fset_bal.
      split_and!; try done; destruct pv; simpl in *; lia.
    - rewrite !hgt_fill1, fsib_fset_bal'. destruct pv; simpl in *; lia.
    - by right.
    - rewrite inorder_fset_bal. by apply inorder_fill1_eq.
    - rewrite count_fset_bal, !count_fill1. lia. }
  destruct (Z.eqb_spec (fbal pv) (- fside pv)) as [Hop | Hnop].
  { (* the new leaf went to the lighter side *)
    eexists _, _, _. split; [reflexivity|].
    assert (Hnew' : avl (fill1 (fset_bal pv 0) S')
                    ∧ hgt (fill1 (fset_bal pv 0) S') = hgt (fill1 pv (plug lo E))).
    { split.
      - apply avl_fill1. rewrite fsib_fset_bal', fside_fset_bal, fbal_fset_bal.
        split_and!; try done; destruct pv; simpl in *; lia.
      - rewrite !hgt_fill1, fsib_fset_bal'. destruct pv; simpl in *; lia. }
    destruct Hnew' as [Ha' Hh'].
    split_and!.
    - apply avl_plug. split; [done|]. by rewrite Hh'.
    - rewrite (hgt_plug_eq up _ _ Hh'). lia.
    - by left.
    - apply inorder_plug_eq. rewrite inorder_fset_bal. by apply inorder_fill1_eq.
    - pose proof (count_plug up (fill1 pv (plug lo E)) (fill1 (fset_bal pv 0) S')).
      rewrite count_fset_bal, !count_fill1 in *. lia. }
  (* a rotation *)
  assert (Hside : fbal pv = fside pv) by (destruct pv; simpl in *; lia).
  assert (Hlone : lo ≠ []).
  { intros ->. simpl in *. destruct pv; simpl in *; lia. }
  destruct (set_path_bal_root lo new Hlone)
    as (r & rl & br & flr & xr & rr & HS'eq & Hbr).
  fold S' in HS'eq.
  destruct (ins_rot_avl pv r rl br flr xr rr) as (rot & S2 & Hrot & HaS2 & HhS2 & HiS2 & HcS2 & _).
  { done. }
  { by rewrite <- HS'eq. }
  { lia. }
  { rewrite <- HS'eq, HhS'. destruct pv; simpl in *; lia. }
  rewrite <- HS'eq in *. rewrite Hrot.
  assert (Hh' : hgt S2 = hgt (fill1 pv (plug lo E))).
  { rewrite HhS2, HhS', hgt_fill1. destruct pv; simpl in *; lia. }
  eexists _, _, _. split; [reflexivity|]. split_and!.
  - apply avl_plug. split; [done|]. by rewrite Hh'.
  - rewrite (hgt_plug_eq up _ _ Hh'). lia.
  - by left.
  - apply inorder_plug_eq. rewrite HiS2. by apply inorder_fill1_eq.
  - pose proof (count_plug up (fill1 pv (plug lo E)) S2).
    rewrite HcS2, !count_fill1 in *. lia.
Qed.

End InsertPure.


Section InsertRebalance.

Variables (A U : Type).
Implicit Types (h : gmap nat (AVL_NODE A)) (t : AVL_TREE A U) (m : mem A).
Implicit Types (s tr : tree A) (C lo up : list (frame A)) (fr pv : frame A).

Lemma faddr_fset_bal fr b : faddr (fset_bal fr b) = faddr fr.
Proof. by destruct fr. Qed.

Lemma fsib_fset_bal fr b : fsib (fset_bal fr b) = fsib fr.
Proof. by destruct fr. Qed.

Lemma fcell_fset_bal fr b q :
  fcell (fset_bal fr b) q
  = mkNode (l (fcell fr q)) (r (fcell fr q)) (enc b (ffl fr)) (d (fcell fr q)).
Proof. by destruct fr. Qed.

Lemma ctx_root_set_path_bal lo q :
  ctx_root (set_path_bal lo) q = ctx_root lo q.
Proof.
  revert q. induction lo as [|fr lo IH]; simpl; [done|].
  intros q. rewrite faddr_fset_bal. apply IH.
Qed.

Lemma addrs_ctx_set_path_bal lo : addrs_ctx (set_path_bal lo) = addrs_ctx lo.
Proof.
  induction lo as [|fr lo IH]; simpl; [done|].
  by rewrite faddr_fset_bal, fsib_fset_bal, IH.
Qed.

Lemma faddr_in_addrs_ctx fr C : fr ∈ C → faddr fr ∈ addrs_ctx C.
Proof.
  induction C as [|fr' C IH]; [set_solver|].
  intros [-> | Hin]%elem_of_cons; simpl; [set_solver|].
  specialize (IH Hin). set_solver.
Qed.

(** The loop from the rotate node down to the new node [n]. *)
Lemma insert_setbal_spec t k n : ∀ lo h fuel,
  rep_ctx h lo (Some n) →
  Forall (on_path (cmp_of t) k) lo →
  Forall (λ fr, used_fl (ffl fr) ∧ -2 ≤ fbal fr ≤ 2) lo →
  NoDup (n :: addrs_ctx lo) →
  (length lo < fuel)%nat →
  ∃ h',
    insert_setbal fuel t h k (ctx_root lo (Some n)) (Some n) = Ok h'
    ∧ rep_ctx h' (set_path_bal lo) (Some n)
    ∧ (∀ a, a ∉ addrs_ctx lo → h' !! a = h !! a).
Proof.
  induction lo as [|fr lo IH] using rev_ind; intros h fuel Hrep Hpath Hfl Hnd Hfuel.
  - destruct fuel; [simpl in Hfuel; lia|]. simpl. rewrite ptr_eqb_refl.
    by exists h.
  - rewrite length_app in Hfuel. simpl in Hfuel.
    destruct fuel as [|fuel]; [lia|].
    apply rep_ctx_app in Hrep as [Hlo Hfr]. simpl in Hfr.
    destruct Hfr as (Hc & Hsib & _).
    apply Forall_app in Hpath as [Hpl Hpf]. rewrite Forall_singleton in Hpf.
    apply Forall_app in Hfl as [Hfll Hff]. rewrite Forall_singleton in Hff.
    cbv beta in Hff. destruct Hff as [Hu Hb]. pose proof (used_fl_range _ Hu).
    rewrite addrs_ctx_app in Hnd. simpl in Hnd. rewrite app_nil_r in Hnd.
    apply NoDup_cons in Hnd as [Hn Hnd]. apply NoDup_app in Hnd as (Hnd1 & Hdis & Hnd2).
    apply NoDup_cons in Hnd2 as [Hfs _].
    rewrite ctx_root_app. simpl.
    rewrite ptr_eqb_Some_ne by set_solver.
    assert (Hfa : faddr fr ∉ addrs_ctx lo) by (intros Hin; apply Hdis in Hin; set_solver).
    set (q := ctx_root lo (Some n)) in *.
    assert (Hstep : ∃ h1,
      h1 = <[faddr fr := fcell (fset_bal fr (fside fr)) q]> h ∧
      insert_setbal (S fuel) t h k (Some (faddr fr)) (Some n)
      = insert_setbal fuel t h1 k q (Some n)).
    { eexists. split; [reflexivity|]. simpl.
      rewrite ptr_eqb_Some_ne by set_solver.
      rewrite (load_Some _ _ _ Hc). simpl.
      destruct fr as [a b fl x sib | a sib b fl x]; simpl in *.
      - unfold payload; simpl. unfold cmp_of in Hpf.
        destruct (Z.ltb_spec (eval t x k (user t)) 0); [|lia].
        repeat hstep. done.
      - unfold payload; simpl. unfold cmp_of in Hpf.
        destruct (Z.ltb_spec (eval t x k (user t)) 0); [lia|].
        repeat hstep. done. }
    destruct Hstep as (h1 & Hh1 & Hstep). simpl in Hstep. 
    rewrite ptr_eqb_Some_ne in Hstep by set_solver.
    destruct (IH h1 fuel) as (h' & Hrun & Hrep' & Hfr'); try done.
    + subst h1. by apply rep_ctx_insert.
    + apply NoDup_cons. split; [set_solver | done].
    + lia.
    + exists h'. split_and!.
      * by rewrite Hstep.
      * unfold set_path_bal. rewrite map_app. apply rep_ctx_app. split; [done|].
        simpl. fold (set_path_bal lo). rewrite ctx_root_set_path_bal.
        rewrite faddr_fset_bal, fsib_fset_bal. split_and!; [| |done].
        -- rewrite Hfr' by done. subst h1. by rewrite lookup_insert_eq.
        -- eapply rep_frame; [|exact Hsib]. intros a Ha.
           rewrite Hfr'; [subst h1; rewrite lookup_insert_ne; [done|set_solver]|].
           intros Hin. apply Hdis in Hin. set_solver.
      * intros a Ha. rewrite addrs_ctx_app in Ha. simpl in Ha.
        rewrite Hfr' by set_solver. subst h1.
        rewrite lookup_insert_ne; [done | set_solver].
Qed.

(** The reattachment of a rotated subtree to the rest of the path. *)
Lemma relink_spec t h up a q :
  rep_ctx h up (Some a) →
  NoDup (a :: addrs_ctx up) →
  ∃ h',
    relink t h (hd_addr up) (Some a) q
    = Ok (match up with [] => set_top t q | _ :: _ => t end, h')
    ∧ rep_ctx h' up q
    ∧ (∀ x, Some x ≠ hd_addr up → h' !! x = h !! x).
Proof.
  intros Hrep Hnd. destruct up as [|fr up]; simpl.
  { exists h. unfold relink. done. }
  simpl in Hrep. destruct Hrep as (Hc & Hsib & Hup).
  simpl in Hnd. nodup_split.
  unfold relink. rewrite (load_Some _ _ _ Hc). simpl.
  destruct fr as [b bb fl x sib | b sib bb fl x]; simpl in *.
  - rewrite ptr_eqb_refl. repeat hstep.
    eexists. split_and!; [reflexivity | hlook | rep_frame_tac | |].
    + apply rep_ctx_insert; [set_solver | done].
    + intros y Hy. rewrite lookup_insert_ne; [done | congruence].
  - rewrite ptr_eqb_ne by (apply root_not_in; set_solver). repeat hstep.
    eexists. split_and!; [reflexivity | hlook | rep_frame_tac | |].
    + apply rep_ctx_insert; [set_solver | done].
    + intros y Hy. rewrite lookup_insert_ne; [done | congruence].
Qed.

Lemma flags_ok_plug_iff C s :
  flags_ok (plug C s) ↔
  flags_ok s ∧ Forall (λ fr, used_fl (ffl fr) ∧ -2 ≤ fbal fr ≤ 2
                             ∧ flags_ok (fsib fr)) C.
Proof.
  revert s. induction C as [|fr C IH]; simpl; intros s.
  - rewrite Forall_nil. tauto.
  - rewrite IH, Forall_cons. destruct fr; simpl; tauto.
Qed.

Lemma flags_ok_set_path_bal lo :
  Forall (λ fr, used_fl (ffl fr) ∧ -2 ≤ fbal fr ≤ 2 ∧ flags_ok (fsib fr)) lo →
  Forall (λ fr, used_fl (ffl fr) ∧ -2 ≤ fbal fr ≤ 2 ∧ flags_ok (fsib fr))
    (set_path_bal lo).
Proof.
  intros H. unfold set_path_bal. rewrite Forall_fmap.
  eapply Forall_impl; [exact H|].
  intros [] (? & ? & ?); simpl; split_and!; auto; lia.
Qed.

Lemma set_height_keeps_top t P X :
  top t = P → set_height t X = set_top (set_height t X) P.
Proof. intros <-. by destruct t. Qed.

Lemma set_top_height_id t P :
  top t = P → t = set_top (set_height t (height t)) P.
Proof. intros <-. by destruct t. Qed.

Lemma set_top_height_top t q :
  set_top t q = set_top (set_height t (height t)) q.
Proof. by destruct t. Qed.

Lemma ins_rot_addrs a (S S2 : tree A) rot :
  ins_rot a S = Some (rot, S2) → addrs S2 ≡ₚ addrs S.
Proof.
  unfold ins_rot. intros H.
  repeat match type of H with
    | (if ?c then _ else _) = _ => destruct c
    | match ?x with _ => _ end = _ => destruct x
    | Some _ = Some _ => injection H as <- <-
    | None = Some _ => discriminate H
    end; solve_perm.
Qed.

Lemma ins_rot_flags a (S S2 : tree A) rot :
  (a = -1 ∨ a = 1) →
  ins_rot a S = Some (rot, S2) → flags_ok S → flags_ok S2.
Proof.
  unfold ins_rot. intros Ha H Hfl.
  repeat case_match; simplify_eq; simpl in *; split_and?; try tauto; lia.
Qed.

(** Steps A6 to A10 of [AVL_insert]. *)
Lemma insert_rebalance_spec t h k n fl Cf fuel rot dh tr' :
  let new := leaf n fl k in
  rep h (plug Cf new) →
  NoDup (addrs (plug Cf new)) →
  flags_ok (plug Cf new) →
  Forall (on_path (cmp_of t) k) Cf →
  ins_fix Cf new = Some (rot, dh, tr') →
  top t = root (plug Cf new) →
  (length Cf < fuel)%nat →
  ∃ h',
    insert_rebalance fuel t h k (Some n) (bp_ctx Cf).1 (bp_ctx Cf).2
    = Ok (rot,
          set_top (set_height t (if dh =? 1 then wrap_int (height t + 1)
                                 else height t)) (root tr'),
          h')
    ∧ rep h' tr'
    ∧ (∀ a, a ∉ addrs (plug Cf new) → h' !! a = h !! a).
Proof.
  intros new Hrep Hnd Hfl Hpath Hfix Htop Hfuel.
  unfold ins_fix in Hfix.
  destruct Cf as [|fr0 Cf0]; [done|].
  destruct (split_pivot_spec _ (fr0 :: Cf0))
    as (lo & pv & up & Hsp & HC & Hlo & Hpv & Hbp); [done|].
  rewrite Hsp in Hfix. rewrite Hbp. simpl fst. simpl snd.
  rewrite HC in *. clear HC Hsp Hbp fr0 Cf0.
  assert (Haddrs : addrs (plug (lo ++ pv :: up) new)
                   ≡ₚ n :: addrs_ctx lo ++ faddr pv :: addrs (fsib pv)
                         ++ addrs_ctx up).
  { by rewrite addrs_plug, addrs_ctx_app. }
  rewrite root_plug, ctx_root_app in Htop. simpl in Htop.
  rewrite plug_app in Hrep. simpl in Hrep.
  apply rep_plug in Hrep as [Hup Hsub]. rewrite root_fill1 in Hup.
  apply rep_fill1 in Hsub as (Hpvc & Hsib & Hlow).
  apply rep_plug in Hlow as [Hlo' Hnew].
  rewrite root_plug in Hpvc. simpl in Hpvc.
  rewrite Haddrs in Hnd.
  apply flags_ok_plug_iff in Hfl as [Hfn Hfl].
  apply Forall_app in Hfl as [Hfllo Hflup].
  apply Forall_cons in Hflup as [(Hupv & Hbpv & Hfsib) Hflup].
  apply Forall_app in Hpath as [Hplo Hpup].
  apply Forall_cons in Hpup as [Hppv Hpup].
  rewrite length_app in Hfuel. simpl in Hfuel.
  pose proof (used_fl_range _ Hupv) as Hrpv.
  set (q := ctx_root lo (Some n)) in *.
  apply NoDup_cons in Hnd as [Hn Hnd].
  apply NoDup_app in Hnd as (Hndlo & Hdlo & Hnd).
  apply NoDup_cons in Hnd as [Hpvn Hnd].
  apply NoDup_app in Hnd as (Hndsib & Hdsib & Hndup).
  (* the loop below the balance node *)
  destruct (insert_setbal_spec t k n lo h fuel) as (h1 & Hrun & Hlo1 & Hfr1);
    try done.
  { eapply Forall_impl; [exact Hfllo|]. simpl. tauto. }
  { apply NoDup_cons. split; [set_solver | done]. }
  { lia. }
  fold q in Hrun.
  set (S' := plug (set_path_bal lo) new) in *.
  assert (HqS : root S' = q).
  { unfold S'. by rewrite root_plug, ctx_root_set_path_bal. }
  assert (HS'addrs : addrs S' ≡ₚ n :: addrs_ctx lo).
  { unfold S'. by rewrite addrs_plug, addrs_ctx_set_path_bal. }
  assert (Hpv1 : h1 !! faddr pv = Some (fcell pv q)).
  { rewrite Hfr1; [done|]. intros Hin. apply Hdlo in Hin. set_solver. }
  assert (Hsib1 : rep h1 (fsib pv)).
  { eapply rep_frame; [|exact Hsib]. intros a Ha. apply Hfr1.
    intros Hin. apply Hdlo in Hin. set_solver. }
  assert (Hup1 : rep_ctx h1 up (Some (faddr pv))).
  { eapply rep_ctx_frame; [|exact Hup]. intros a Ha. apply Hfr1.
    intros Hin. apply Hdlo in Hin. set_solver. }
  assert (HS'1 : rep h1 S').
  { unfold S'. apply rep_plug. split; [done|].
    simpl. simpl in Hnew. rewrite Hfr1 by set_solver. done. }
  assert (Hrun' : ∃ a, a = fside pv ∧
    insert_rebalance fuel t h k (Some n) (Some (faddr pv)) (hd_addr up)
    = (if fbal pv =? 0 then
         h ← upd h1 (Some (faddr pv))
               (λ c, set_f c (AVL_setbal (f c) a));
         Ok (NoRotation, set_height t (wrap_int (height t + 1)), h)
       else if fbal pv =? - a then
         h ← upd h1 (Some (faddr pv))
               (λ c, set_f c (AVL_setbal (f c) 0));
         Ok (NoRotation, t, h)
       else
         nr ← load h1 q;
         '(rot, c, h) ←
           (if AVL_getbal (f nr) =? a
            then '(c, h) ← insert_single h1 a (Some (faddr pv)) q;
                 Ok (SingleRotation, c, h)
            else '(c, h) ← insert_double h1 a (Some (faddr pv)) q;
                 Ok (DoubleRotation, c, h));
         '(t, h) ← relink t h (hd_addr up) (Some (faddr pv)) c;
         Ok (rot, t, h))).
  { eexists. split; [reflexivity|].
    unfold insert_rebalance. rewrite (load_Some _ _ _ Hpvc). simpl.
    destruct pv as [b bb flb xb sib | b sib bb flb xb]; simpl in *;
      unfold payload; simpl; unfold cmp_of in Hppv.
    - destruct (Z.ltb_spec (eval t xb k (user t)) 0); [|lia]. simpl.
      rewrite Hrun. simpl. rewrite (load_Some _ _ _ Hpv1). simpl.
      rewrite getbal_enc by lia. done.
    - destruct (Z.ltb_spec (eval t xb k (user t)) 0); [lia|]. simpl.
      rewrite Hrun. simpl. rewrite (load_Some _ _ _ Hpv1). simpl.
      rewrite getbal_enc by lia. done. }
  destruct Hrun' as (a & Hadef & ->).
  assert (Ha : a = -1 ∨ a = 1) by (subst a; destruct pv; simpl; lia).
  rewrite <- Hadef in Hfix.
  assert (Hset : ∀ v, -2 ≤ v ≤ 2 →
    ∃ h', upd h1 (Some (faddr pv)) (λ c, set_f c (AVL_setbal (f c) v)) = Ok h'
      ∧ rep h' (plug up (fill1 (fset_bal pv v) S'))
      ∧ ∀ a0, a0 ∉ addrs (plug (lo ++ pv :: up) new) → h' !! a0 = h !! a0).
  { intros v Hv. rewrite (upd_Some _ _ _ _ Hpv1).
    eexists. split; [reflexivity|].
    assert (Hcell : set_f (fcell pv q) (AVL_setbal (f (fcell pv q)) v)
                    = fcell (fset_bal pv v) q).
    { destruct pv; simpl in *; by rewrite setbal_enc by lia. }
    rewrite Hcell. split.
    - apply rep_plug. rewrite root_fill1, faddr_fset_bal. split.
      + apply rep_ctx_insert; [|done]. intros Hin. set_solver.
      + apply rep_fill1. rewrite faddr_fset_bal, fsib_fset_bal, HqS.
        split_and!.
        * by rewrite lookup_insert_eq.
        * apply rep_insert; [set_solver | done].
        * apply rep_insert; [|done]. rewrite HS'addrs.
          intros [Heq | Hin]%elem_of_cons.
          { apply Hn. rewrite <- Heq. set_solver. }
          apply Hdlo in Hin. set_solver.
    - intros a0 Ha0. rewrite Haddrs in Ha0.
      rewrite lookup_insert_ne by set_solver. apply Hfr1. set_solver. }
  destruct (fbal pv =? 0) eqn:Hb0.
  { (* A7.i: the tree has grown *)
    injection Hfix as <- <- <-.
    destruct (Hset a) as (h' & -> & Hrep' & Hfr'); [lia|].
    exists h'. simpl. split_and!; [|done|done].
    rewrite root_plug, root_fill1, faddr_fset_bal.
    by rewrite <- set_height_keeps_top. }
  destruct (fbal pv =? - a) eqn:Hb1.
  { (* A7.ii: the tree is more balanced *)
    injection Hfix as <- <- <-.
    destruct (Hset 0) as (h' & -> & Hrep' & Hfr'); [lia|].
    exists h'. simpl. split_and!; [|done|done].
    rewrite root_plug, root_fill1, faddr_fset_bal.
    by rewrite <- set_top_height_id. }
  (* A7.iii: a rotation *)
  destruct (ins_rot a (fill1 pv S')) as [[rot' S2]|] eqn:Hrot; [|done].
  injection Hfix as <- <- <-.
  assert (HS1 : rep h1 (fill1 pv S')).
  { apply rep_fill1. by rewrite HqS. }
  assert (HSnd : NoDup (addrs (fill1 pv S'))).
  { rewrite addrs_fill1, HS'addrs. simpl. apply NoDup_cons. split.
    - clear -Hn. set_solver.
    - apply NoDup_app. split_and!; [done | |].
      + intros x Hx. apply Hdlo in Hx. clear -Hx. set_solver.
      + apply NoDup_cons. split; [clear -Hpvn; set_solver | done]. }
  assert (HSfl : flags_ok (fill1 pv S')).
  { apply flags_ok_fill1. split; [done|]. split; [done|]. split; [done|].
    unfold S'. apply flags_ok_plug_iff. split; [done|].
    by apply flags_ok_set_path_bal. }
  subst a. rewrite <- HqS.
  destruct (ins_rot_heap _ h1 pv S' rot' S2 HS1 HSnd HSfl Hrot)
    as (h2 & Hrun2 & Hrep2 & Hfr2).
  assert (HS2addrs : addrs S2 ≡ₚ addrs (fill1 pv S')) by (by eapply ins_rot_addrs).
  assert (HSaddrs : addrs (fill1 pv S')
                    ≡ₚ n :: addrs_ctx lo ++ faddr pv :: addrs (fsib pv)).
  { by rewrite addrs_fill1, HS'addrs. }
  assert (Hdup : ∀ x, x ∈ addrs_ctx up → x ∉ addrs (fill1 pv S')).
  { intros x Hx. rewrite HSaddrs.
    clear -Hx Hn Hdlo Hpvn Hdsib. set_solver. }
  destruct (relink_spec t h2 up (faddr pv) (root S2))
    as (h3 & Hrun3 & Hrep3 & Hfr3).
  { eapply rep_ctx_frame; [|exact Hup1]. intros x Hx. apply Hfr2. by apply Hdup. }
  { apply NoDup_cons. split; [|done]. clear -Hpvn. set_solver. }
  exists h3. split_and!.
  - destruct (load h1 (root S')) as [nr|] eqn:Hld; [|done].
    simpl in Hrun2 |- *. rewrite Hrun2. simpl. rewrite Hrun3. simpl.
    rewrite root_plug. do 3 f_equal.
    destruct up as [|fr up']; simpl.
    + apply set_top_height_top.
    + by apply set_top_height_id.
  - apply rep_plug. split; [done|].
    eapply rep_frame; [|exact Hrep2]. intros x Hx. apply Hfr3.
    destruct up as [|fr up']; simpl; [done|]. intros [= ->].
    rewrite HS2addrs in Hx. eapply Hdup; [|exact Hx]. simpl. set_solver.
  - intros x Hx. rewrite Haddrs in Hx.
    rewrite Hfr3, Hfr2, Hfr1.
    + done.
    + clear -Hx. set_solver.
    + rewrite HSaddrs. clear -Hx. set_solver.
    + destruct up as [|fr up']; simpl; [done|]. intros [= ->].
      apply Hx. simpl. clear. set_solver.
Qed.


End InsertRebalance.


(** * [AVL_insert] on a well-formed state *)

Section InsertTop.

Variables (A U : Type).
Implicit Types (h : gmap nat (AVL_NODE A)) (t : AVL_TREE A U) (m : mem A).
Implicit Types (s tr : tree A) (C lo up : list (frame A)) (fr pv : frame A).

Lemma wrap_int_id z : -2147483648 ≤ z ≤ INT_MAX → wrap_int z = z.
Proof.
  unfold wrap_int, INT_MAX. intros Hz.
  rewrite Z.mod_small by lia. lia.
Qed.

Lemma length_plug_hgt C s : (length C + hgt s ≤ hgt (plug C s))%nat.
Proof.
  revert s. induction C as [|fr C IH]; intros s; simpl; [lia|].
  specialize (IH (fill1 fr s)). rewrite hgt_fill1 in IH. lia.
Qed.

Lemma addrs_plug_set_path_bal lo s :
  addrs (plug (set_path_bal lo) s) ≡ₚ addrs (plug lo s).
Proof. by rewrite !addrs_plug, addrs_ctx_set_path_bal. Qed.

Lemma addrs_fill1_fset_bal pv b s :
  addrs (fill1 (fset_bal pv b) s) = addrs (fill1 pv s).
Proof. by destruct pv. Qed.

Lemma addrs_fill1_perm pv s s' :
  addrs s ≡ₚ addrs s' → addrs (fill1 pv s) ≡ₚ addrs (fill1 pv s').
Proof. intros H. by rewrite !addrs_fill1, H. Qed.

Lemma addrs_plug_perm C s s' :
  addrs s ≡ₚ addrs s' → addrs (plug C s) ≡ₚ addrs (plug C s').
Proof. intros H. by rewrite !addrs_plug, H. Qed.

Lemma ins_fix_addrs Cf new rot dh tr' :
  ins_fix Cf new = Some (rot, dh, tr') → addrs tr' ≡ₚ addrs (plug Cf new).
Proof.
  destruct Cf as [|fr0 Cf0]; [done|].
  destruct (split_pivot_spec _ (fr0 :: Cf0)) as (lo & pv & up & Hsp & HC & _);
    [done|].
  unfold ins_fix. rewrite Hsp, HC, plug_app. simpl.
  pose proof (addrs_plug_set_path_bal lo new) as Hlo.
  repeat case_match; intros; simplify_eq; simpl.
  - apply addrs_plug_perm. rewrite addrs_fill1_fset_bal.
    by apply addrs_fill1_perm.
  - apply addrs_plug_perm. rewrite addrs_fill1_fset_bal.
    by apply addrs_fill1_perm.
  - apply addrs_plug_perm.
    etrans; [eapply ins_rot_addrs; eassumption|]. by apply addrs_fill1_perm.
Qed.

Lemma ins_fix_flags Cf new rot dh tr' :
  ins_fix Cf new = Some (rot, dh, tr') → flags_ok (plug Cf new) → flags_ok tr'.
Proof.
  destruct Cf as [|fr0 Cf0]; [done|].
  destruct (split_pivot_spec _ (fr0 :: Cf0)) as (lo & pv & up & Hsp & HC & _);
    [done|].
  unfold ins_fix. rewrite Hsp, HC, plug_app. simpl.
  intros Hfix Hfl.
  apply flags_ok_plug_iff in Hfl as [Hfl Hup].
  apply flags_ok_fill1 in Hfl as (Hpfl & Hpb & Hsib & Hfl).
  apply flags_ok_plug_iff in Hfl as [Hnew Hlo].
  assert (HS' : flags_ok (plug (set_path_bal lo) new)).
  { apply flags_ok_plug_iff. split; [done|]. by apply flags_ok_set_path_bal. }
  assert (Hside : fside pv = -1 ∨ fside pv = 1) by (destruct pv; simpl; auto).
  repeat case_match; simplify_eq; simpl.
  - apply flags_ok_plug_iff. split; [|done]. apply flags_ok_fill1.
    destruct pv; simpl in *; split_and!; try done; lia.
  - apply flags_ok_plug_iff. split; [|done]. apply flags_ok_fill1.
    destruct pv; simpl in *; split_and!; try done; lia.
  - apply flags_ok_plug_iff. split; [|done].
    eapply ins_rot_flags; [exact Hside | eassumption |].
    apply flags_ok_fill1. done.
Qed.

Lemma represents_eta t t' h tr fs :
  represents t h tr fs →
  top t' = top t → freeStack t' = freeStack t → allocAtOnce t' = allocAtOnce t →
  represents t' h tr fs.
Proof.
  intros [] Ht Hf Ha. split; try done.
  - by rewrite Ht.
  - by rewrite Hf.
  - by rewrite Ha.
Qed.

(** [AVL_insert] on a state that holds the tree [tr]: a match leaves the
    state as it is; otherwise the new element belongs at the end of the
    search path [Cf], and either no memory is left and no cell changes, or
    the state holds the tree [ins_tree Cf] with the new element at its
    place in the order. *)
Lemma insert_ok_fs t m tr fs k fuel :
  Inv t m tr fs → size t < INT_MAX → (hgt tr < fuel)%nat →
  match ins_path (cmp_of t) k [] tr with
  | None => AVL_insert_rot fuel t m k = Ok (1, NoRotation, t, m)
  | Some Cf =>
      tr = plug Cf E ∧ Forall (on_path (cmp_of t) k) Cf
      ∧ ((∃ m', AVL_insert_rot fuel t m k = Ok (2, NoRotation, t, m')
                ∧ cells m' = cells m ∧ blocks m' = blocks m
                ∧ fs = [] ∧ hd false (oracle m) = false)
         ∨ (∃ n fl rot dh tr' t' m' fs',
              AVL_insert_rot fuel t m k = Ok (0, rot, t', m')
              ∧ ins_tree Cf (leaf n fl k) = Some (rot, dh, tr')
              ∧ Inv t' m' tr' fs'
              ∧ inorder tr' = lefts Cf ++ k :: rights Cf
              ∧ eval t' = eval t ∧ user t' = user t
              ∧ allocAtOnce t' = allocAtOnce t
              ∧ (fs ≠ [] ∨ hd false (oracle m) = true)
              ∧ refilled t m fs = n :: fs'))
  end.
Proof.
  intros [Hrp Havl Hht Hsz Hmax] Hlt Hfuel.
  destruct tr as [|a tl b fl x tr1] eqn:Htr.
  { (* the empty tree *)
    simpl. split; [done|]. split; [done|].
    pose proof (rp_top Hrp) as Htop. simpl in Htop.
    unfold AVL_insert_rot. rewrite Htop.
    destruct (newNode_spec _ _ t m E fs Hrp)
      as [(m' & Hrun & Hc & Hb & Hfs & Ho)
         | (n & fsp & m' & fs' & fl & Hrun & Hn & Hfl & Hfree & Hnd & _ & Ho
            & Hpop)].
    - left. exists m'. rewrite Hrun. simpl. done.
    - right. rewrite Hrun. simpl. erewrite upd_Some by exact Hn. simpl.
      simpl in Hnd. apply NoDup_cons in Hnd as [Hnfs Hnd].
      eexists n, fl, NoRotation, 1, _, _, _, fs'.
      split; [reflexivity|]. split; [reflexivity|].
      simpl in Hsz. rewrite Hsz.
      split_and!; try done.
      split; simpl.
      + split; simpl; try done.
        * split_and!; try done. apply lookup_insert_eq.
        * by apply free_list_insert.
        * by apply NoDup_cons.
        * apply (rp_alloc Hrp).
      + lia.
      + done.
      + by rewrite wrap_int_id by (unfold INT_MAX; lia).
      + rewrite wrap_int_id by (unfold INT_MAX; lia). unfold INT_MAX. lia. }
  rewrite <- Htr in *. assert (Hne : tr ≠ E) by (by rewrite Htr).
  clear Htr a tl b fl x tr1.
  pose proof (insert_search_spec _ _ k tr [] fuel t m (top t) None fs Hne) as Hs.
  simpl in Hs. specialize (Hs Hrp (Forall_nil_2 _) Hfuel).
  assert (Hbp : (top t, None) = bp_at tr []).
  { rewrite (rp_top Hrp). by destruct tr. }
  specialize (Hs Hbp).
  pose proof (rp_top Hrp) as Htop.
  assert (Htop' : ∃ a, top t = Some a).
  { rewrite Htop. destruct tr; [done|]. eauto. }
  destruct Htop' as [a0 Htop'].
  unfold AVL_insert_rot. rewrite Htop'. rewrite <- Htop', <- Htop in *.
  destruct (ins_path (cmp_of t) k [] tr) as [Cf|]; simpl in Hs.
  2:{ destruct Hs as (b' & p' & ->). done. }
  destruct Hs as (HtrC & HCne & Hpath & Hs). split; [done|]. split; [done|].
  destruct Hs as [(b' & p' & m' & -> & Hc & Hb & Hfs & Ho)
                 | (n & fsp & m' & fs' & fl & -> & Hrep & Hfl & Hfree & Hnd & Ho
                    & Hpop)].
  { left. exists m'. done. }
  right. simpl.
  set (new := leaf n fl k) in *.
  set (t2 := set_size (set_freeStack t fsp) (wrap_int (size t + 1))).
  assert (Hnew : avl new) by (simpl; lia).
  destruct (ins_fix_ok _ Cf new HCne) as (rot & dh & tr' & Hfix & Havl' & Hh' & Hdh & Hin' & Hcnt');
    [by rewrite <- HtrC | done | done |].
  assert (Hflags : flags_ok (plug Cf new)).
  { apply flags_ok_plug_iff. split; [simpl; split_and!; try done; lia|].
    pose proof (rp_flags Hrp) as Hf. rewrite HtrC in Hf.
    by apply flags_ok_plug_iff in Hf as [_ Hf]. }
  apply NoDup_app in Hnd as (Hnd1 & Hdisj & Hnd2).
  destruct (insert_rebalance_spec _ _ t2 (cells m') k n fl Cf fuel rot dh tr')
    as (h' & Hrun & Hrep' & Hfr); try done.
  { rewrite root_plug. simpl. rewrite Htop, HtrC, root_plug.
    destruct Cf as [|fr Cf]; [done|]. apply ctx_root_cons_ne. }
  { pose proof (length_plug_hgt Cf E). rewrite <- HtrC in *. simpl in *. lia. }
  fold new. rewrite Hrun. simpl.
  eexists n, fl, rot, dh, tr', _, _, fs'.
  split; [reflexivity|].
  split; [by destruct Cf|].
  pose proof (ins_fix_addrs _ _ _ _ _ Hfix) as Haddrs.
  pose proof (hgt_le_count _ tr) as Hhc.
  split_and!; try done.
  - split; simpl.
    + split; simpl; try done.
      * eapply free_list_frame; [|exact Hfree]. intros x Hx. apply Hfr.
        intros Hx'. by eapply Hdisj.
      * apply NoDup_app. split_and!; [by rewrite Haddrs | | done].
        intros x Hx. apply Hdisj. by rewrite <- Haddrs.
      * by eapply ins_fix_flags.
      * apply (rp_alloc Hrp).
    + done.
    + rewrite <- HtrC in Hh'. destruct Hdh as [-> | ->]; simpl.
      * lia.
      * rewrite wrap_int_id; unfold INT_MAX in *; lia.
    + rewrite <- HtrC in Hcnt'. rewrite wrap_int_id by (unfold INT_MAX in *; lia).
      rewrite Hcnt'. simpl. lia.
    + rewrite wrap_int_id by (unfold INT_MAX in *; lia). lia.
  - rewrite Hin', inorder_plug. done.
Qed.

(** The same without the account of the free stack. *)
Lemma insert_ok t m tr fs k fuel :
  Inv t m tr fs → size t < INT_MAX → (hgt tr < fuel)%nat →
  match ins_path (cmp_of t) k [] tr with
  | None => AVL_insert_rot fuel t m k = Ok (1, NoRotation, t, m)
  | Some Cf =>
      tr = plug Cf E ∧ Forall (on_path (cmp_of t) k) Cf
      ∧ ((∃ m', AVL_insert_rot fuel t m k = Ok (2, NoRotation, t, m')
                ∧ cells m' = cells m ∧ blocks m' = blocks m
                ∧ fs = [] ∧ hd false (oracle m) = false)
         ∨ (∃ n fl rot dh tr' t' m' fs',
              AVL_insert_rot fuel t m k = Ok (0, rot, t', m')
              ∧ ins_tree Cf (leaf n fl k) = Some (rot, dh, tr')
              ∧ Inv t' m' tr' fs'
              ∧ inorder tr' = lefts Cf ++ k :: rights Cf
              ∧ eval t' = eval t ∧ user t' = user t
              ∧ allocAtOnce t' = allocAtOnce t
              ∧ (fs ≠ [] ∨ hd false (oracle m) = true)))
  end.
Proof.
  intros HI Hsz Hfuel. pose proof (insert_ok_fs t m tr fs k fuel HI Hsz Hfuel) as H.
  destruct (ins_path (cmp_of t) k [] tr) as [Cf|]; [|done].
  destruct H as (Htr & Hpath & [Hno | Hyes]).
  - split; [done|]. split; [done|]. by left.
  - split; [done|]. split; [done|]. right.
    destruct Hyes as (n & fl & rot & dh & tr' & t' & m' & fs' & H1 & H2 & H3
                      & H4 & H5 & H6 & H7 & H8 & _).
    by exists n, fl, rot, dh, tr', t', m', fs'.
Qed.

End InsertTop.


(** * [AVL_delete]: the way down *)

Section Stack.

Lemma stack_path_nil stack : stack_path stack [].
Proof. intros i a. by rewrite reverse_nil, lookup_nil. Qed.

Lemma stack_path_tail stack a path :
  stack_path stack (a :: path) → stack_path stack path.
Proof.
  intros H i b Hi. apply H. rewrite reverse_cons.
  by apply lookup_app_l_Some.
Qed.

Lemma stack_path_app_r stack D path :
  stack_path stack (D ++ path) → stack_path stack path.
Proof.
  induction D as [|a D IH]; [done|]. intros H. apply IH.
  by eapply stack_path_tail.
Qed.

Lemma stack_get_top stack a path :
  stack_path stack (a :: path) → stack_get stack (length path) = Ok (Some a).
Proof.
  intros H. unfold stack_get. erewrite H; [done|].
  rewrite reverse_cons, lookup_app_r by (by rewrite length_reverse).
  by rewrite length_reverse, Nat.sub_diag.
Qed.

Lemma stack_set_push stack path a :
  stack_path stack path → (length path < length stack)%nat →
  ∃ stack',
    stack_set stack (length path) (Some a) = Ok stack'
    ∧ stack_path stack' (a :: path)
    ∧ stack' !! length path = Some (Some a)
    ∧ length stack' = length stack.
Proof.
  intros H Hlen. exists (<[length path := Some a]> stack).
  unfold stack_set. rewrite (proj2 (Nat.ltb_lt _ _) Hlen).
  split_and!; [done | | by apply list_lookup_insert_eq | by rewrite length_insert].
  intros i b. rewrite reverse_cons. intros Hi.
  apply lookup_app_Some in Hi as [Hi | [Hge Hi]].
  - pose proof (lookup_lt_Some _ _ _ Hi) as Hlt. rewrite length_reverse in Hlt.
    rewrite list_lookup_insert_ne by lia. by apply H.
  - rewrite length_reverse in *. apply list_lookup_singleton_Some in Hi as [Hi ->].
    assert (i = length path) as -> by lia. by apply list_lookup_insert_eq.
Qed.

Lemma stack_set_mid stack D a c path :
  stack_path stack (D ++ a :: path) → (length path < length stack)%nat →
  ∃ stack',
    stack_set stack (length path) (Some c) = Ok stack'
    ∧ stack_path stack' (D ++ c :: path)
    ∧ length stack' = length stack.
Proof.
  intros H Hlen. exists (<[length path := Some c]> stack).
  unfold stack_set. rewrite (proj2 (Nat.ltb_lt _ _) Hlen).
  split_and!; [done | | by rewrite length_insert].
  intros i b. rewrite reverse_app, reverse_cons, <- app_assoc. intros Hi.
  destruct (decide (i = length path)) as [-> | Hne].
  - rewrite lookup_app_r in Hi by (by rewrite length_reverse).
    rewrite length_reverse, Nat.sub_diag in Hi. simpl in Hi.
    injection Hi as <-. by apply list_lookup_insert_eq.
  - rewrite list_lookup_insert_ne by done. apply H.
    rewrite reverse_app, reverse_cons, <- app_assoc.
    apply lookup_app_Some in Hi as [Hi | [Hge Hi]].
    + by apply lookup_app_l_Some.
    + rewrite length_reverse in *.
      rewrite lookup_app_r by (rewrite length_reverse; lia).
      rewrite length_reverse.
      destruct (i - length path)%nat as [|j] eqn:Hj; [lia|]. done.
Qed.

End Stack.

Section DeleteSearch.

Variables (A U : Type).
Implicit Types (h : gmap nat (AVL_NODE A)) (t : AVL_TREE A U) (m : mem A).
Implicit Types (s tr : tree A) (C D : list (frame A)) (fr : frame A).

Lemma hd_addr_map C : hd_addr C = head (map faddr C).
Proof. by destruct C. Qed.

Lemma del_path_plug cmp k : ∀ s C C' s',
  del_path cmp k C s = Some (C', s') →
  plug C' s' = plug C s
  ∧ (∃ a tl b fl x tr, s' = T a tl b fl x tr ∧ cmp x k = 0)
  ∧ (length C' + hgt s' ≤ length C + hgt s)%nat
  ∧ (Forall (on_path cmp k) C → Forall (on_path cmp k) C').
Proof.
  induction s as [|a tl IHl b fl x tr IHr]; intros C C' s'; simpl; [done|].
  destruct (Z.eqb_spec (cmp x k) 0) as [He | Hne].
  { intros [= <- <-]. split; [done|]. split; [by eauto 10|]. done. }
  destruct (Z.ltb_spec (cmp x k) 0) as [Hlt | Hge]; intros Hp.
  - apply IHl in Hp as (Hp & Hx & Hlen & HF). simpl in *.
    split_and!; [done | done | lia |].
    intros HC. apply HF. by constructor.
  - apply IHr in Hp as (Hp & Hx & Hlen & HF). simpl in *.
    split_and!; [done | done | lia |].
    intros HC. apply HF. constructor; [simpl; lia | done].
Qed.

(** The search loop of [AVL_delete] stops at the node that [del_path]
    gives, with the path to it in [stack]. *)
Lemma delete_search_spec t h k : ∀ s C fuel stack,
  rep h s →
  stack_path stack (map faddr C) →
  length stack = AVL_MAX_DEPTH →
  (length C + hgt s ≤ AVL_MAX_DEPTH)%nat →
  (hgt s < fuel)%nat →
  match del_path (cmp_of t) k C s with
  | None =>
      ∃ stack' top' c' p',
        delete_search fuel t h k stack (length C) (root s) (hd_addr C)
        = Ok (stack', top', c', p', None)
  | Some (C', s') =>
      ∃ stack' a tl b fl x tr,
        s' = T a tl b fl x tr
        ∧ delete_search fuel t h k stack (length C) (root s) (hd_addr C)
          = Ok (stack', length C', Some a, hd_addr C', Some x)
        ∧ stack_path stack' (a :: map faddr C')
        ∧ length stack' = AVL_MAX_DEPTH
  end.
Proof.
  induction s as [|a tl IHl b fl x tr IHr]; intros C fuel stack Hrep Hst Hlen Hd Hf;
    (destruct fuel as [|fuel]; [simpl in Hf; lia|]).
  { simpl. eauto. }
  simpl in Hrep. destruct Hrep as (Ha & Hl & Hr).
  simpl in Hd, Hf.
  destruct (stack_set_push stack (map faddr C) a Hst)
    as (stack1 & Hset & Hst1 & _ & Hlen1).
  { rewrite length_map, Hlen. lia. }
  rewrite length_map in Hset.
  simpl delete_search.
  assert ((length C <? AVL_MAX_DEPTH)%nat = true) as -> by (apply Nat.ltb_lt; lia).
  rewrite Hset. simpl. erewrite load_Some by exact Ha. simpl.
  unfold payload. simpl. unfold del_path; fold (del_path (cmp_of t) k).
  unfold cmp_of at 1 2. 
  destruct (Z.eqb_spec (eval t x k (user t)) 0) as [He | Hne].
  { exists stack1, a, tl, b, fl, x, tr. split_and!; try done. congruence. }
  destruct (Z.ltb_spec (eval t x k (user t)) 0) as [Hlt | Hge].
  - specialize (IHl (FL a b fl x tr :: C) fuel stack1 Hl Hst1).
    simpl in IHl. apply IHl; [congruence | lia | lia].
  - specialize (IHr (FR a tl b fl x :: C) fuel stack1 Hr Hst1).
    simpl in IHr. apply IHr; [congruence | lia | lia].
Qed.

(** The loops down to the in-order neighbour. *)
Lemma delete_leftmost_spec h : ∀ s D K fuel stack p D' nb,
  s ≠ E → rep h s →
  leftmost s D = (D', nb) →
  stack_path stack (map faddr D ++ K) →
  length stack = AVL_MAX_DEPTH →
  (length D + length K + hgt s ≤ AVL_MAX_DEPTH)%nat →
  (hgt s < fuel)%nat →
  ∃ stack' c bc flc xc cr D1,
    nb = T c E bc flc xc cr
    ∧ D' = D1 ++ D
    ∧ plug D1 nb = s
    ∧ Forall (λ fr, fside fr = -1) D1
    ∧ delete_leftmost fuel h stack (length D + length K) (root s)
        (match D with [] => p | fr :: _ => Some (faddr fr) end)
      = Ok (stack', (length D' + length K)%nat, Some c,
            match D' with [] => p | fr :: _ => Some (faddr fr) end)
    ∧ stack_path stack' (map faddr D' ++ K)
    ∧ length stack' = AVL_MAX_DEPTH.
Proof.
  induction s as [|a tl IHl b fl x tr _];
    intros D K fuel stack p D' nb Hne Hrep Hlm Hst Hlen Hd Hf; [done|].
  destruct fuel as [|fuel]; [simpl in Hf; lia|].
  simpl in Hrep. destruct Hrep as (Ha & Hl & Hr).
  simpl in Hd, Hf. simpl delete_leftmost.
  erewrite load_Some by exact Ha. simpl.
  destruct tl as [|a1 tl1 b1 fl1 x1 tr1] eqn:Htl.
  { simpl in Hlm. injection Hlm as <- <-. simpl.
    exists stack, a, b, fl, x, tr, []. split_and!; try done. }
  rewrite <- Htl in *. 
  assert (Hlm' : leftmost tl (FL a b fl x tr :: D) = (D', nb)).
  { rewrite <- Hlm. simpl. by rewrite Htl. }
  assert (Hne' : tl ≠ E) by (by rewrite Htl).
  assert (root tl = Some a1) as Hroot by (by rewrite Htl).
  rewrite Hroot.
  assert ((length D + length K <? AVL_MAX_DEPTH)%nat = true) as ->.
  { apply Nat.ltb_lt. rewrite Htl in Hd. simpl in Hd. lia. }
  destruct (stack_set_push stack (map faddr D ++ K) a Hst)
    as (stack1 & Hset & Hst1 & _ & Hlen1).
  { rewrite length_app, length_map, Hlen. rewrite Htl in Hd. simpl in Hd. lia. }
  rewrite length_app, length_map in Hset. rewrite Hset. simpl.
  destruct (IHl (FL a b fl x tr :: D) K fuel stack1 p D' nb Hne' Hl Hlm')
    as (stack' & c & bc & flc & xc & cr & D1 & -> & -> & Hpl & Hside & Hrun & Hst' & Hlen');
    [done | congruence | simpl; lia | lia |].
  simpl in Hrun. rewrite Hroot in Hrun.
  exists stack', c, bc, flc, xc, cr, (D1 ++ [FL a b fl x tr]).
  split_and!; try done.
  - by rewrite <- app_assoc.
  - rewrite plug_app. simpl. by rewrite Hpl.
  - apply Forall_app. split; [done|]. by constructor.
Qed.

Lemma delete_rightmost_spec h : ∀ s D K fuel stack p D' nb,
  s ≠ E → rep h s →
  rightmost s D = (D', nb) →
  stack_path stack (map faddr D ++ K) →
  length stack = AVL_MAX_DEPTH →
  (length D + length K + hgt s ≤ AVL_MAX_DEPTH)%nat →
  (hgt s < fuel)%nat →
  ∃ stack' c cl bc flc xc D1,
    nb = T c cl bc flc xc E
    ∧ D' = D1 ++ D
    ∧ plug D1 nb = s
    ∧ Forall (λ fr, fside fr = 1) D1
    ∧ delete_rightmost fuel h stack (length D + length K) (root s)
        (match D with [] => p | fr :: _ => Some (faddr fr) end)
      = Ok (stack', (length D' + length K)%nat, Some c,
            match D' with [] => p | fr :: _ => Some (faddr fr) end)
    ∧ stack_path stack' (map faddr D' ++ K)
    ∧ length stack' = AVL_MAX_DEPTH.
Proof.
  induction s as [|a tl _ b fl x tr IHr];
    intros D K fuel stack p D' nb Hne Hrep Hlm Hst Hlen Hd Hf; [done|].
  destruct fuel as [|fuel]; [simpl in Hf; lia|].
  simpl in Hrep. destruct Hrep as (Ha & Hl & Hr).
  simpl in Hd, Hf. simpl delete_rightmost.
  erewrite load_Some by exact Ha. simpl.
  destruct tr as [|a1 tl1 b1 fl1 x1 tr1] eqn:Htr.
  { simpl in Hlm. injection Hlm as <- <-. simpl.
    exists stack, a, tl, b, fl, x, []. split_and!; try done. }
  rewrite <- Htr in *.
  assert (Hlm' : rightmost tr (FR a tl b fl x :: D) = (D', nb)).
  { rewrite <- Hlm. simpl. by rewrite Htr. }
  assert (Hne' : tr ≠ E) by (by rewrite Htr).
  assert (root tr = Some a1) as Hroot by (by rewrite Htr).
  rewrite Hroot.
  assert ((length D + length K <? AVL_MAX_DEPTH)%nat = true) as ->.
  { apply Nat.ltb_lt. rewrite Htr in Hd. simpl in Hd. lia. }
  destruct (stack_set_push stack (map faddr D ++ K) a Hst)
    as (stack1 & Hset & Hst1 & _ & Hlen1).
  { rewrite length_app, length_map, Hlen. rewrite Htr in Hd. simpl in Hd. lia. }
  rewrite length_app, length_map in Hset. rewrite Hset. simpl.
  destruct (IHr (FR a tl b fl x :: D) K fuel stack1 p D' nb Hne' Hr Hlm')
    as (stack' & c & cl & bc & flc & xc & D1 & -> & -> & Hpl & Hside & Hrun & Hst' & Hlen');
    [done | congruence | simpl; lia | lia |].
  simpl in Hrun. rewrite Hroot in Hrun.
  exists stack', c, cl, bc, flc, xc, (D1 ++ [FR a tl b fl x]).
  split_and!; try done.
  - by rewrite <- app_assoc.
  - rewrite plug_app. simpl. by rewrite Hpl.
  - apply Forall_app. split; [done|]. by constructor.
Qed.

End DeleteSearch.


(** * [AVL_delete]: taking the node out *)

Section DeleteUnlink.

Variables (A U : Type).
Implicit Types (h : gmap nat (AVL_NODE A)) (t : AVL_TREE A U) (m : mem A).
Implicit Types (s tr : tree A) (C D : list (frame A)) (fr : frame A).

Lemma set_top_id t : set_top t (top t) = t.
Proof. by destruct t. Qed.

Lemma delete_detach_spec h fr c q :
  h !! faddr fr = Some (fcell fr (Some c)) →
  root (fsib fr) ≠ Some c →
  used_fl (ffl fr) → -1 ≤ fbal fr ≤ 1 →
  delete_detach h (Some c) (Some (faddr fr)) q
  = Ok (shrink_flag fr, <[faddr fr := fcell (fshrink fr) q]> h).
Proof.
  intros Hc Hsib Hfl Hb. fl_ranges.
  unfold delete_detach, shrink_flag, fshrink.
  destruct fr as [a b fl x sib | a sib b fl x]; simpl in *.
  - repeat hstep. rewrite insert_insert_eq.
    replace (b - -1) with (b + 1) by lia. done.
  - repeat hstep. rewrite insert_insert_eq. done.
Qed.

Lemma delete_pick_spec h a tl b fl x tr Kc stack fuel :
  let s := T a tl b fl x tr in
  tl ≠ E → tr ≠ E → rep h s → used_fl fl → -2 ≤ b ≤ 2 →
  stack_path stack (a :: Kc) → length stack = AVL_MAX_DEPTH →
  (length Kc + hgt s ≤ AVL_MAX_DEPTH)%nat → (hgt s < fuel)%nat →
  ∃ stack' Fa D c cl bc flc xc cr s',
    del_pick s = Some (Fa, D, T c cl bc flc xc cr, s')
    ∧ s = fill1 Fa (plug D (T c cl bc flc xc cr))
    ∧ (s' = cl ∨ s' = cr)
    ∧ delete_pick fuel h stack (length Kc) (Some a)
      = Ok (stack', (length D + S (length Kc))%nat, Some c,
            hd_addr (D ++ [Fa]), root s')
    ∧ stack_path stack' (map faddr D ++ a :: Kc)
    ∧ length stack' = AVL_MAX_DEPTH.
Proof.
  intros s Htl Htr Hrep Hfl Hb Hst Hlen Hd Hf. subst s. fl_ranges.
  simpl in Hrep. destruct Hrep as (Ha & Hl & Hr). simpl in Hd, Hf.
  unfold delete_pick, del_pick. hstep. hstep.
  destruct (Z.gtb_spec b 0) as [Hpos | Hneg].
  - destruct (leftmost tr []) as [D nb] eqn:Hlm.
    destruct (delete_leftmost_spec _ h tr [] (a :: Kc) fuel stack (Some a) D nb)
      as (stack' & c & bc & flc & xc & cr & D1 & -> & HD & Hpl & _ & Hrun & Hst' & Hlen');
      [done | done | done | done | done | simpl; lia | lia |].
    rewrite app_nil_r in HD. subst D1. simpl in Hrun. rewrite Hrun. simpl.
    assert (Hc : h !! c = Some (mkNode None (root cr) (enc bc flc) (Some xc))).
    { rewrite <- Hpl in Hr. apply rep_plug in Hr as [_ Hr]. simpl in Hr. tauto. }
    hstep.
    exists stack', (FR a tl b fl x), D, c, E, bc, flc, xc, cr, cr.
    split_and!; try done.
    + simpl. by rewrite Hpl.
    + by right.
    + do 2 f_equal. by destruct D.
  - destruct (rightmost tl []) as [D nb] eqn:Hlm.
    destruct (delete_rightmost_spec _ h tl [] (a :: Kc) fuel stack (Some a) D nb)
      as (stack' & c & cl & bc & flc & xc & D1 & -> & HD & Hpl & _ & Hrun & Hst' & Hlen');
      [done | done | done | done | done | simpl; lia | lia |].
    rewrite app_nil_r in HD. subst D1. simpl in Hrun. rewrite Hrun. simpl.
    assert (Hc : h !! c = Some (mkNode (root cl) None (enc bc flc) (Some xc))).
    { rewrite <- Hpl in Hl. apply rep_plug in Hl as [_ Hl]. simpl in Hl. tauto. }
    hstep.
    exists stack', (FL a b fl x tr), D, c, cl, bc, flc, xc, E, cl.
    split_and!; try done.
    + simpl. by rewrite Hpl.
    + by left.
    + do 2 f_equal. by destruct D.
Qed.

Lemma fcell_freplace fr c fl x q :
  fcell (freplace fr c fl x) q
  = mkNode (l (fcell fr q)) (r (fcell fr q)) (enc (fbal fr) fl) (Some x).
Proof. by destruct fr. Qed.

Lemma fshrink_freplace fr c fl x :
  fshrink (freplace fr c fl x) = freplace (fshrink fr) c fl x.
Proof. by destruct fr. Qed.

Lemma shrink_flag_freplace fr c fl x :
  shrink_flag (freplace fr c fl x) = shrink_flag fr.
Proof. by destruct fr. Qed.

Lemma faddr_freplace fr c fl x : faddr (freplace fr c fl x) = c.
Proof. by destruct fr. Qed.

Lemma fsib_freplace fr c fl x : fsib (freplace fr c fl x) = fsib fr.
Proof. by destruct fr. Qed.

Lemma faddr_fshrink fr : faddr (fshrink fr) = faddr fr.
Proof. by destruct fr. Qed.

Lemma fsib_fshrink fr : fsib (fshrink fr) = fsib fr.
Proof. by destruct fr. Qed.

Lemma ffl_fshrink fr : ffl (fshrink fr) = ffl fr.
Proof. by destruct fr. Qed.

Lemma fbal_fshrink fr : fbal (fshrink fr) = fbal fr - fside fr.
Proof. by destruct fr. Qed.

Lemma fside_range fr : fside fr = -1 ∨ fside fr = 1.
Proof. destruct fr; simpl; auto. Qed.

Lemma fcell_flag fr q : f (fcell fr q) = enc (fbal fr) (ffl fr).
Proof. by destruct fr. Qed.

Lemma delete_replace_spec t h stack C Dk a c Fa q pl pr bc flc xc :
  h !! a = Some (fcell Fa q) →
  h !! c = Some (mkNode pl pr (enc bc flc) (Some xc)) →
  a ≠ c →
  used_fl (ffl Fa) → -2 ≤ fbal Fa ≤ 2 → used_fl flc → -2 ≤ bc ≤ 2 →
  rep_ctx h C (Some a) → NoDup (a :: addrs_ctx C) → c ∉ addrs_ctx C →
  stack_path stack (Dk ++ a :: map faddr C) →
  length stack = AVL_MAX_DEPTH → (length C < AVL_MAX_DEPTH)%nat →
  ∃ stack' h',
    delete_replace t h stack (length C) (Some c) (Some a) (hd_addr C)
    = Ok (stack', match C with [] => set_top t (Some c) | _ :: _ => t end, h')
    ∧ h' !! c = Some (fcell (freplace Fa c flc xc) q)
    ∧ rep_ctx h' C (Some c)
    ∧ stack_path stack' (Dk ++ c :: map faddr C)
    ∧ length stack' = AVL_MAX_DEPTH
    ∧ (∀ y, y ≠ c → Some y ≠ hd_addr C → h' !! y = h !! y).
Proof.
  intros Ha Hc Hac HflA HbA Hflc Hbc HC Hnd HcC Hst Hlen HlenC. fl_ranges.
  unfold delete_replace.
  do 6 hstep. rewrite fcell_flag. do 2 hstep.
  rewrite !insert_insert_eq.
  set (h2 := <[c := _]> h).
  destruct (relink_spec _ _ t h2 C a (Some c)) as (h3 & Hrun & HC3 & Hfr3);
    [by apply rep_ctx_insert | done |].
  rewrite Hrun. simpl.
  destruct (stack_set_mid stack Dk a c (map faddr C) Hst)
    as (stack' & Hset & Hst' & Hlen').
  { rewrite length_map. lia. }
  rewrite length_map in Hset. rewrite Hset. simpl.
  exists stack', h3. split_and!; try done.
  - rewrite Hfr3.
    + unfold h2. rewrite lookup_insert_eq, fcell_freplace. done.
    + destruct C as [|fr C']; [done|]. simpl. intros [= ->].
      apply HcC. simpl. left.
  - congruence.
  - intros y Hy Hy'. rewrite Hfr3 by done. unfold h2.
    by rewrite lookup_insert_ne.
Qed.

Lemma ctx_root_nonempty C q q' : C ≠ [] → ctx_root C q = ctx_root C q'.
Proof. destruct C; [done|]. intros _. apply ctx_root_cons_ne. Qed.

Lemma avl_plug_frames C s :
  avl (plug C s) → Forall (λ fr, -1 ≤ fbal fr ≤ 1) C.
Proof.
  revert s. induction C as [|fr C IH]; intros s Ha; [done|].
  simpl in Ha. constructor; [|by eapply IH].
  apply avl_plug in Ha as [Ha _]. apply avl_fill1 in Ha. tauto.
Qed.

(** The removal of a node with at most one subtree. *)
Lemma delete_unlink_one t h C a tl b fl x tr stack fuel :
  let s := T a tl b fl x tr in
  tl = E ∨ tr = E →
  rep h (plug C s) → NoDup (addrs (plug C s)) → flags_ok (plug C s) →
  avl (plug C s) → top t = root (plug C s) →
  ∃ C' s' h',
    del_unlink C s = Some (C', s')
    ∧ delete_unlink fuel t h stack (length C) (Some a) (hd_addr C)
      = Ok (shrink_hd_flag C', Some a, stack, length C',
            set_top t (root (plug C' s')), h')
    ∧ C' = C
    ∧ rep h' (plug (shrink_hd C') s')
    ∧ h' !! a = Some (mkNode (root tl) (root tr) (enc b fl) (Some x))
    ∧ (∀ y, y ∉ addrs (plug C s) → h' !! y = h !! y).
Proof.
  intros s Hone Hrep Hnd Hfl Havl Htop. subst s.
  set (s' := match tl with E => tr | _ => tl end).
  assert (Hun : del_unlink C (T a tl b fl x tr) = Some (C, s')).
  { unfold s', del_unlink. destruct tl; [done|]. destruct Hone as [? | ->]; done. }
  assert (Hs'rep : ∀ h0, rep h0 (T a tl b fl x tr) → rep h0 s').
  { intros h0 (_ & ? & ?). unfold s'. by destruct tl. }
  assert (Hs'addr : ∀ y, y ∈ addrs s' → y ∈ addrs tl ++ addrs tr).
  { intros y. unfold s'. destruct tl; simpl; [done|]. set_solver. }
  pose proof Hrep as Hrep0.
  apply rep_plug in Hrep as [HC Hs]. pose proof Hs as (Ha & Hl & Hr).
  rewrite addrs_plug in Hnd. simpl in Hnd.
  unfold delete_unlink. hstep.
  assert (Hsel : (ptr_eqb (root tl) None || ptr_eqb (root tr) None = true)
                 ∧ (if ptr_eqb (root tl) None then root tr else root tl) = root s').
  { unfold s'. destruct tl; simpl; [done|]. destruct Hone as [? | ->]; done. }
  destruct Hsel as [-> ->].
  exists C, s'. rewrite Hun.
  destruct C as [|fr C']; simpl hd_addr; cbv iota.
  { exists h. split_and!; try done. by apply Hs'rep. }
  simpl in HC. destruct HC as (Hfr & Hsib & HC').
  pose proof (avl_plug_frames _ _ Havl) as Hbal.
  apply Forall_cons in Hbal as [Hbfr _].
  apply flags_ok_plug_iff in Hfl as [_ HflC].
  apply Forall_cons in HflC as [(Hflfr & _ & _) _].
  simpl in Hnd. atomize.
  erewrite delete_detach_spec; [|exact Hfr| |done|done].
  2:{ intros Hroot. apply root_addrs in Hroot. done. }
  simpl. exists (<[faddr fr := fcell (fshrink fr) (root s')]> h).
  split_and!; try done.
  - do 2 f_equal. rewrite <- (set_top_id t) at 1.
    rewrite Htop. simpl. by rewrite !root_plug, !root_fill1.
  - change (plug (shrink_hd (fr :: C')) s') with (plug C' (fill1 (fshrink fr) s')).
    apply rep_plug. split.
    + rewrite root_fill1, faddr_fshrink. by apply rep_ctx_insert.
    + apply rep_fill1. rewrite faddr_fshrink, fsib_fshrink. split_and!.
      * apply lookup_insert_eq.
      * by apply rep_insert.
      * apply rep_insert; [|by apply Hs'rep].
        intros Hy. apply Hs'addr in Hy.
        apply elem_of_app in Hy as [Hy | Hy]; contradiction.
  - by rewrite lookup_insert_ne.
  - intros y Hy. rewrite lookup_insert_ne; [done|].
    intros <-. apply Hy. rewrite addrs_plug, addrs_fill1. clear. set_solver.
Qed.

Lemma fcell_eta fr q :
  fcell fr q
  = mkNode (l (fcell fr q)) (r (fcell fr q)) (enc (fbal fr) (ffl fr))
      (Some (fdata fr)).
Proof. by destruct fr. Qed.

Lemma fdata_fshrink fr : fdata (fshrink fr) = fdata fr.
Proof. by destruct fr. Qed.

Lemma del_unlink_two_eq C a tl b fl x tr :
  tl ≠ E → tr ≠ E →
  del_unlink C (T a tl b fl x tr)
  = match del_pick (T a tl b fl x tr) with
    | Some (Fa, D, T c _ _ flc xc _, s') =>
        Some (D ++ freplace Fa c flc xc :: C, s')
    | _ => None
    end.
Proof. intros Hl Hr. unfold del_unlink. by destruct tl, tr. Qed.

Lemma rep_child h a tl b fl x tr s' :
  rep h (T a tl b fl x tr) → s' = tl ∨ s' = tr → rep h s'.
Proof. intros (_ & ? & ?) [-> | ->]; done. Qed.

Lemma addrs_child tl tr s' y :
  s' = tl ∨ s' = tr → y ∈ addrs s' → y ∈ addrs tl ++ addrs tr.
Proof. intros [-> | ->] Hy; apply elem_of_app; auto. Qed.

(** The removal of a node with two subtrees. *)
Lemma delete_unlink_two t h C a tl b fl x tr stack fuel :
  let s := T a tl b fl x tr in
  tl ≠ E → tr ≠ E →
  rep h (plug C s) → NoDup (addrs (plug C s)) → flags_ok (plug C s) →
  avl (plug C s) → top t = root (plug C s) →
  stack_path stack (a :: map faddr C) → length stack = AVL_MAX_DEPTH →
  (length C + hgt s ≤ AVL_MAX_DEPTH)%nat → (hgt s < fuel)%nat →
  ∃ C' s' stack' h' l' r' b',
    del_unlink C s = Some (C', s')
    ∧ delete_unlink fuel t h stack (length C) (Some a) (hd_addr C)
      = Ok (shrink_hd_flag C', Some a, stack', length C',
            set_top t (root (plug C' s')), h')
    ∧ rep h' (plug (shrink_hd C') s')
    ∧ h' !! a = Some (mkNode l' r' (enc b' fl) (Some x)) ∧ -2 ≤ b' ≤ 2
    ∧ stack_path stack' (map faddr C') ∧ length stack' = AVL_MAX_DEPTH
    ∧ (∀ y, y ∉ addrs (plug C s) → h' !! y = h !! y).
Proof.
  intros s Htl Htr Hrep Hnd Hfl Havl Htop Hst Hlen Hd Hf. subst s.
  pose proof Hrep as Hrep0.
  apply rep_plug in Hrep as [HC Hs]. pose proof Hs as (Ha & _ & _).
  pose proof Hfl as Hfl0. apply flags_ok_plug in Hfl0 as (Hfla & Hba & _ & _).
  destruct (delete_pick_spec h a tl b fl x tr (map faddr C) stack fuel)
    as (stack1 & Fa & D & c & cl & bc & flc & xc & cr & s' & Hpick & HsD & Hs'
        & Hrun & Hst1 & Hlen1); try done.
  { by rewrite length_map. }
  rewrite length_map in Hrun.
  unfold delete_unlink. rewrite (del_unlink_two_eq C) by done.
  rewrite Hpick. hstep.
  rewrite (ptr_eqb_ne (root tl)) by (by destruct tl).
  rewrite (ptr_eqb_ne (root tr)) by (by destruct tr). simpl.
  rewrite Hrun. simpl.
  set (nb := T c cl bc flc xc cr) in *.
  assert (HFa : faddr Fa = a ∧ ffl Fa = fl ∧ fbal Fa = b ∧ fdata Fa = x).
  { destruct Fa; simpl in HsD; injection HsD; intros; subst; done. }
  destruct HFa as (HFa1 & HFa2 & HFa3 & HFa4).
  assert (Hwhole : plug C (T a tl b fl x tr) = plug (D ++ Fa :: C) nb).
  { rewrite plug_app. simpl. by rewrite <- HsD. }
  rewrite Hwhole in Hnd, Hfl, Havl, Hrep0.
  pose proof (avl_plug_frames _ _ Havl) as Hbal.
  apply flags_ok_plug_iff in Hfl as [Hflnb HflC].
  destruct Hflnb as (Hflc & Hbc & _ & _).
  apply rep_plug in Hrep0 as [HDC Hnb].
  pose proof Hnb as (Hc & _ & _).
  apply rep_ctx_app in HDC as [HD HFaC]. simpl in HFaC.
  destruct HFaC as (HFa & HFsib & _).
  rewrite addrs_plug, addrs_ctx_app in Hnd. simpl in Hnd.
  apply Forall_app in Hbal as [HbalD HbalFa].
  apply Forall_cons in HbalFa as [HbalFa _].
  apply Forall_app in HflC as [HflD HflFa].
  apply Forall_cons in HflFa as [(HflFa & _ & _) _].
  assert (HlenC : (length C < AVL_MAX_DEPTH)%nat) by (simpl in Hd; lia).
  assert (Hs'rep : rep h s') by (by eapply rep_child).
  assert (Hs'addr : ∀ y, y ∈ addrs s' → y ∈ addrs cl ++ addrs cr).
  { intros y. by apply addrs_child. }
  simpl in HC. atomize.
  assert (Hac : a ≠ c) by congruence.
  assert (HndC : NoDup (a :: addrs_ctx C)).
  { apply NoDup_cons. split; [congruence | done]. }
  assert (HaC : a ∉ addrs_ctx C) by congruence.
  assert (Htop' : match C with [] => set_top t (Some c) | _ :: _ => t end
                  = set_top t (root (plug (D ++ freplace Fa c flc xc :: C) s'))).
  { rewrite plug_app. simpl. rewrite !root_plug.
    destruct C as [|frC C']; simpl.
    - by destruct Fa.
    - rewrite <- (set_top_id t) at 1. rewrite Htop. simpl.
      by rewrite !root_plug, !root_fill1. }
  assert (Hin : ∀ y, y = c ∨ y = a ∨ y ∈ addrs_ctx D ∨ y ∈ addrs_ctx C
                     → y ∈ addrs (plug C (T a tl b fl x tr))).
  { intros y Hy. rewrite Hwhole, addrs_plug, addrs_ctx_app. simpl.
    rewrite HFa1. clear -Hy. set_solver. }
  destruct D as [|frD D'].
  - (* the neighbour is a child of the node *)
    simpl in HFa, Hst1. simpl hd_addr.
    erewrite (delete_detach_spec h Fa c (root s')); [|exact HFa| |done|done].
    2:{ intros Hroot. by apply root_addrs in Hroot. }
    simpl. set (h1 := <[faddr Fa := _]> h).
    destruct (delete_replace_spec t h1 stack1 C [] a c (fshrink Fa) (root s')
                (root cl) (root cr) bc flc xc)
      as (stack' & h3 & Hrun3 & Hc3 & HC3 & Hst3 & Hlen3 & Hfr3); try done.
    { unfold h1. rewrite HFa1. apply lookup_insert_eq. }
    { unfold h1. rewrite lookup_insert_ne by congruence. done. }
    { by rewrite ffl_fshrink. }
    { rewrite fbal_fshrink. pose proof (fside_range Fa). lia. }
    { unfold h1. apply rep_ctx_insert; [congruence | done]. }
    rewrite Hrun3. simpl.
    exists (freplace Fa c flc xc :: C), s', stack', h3,
      (l (fcell (fshrink Fa) (root s'))), (r (fcell (fshrink Fa) (root s'))),
      (fbal (fshrink Fa)).
    assert (Hh3 : ∀ y, y ≠ c → y ≠ a → y ∉ addrs_ctx C → h3 !! y = h !! y).
    { intros y ? ? Hy. rewrite Hfr3; [|done|].
      - unfold h1. rewrite lookup_insert_ne by congruence. done.
      - destruct C as [|frC C']; [done|]. simpl. intros [= ->].
        apply Hy. simpl. left. }
    assert (Hbs : -2 ≤ fbal (fshrink Fa) ≤ 2).
    { rewrite fbal_fshrink. pose proof (fside_range Fa). lia. }
    split_and!; try done; try lia.
    + unfold shrink_hd_flag. rewrite shrink_flag_freplace. simpl length.
      simpl in Htop'. by rewrite Htop'.
    + simpl. apply rep_plug. split.
      * rewrite root_fill1, faddr_fshrink, faddr_freplace. done.
      * apply rep_fill1.
        rewrite faddr_fshrink, faddr_freplace, fsib_fshrink, fsib_freplace.
        rewrite fshrink_freplace. split_and!; [done | |].
        -- eapply rep_frame; [|exact HFsib]. intros y Hy.
           apply Hh3; intros ?; subst; try done.
           match goal with H : ∀ y, y ∈ addrs (fsib Fa) → y ∉ addrs_ctx C |- _ =>
             by eapply H end.
        -- eapply rep_frame; [|exact Hs'rep]. intros y Hy.
           apply Hs'addr in Hy. apply elem_of_app in Hy as [Hy | Hy].
           ++ apply Hh3; intros ?; subst; try done.
              match goal with H : ∀ y, y ∈ addrs cl → y ∉ addrs_ctx C |- _ =>
                by eapply H end.
           ++ apply Hh3; intros ?; subst; try done.
              match goal with H : ∀ y, y ∈ addrs cr → y ∉ addrs_ctx C |- _ =>
                by eapply H end.
    + rewrite Hfr3; [|done|].
      * unfold h1. rewrite HFa1, lookup_insert_eq.
        rewrite (fcell_eta (fshrink Fa)), ffl_fshrink, fdata_fshrink.
        by rewrite HFa2, HFa4.
      * destruct C as [|frC C']; [done|]. simpl. intros [= ->].
        apply HaC. simpl. left.
    + simpl. by rewrite faddr_freplace.
    + intros y Hy. apply Hh3; intros ?; apply Hy, Hin; auto.
  - (* the neighbour lies deeper *)
    simpl in HD, HFa. destruct HD as (HfrD & HsibD & HD').
    apply Forall_cons in HbalD as [HbalfrD _].
    apply Forall_cons in HflD as [(HflfrD & _ & _) _].
    simpl addrs_ctx in *. atomize.
    simpl hd_addr.
    erewrite (delete_detach_spec h frD c (root s')); [|exact HfrD| |done|done].
    2:{ intros Hroot. by apply root_addrs in Hroot. }
    simpl. set (h1 := <[faddr frD := _]> h).
    set (q := ctx_root D' (Some (faddr frD))) in *.
    destruct (delete_replace_spec t h1 stack1 C (map faddr (frD :: D')) a c Fa q
                (root cl) (root cr) bc flc xc)
      as (stack' & h3 & Hrun3 & Hc3 & HC3 & Hst3 & Hlen3 & Hfr3); try done.
    { unfold h1. rewrite lookup_insert_ne by congruence. by rewrite <- HFa1. }
    { unfold h1. rewrite lookup_insert_ne by congruence. done. }
    { lia. }
    { unfold h1. by apply rep_ctx_insert. }
    { by apply NoDup_cons. }
    rewrite Hrun3. simpl.
    exists (frD :: D' ++ freplace Fa c flc xc :: C), s', stack', h3,
      (l (fcell Fa q)), (r (fcell Fa q)), (fbal Fa).
    assert (HhdC : ∀ y, y ∉ addrs_ctx C → Some y ≠ hd_addr C).
    { intros y Hy. destruct C as [|frC C']; [done|]. simpl. intros [= ->].
      apply Hy. simpl. left. }
    assert (Hh3 : ∀ y, y ≠ c → y ≠ faddr frD → y ∉ addrs_ctx C
                       → h3 !! y = h !! y).
    { intros y ? ? Hy. rewrite Hfr3; [|done|by apply HhdC].
      unfold h1. rewrite lookup_insert_ne by congruence. done. }
    split; [done|]. split.
    { rewrite <- app_comm_cons in Htop'.
      unfold shrink_hd_flag. rewrite <- Htop'. do 4 f_equal.
      simpl. rewrite !length_app. simpl. lia. }
    split.
    { simpl. rewrite plug_app. simpl. apply rep_plug. split.
      - by rewrite root_fill1, faddr_freplace.
      - apply rep_fill1. rewrite faddr_freplace, fsib_freplace.
        rewrite root_plug, root_fill1, faddr_fshrink. fold q.
        split; [done|]. split.
        { eapply rep_frame; [|exact HFsib]. intros y Hy.
          apply Hh3; [intros ?; subst; done.. | eauto]. }
        apply rep_plug. split.
        + rewrite root_fill1, faddr_fshrink.
          eapply rep_ctx_frame; [|exact HD']. intros y Hy.
          apply Hh3; [intros ?; subst; done.. | eauto].
        + apply rep_fill1. rewrite faddr_fshrink, fsib_fshrink. split_and!.
          * rewrite Hfr3; [|congruence|by apply HhdC].
            unfold h1. apply lookup_insert_eq.
          * eapply rep_frame; [|exact HsibD]. intros y Hy.
            apply Hh3; [intros ?; subst; done.. | eauto].
          * eapply rep_frame; [|exact Hs'rep]. intros y Hy.
            apply Hs'addr in Hy. apply elem_of_app in Hy as [Hy | Hy];
              (apply Hh3; [intros ?; subst; done.. | eauto]). }
    split.
    { rewrite Hfr3; [|done|by apply HhdC].
      unfold h1. rewrite lookup_insert_ne by congruence.
      rewrite <- HFa1, HFa, (fcell_eta Fa). by rewrite HFa2, HFa4. }
    split; [lia|]. split.
    { simpl. rewrite map_app. simpl. by rewrite faddr_freplace. }
    split; [done|].
    intros y Hy. apply Hh3; intros ?; apply Hy, Hin; subst; simpl; auto.
    do 2 right. left. left.
Qed.

(** The removal, in both branches: the heap holds the tree around the
    place [C'] where a subtree lost a level, with the balance at that
    place moved, and the cell of the node that was taken out is still
    there. *)
Lemma delete_unlink_spec t h C a tl b fl x tr stack fuel :
  let s := T a tl b fl x tr in
  rep h (plug C s) → NoDup (addrs (plug C s)) → flags_ok (plug C s) →
  avl (plug C s) → top t = root (plug C s) →
  stack_path stack (a :: map faddr C) → length stack = AVL_MAX_DEPTH →
  (length C + hgt s ≤ AVL_MAX_DEPTH)%nat → (hgt s < fuel)%nat →
  ∃ C' s' stack' h' l' r' b',
    del_unlink C s = Some (C', s')
    ∧ delete_unlink fuel t h stack (length C) (Some a) (hd_addr C)
      = Ok (shrink_hd_flag C', Some a, stack', length C',
            set_top t (root (plug C' s')), h')
    ∧ rep h' (plug (shrink_hd C') s')
    ∧ h' !! a = Some (mkNode l' r' (enc b' fl) (Some x)) ∧ -2 ≤ b' ≤ 2
    ∧ stack_path stack' (map faddr C') ∧ length stack' = AVL_MAX_DEPTH
    ∧ (∀ y, y ∉ addrs (plug C s) → h' !! y = h !! y).
Proof.
  intros s Hrep Hnd Hfl Havl Htop Hst Hlen Hd Hf. subst s.
  assert (Hcase : (tl = E ∨ tr = E) ∨ ¬ (tl = E ∨ tr = E)).
  { destruct tl; [by left; left|]. destruct tr; [by left; right|].
    right. by intros [|]. }
  destruct Hcase as [Hone | Htwo].
  - destruct (delete_unlink_one t h C a tl b fl x tr stack fuel)
      as (C' & s' & h' & Hun & Hrun & -> & Hrep' & Ha' & Hfr); try done.
    pose proof Hfl as Hfl0. apply flags_ok_plug in Hfl0 as (_ & Hba & _ & _).
    exists C, s', stack, h', (root tl), (root tr), b.
    split_and!; try done; try lia.
    by eapply stack_path_tail.
  - apply delete_unlink_two; try done.
    + intros ->. apply Htwo. by left.
    + intros ->. apply Htwo. by right.
Qed.

End DeleteUnlink.


(** * [AVL_delete]: the way back up *)

Section DeleteRotate.

Variables (A U : Type).
Implicit Types (h : gmap nat (AVL_NODE A)) (t : AVL_TREE A U) (m : mem A).
Implicit Types (s tr : tree A) (C D up : list (frame A)) (fr : frame A).

Lemma hd_addr_not_in up y : y ∉ addrs_ctx up → Some y ≠ hd_addr up.
Proof.
  intros Hy. destruct up as [|fr up']; [done|]. simpl. intros [= ->].
  apply Hy. simpl. left.
Qed.

Lemma root_cell h s :
  s ≠ E → rep h s → ∃ c nc, root s = Some c ∧ h !! c = Some nc ∧ c ∈ addrs s.
Proof.
  destruct s as [|c cl bc flc xc cr]; [done|]. intros _ (Hc & _).
  eexists _, _. split_and!; [done | exact Hc | simpl; left].
Qed.

Lemma delete_rotate_r_single t h up a s1 ba fla xa b bl bb flb xb br :
  let S := T a s1 ba fla xa (T b bl bb flb xb br) in
  0 ≤ bb → br ≠ E →
  rep h S → rep_ctx h up (Some a) →
  NoDup (addrs S ++ addrs_ctx up) → flags_ok S →
  ∃ h',
    delete_rotate_r t h (Some a) (hd_addr up)
    = Ok (if bb =? 0 then 0 else -1, Some b,
          match up with [] => set_top t (Some b) | _ :: _ => t end, h')
    ∧ rep h' (T b (T a s1 (if bb =? 0 then 1 else 0) fla xa bl)
                (if bb =? 0 then -1 else 0) flb xb br)
    ∧ rep_ctx h' up (Some b)
    ∧ (∀ y, y ∉ addrs S → y ∉ addrs_ctx up → h' !! y = h !! y).
Proof.
  intros S Hbb Hbr (Ha & Hs1 & Hb & Hbl & Hbrr) Hup Hnd Hfl. subst S.
  destruct Hfl as (Hfla & Hba & _ & (Hflb & Hbbr & _ & _)). fl_ranges.
  simpl in Hnd. atomize.
  destruct (root_cell h br Hbr Hbrr) as (c & nc & Hrc & Hc & Hcin).
  rewrite Hrc in *.
  unfold delete_rotate_r. do 2 hstep. rewrite getbal_enc by lia.
  assert ((bb >=? 0) = true) as -> by lia.
  do 5 hstep.
  match goal with |- context [relink t ?hh _ _ _] => set (h2 := hh) end.
  destruct (relink_spec _ _ t h2 up a (Some b)) as (h3 & Hrun & Hup3 & Hfr3).
  { unfold h2. by repeat apply rep_ctx_insert. }
  { by apply NoDup_cons. }
  rewrite Hrun. simpl.
  assert (Ha3 : h3 !! a = Some (mkNode (root s1) (root bl) (enc ba fla) (Some xa))).
  { rewrite Hfr3 by (by apply hd_addr_not_in). unfold h2.
    rewrite !insert_insert_eq. hlook. }
  assert (Hb3 : h3 !! b = Some (mkNode (Some a) (Some c) (enc bb flb) (Some xb))).
  { rewrite Hfr3 by (by apply hd_addr_not_in). unfold h2.
    rewrite !insert_insert_eq. hlook. }
  assert (Hrest : ∀ y, y ≠ a → y ≠ b → y ∉ addrs_ctx up → h3 !! y = h !! y).
  { intros y ? ? Hy. rewrite Hfr3 by (by apply hd_addr_not_in). unfold h2.
    by rewrite !lookup_insert_ne. }
  clearbody h2. clear Hrun Hfr3.
  hstep. rewrite getbal_enc by lia.
  destruct (Z.eqb_spec bb 0) as [-> | Hne]; repeat hstep.
  all: eexists; split; [reflexivity|]; rewrite ?Hrc.
  all: match goal with |- (?hh !! _ = _ ∧ _) ∧ _ => set (hf := hh) end.
  all: assert (Hfin : ∀ y, y ≠ a → y ≠ b → y ∉ addrs_ctx up → hf !! y = h !! y)
         by (intros y ? ? ?; unfold hf; rewrite !lookup_insert_ne by done;
             by apply Hrest).
  all: split_and!;
    [ unfold hf; hlook | unfold hf; hlook
    | eapply rep_frame; [|exact Hs1]; intros y Hy;
      apply Hfin; [intros ?; subst; done.. | eauto]
    | eapply rep_frame; [|exact Hbl]; intros y Hy;
      apply Hfin; [intros ?; subst; done.. | eauto]
    | eapply rep_frame; [|exact Hbrr]; intros y Hy;
      apply Hfin; [intros ?; subst; done.. | eauto]
    | unfold hf; by repeat apply rep_ctx_insert
    | intros y Hy Hy'; simpl in Hy; atomize; by apply Hfin ].
Qed.

Lemma delete_rotate_r_double t h up a s1 ba fla xa b c s2 bc flc xc s3 bb flb xb br :
  let S := T a s1 ba fla xa (T b (T c s2 bc flc xc s3) bb flb xb br) in
  bb < 0 →
  rep h S → rep_ctx h up (Some a) →
  NoDup (addrs S ++ addrs_ctx up) → flags_ok S →
  ∃ h',
    delete_rotate_r t h (Some a) (hd_addr up)
    = Ok (-1, Some c,
          match up with [] => set_top t (Some c) | _ :: _ => t end, h')
    ∧ rep h' (T c (T a s1 (if bc =? -1 then 0 else if bc =? 0 then 0 else -1)
                     fla xa s2)
                0 flc xc
                (T b s3 (if bc =? -1 then 1 else if bc =? 0 then 0 else 0)
                   flb xb br))
    ∧ rep_ctx h' up (Some c)
    ∧ (∀ y, y ∉ addrs S → y ∉ addrs_ctx up → h' !! y = h !! y).
Proof.
  intros S Hbb (Ha & Hs1 & Hb & (Hc & Hs2 & Hs3) & Hbrr) Hup Hnd Hfl. subst S.
  destruct Hfl as (Hfla & Hba & _ & (Hflb & Hbbr & (Hflc & Hbc & _ & _) & _)).
  fl_ranges. simpl in Hnd. atomize.
  unfold delete_rotate_r. do 2 hstep. rewrite getbal_enc by lia.
  assert ((bb >=? 0) = false) as -> by lia.
  do 5 hstep.
  match goal with |- context [relink t ?hh _ _ _] => set (h2 := hh) end.
  destruct (relink_spec _ _ t h2 up a (Some c)) as (h3 & Hrun & Hup3 & Hfr3).
  { unfold h2. by repeat apply rep_ctx_insert. }
  { by apply NoDup_cons. }
  rewrite Hrun. simpl.
  assert (Ha3 : h3 !! a = Some (mkNode (root s1) (root s2) (enc ba fla) (Some xa))).
  { rewrite Hfr3 by (by apply hd_addr_not_in). unfold h2.
    rewrite !insert_insert_eq. hlook. }
  assert (Hb3 : h3 !! b = Some (mkNode (root s3) (root br) (enc bb flb) (Some xb))).
  { rewrite Hfr3 by (by apply hd_addr_not_in). unfold h2.
    rewrite !insert_insert_eq. hlook. }
  assert (Hc3 : h3 !! c = Some (mkNode (Some a) (Some b) (enc bc flc) (Some xc))).
  { rewrite Hfr3 by (by apply hd_addr_not_in). unfold h2.
    rewrite !insert_insert_eq. hlook. }
  assert (Hrest : ∀ y, y ≠ a → y ≠ b → y ≠ c → y ∉ addrs_ctx up
                       → h3 !! y = h !! y).
  { intros y ? ? ? Hy. rewrite Hfr3 by (by apply hd_addr_not_in). unfold h2.
    by rewrite !lookup_insert_ne. }
  clearbody h2. clear Hrun Hfr3.
  hstep. rewrite getbal_enc by lia.
  destruct (Z.eqb_spec bc (-1)) as [-> | Hne1];
    [|destruct (Z.eqb_spec bc 0) as [-> | Hne0]]; repeat hstep.
  all: eexists; split; [reflexivity|].
  all: match goal with |- (?hh !! _ = _ ∧ _) ∧ _ => set (hf := hh) end.
  all: assert (Hfin : ∀ y, y ≠ a → y ≠ b → y ≠ c → y ∉ addrs_ctx up
                           → hf !! y = h !! y)
         by (intros y ? ? ? ?; unfold hf; rewrite !lookup_insert_ne by done;
             by apply Hrest).
  all: split_and!;
    [ unfold hf; hlook | unfold hf; hlook
    | eapply rep_frame; [|exact Hs1]; intros y Hy;
      apply Hfin; [intros ?; subst; done.. | eauto]
    | eapply rep_frame; [|exact Hs2]; intros y Hy;
      apply Hfin; [intros ?; subst; done.. | eauto]
    | unfold hf; hlook
    | eapply rep_frame; [|exact Hs3]; intros y Hy;
      apply Hfin; [intros ?; subst; done.. | eauto]
    | eapply rep_frame; [|exact Hbrr]; intros y Hy;
      apply Hfin; [intros ?; subst; done.. | eauto]
    | unfold hf; by repeat apply rep_ctx_insert
    | intros y Hy Hy'; simpl in Hy; atomize; by apply Hfin ].
Qed.

Lemma delete_rotate_l_single t h up a s1 ba fla xa b bl bb flb xb br :
  let S := T a (T b bl bb flb xb br) ba fla xa s1 in
  bb ≤ 0 → bl ≠ E →
  rep h S → rep_ctx h up (Some a) →
  NoDup (addrs S ++ addrs_ctx up) → flags_ok S →
  ∃ h',
    delete_rotate_l t h (Some a) (hd_addr up)
    = Ok (if bb =? 0 then 0 else -1, Some b,
          match up with [] => set_top t (Some b) | _ :: _ => t end, h')
    ∧ rep h' (T b bl (if bb =? 0 then 1 else 0) flb xb
                (T a br (if bb =? 0 then -1 else 0) fla xa s1))
    ∧ rep_ctx h' up (Some b)
    ∧ (∀ y, y ∉ addrs S → y ∉ addrs_ctx up → h' !! y = h !! y).
Proof.
  intros S Hbb Hbl0 (Ha & (Hb & Hbl & Hbrr) & Hs1) Hup Hnd Hfl. subst S.
  destruct Hfl as (Hfla & Hba & (Hflb & Hbbr & _ & _) & _). fl_ranges.
  simpl in Hnd. atomize.
  destruct (root_cell h bl Hbl0 Hbl) as (c & nc & Hrc & Hc & Hcin).
  rewrite Hrc in *.
  unfold delete_rotate_l. do 2 hstep. rewrite getbal_enc by lia.
  assert ((bb <=? 0) = true) as -> by lia.
  do 5 hstep.
  match goal with |- context [relink t ?hh _ _ _] => set (h2 := hh) end.
  destruct (relink_spec _ _ t h2 up a (Some b)) as (h3 & Hrun & Hup3 & Hfr3).
  { unfold h2. by repeat apply rep_ctx_insert. }
  { by apply NoDup_cons. }
  rewrite Hrun. simpl.
  assert (Ha3 : h3 !! a = Some (mkNode (root br) (root s1) (enc ba fla) (Some xa))).
  { rewrite Hfr3 by (by apply hd_addr_not_in). unfold h2.
    rewrite !insert_insert_eq. hlook. }
  assert (Hb3 : h3 !! b = Some (mkNode (Some c) (Some a) (enc bb flb) (Some xb))).
  { rewrite Hfr3 by (by apply hd_addr_not_in). unfold h2.
    rewrite !insert_insert_eq. hlook. }
  assert (Hrest : ∀ y, y ≠ a → y ≠ b → y ∉ addrs_ctx up → h3 !! y = h !! y).
  { intros y ? ? Hy. rewrite Hfr3 by (by apply hd_addr_not_in). unfold h2.
    by rewrite !lookup_insert_ne. }
  clearbody h2. clear Hrun Hfr3.
  hstep. rewrite getbal_enc by lia.
  destruct (Z.eqb_spec bb 0) as [-> | Hne]; repeat hstep.
  all: eexists; split; [reflexivity|]; rewrite ?Hrc.
  all: match goal with |- (?hh !! _ = _ ∧ _) ∧ _ => set (hf := hh) end.
  all: assert (Hfin : ∀ y, y ≠ a → y ≠ b → y ∉ addrs_ctx up → hf !! y = h !! y)
         by (intros y ? ? ?; unfold hf; rewrite !lookup_insert_ne by done;
             by apply Hrest).
  all: split_and!;
    [ unfold hf; hlook
    | eapply rep_frame; [|exact Hbl]; intros y Hy;
      apply Hfin; [intros ?; subst; done.. | eauto]
    | unfold hf; hlook
    | eapply rep_frame; [|exact Hbrr]; intros y Hy;
      apply Hfin; [intros ?; subst; done.. | eauto]
    | eapply rep_frame; [|exact Hs1]; intros y Hy;
      apply Hfin; [intros ?; subst; done.. | eauto]
    | unfold hf; by repeat apply rep_ctx_insert
    | intros y Hy Hy'; simpl in Hy; atomize; by apply Hfin ].
Qed.

Lemma delete_rotate_l_double t h up a s1 ba fla xa b c s2 bc flc xc s3 bb flb xb bl :
  let S := T a (T b bl bb flb xb (T c s3 bc flc xc s2)) ba fla xa s1 in
  0 < bb →
  rep h S → rep_ctx h up (Some a) →
  NoDup (addrs S ++ addrs_ctx up) → flags_ok S →
  ∃ h',
    delete_rotate_l t h (Some a) (hd_addr up)
    = Ok (-1, Some c,
          match up with [] => set_top t (Some c) | _ :: _ => t end, h')
    ∧ rep h' (T c (T b bl (if bc =? 1 then -1 else if bc =? 0 then 0 else 0)
                     flb xb s3)
                0 flc xc
                (T a s2 (if bc =? 1 then 0 else if bc =? 0 then 0 else 1)
                   fla xa s1))
    ∧ rep_ctx h' up (Some c)
    ∧ (∀ y, y ∉ addrs S → y ∉ addrs_ctx up → h' !! y = h !! y).
Proof.
  intros S Hbb (Ha & (Hb & Hbl & (Hc & Hs3 & Hs2)) & Hs1) Hup Hnd Hfl. subst S.
  destruct Hfl as (Hfla & Hba & (Hflb & Hbbr & _ & (Hflc & Hbc & _ & _)) & _).
  fl_ranges. simpl in Hnd. atomize.
  unfold delete_rotate_l. do 2 hstep. rewrite getbal_enc by lia.
  assert ((bb <=? 0) = false) as -> by lia.
  do 5 hstep.
  match goal with |- context [relink t ?hh _ _ _] => set (h2 := hh) end.
  destruct (relink_spec _ _ t h2 up a (Some c)) as (h3 & Hrun & Hup3 & Hfr3).
  { unfold h2. by repeat apply rep_ctx_insert. }
  { by apply NoDup_cons. }
  rewrite Hrun. simpl.
  assert (Ha3 : h3 !! a = Some (mkNode (root s2) (root s1) (enc ba fla) (Some xa))).
  { rewrite Hfr3 by (by apply hd_addr_not_in). unfold h2.
    rewrite !insert_insert_eq. hlook. }
  assert (Hb3 : h3 !! b = Some (mkNode (root bl) (root s3) (enc bb flb) (Some xb))).
  { rewrite Hfr3 by (by apply hd_addr_not_in). unfold h2.
    rewrite !insert_insert_eq. hlook. }
  assert (Hc3 : h3 !! c = Some (mkNode (Some b) (Some a) (enc bc flc) (Some xc))).
  { rewrite Hfr3 by (by apply hd_addr_not_in). unfold h2.
    rewrite !insert_insert_eq. hlook. }
  assert (Hrest : ∀ y, y ≠ a → y ≠ b → y ≠ c → y ∉ addrs_ctx up
                       → h3 !! y = h !! y).
  { intros y ? ? ? Hy. rewrite Hfr3 by (by apply hd_addr_not_in). unfold h2.
    by rewrite !lookup_insert_ne. }
  clearbody h2. clear Hrun Hfr3.
  hstep. rewrite getbal_enc by lia.
  destruct (Z.eqb_spec bc 1) as [-> | Hne1];
    [|destruct (Z.eqb_spec bc 0) as [-> | Hne0]]; repeat hstep.
  all: eexists; split; [reflexivity|].
  all: match goal with |- (?hh !! _ = _ ∧ _) ∧ _ => set (hf := hh) end.
  all: assert (Hfin : ∀ y, y ≠ a → y ≠ b → y ≠ c → y ∉ addrs_ctx up
                           → hf !! y = h !! y)
         by (intros y ? ? ? ?; unfold hf; rewrite !lookup_insert_ne by done;
             by apply Hrest).
  all: split_and!;
    [ unfold hf; hlook | unfold hf; hlook
    | eapply rep_frame; [|exact Hbl]; intros y Hy;
      apply Hfin; [intros ?; subst; done.. | eauto]
    | eapply rep_frame; [|exact Hs3]; intros y Hy;
      apply Hfin; [intros ?; subst; done.. | eauto]
    | unfold hf; hlook
    | eapply rep_frame; [|exact Hs2]; intros y Hy;
      apply Hfin; [intros ?; subst; done.. | eauto]
    | eapply rep_frame; [|exact Hs1]; intros y Hy;
      apply Hfin; [intros ?; subst; done.. | eauto]
    | unfold hf; by repeat apply rep_ctx_insert
    | intros y Hy Hy'; simpl in Hy; atomize; by apply Hfin ].
Qed.

Lemma del_rot_inv (s : tree A) hh hh' s2 :
  del_rot s hh = Some (hh', s2) →
  addrs s2 ≡ₚ addrs s ∧ (flags_ok s → flags_ok s2) ∧ s2 ≠ E
  ∧ inorder s2 = inorder s ∧ count s2 = count s.
Proof.
  unfold del_rot, del_rot_r, del_rot_l. intros H.
  repeat case_match; simplify_eq; simpl;
    (split_and!;
     [ solve_perm
     | intros; repeat match goal with H : _ ∧ _ |- _ => destruct H end;
       split_and!; try done; lia
     | done
     | by list_norm
     | lia ]).
Qed.

Lemma delete_rotate_spec t h up s hh hh' s2 :
  rep h s → rep_ctx h up (root s) →
  NoDup (addrs s ++ addrs_ctx up) → flags_ok s →
  (up = [] → top t = root s) →
  del_rot s hh = Some (hh', s2) →
  ∃ h',
    delete_rotate t h (root s) (hd_addr up) hh
    = Ok (hh', root s2,
          match up with [] => set_top t (root s2) | _ :: _ => t end, h')
    ∧ rep h' s2 ∧ rep_ctx h' up (root s2)
    ∧ (∀ y, y ∉ addrs s → y ∉ addrs_ctx up → h' !! y = h !! y).
Proof.
  intros Hrep Hup Hnd Hfl Htop Hrot.
  destruct s as [|a sl b fl x sr]; [done|].
  pose proof Hrep as (Ha & _ & _). pose proof Hfl as (Hfla & Hb & _ & _).
  fl_ranges.
  unfold delete_rotate. simpl root. hstep. rewrite getbal_enc by lia.
  unfold del_rot in Hrot.
  destruct (Z.eqb_spec b 2) as [-> | Hn2].
  { unfold del_rot_r in Hrot.
    destruct sr as [|b1 bl bb flb xb br]; [done|].
    destruct (Z.geb_spec bb 0) as [Hge | Hlt].
    - destruct br as [|c cl bc flc xc cr] eqn:Hbr; [done|]. rewrite <- Hbr in *.
      destruct (delete_rotate_r_single t h up a sl 2 fl x b1 bl bb flb xb br)
        as (h' & Hrun & Hrep' & Hup' & Hfr); try done; try lia.
      { by rewrite Hbr. }
      exists h'. rewrite Hrun.
      destruct (bb =? 0); simplify_eq; done.
    - destruct bl as [|c s2' bc flc xc s3]; [done|].
      destruct (delete_rotate_r_double t h up a sl 2 fl x b1 c s2' bc flc xc s3
                  bb flb xb br)
        as (h' & Hrun & Hrep' & Hup' & Hfr); try done; try lia.
      exists h'. rewrite Hrun.
      destruct (bc =? -1); [|destruct (bc =? 0)]; simplify_eq; done. }
  destruct (Z.eqb_spec b (-2)) as [-> | Hn2'].
  { unfold del_rot_l in Hrot.
    destruct sl as [|b1 bl bb flb xb br]; [done|].
    destruct (Z.leb_spec bb 0) as [Hle | Hgt].
    - destruct bl as [|c cl bc flc xc cr] eqn:Hbl; [done|]. rewrite <- Hbl in *.
      destruct (delete_rotate_l_single t h up a sr (-2) fl x b1 bl bb flb xb br)
        as (h' & Hrun & Hrep' & Hup' & Hfr); try done; try lia.
      { by rewrite Hbl. }
      exists h'. rewrite Hrun.
      destruct (bb =? 0); simplify_eq; done.
    - destruct br as [|c s3 bc flc xc s2']; [done|].
      destruct (delete_rotate_l_double t h up a sr (-2) fl x b1 c s2' bc flc xc s3
                  bb flb xb bl)
        as (h' & Hrun & Hrep' & Hup' & Hfr); try done; try lia.
      exists h'. rewrite Hrun.
      destruct (bc =? 1); [|destruct (bc =? 0)]; simplify_eq; done. }
  simplify_eq. exists h. split_and!; try done.
  do 2 f_equal. destruct up; [|done].
  rewrite <- (set_top_id _ _ t) at 1. by rewrite Htop.
Qed.

Lemma delete_propagate_spec h fr a hh :
  h !! faddr fr = Some (fcell fr (Some a)) →
  root (fsib fr) ≠ Some a →
  used_fl (ffl fr) → -1 ≤ fbal fr ≤ 1 → hh ≠ 0 →
  delete_propagate h (Some a) (Some (faddr fr)) hh
  = Ok (shrink_flag fr, <[faddr fr := fcell (fshrink fr) (Some a)]> h).
Proof.
  intros Hc Hsib Hfl Hb Hhh. fl_ranges.
  unfold delete_propagate, shrink_flag, fshrink.
  rewrite (proj2 (Z.eqb_neq _ _) Hhh). simpl.
  destruct fr as [p b fl x sib | p sib b fl x]; simpl in *.
  - repeat hstep. replace (b - -1) with (b + 1) by lia. done.
  - repeat hstep. done.
Qed.

Lemma delete_propagate_none h a hh :
  delete_propagate h a None hh = Ok (hh, h).
Proof. unfold delete_propagate. by destruct (hh =? 0). Qed.

Lemma delete_propagate_zero h a p :
  delete_propagate h a p 0 = Ok (0, h).
Proof. done. Qed.

Local Arguments delete_rebalance : simpl never.

Lemma delete_rebalance_S top t h stack hh :
  delete_rebalance (S top) t h stack hh
  = (a ← stack_get stack top;
     p ← match top with
         | S top1 => stack_get stack top1
         | O => Ok None
         end;
     '(hh, a, t, h) ← delete_rotate t h a p hh;
     '(hh, h) ← delete_propagate h a p hh;
     delete_rebalance top t h stack hh).
Proof. done. Qed.

(** The loop [while (top>0)] of [AVL_delete] computes [del_up]. *)
Lemma delete_rebalance_spec t : ∀ C s hh h stack a hh' tr',
  root s = Some a →
  rep h (plug C s) → NoDup (addrs (plug C s)) → flags_ok (plug C s) →
  Forall (λ fr, -1 ≤ fbal fr ≤ 1) C →
  top t = root (plug C s) →
  stack_path stack (a :: map faddr C) →
  del_up C s hh = Some (hh', tr') →
  ∃ h',
    delete_rebalance (S (length C)) t h stack hh
    = Ok (hh', set_top t (root tr'), h')
    ∧ rep h' tr'
    ∧ (∀ y, y ∉ addrs (plug C s) → h' !! y = h !! y).
Proof.
  induction C as [|fr C' IH]; intros s hh h stack a hh' tr' Hroot Hrep Hnd Hfl
    Hbal Htop Hst Hup.
  - simpl in Hup, Hrep, Hnd, Hfl, Htop.
    destruct (del_rot s hh) as [[hh1 s1]|] eqn:Hrot; [|done].
    injection Hup as <- <-.
    pose proof (stack_get_top stack a [] Hst) as Hg. simpl in Hg.
    simpl length. rewrite delete_rebalance_S, Hg. simpl.
    destruct (delete_rotate_spec t h [] s hh hh1 s1)
      as (h' & Hrun & Hrep' & _ & Hfr); try done.
    { by rewrite app_nil_r. }
    rewrite Hroot in Hrun. simpl in Hrun. rewrite Hrun. simpl.
    rewrite delete_propagate_none. simpl.
    exists h'. split_and!; [done | done |].
    intros y Hy. apply Hfr; [done | simpl; apply not_elem_of_nil].
  - simpl in Hup.
    destruct (del_rot s hh) as [[hh1 s1]|] eqn:Hrot; [|done].
    apply Forall_cons in Hbal as [Hbfr Hbal].
    pose proof Hrep as Hrep0. simpl in Hrep0.
    apply rep_plug in Hrep0 as [HC' Hfill].
    apply rep_fill1 in Hfill as (Hfrc & Hsib & Hs).
    pose proof Hfl as Hfl0. simpl in Hfl0.
    apply flags_ok_plug_iff in Hfl0 as [Hflfill HflC'].
    apply flags_ok_fill1 in Hflfill as (Hflfr & Hbr & Hflsib & Hfls).
    pose proof Hnd as Hnd0. simpl in Hnd0.
    rewrite addrs_plug, addrs_fill1 in Hnd0.
    destruct (del_rot_inv s hh hh1 s1 Hrot) as (Hperm & Hflags & Hne & _ & _).
    assert (Hst' : stack_path stack (faddr fr :: map faddr C')).
    { by eapply stack_path_tail. }
    pose proof (stack_get_top stack a (map faddr (fr :: C')) Hst) as Hg1.
    pose proof (stack_get_top stack (faddr fr) (map faddr C') Hst') as Hg2.
    rewrite length_map in Hg1, Hg2. simpl length in Hg1.
    simpl length. rewrite delete_rebalance_S, Hg1. simpl. rewrite Hg2. simpl.
    atomize.
    destruct (delete_rotate_spec t h (fr :: C') s hh hh1 s1)
      as (h1 & Hrun & Hrep1 & Hup1 & Hfr1); try done.
    { simpl. split_and!; [done | done | by rewrite root_fill1 in HC']. }
    { simpl. apply NoDup_app. split_and!; [done | |].
      2:{ apply NoDup_cons. split; [by apply not_elem_of_app|].
          by apply NoDup_app. }
      intros y Hy. apply not_elem_of_cons. split; [intros ->; done|].
      apply not_elem_of_app. split; eauto. }
    rewrite Hroot in Hrun. simpl in Hrun. rewrite Hrun. simpl.
    destruct s1 as [|a1 s1l b1 fl1 x1 s1r] eqn:Hs1; [done|]. rewrite <- Hs1 in *.
    assert (Hroot1 : root s1 = Some a1) by (by rewrite Hs1).
    rewrite Hroot1 in *. simpl in Hup1. destruct Hup1 as (Hfrc1 & Hsib1 & HC1).
    assert (Ha1 : a1 ∈ addrs s) by (rewrite <- Hperm, Hs1; simpl; left).
    assert (Htop1 : ∀ fr', faddr fr' = faddr fr →
              top t = root (plug C' (fill1 fr' s1))).
    { intros fr' Hfr'. rewrite Htop. simpl. by rewrite !root_plug, !root_fill1, Hfr'. }
    assert (Hperm1 : ∀ fr', faddr fr' = faddr fr → fsib fr' = fsib fr →
              addrs (plug C' (fill1 fr' s1)) ≡ₚ addrs (plug (fr :: C') s)).
    { intros fr' E1 E2. simpl. rewrite !addrs_plug, !addrs_fill1, E1, E2, Hperm. done. }
    destruct (Z.eqb_spec hh1 0) as [-> | Hnz].
    + rewrite delete_propagate_zero. simpl.
      destruct (IH (fill1 fr s1) 0 h1 stack (faddr fr) hh' tr')
        as (h' & Hrun' & Hrep' & Hfr'); try done.
      { apply root_fill1. }
      { apply rep_plug. split; [by rewrite root_fill1|].
        apply rep_fill1. by rewrite Hroot1. }
      { by rewrite Hperm1. }
      { apply flags_ok_plug_iff. split; [|done]. apply flags_ok_fill1. auto. }
      { by apply Htop1. }
      rewrite Hrun'. exists h'. split_and!; [done | done |].
      intros y Hy. rewrite Hfr' by (by rewrite Hperm1).
      simpl in Hy. rewrite addrs_plug, addrs_fill1 in Hy.
      apply Hfr1; [|simpl]; clear -Hy; set_solver.
    + erewrite (delete_propagate_spec h1 fr a1 hh1); [|done| |done|done|done].
      2:{ intros Hr. apply root_addrs in Hr. rewrite <- Hperm in *.
          match goal with H : ∀ y, y ∈ addrs s → y ∉ addrs (fsib fr) |- _ =>
            eapply H; [|exact Hr] end. by rewrite <- Hperm. }
      simpl.
      destruct (IH (fill1 (fshrink fr) s1) (shrink_flag fr)
                  (<[faddr fr := fcell (fshrink fr) (Some a1)]> h1)
                  stack (faddr fr) hh' tr')
        as (h' & Hrun' & Hrep' & Hfr'); try done.
      { by rewrite root_fill1, faddr_fshrink. }
      { apply rep_plug. split.
        - rewrite root_fill1, faddr_fshrink. by apply rep_ctx_insert.
        - apply rep_fill1. rewrite faddr_fshrink, fsib_fshrink, Hroot1.
          split_and!; [apply lookup_insert_eq | by apply rep_insert |].
          apply rep_insert; [|done]. by rewrite Hperm. }
      { rewrite Hperm1; [done | apply faddr_fshrink | apply fsib_fshrink]. }
      { apply flags_ok_plug_iff. split; [|done]. apply flags_ok_fill1.
        rewrite ffl_fshrink, fbal_fshrink, fsib_fshrink.
        pose proof (fside_range _ fr). split_and!; auto; lia. }
      { apply Htop1, faddr_fshrink. }
      rewrite Hrun'. exists h'. split_and!; [done | done |].
      intros y Hy.
      rewrite Hfr' by (rewrite Hperm1;
                       [done | apply faddr_fshrink | apply fsib_fshrink]).
      simpl in Hy. rewrite addrs_plug, addrs_fill1 in Hy.
      rewrite lookup_insert_ne by (clear -Hy; set_solver).
      apply Hfr1; [|simpl]; clear -Hy; set_solver.
Qed.

End DeleteRotate.


(** * Deletion on balanced trees *)

Section DeletePure.

Variable A : Type.
Implicit Types (s tr : tree A) (C D : list (frame A)) (fr : frame A).

Lemma del_rot_ok s h0 hh :
  shrunk_ok s h0 hh →
  ∃ hh1 s1,
    del_rot s hh = Some (hh1, s1) ∧ avl s1
    ∧ ((hh1 = 0 ∧ hgt s1 = h0) ∨ (hh1 = -1 ∧ S (hgt s1) = h0)).
Proof.
  destruct s as [|a tl b fl x tr]; [done|].
  intros (Hl & Hr & Hb & Hcase). unfold del_rot.
  destruct (Z.eqb_spec b 2) as [-> | Hn2].
  { destruct Hcase as [[_ Hh] | [? _]]; [|lia].
    unfold del_rot_r.
    destruct tr as [|b1 bl bb flb xb br]; [simpl in *; lia|].
    destruct Hr as (Hbb & Hbbr & Hbl & Hbr).
    destruct (Z.geb_spec bb 0) as [Hge | Hlt].
    - destruct br as [|c cl bc flc xc cr] eqn:Hbreq; [simpl in *; lia|].
      rewrite <- Hbreq in *.
      assert (hgt br ≠ 0%nat) by (rewrite Hbreq; simpl; lia).
      destruct (Z.eqb_spec bb 0) as [-> | Hne];
        eexists _, _; (split; [reflexivity|]); simpl in *;
        split_and!; try done; try lia.
    - destruct bl as [|c s2 bc flc xc s3]; [simpl in *; lia|].
      destruct Hbl as (Hbc & Hbcr & Hs2 & Hs3).
      destruct (Z.eqb_spec bc (-1)) as [-> | Hne1];
        [|destruct (Z.eqb_spec bc 0) as [-> | Hne0]];
        eexists _, _; (split; [reflexivity|]); simpl in *;
        split_and!; try done; try lia. }
  destruct (Z.eqb_spec b (-2)) as [-> | Hn2'].
  { destruct Hcase as [[_ Hh] | [? _]]; [|lia].
    unfold del_rot_l.
    destruct tl as [|b1 bl bb flb xb br]; [simpl in *; lia|].
    destruct Hl as (Hbb & Hbbr & Hbl & Hbr).
    destruct (Z.leb_spec bb 0) as [Hle | Hgt].
    - destruct bl as [|c cl bc flc xc cr] eqn:Hbleq; [simpl in *; lia|].
      rewrite <- Hbleq in *.
      assert (hgt bl ≠ 0%nat) by (rewrite Hbleq; simpl; lia).
      destruct (Z.eqb_spec bb 0) as [-> | Hne];
        eexists _, _; (split; [reflexivity|]); simpl in *;
        split_and!; try done; try lia.
    - destruct br as [|c s3 bc flc xc s2]; [simpl in *; lia|].
      destruct Hbr as (Hbc & Hbcr & Hs3 & Hs2).
      destruct (Z.eqb_spec bc 1) as [-> | Hne1];
        [|destruct (Z.eqb_spec bc 0) as [-> | Hne0]];
        eexists _, _; (split; [reflexivity|]); simpl in *;
        split_and!; try done; try lia. }
  destruct Hcase as [[? _] | [Hrange Hcase]]; [lia|].
  eexists _, _. split; [reflexivity|]. split; [simpl; auto|]. done.
Qed.

Lemma ctx_avl_hgt C s : hgt (plug C s) = ctx_hgt C (hgt s).
Proof.
  revert s. induction C as [|fr C IH]; intros s; [done|].
  simpl. rewrite IH, hgt_fill1. done.
Qed.

Lemma shrink_step fr s1 h0 :
  avl s1 → S (hgt s1) = h0 →
  avl (fsib fr) →
  fbal fr = fside fr * (Z.of_nat h0 - Z.of_nat (hgt (fsib fr))) →
  -1 ≤ fbal fr ≤ 1 →
  shrunk_ok (fill1 (fshrink fr) s1) (S (Nat.max h0 (hgt (fsib fr))))
    (shrink_flag fr).
Proof.
  intros Hs1 Hh Hsib Hb Hr. unfold shrink_flag.
  destruct fr as [a b fl x sib | a sib b fl x]; simpl in *.
  - split_and!; try done; [lia|].
    destruct (Z.eqb_spec (b - -1) 0); lia.
  - split_and!; try done; [lia|].
    destruct (Z.eqb_spec (b - 1) 0); lia.
Qed.

Lemma keep_step fr s1 h0 :
  avl s1 → hgt s1 = h0 →
  avl (fsib fr) →
  fbal fr = fside fr * (Z.of_nat h0 - Z.of_nat (hgt (fsib fr))) →
  -1 ≤ fbal fr ≤ 1 →
  shrunk_ok (fill1 fr s1) (S (Nat.max h0 (hgt (fsib fr)))) 0.
Proof.
  intros Hs1 Hh Hsib Hb Hr.
  destruct fr as [a b fl x sib | a sib b fl x]; simpl in *;
    split_and!; try done; lia.
Qed.

(** The loop keeps the tree balanced, and its flag tells whether the
    tree lost a level. *)
Lemma del_up_ok : ∀ C s h0 hh,
  shrunk_ok s h0 hh → ctx_avl C h0 →
  ∃ hh' tr',
    del_up C s hh = Some (hh', tr') ∧ avl tr'
    ∧ (hh' = 0 ∨ hh' = -1)
    ∧ Z.of_nat (hgt tr') = Z.of_nat (ctx_hgt C h0) + hh'.
Proof.
  induction C as [|fr C' IH]; intros s h0 hh Hs HC.
  - destruct (del_rot_ok s h0 hh Hs) as (hh1 & s1 & Hrot & Hs1 & Hcase).
    simpl. rewrite Hrot. exists hh1, s1. split_and!; [done | done | | ]; lia.
  - destruct (del_rot_ok s h0 hh Hs) as (hh1 & s1 & Hrot & Hs1 & Hcase).
    simpl. rewrite Hrot. destruct HC as (Hsib & Hb & Hr & HC').
    destruct Hcase as [[-> Hh] | [-> Hh]]; simpl.
    + apply IH; [|done]. by apply keep_step.
    + apply IH; [|done]. by apply shrink_step.
Qed.

Lemma del_shrink_ok C s' :
  avl s' → ctx_avl C (S (hgt s')) →
  ∃ hh' tr',
    del_shrink C s' = Some (hh', tr') ∧ avl tr'
    ∧ (hh' = 0 ∨ hh' = -1)
    ∧ Z.of_nat (hgt tr') = Z.of_nat (ctx_hgt C (S (hgt s'))) + hh'.
Proof.
  intros Hs HC. destruct C as [|fr C'].
  - exists (-1), s'. unfold del_shrink. simpl. split_and!; [done | done | | ]; lia.
  - destruct HC as (Hsib & Hb & Hr & HC'). unfold del_shrink. simpl ctx_hgt.
    apply del_up_ok; [|done]. by apply shrink_step.
Qed.

Lemma inorder_fshrink fr s : inorder (fill1 (fshrink fr) s) = inorder (fill1 fr s).
Proof. by destruct fr. Qed.

Lemma count_fshrink fr s : count (fill1 (fshrink fr) s) = count (fill1 fr s).
Proof. by destruct fr. Qed.

Lemma addrs_fshrink fr s : addrs (fill1 (fshrink fr) s) = addrs (fill1 fr s).
Proof. by destruct fr. Qed.

Lemma count_fill1_eq fr s s' :
  count s = count s' → count (fill1 fr s) = count (fill1 fr s').
Proof. intros H. destruct fr; simpl; by rewrite H. Qed.

Lemma count_plug_eq C s s' :
  count s = count s' → count (plug C s) = count (plug C s').
Proof.
  revert s s'. induction C as [|fr C IH]; intros s s' H; [done|].
  simpl. apply IH. by apply count_fill1_eq.
Qed.

(** The loop moves no element. *)
Lemma del_up_inv : ∀ C s hh hh' tr',
  del_up C s hh = Some (hh', tr') →
  inorder tr' = inorder (plug C s)
  ∧ count tr' = count (plug C s)
  ∧ addrs tr' ≡ₚ addrs (plug C s)
  ∧ (flags_ok (plug C s) → Forall (λ fr, -1 ≤ fbal fr ≤ 1) C → flags_ok tr').
Proof.
  induction C as [|fr C' IH]; intros s hh hh' tr' Hup; simpl in Hup;
    destruct (del_rot s hh) as [[hh1 s1]|] eqn:Hrot; try done;
    destruct (del_rot_inv _ s hh hh1 s1 Hrot) as (Hperm & Hflags & Hne & Hin & Hcnt).
  - injection Hup as <- <-. split_and!; try done. auto.
  - simpl.
    assert (Hgoal : ∀ fr', inorder (fill1 fr' s1) = inorder (fill1 fr s1) →
              count (fill1 fr' s1) = count (fill1 fr s1) →
              addrs (fill1 fr' s1) = addrs (fill1 fr s1) →
              (flags_ok (fill1 fr s1) → -1 ≤ fbal fr ≤ 1 → flags_ok (fill1 fr' s1)) →
              ∀ hh2, del_up C' (fill1 fr' s1) hh2 = Some (hh', tr') →
              inorder tr' = inorder (plug C' (fill1 fr s))
              ∧ count tr' = count (plug C' (fill1 fr s))
              ∧ addrs tr' ≡ₚ addrs (plug C' (fill1 fr s))
              ∧ (flags_ok (plug C' (fill1 fr s)) →
                 Forall (λ fr, -1 ≤ fbal fr ≤ 1) (fr :: C') → flags_ok tr')).
    { intros fr' E1 E2 E3 E4 hh2 Hup'.
      destruct (IH _ _ _ _ Hup') as (Hi & Hc & Ha & Hf).
      split_and!.
      - rewrite Hi. apply inorder_plug_eq. rewrite E1. by apply inorder_fill1_eq.
      - rewrite Hc. apply count_plug_eq. rewrite E2. by apply count_fill1_eq.
      - rewrite Ha. apply addrs_plug_perm. rewrite E3. by apply addrs_fill1_perm.
      - intros Hfl Hbal. apply Forall_cons in Hbal as [Hbfr Hbal].
        apply Hf; [|done].
        apply flags_ok_plug_iff in Hfl as [Hfl HflC].
        apply flags_ok_plug_iff. split; [|done].
        apply E4; [|done].
        apply flags_ok_fill1 in Hfl as (? & ? & ? & ?).
        apply flags_ok_fill1. auto. }
    destruct (hh1 =? 0).
    + eapply (Hgoal fr); eauto.
    + eapply (Hgoal (fshrink fr)); eauto using inorder_fshrink, count_fshrink, addrs_fshrink.
      intros Hfl Hb. apply flags_ok_fill1 in Hfl as (? & ? & ? & ?).
      apply flags_ok_fill1.
      rewrite ffl_fshrink, fbal_fshrink, fsib_fshrink.
      pose proof (fside_range _ fr). split_and!; auto; lia.
Qed.

Lemma lefts_app D K : lefts (D ++ K) = lefts K ++ lefts D.
Proof.
  induction D as [|[] D IH]; simpl; [by rewrite app_nil_r | done |].
  by rewrite IH, <- !app_assoc.
Qed.

Lemma rights_app D K : rights (D ++ K) = rights D ++ rights K.
Proof.
  induction D as [|[] D IH]; simpl; [done | | done].
  by rewrite IH, <- !app_assoc.
Qed.

Lemma lefts_all_left D : Forall (λ fr, fside fr = -1) D → lefts D = [].
Proof.
  induction 1 as [|[] D Hs _ IH]; simpl in *; [done | done | lia].
Qed.

Lemma rights_all_right D : Forall (λ fr, fside fr = 1) D → rights D = [].
Proof.
  induction 1 as [|[] D Hs _ IH]; simpl in *; [done | lia | done].
Qed.

Lemma ctx_avl_app D K h0 :
  ctx_avl (D ++ K) h0 ↔ ctx_avl D h0 ∧ ctx_avl K (ctx_hgt D h0).
Proof.
  revert h0. induction D as [|fr D IH]; intros h0; simpl; [tauto|].
  rewrite IH. tauto.
Qed.

Lemma ctx_hgt_app D K h0 : ctx_hgt (D ++ K) h0 = ctx_hgt K (ctx_hgt D h0).
Proof. revert h0. induction D as [|fr D IH]; intros h0; simpl; [done|]. apply IH. Qed.

Lemma leftmost_spec : ∀ s D D' nb,
  s ≠ E → leftmost s D = (D', nb) →
  ∃ c bc flc xc cr D1,
    nb = T c E bc flc xc cr ∧ D' = D1 ++ D ∧ plug D1 nb = s
    ∧ Forall (λ fr, fside fr = -1) D1.
Proof.
  induction s as [|a tl IHl b fl x tr _]; intros D D' nb Hne Hlm; [done|].
  destruct tl as [|a1 tl1 b1 fl1 x1 tr1] eqn:Htl.
  { simpl in Hlm. injection Hlm as <- <-. by exists a, b, fl, x, tr, []. }
  rewrite <- Htl in *.
  assert (Hlm' : leftmost tl (FL a b fl x tr :: D) = (D', nb)).
  { rewrite <- Hlm. simpl. by rewrite Htl. }
  destruct (IHl _ _ _ ltac:(by rewrite Htl) Hlm')
    as (c & bc & flc & xc & cr & D1 & -> & -> & Hpl & Hside).
  exists c, bc, flc, xc, cr, (D1 ++ [FL a b fl x tr]).
  split_and!; [done | by rewrite <- app_assoc | |].
  - rewrite plug_app. simpl. by rewrite Hpl.
  - apply Forall_app. split; [done|]. by constructor.
Qed.

Lemma rightmost_spec : ∀ s D D' nb,
  s ≠ E → rightmost s D = (D', nb) →
  ∃ c cl bc flc xc D1,
    nb = T c cl bc flc xc E ∧ D' = D1 ++ D ∧ plug D1 nb = s
    ∧ Forall (λ fr, fside fr = 1) D1.
Proof.
  induction s as [|a tl _ b fl x tr IHr]; intros D D' nb Hne Hlm; [done|].
  destruct tr as [|a1 tl1 b1 fl1 x1 tr1] eqn:Htr.
  { simpl in Hlm. injection Hlm as <- <-. by exists a, tl, b, fl, x, []. }
  rewrite <- Htr in *.
  assert (Hlm' : rightmost tr (FR a tl b fl x :: D) = (D', nb)).
  { rewrite <- Hlm. simpl. by rewrite Htr. }
  destruct (IHr _ _ _ ltac:(by rewrite Htr) Hlm')
    as (c & cl & bc & flc & xc & D1 & -> & -> & Hpl & Hside).
  exists c, cl, bc, flc, xc, (D1 ++ [FR a tl b fl x]).
  split_and!; [done | by rewrite <- app_assoc | |].
  - rewrite plug_app. simpl. by rewrite Hpl.
  - apply Forall_app. split; [done|]. by constructor.
Qed.

(** The neighbour that takes the place of a node with two subtrees: the
    leftmost node of the right subtree when the balance is positive, else
    the rightmost node of the left subtree. *)
Lemma del_pick_spec a tl b fl x tr :
  tl ≠ E → tr ≠ E →
  ∃ Fa D c cl bc flc xc cr s',
    del_pick (T a tl b fl x tr) = Some (Fa, D, T c cl bc flc xc cr, s')
    ∧ ((0 < b ∧ Fa = FR a tl b fl x ∧ plug D (T c cl bc flc xc cr) = tr
        ∧ cl = E ∧ s' = cr ∧ Forall (λ fr, fside fr = -1) D)
       ∨ (b ≤ 0 ∧ Fa = FL a b fl x tr ∧ plug D (T c cl bc flc xc cr) = tl
          ∧ cr = E ∧ s' = cl ∧ Forall (λ fr, fside fr = 1) D)).
Proof.
  intros Htl Htr. unfold del_pick.
  destruct (Z.gtb_spec b 0) as [Hpos | Hneg].
  - destruct (leftmost tr []) as [D nb] eqn:Hlm.
    destruct (leftmost_spec tr [] D nb Htr Hlm)
      as (c & bc & flc & xc & cr & D1 & -> & HD & Hpl & Hside).
    rewrite app_nil_r in HD. subst D1.
    exists (FR a tl b fl x), D, c, E, bc, flc, xc, cr, cr.
    split; [done|]. left. split_and!; try done; lia.
  - destruct (rightmost tl []) as [D nb] eqn:Hlm.
    destruct (rightmost_spec tl [] D nb Htl Hlm)
      as (c & cl & bc & flc & xc & D1 & -> & HD & Hpl & Hside).
    rewrite app_nil_r in HD. subst D1.
    exists (FL a b fl x tr), D, c, cl, bc, flc, xc, E, cl.
    split; [done|]. right. split_and!; try done; lia.
Qed.

Lemma ctx_avl_freplace_cons Fa c fl x C h0 :
  ctx_avl (freplace Fa c fl x :: C) h0 ↔ ctx_avl (Fa :: C) h0.
Proof. by destruct Fa. Qed.

Lemma ctx_hgt_freplace_cons Fa c fl x C h0 :
  ctx_hgt (freplace Fa c fl x :: C) h0 = ctx_hgt (Fa :: C) h0.
Proof. by destruct Fa. Qed.

(** Taking the node out leaves a balanced tree with a place that is one
    level short, and the other elements in their order. *)
Lemma del_unlink_ok C a tl b fl x tr :
  let s := T a tl b fl x tr in
  avl (plug C s) →
  ∃ C' s',
    del_unlink C s = Some (C', s')
    ∧ avl s' ∧ ctx_avl C' (S (hgt s'))
    ∧ ctx_hgt C' (S (hgt s')) = hgt (plug C s)
    ∧ inorder (plug C' s') = lefts C ++ (inorder tl ++ inorder tr) ++ rights C
    ∧ S (count (plug C' s')) = count (plug C s)
    ∧ a :: addrs (plug C' s') ≡ₚ addrs (plug C s)
    ∧ (flags_ok (plug C s) → flags_ok (plug C' s')).
Proof.
  intros s Havl. subst s.
  pose proof Havl as Havl0. apply avl_plug in Havl0 as [Hs HC].
  destruct Hs as (Hb & Hbr & Hl & Hr).
  assert (Hcase : tl = E ∨ (tl ≠ E ∧ tr = E) ∨ (tl ≠ E ∧ tr ≠ E)).
  { destruct tl; [by left|]. destruct tr; [right; by left|]. right. by right. }
  destruct Hcase as [-> | [[Htl ->] | [Htl Htr]]].
  - exists C, tr. simpl in *.
    assert (S (hgt tr) = S (Nat.max 0 (hgt tr))) as Hh by lia.
    split_and!.
    + done.
    + done.
    + by rewrite Hh.
    + by rewrite Hh, ctx_avl_hgt.
    + by rewrite inorder_plug.
    + pose proof (count_plug _ C E tr). pose proof (count_plug _ C E (T a E b fl x tr)).
      simpl in *. lia.
    + rewrite !addrs_plug. simpl. done.
    + rewrite !flags_ok_plug_iff. simpl. tauto.
  - exists C, tl. unfold del_unlink. destruct tl as [|a1 l1 b1 f1 x1 r1] eqn:Htleq; [done|].
    rewrite <- Htleq in *. simpl in *.
    assert (S (hgt tl) = S (Nat.max (hgt tl) 0)) as Hh by lia.
    split_and!.
    + done.
    + done.
    + by rewrite Hh.
    + by rewrite Hh, ctx_avl_hgt.
    + by rewrite inorder_plug, !app_nil_r.
    + pose proof (count_plug _ C E tl). pose proof (count_plug _ C E (T a tl b fl x E)).
      simpl in *. lia.
    + rewrite !addrs_plug. simpl. rewrite app_nil_r. done.
    + rewrite !flags_ok_plug_iff. simpl. tauto.
  - rewrite (del_unlink_two_eq _ C) by done.
    destruct (del_pick_spec a tl b fl x tr Htl Htr)
      as (Fa & D & c & cl & bc & flc & xc & cr & s' & Hpick & Hshape).
    rewrite Hpick. exists (D ++ freplace Fa c flc xc :: C), s'.
    split; [done|].
    set (nb := T c cl bc flc xc cr) in *.
    assert (Hwhole : plug C (T a tl b fl x tr) = plug (D ++ Fa :: C) nb
                     ∧ hgt nb = S (hgt s') ∧ avl nb ∧ avl s'
                     ∧ inorder (plug (D ++ freplace Fa c flc xc :: C) s')
                       = lefts C ++ (inorder tl ++ inorder tr) ++ rights C
                     ∧ a = faddr Fa ∧ fl = ffl Fa
                     ∧ S (count s') = count nb
                     ∧ c :: addrs s' ≡ₚ addrs nb
                     ∧ (flags_ok nb → flags_ok s' ∧ used_fl flc)).
    { destruct Hshape as [(Hpos & -> & Hpl & -> & -> & Hside)
                         | (Hneg & -> & Hpl & -> & -> & Hside)].
      - assert (Hnb : avl nb).
        { rewrite <- Hpl in Hr. by apply avl_plug in Hr as [? _]. }
        pose proof Hnb as (? & ? & _ & ?).
        split. { rewrite plug_app. simpl. by rewrite Hpl. }
        split. { unfold nb. simpl. lia. }
        split; [done|]. split; [done|].
        split.
        { rewrite inorder_plug, lefts_app, rights_app. simpl.
          rewrite <- Hpl, inorder_plug. rewrite (lefts_all_left D Hside). simpl.
          by list_norm. }
        split; [done|]. split; [done|].
        split. { unfold nb. simpl. lia. }
        split; [done|]. unfold nb. simpl. tauto.
      - assert (Hnb : avl nb).
        { rewrite <- Hpl in Hl. by apply avl_plug in Hl as [? _]. }
        pose proof Hnb as (? & ? & ? & _).
        split. { rewrite plug_app. simpl. by rewrite Hpl. }
        split. { unfold nb. simpl. lia. }
        split; [done|]. split; [done|].
        split.
        { rewrite inorder_plug, lefts_app, rights_app. simpl.
          rewrite <- Hpl, inorder_plug. rewrite (rights_all_right D Hside). simpl.
          by list_norm. }
        split; [done|]. split; [done|].
        split. { unfold nb. simpl. lia. }
        split. { unfold nb. simpl. by rewrite app_nil_r. }
        unfold nb. simpl. tauto. }
    destruct Hwhole as (Hwhole & Hhnb & Hnb & Hs' & Hin & Ha & Hfla & Hcnt & Haddr & Hflg).
    rewrite Hwhole in *.
    apply avl_plug in Havl as [_ HDC].
    rewrite Hhnb in HDC.
    apply ctx_avl_app in HDC as [HD HFC].
    split_and!.
    + done.
    + apply ctx_avl_app. split; [done|]. by apply ctx_avl_freplace_cons.
    + rewrite ctx_avl_hgt, Hhnb, !ctx_hgt_app. apply ctx_hgt_freplace_cons.
    + done.
    + pose proof (count_plug _ (D ++ freplace Fa c flc xc :: C) E s').
      pose proof (count_plug _ (D ++ Fa :: C) E nb).
      assert (count (plug (D ++ freplace Fa c flc xc :: C) E)
              = count (plug (D ++ Fa :: C) E)) as Hc.
      { rewrite !plug_app. simpl. apply count_plug_eq. by destruct Fa. }
      simpl in *. lia.
    + rewrite !addrs_plug, !addrs_ctx_app. simpl.
      unfold nb in Haddr. simpl in Haddr. apply Permutation_cons_inv in Haddr.
      rewrite faddr_freplace, fsib_freplace, <- Haddr, Ha. solve_perm.
    + rewrite !flags_ok_plug_iff. intros [Hf1 Hf2].
      destruct (Hflg Hf1) as [? ?]. split; [done|].
      apply Forall_app in Hf2 as [? Hf2]. apply Forall_cons in Hf2 as [? ?].
      apply Forall_app. split; [done|]. constructor; [|done].
      destruct Fa; simpl in *; tauto.
Qed.

End DeletePure.


(** * [AVL_delete] on a well-formed state *)

Section DeleteTop.

Variables (A U : Type).
Implicit Types (h : gmap nat (AVL_NODE A)) (t : AVL_TREE A U) (m : mem A).
Implicit Types (s tr : tree A) (C D up : list (frame A)) (fr : frame A).

Local Arguments delete_rebalance : simpl never.

Lemma ctx_avl_frames C (n0 : nat) :
  ctx_avl C n0 → Forall (λ fr, -1 ≤ fbal fr ≤ 1) C.
Proof.
  revert n0. induction C as [|fr C IH]; intros n0 H; [done|].
  destruct H as (_ & _ & ? & H). constructor; [done|]. by eapply IH.
Qed.

Lemma del_shrink_inv C s' hh' tr' :
  del_shrink C s' = Some (hh', tr') →
  inorder tr' = inorder (plug C s')
  ∧ count tr' = count (plug C s')
  ∧ addrs tr' ≡ₚ addrs (plug C s')
  ∧ (flags_ok (plug C s') → Forall (λ fr, -1 ≤ fbal fr ≤ 1) C → flags_ok tr').
Proof.
  destruct C as [|fr C']; unfold del_shrink.
  - intros [= <- <-]. split_and!; try done; auto.
  - intros Hup. apply del_up_inv in Hup as (Hi & Hc & Ha & Hf). simpl.
    split_and!.
    + rewrite Hi. apply inorder_plug_eq, inorder_fshrink.
    + rewrite Hc. apply count_plug_eq, count_fshrink.
    + rewrite Ha. by rewrite !addrs_plug, addrs_fshrink.
    + intros Hfl Hbal. apply Forall_cons in Hbal as [Hb Hbal].
      apply Hf; [|done].
      apply flags_ok_plug_iff in Hfl as [Hfl HflC].
      apply flags_ok_plug_iff. split; [|done].
      apply flags_ok_fill1 in Hfl as (? & ? & ? & ?).
      apply flags_ok_fill1.
      rewrite ffl_fshrink, fbal_fshrink, fsib_fshrink.
      pose proof (fside_range _ fr). split_and!; auto; lia.
Qed.

(** The loop of [AVL_delete] from the place that lost a level. *)
Lemma delete_rebalance_shrink t h C' s' stack hh' tr' :
  rep h (plug (shrink_hd C') s') →
  NoDup (addrs (plug C' s')) → flags_ok (plug C' s') →
  Forall (λ fr, -1 ≤ fbal fr ≤ 1) C' →
  top t = root (plug C' s') →
  stack_path stack (map faddr C') →
  del_shrink C' s' = Some (hh', tr') →
  ∃ h',
    delete_rebalance (length C') t h stack (shrink_hd_flag C')
    = Ok (hh', set_top t (root tr'), h')
    ∧ rep h' tr'
    ∧ (∀ y, y ∉ addrs (plug C' s') → h' !! y = h !! y).
Proof.
  intros Hrep Hnd Hfl Hbal Htop Hst Hsh.
  destruct C' as [|fr C'']; unfold del_shrink in Hsh.
  - injection Hsh as <- <-. exists h. simpl in *.
    split_and!; [|done|done].
    unfold delete_rebalance. by rewrite <- Htop, set_top_id.
  - simpl in Hrep, Hnd, Hfl, Htop, Hst |- *.
    apply Forall_cons in Hbal as [Hb Hbal].
    assert (Hperm : addrs (plug C'' (fill1 (fshrink fr) s'))
                    ≡ₚ addrs (plug C'' (fill1 fr s'))).
    { by rewrite !addrs_plug, addrs_fshrink. }
    destruct (delete_rebalance_spec _ _ t C'' (fill1 (fshrink fr) s')
                (shrink_flag fr) h stack (faddr fr) hh' tr')
      as (h' & Hrun & Hrep' & Hfr); try done.
    { by rewrite root_fill1, faddr_fshrink. }
    { by rewrite Hperm. }
    { apply flags_ok_plug_iff in Hfl as [Hfl HflC].
      apply flags_ok_plug_iff. split; [|done].
      apply flags_ok_fill1 in Hfl as (? & ? & ? & ?).
      apply flags_ok_fill1.
      rewrite ffl_fshrink, fbal_fshrink, fsib_fshrink.
      pose proof (fside_range _ fr). split_and!; auto; lia. }
    { rewrite Htop, !root_plug, !root_fill1. by rewrite faddr_fshrink. }
    exists h'. split_and!; [done | done |].
    intros y Hy. apply Hfr. by rewrite Hperm.
Qed.

(** [AVL_delete] on a state that holds the tree [tr]: without a match
    the state stays as it is; with a match at the node [a] the payload
    stored there is returned, the state holds the tree [del_tree] gives,
    with the other elements in their order, and [a] is on the free
    stack. *)
Lemma delete_ok t m tr fs k fuel :
  Inv t m tr fs → (hgt tr ≤ AVL_MAX_DEPTH)%nat → (hgt tr < fuel)%nat →
  match del_path (cmp_of t) k [] tr with
  | None => AVL_delete fuel t m k = Ok (None, t, m)
  | Some (C, s) =>
      ∃ a tl b fl x tr1 hh tr' t' m',
        s = T a tl b fl x tr1 ∧ tr = plug C s ∧ cmp_of t x k = 0
        ∧ del_tree (cmp_of t) k tr = Some (x, hh, tr')
        ∧ AVL_delete fuel t m k = Ok (Some x, t', m')
        ∧ Inv t' m' tr' (a :: fs)
        ∧ inorder tr' = lefts C ++ (inorder tl ++ inorder tr1) ++ rights C
        ∧ eval t' = eval t ∧ user t' = user t
        ∧ allocAtOnce t' = allocAtOnce t
        ∧ blocks m' = blocks m ∧ oracle m' = oracle m
  end.
Proof.
  intros [Hrp Havl Hht Hsz Hmax] Hdepth Hfuel.
  pose proof (rp_top Hrp) as Htop.
  unfold AVL_delete.
  destruct tr as [|a0 tl0 b0 fl0 x0 tr0] eqn:Htr.
  { simpl in Htop. rewrite Htop. done. }
  rewrite <- Htr in *.
  assert (Htop0 : top t = Some a0) by (by rewrite Htop, Htr).
  rewrite Htop0. rewrite <- Htop0.
  pose proof (delete_search_spec _ _ t (cells m) k tr [] fuel stack_init
                (rp_rep Hrp) (stack_path_nil _) eq_refl) as Hs.
  simpl in Hs. specialize (Hs Hdepth Hfuel).
  rewrite <- Htop in Hs. unfold del_tree.
  destruct (del_path (cmp_of t) k [] tr) as [[C s]|] eqn:Hpath.
  2:{ destruct Hs as (stack' & top' & c' & p' & ->). done. }
  destruct Hs as (stack' & a & tl & b & fl & x & tr1 & -> & Hrun & Hst & Hlen).
  rewrite Hrun. simpl.
  destruct (del_path_plug _ _ _ _ _ _ _ Hpath) as (Hpl & Hx & Hlenp & _).
  destruct Hx as (a' & tl' & b' & fl' & x' & tr1' & [= <- <- <- <- <- <-] & Hx).
  simpl in Hlenp, Hpl.
  set (s := T a tl b fl x tr1) in *.
  rewrite <- Hpl in Havl.
  destruct (del_unlink_ok _ C a tl b fl x tr1 Havl)
    as (C' & s' & Hun & Havls' & HavlC' & Hhgt & Hin & Hcnt & Haddr & Hflg).
  fold s in Hun, Hhgt, Hcnt, Haddr, Hflg.
  pose proof (rp_nodup Hrp) as Hnd. apply NoDup_app in Hnd as (Hnd1 & Hdisj & Hnd2).
  destruct (delete_unlink_spec _ _ t (cells m) C a tl b fl x tr1 stack' fuel)
    as (C2 & s2 & stack2 & h1 & l1 & r1 & b1 & Hun2 & Hrun1 & Hrep1 & Ha1 & Hb1
        & Hst2 & Hlen2 & Hfr1); fold s; try (rewrite ?Hpl; done).
  { rewrite Hpl. apply (rp_rep Hrp). }
  { rewrite Hpl. apply (rp_flags Hrp). }
  { exact Havl. }
  { simpl in *. lia. }
  { simpl in *. lia. }
  fold s in Hun2. rewrite Hun in Hun2. injection Hun2 as <- <-.
  rewrite Hrun1. simpl.
  pose proof (rp_flags Hrp) as Hfl0. rewrite <- Hpl in Hfl0.
  assert (Hfla : used_fl fl).
  { apply flags_ok_plug in Hfl0. simpl in Hfl0. tauto. }
  destruct (clrbit_usd_enc b1 fl Hb1 Hfla) as [Hclr Hfree].
  do 4 hstep. rewrite Hclr, !insert_insert_eq.
  match goal with |- context [delete_rebalance _ ?tt ?hh _ _] =>
    set (t2 := tt); set (h2 := hh) end.
  fold s in Hfr1. rewrite Hpl in Hhgt, Hcnt, Haddr, Hflg, Hfr1.
  assert (Hnd' : NoDup (a :: addrs (plug C' s'))) by (by rewrite Haddr).
  apply NoDup_cons in Hnd' as [Ha' Hnd'].
  destruct (del_shrink_ok _ C' s' Havls' HavlC')
    as (hh' & tr' & Hsh & Havl' & Hhh & Hh').
  destruct (del_shrink_inv C' s' hh' tr' Hsh) as (Hin' & Hcnt' & Haddr' & Hflg').
  assert (Ha_sh : a ∉ addrs (plug (shrink_hd C') s')).
  { destruct C' as [|fr C'']; [done|]. simpl in *.
    by rewrite addrs_plug, addrs_fshrink, <- addrs_plug. }
  destruct (delete_rebalance_shrink t2 h2 C' s' stack2 hh' tr')
    as (h3 & Hrun3 & Hrep3 & Hfr3); try done.
  { by apply rep_insert. }
  { apply Hflg, (rp_flags Hrp). }
  { by eapply ctx_avl_frames. }
  rewrite Hrun3. simpl.
  rewrite Hun, Hsh.
  match goal with |- context [Ok (Some x, ?tt, _) = _] => set (t' := tt) end.
  assert (Ht' : top t' = root tr' ∧ freeStack t' = Some a
                ∧ size t' = wrap_int (size t - 1)
                ∧ height t' = (if hh' <? 0 then wrap_int (height t - 1)
                               else height t)
                ∧ allocAtOnce t' = allocAtOnce t
                ∧ eval t' = eval t ∧ user t' = user t).
  { unfold t'. destruct (hh' <? 0); done. }
  destruct Ht' as (Ht1 & Ht2 & Ht3 & Ht4 & Ht5 & Ht6 & Ht7).
  clearbody t'.
  exists a, tl, b, fl, x, tr1, hh', tr', t', (set_cells m h3).
  split; [done|]. split; [done|]. split; [done|]. split; [done|].
  split; [reflexivity|].
  assert (Hsub : ∀ y, y ∈ addrs tr' → y ∈ addrs tr ∧ y ≠ a).
  { intros y Hy. rewrite Haddr' in Hy. split.
    - rewrite <- Haddr. by right.
    - intros ->. done. }
  assert (Hfree_frame : ∀ y, y ∈ fs → h3 !! y = cells m !! y).
  { intros y Hy.
    assert (Hyt : y ∉ addrs tr) by (intros ?; by eapply Hdisj).
    rewrite Hfr3.
    - unfold h2. rewrite lookup_insert_ne.
      + by apply Hfr1.
      + intros <-. apply Hyt. rewrite <- Haddr. left.
    - intros Hin2. apply Hyt. rewrite <- Haddr. by right. }
  assert (Hcount_pos : (1 ≤ count tr)%nat) by (rewrite <- Hcnt; lia).
  assert (Hhgt_pos : (1 ≤ hgt tr)%nat) by (rewrite Htr; simpl; lia).
  split.
  { split.
    - split.
      + done.
      + done.
      + rewrite Ht2. simpl. split; [done|].
        exists None, (freeStack t), b1, (fl - 4), None.
        split_and!; try done; try lia.
        * rewrite Hfr3 by done. unfold h2. apply lookup_insert_eq.
        * eapply free_list_frame; [exact Hfree_frame|]. apply (rp_free Hrp).
      + apply NoDup_app. split_and!.
        * by rewrite Haddr'.
        * intros y Hy. apply Hsub in Hy as [Hy1 Hy2].
          apply not_elem_of_cons. split; [done|]. by apply Hdisj.
        * apply NoDup_cons. split; [|done].
          intros Hafs. eapply Hdisj; [|exact Hafs]. rewrite <- Haddr. left.
      + apply Hflg'; [apply Hflg, (rp_flags Hrp) | by eapply ctx_avl_frames].
      + rewrite Ht5. apply (rp_alloc Hrp).
    - done.
    - rewrite Ht4. rewrite Hhgt in Hh'.
      destruct Hhh as [-> | ->]; simpl.
      + lia.
      + rewrite wrap_int_id; unfold INT_MAX in *;
          pose proof (hgt_le_count _ tr); lia.
    - rewrite Ht3, wrap_int_id by (unfold INT_MAX in *; lia). lia.
    - rewrite Ht3, wrap_int_id by (unfold INT_MAX in *; lia). lia. }
  split_and!; try done.
  by rewrite Hin'.
Qed.

End DeleteTop.


(** * The height of a balanced tree *)

Section Height.

Variable A : Type.
Implicit Types (s tr : tree A).

Lemma min_count_S h : min_count (S (S h)) = min_count (S h) + min_count h + 1.
Proof.
  unfold min_count. simpl. destruct (min_count2 h) as [a b]. simpl. lia.
Qed.

Lemma min_count_mono1 h : 0 ≤ min_count h ≤ min_count (S h).
Proof.
  induction h as [|h IH]; [by vm_compute|].
  rewrite min_count_S. lia.
Qed.

Lemma min_count_mono h h' : (h ≤ h')%nat → min_count h ≤ min_count h'.
Proof.
  induction 1 as [|h' _ IH]; [lia|].
  pose proof (min_count_mono1 h'). lia.
Qed.

Lemma avl_min_count s : avl s → min_count (hgt s) ≤ Z.of_nat (count s).
Proof.
  induction s as [|a tl IHl b fl x tr IHr]; [by vm_compute|].
  intros (Hb & Hr & Hl & Hrr). specialize (IHl Hl). specialize (IHr Hrr).
  simpl hgt. simpl count.
  destruct (Nat.max (hgt tl) (hgt tr)) as [|n] eqn:Hmax.
  { vm_compute min_count. lia. }
  rewrite min_count_S.
  assert (Hcase : (hgt tl = S n ∧ (hgt tr = S n ∨ hgt tr = n))
                  ∨ (hgt tr = S n ∧ hgt tl = n)) by lia.
  pose proof (min_count_mono1 n).
  destruct Hcase as [[Hl1 [Hr1 | Hr1]] | [Hr1 Hl1]];
    rewrite Hl1, Hr1 in *; lia.
Qed.

(** A balanced tree whose size fits a C [int] is at most 44 levels high. *)
Lemma avl_height_bound s :
  avl s → Z.of_nat (count s) ≤ INT_MAX → (hgt s ≤ 44)%nat.
Proof.
  intros Ha Hc. apply avl_min_count in Ha.
  destruct (decide (hgt s ≤ 44)%nat) as [|Hgt]; [done|].
  assert (min_count 45 ≤ min_count (hgt s)) by (apply min_count_mono; lia).
  assert (min_count 45 = 2971215072) by (by vm_compute).
  unfold INT_MAX in *. lia.
Qed.

End Height.

(** * The search order *)

Section Paths.

Variable A : Type.
Variable cmp : A → A → Z.
Implicit Types (s tr : tree A) (C : list (frame A)).

Lemma del_path_lookup k : ∀ s C,
  match del_path cmp k C s with
  | None => lookup_tree cmp k s = None
  | Some (_, s') => ∃ a tl b fl x tr,
      s' = T a tl b fl x tr ∧ lookup_tree cmp k s = Some x
  end.
Proof.
  induction s as [|a tl IHl b fl x tr IHr]; intros C; simpl; [done|].
  destruct (cmp x k =? 0); [by eauto 10|].
  destruct (cmp x k <? 0); [apply IHl | apply IHr].
Qed.

Lemma ins_path_lookup k : ∀ s C,
  match ins_path cmp k C s with
  | None => ∃ x, lookup_tree cmp k s = Some x ∧ cmp x k = 0
  | Some _ => lookup_tree cmp k s = None
  end.
Proof.
  induction s as [|a tl IHl b fl x tr IHr]; intros C; simpl; [done|].
  destruct (Z.eqb_spec (cmp x k) 0); [by eauto|].
  destruct (cmp x k <? 0); [apply IHl | apply IHr].
Qed.

Lemma lookup_tree_none k s :
  (∀ y, y ∈ inorder s → cmp y k ≠ 0) → lookup_tree cmp k s = None.
Proof.
  induction s as [|a tl IHl b fl x tr IHr]; intros H; simpl; [done|].
  simpl in H.
  destruct (Z.eqb_spec (cmp x k) 0) as [He | _].
  { exfalso. eapply H; [|exact He]. set_solver. }
  destruct (cmp x k <? 0); [apply IHl | apply IHr]; intros y Hy; apply H;
    set_solver.
Qed.

Lemma lookup_tree_Some k s x :
  lookup_tree cmp k s = Some x → x ∈ inorder s ∧ cmp x k = 0.
Proof.
  induction s as [|a tl IHl b fl y tr IHr]; simpl; [done|].
  destruct (Z.eqb_spec (cmp y k) 0) as [He | _].
  { intros [= <-]. split; [set_solver | done]. }
  destruct (cmp y k <? 0); intros H; [apply IHl in H | apply IHr in H];
    split; set_solver.
Qed.

Section Total.

Hypothesis Hord : total_order cmp.

Lemma klt_trans x y z : klt cmp x y → klt cmp y z → klt cmp x z.
Proof. unfold klt. apply (cmp_trans Hord). Qed.

Lemma cmp_refl x : cmp x x = 0.
Proof. pose proof (cmp_antisym Hord x x). lia. Qed.

Lemma cmp_sym_0 x y : cmp x y = 0 → cmp y x = 0.
Proof.
  pose proof (cmp_antisym Hord x y). pose proof (cmp_antisym Hord y x). lia.
Qed.

Lemma klt_cmp_ne x y k :
  cmp x k = 0 → klt cmp y x ∨ klt cmp x y → cmp y k ≠ 0.
Proof.
  unfold klt. intros Hx [Hlt | Hlt] Hy.
  - apply (cmp_eq_compat Hord x k y Hx) in Hlt.
    pose proof (cmp_antisym Hord k y). lia.
  - apply (cmp_eq_compat Hord y k x Hy) in Hlt.
    pose proof (cmp_antisym Hord k x). lia.
Qed.

(** The elements left of the end of a search path sort before the key,
    those right of it after. *)
Lemma path_bounds k : ∀ C,
  Forall (on_path cmp k) C →
  StronglySorted (klt cmp) (lefts C ++ rights C) →
  (∀ y, y ∈ lefts C → klt cmp y k) ∧ (∀ y, y ∈ rights C → klt cmp k y).
Proof.
  induction C as [|fr C IH]; intros Hp Hs; [split; intros y Hy; inversion Hy|].
  apply Forall_cons in Hp as [Hfr Hp].
  destruct fr as [a b fl x sib | a sib b fl x]; simpl in *.
  - (* to the left of [x] *)
    assert (Hs' : StronglySorted (klt cmp) (lefts C ++ rights C)).
    { apply StronglySorted_app in Hs as (H1 & H2 & H3).
      apply StronglySorted_cons in H3 as [_ H3].
      apply StronglySorted_app in H3 as (_ & _ & H3).
      apply StronglySorted_app. split_and!; [|done|done].
      intros x1 x2 Hx1 Hx2. apply H1; [done|]. set_solver. }
    destruct (IH Hp Hs') as [IHl IHr]. split; [done|].
    apply StronglySorted_app in Hs as (_ & _ & H3).
    apply StronglySorted_cons in H3 as [H3 _].
    rewrite Forall_forall in H3.
    intros y Hy. apply elem_of_cons in Hy as [-> | Hy]; [done|].
    eapply klt_trans; [exact Hfr|]. by apply H3.
  - (* to the right of [x] *)
    assert (Hxk : klt cmp x k).
    { unfold klt. by apply (cmp_antisym Hord). }
    rewrite <- !app_assoc in Hs.
    assert (Hs' : StronglySorted (klt cmp) (lefts C ++ rights C)).
    { apply StronglySorted_app in Hs as (H1 & H2 & H3).
      apply StronglySorted_app in H3 as (_ & _ & H3).
      apply StronglySorted_cons in H3 as [_ H3].
      apply StronglySorted_app. split_and!; [|done|done].
      intros x1 x2 Hx1 Hx2. apply H1; [done|]. set_solver. }
    destruct (IH Hp Hs') as [IHl IHr]. split; [|done].
    intros y Hy.
    apply elem_of_app in Hy as [Hy | Hy]; [by apply IHl|].
    rewrite app_assoc in Hs.
    apply StronglySorted_app in Hs as (H1 & _ & _).
    apply elem_of_app in Hy as [Hy | Hy].
    + eapply klt_trans; [|exact Hxk].
      apply H1; [apply elem_of_app; by right | left].
    + apply list_elem_of_singleton in Hy as ->. done.
Qed.

(** A new element at the end of its search path keeps the order. *)
Lemma bst_insert k C :
  Forall (on_path cmp k) C →
  StronglySorted (klt cmp) (lefts C ++ rights C) →
  StronglySorted (klt cmp) (lefts C ++ k :: rights C).
Proof.
  intros Hp Hs. destruct (path_bounds k C Hp Hs) as [Hl Hr].
  apply StronglySorted_app in Hs as (H1 & H2 & H3).
  apply StronglySorted_app. split_and!; [|done|].
  - intros x1 x2 Hx1 Hx2. apply elem_of_cons in Hx2 as [-> | Hx2]; auto.
  - apply StronglySorted_cons. split; [|done]. by apply Forall_forall.
Qed.

Lemma sorted_remove (l1 l2 : list A) x :
  StronglySorted (klt cmp) (l1 ++ x :: l2) →
  StronglySorted (klt cmp) (l1 ++ l2)
  ∧ (∀ y, y ∈ l1 ++ l2 → klt cmp y x ∨ klt cmp x y).
Proof.
  intros Hs. apply StronglySorted_app in Hs as (H1 & H2 & H3).
  apply StronglySorted_cons in H3 as [H3 H4]. rewrite Forall_forall in H3.
  split.
  - apply StronglySorted_app. split_and!; [|done|done].
    intros x1 x2 Hx1 Hx2. apply H1; [done|]. by right.
  - intros y Hy. apply elem_of_app in Hy as [Hy | Hy].
    + left. apply H1; [done|]. left.
    + right. by apply H3.
Qed.

(** In an ordered tree the search finds every element. *)
Lemma lookup_tree_in k s :
  bst cmp s → k ∈ inorder s → lookup_tree cmp k s = Some k.
Proof.
  unfold bst.
  induction s as [|a tl IHl b fl x tr IHr]; simpl; intros Hs Hk;
    [inversion Hk|].
  pose proof Hs as Hs0.
  apply StronglySorted_app in Hs as (H1 & H2 & H3).
  apply StronglySorted_cons in H3 as [H3 H4]. rewrite Forall_forall in H3.
  apply elem_of_app in Hk as [Hk | Hk].
  - assert (Hlt : cmp x k < 0) by (apply (H1 k x Hk); left).
    destruct (Z.eqb_spec (cmp x k) 0); [lia|].
    destruct (Z.ltb_spec (cmp x k) 0); [|lia]. by apply IHl.
  - apply elem_of_cons in Hk as [-> | Hk].
    + by rewrite cmp_refl.
    + assert (Hlt : cmp k x < 0) by (by apply H3).
      apply (cmp_antisym Hord) in Hlt.
      destruct (Z.eqb_spec (cmp x k) 0); [lia|].
      destruct (Z.ltb_spec (cmp x k) 0); [lia|]. by apply IHr.
Qed.

End Total.

End Paths.


(** * [AVL_walk] *)

Section Walk.

Variables (A U : Type).
Implicit Types (h : gmap nat (AVL_NODE A)) (t : AVL_TREE A U) (m : mem A).
Implicit Types (s tr : tree A) (stack : list ptr) (pe : ptr).

Local Arguments walk_loop : simpl never.

Lemma walk_loop_S fuel h c p stack top acc :
  walk_loop (S fuel) h c p stack top acc
  = ('(c, p, stack, top, acc) ← walk_body h c p stack top acc;
     if walk_continue top
     then walk_loop fuel h c p stack top acc
     else Ok acc).
Proof. done. Qed.

Lemma stack_get_Some stack i v : stack !! i = Some v → stack_get stack i = Ok v.
Proof. unfold stack_get. by intros ->. Qed.

Lemma stack_set_lt stack i v :
  (i < length stack)%nat → stack_set stack i v = Ok (<[i := v]> stack).
Proof. intros H. unfold stack_set. by rewrite (proj2 (Nat.ltb_lt _ _) H). Qed.

Lemma root_Some_in s a : root s = Some a → a ∈ addrs s ∧ s ≠ E.
Proof. destruct s; [done|]. intros [= ->]. split; [simpl; left | done]. Qed.

Lemma child_ptr_ne h s a q :
  rep h s → a ∉ addrs s → root s = Some q →
  ∃ nc, h !! q = Some nc ∧ l nc ≠ Some a ∧ r nc ≠ Some a.
Proof.
  destruct s as [|q' tl b fl x tr]; [done|]. intros (Hq & Hl & Hr) Ha [= ->].
  eexists. split; [exact Hq|]. simpl in *.
  apply not_elem_of_cons in Ha as [_ Ha]. apply not_elem_of_app in Ha as [? ?].
  split; intros Hroot; apply root_addrs in Hroot; done.
Qed.

Lemma walk_continue_true k :
  (0 < k)%nat → (k ≤ 62)%nat → walk_continue k = true.
Proof.
  intros H1 H2. unfold walk_continue.
  rewrite (proj2 (Nat.ltb_lt _ _) H1). apply Nat.ltb_lt.
  unfold AVL_MAX_DEPTH. lia.
Qed.

(** The walk of a subtree that the loop has just come down into, [k]
    levels below the top: the callback sees its payloads in order, and
    the loop is back at the node it came from. *)
Lemma walk_sub h : ∀ s k stack pe acc fuel',
  s ≠ E → rep h s → NoDup (addrs s) →
  stack !! k = Some pe → length stack = AVL_MAX_DEPTH →
  (∀ q, pe = Some q → q ∈ addrs s → Some q = root s) →
  (k + hgt s ≤ 62)%nat →
  ∃ stack',
    length stack' = AVL_MAX_DEPTH
    ∧ (∀ i, (i ≤ k)%nat → stack' !! i = stack !! i)
    ∧ walk_loop (walk_steps s + fuel') h (root s) pe stack (S k) acc
      = (if walk_continue k
         then walk_loop fuel' h pe (root s) stack' k
                (acc ++ (Some <$> inorder s))
         else Ok (acc ++ (Some <$> inorder s))).
Proof.
  induction s as [|a tl IHl b fl x tr IHr];
    intros k stack pe acc fuel' Hne Hrep Hnd Hk Hlen Hpe Hd; [done|].
  destruct Hrep as (Ha & Hl & Hr). simpl in Hnd. atomize. simpl in Hd.
  set (nr := match tr with E => O | T _ _ _ _ _ _ => S (walk_steps tr) end).
  set (nl := match tl with E => O | T _ _ _ _ _ _ => S (walk_steps tl) end).
  assert (Hsteps : walk_steps (T a tl b fl x tr) = S (nl + nr)) by done.
  assert (Hnr : (tr = E ∧ nr = O)
                ∨ (∃ a2, root tr = Some a2 ∧ nr = S (walk_steps tr)
                         ∧ tr ≠ E ∧ hgt tr ≠ O ∧ a2 ∈ addrs tr)).
  { unfold nr. destruct tr; [by left|]. right. eexists. split_and!; try done.
    simpl. left. }
  assert (Hnl : (tl = E ∧ nl = O)
                ∨ (∃ a1, root tl = Some a1 ∧ nl = S (walk_steps tl)
                         ∧ tl ≠ E ∧ hgt tl ≠ O ∧ a1 ∈ addrs tl)).
  { unfold nl. destruct tl; [by left|]. right. eexists. split_and!; try done.
    simpl. left. }
  clearbody nr nl.
  assert (Hright : ∀ p0 sX acc1 fuel1,
    walk_down h (Some a) p0 sX (S k) = Ok (Some a, root tl, sX, S k) →
    sX !! k = Some pe → length sX = AVL_MAX_DEPTH →
    ∃ stack',
      length stack' = AVL_MAX_DEPTH
      ∧ (∀ i, (i ≤ k)%nat → stack' !! i = sX !! i)
      ∧ walk_loop (S (nr + fuel1)) h (Some a) p0 sX (S k) acc1
        = (if walk_continue k
           then walk_loop fuel1 h pe (Some a) stack' k
                  (acc1 ++ [Some x] ++ (Some <$> inorder tr))
           else Ok (acc1 ++ [Some x] ++ (Some <$> inorder tr)))).
  { intros p0 sX acc1 fuel1 Hdown HkX HlenX.
    rewrite walk_loop_S. unfold walk_body. rewrite Hdown. simpl.
    unfold walk_visit. hstep. hstep.
    destruct Hnr as [[-> ->] | (a2 & Hroot2 & -> & Htr & Hhr & Ha2)].
    - (* no right subtree *)
      simpl. unfold walk_up. hstep. try hstep.
      rewrite (stack_get_Some sX k pe HkX). simpl.
      exists sX. split_and!; done.
    - rewrite Hroot2. simpl.
      rewrite stack_set_lt by (rewrite HlenX; unfold AVL_MAX_DEPTH; lia).
      simpl.
      destruct (child_ptr_ne h tr a a2 Hr) as (nc2 & Hc2 & Hl2 & Hr2);
        [done | done |].
      unfold walk_up. rewrite (load_Some h a2 nc2 Hc2). simpl.
      rewrite ptr_eqb_ne by done. simpl.
      rewrite walk_continue_true by lia.
      match goal with |- context [walk_loop _ h (Some a2) (Some a) ?ss _ ?aa] =>
        set (s3 := ss); set (acc3 := aa) end.
      destruct (IHr (S k) s3 (Some a) acc3 (S fuel1))
        as (s4 & Hlen4 & Hagree & Hrun); try done.
      { unfold s3. apply list_lookup_insert_eq. rewrite HlenX.
        unfold AVL_MAX_DEPTH. lia. }
      { unfold s3. by rewrite length_insert. }
      { intros q [= <-] Hq. done. }
      { lia. }
      replace (S (walk_steps tr + fuel1))%nat with (walk_steps tr + S fuel1)%nat
        by lia.
      rewrite Hroot2 in Hrun. rewrite Hrun.
      rewrite walk_continue_true by lia.
      (* back from the right *)
      rewrite walk_loop_S. unfold walk_body, walk_down.
      assert (Hk4 : s4 !! k = Some pe).
      { rewrite Hagree by lia. unfold s3.
        rewrite list_lookup_insert_ne by lia. done. }
      rewrite (stack_get_Some s4 k pe Hk4). simpl.
      assert (Hpe2 : pe ≠ Some a2).
      { intros ->. specialize (Hpe a2 eq_refl). simpl in Hpe.
        assert (Some a2 = Some a) as [= ->]; [|done].
        apply Hpe. right. apply elem_of_app. by right. }
      rewrite (ptr_eqb_ne pe) by done. simpl.
      unfold walk_visit. hstep.
      rewrite (ptr_eqb_ne (Some a2)).
      2:{ intros Hroot. symmetry in Hroot. apply root_addrs in Hroot.
          match goal with H : ∀ y, y ∈ addrs tl → y ∉ addrs tr |- _ =>
            by eapply H end. }
      simpl. unfold walk_up. hstep. rewrite Hroot2. hstep.
      rewrite (stack_get_Some s4 k pe Hk4). simpl.
      exists s4. split_and!; [done | |].
      + intros i Hi. rewrite Hagree by lia. unfold s3.
        by rewrite list_lookup_insert_ne by lia.
      + unfold acc3. rewrite <- !app_assoc. done. }
  rewrite Hsteps. simpl root.
  destruct Hnl as [[-> ->] | (a1 & Hroot1 & -> & Htl & Hhl & Ha1)].
  - (* no left subtree *)
    simpl plus.
    destruct (Hright pe stack acc fuel') as (stack' & Hlen' & Hagree & Hrun);
      try done.
    { unfold walk_down. rewrite (stack_get_Some stack k pe Hk). simpl.
      rewrite ptr_eqb_refl. hstep. done. }
    exists stack'. split_and!; [done | done |].
    rewrite Hrun. simpl. done.
  - replace (S (S (walk_steps tl) + nr) + fuel')%nat
      with (S (walk_steps tl + S (nr + fuel')))%nat by lia.
    rewrite walk_loop_S. unfold walk_body, walk_down.
    rewrite (stack_get_Some stack k pe Hk). simpl.
    rewrite ptr_eqb_refl. hstep. rewrite Hroot1.
    rewrite stack_set_lt by (rewrite Hlen; unfold AVL_MAX_DEPTH; lia).
    simpl.
    destruct (child_ptr_ne h tl a a1 Hl) as (nc1 & Hc1 & Hl1 & Hr1);
      [done | done |].
    unfold walk_visit. rewrite (load_Some h a1 nc1 Hc1). simpl.
    rewrite ptr_eqb_ne by done. simpl.
    unfold walk_up. rewrite (load_Some h a1 nc1 Hc1). simpl.
    rewrite ptr_eqb_ne by done. simpl.
    rewrite walk_continue_true by lia.
    match goal with |- context [walk_loop _ h (Some a1) (Some a) ?ss _ _] =>
      set (s1 := ss) end.
    destruct (IHl (S k) s1 (Some a) acc (S (nr + fuel')))
      as (s2 & Hlen2 & Hagree2 & Hrun2); try done.
    { unfold s1. apply list_lookup_insert_eq. rewrite Hlen.
      unfold AVL_MAX_DEPTH. lia. }
    { unfold s1. by rewrite length_insert. }
    { intros q [= <-] Hq. done. }
    { lia. }
    rewrite Hroot1 in Hrun2. rewrite Hrun2.
    rewrite walk_continue_true by lia.
    assert (Hk2 : s2 !! k = Some pe).
    { rewrite Hagree2 by lia. unfold s1.
      rewrite list_lookup_insert_ne by lia. done. }
    assert (Hpe1 : pe ≠ Some a1).
    { intros ->. specialize (Hpe a1 eq_refl). simpl in Hpe.
      assert (Some a1 = Some a) as [= ->]; [|done].
      apply Hpe. right. apply elem_of_app. by left. }
    destruct (Hright (Some a1) s2 (acc ++ (Some <$> inorder tl)) fuel')
      as (stack' & Hlen' & Hagree & Hrun); try done.
    { unfold walk_down. rewrite (stack_get_Some s2 k pe Hk2). simpl.
      rewrite (ptr_eqb_ne pe) by done. by rewrite Hroot1. }
    exists stack'. split_and!; [done | |].
    + intros i Hi. rewrite Hagree by lia. rewrite Hagree2 by lia. unfold s1.
      by rewrite list_lookup_insert_ne by lia.
    + rewrite Hrun. simpl. rewrite fmap_app. simpl.
      rewrite <- !app_assoc. done.
Qed.

(** [AVL_walk] hands the payloads of the tree to the callback, once
    each, in order from left to right. *)
Lemma walk_ok t m tr fs fuel :
  represents t (cells m) tr fs →
  (hgt tr ≤ 62)%nat → (walk_steps tr ≤ fuel)%nat →
  AVL_walk fuel t m = Ok (Some <$> inorder tr).
Proof.
  intros Hrp Hd Hf. unfold AVL_walk. rewrite (rp_top Hrp).
  destruct tr as [|a tl b fl x tr1] eqn:Htr; [done|]. rewrite <- Htr in *.
  assert (Hroot : root tr = Some a) by (by rewrite Htr). rewrite Hroot.
  rewrite stack_set_lt by (unfold stack_init; rewrite length_replicate;
                           unfold AVL_MAX_DEPTH; lia).
  simpl.
  pose proof (rp_nodup Hrp) as Hnd. apply NoDup_app in Hnd as (Hnd & _ & _).
  destruct (walk_sub (cells m) tr 0 (<[0%nat := Some a]> stack_init) (Some a) []
              (fuel - walk_steps tr))
    as (stack' & _ & _ & Hrun).
  - by rewrite Htr.
  - apply (rp_rep Hrp).
  - done.
  - done.
  - rewrite length_insert. unfold stack_init. by rewrite length_replicate.
  - intros q [= <-] _. done.
  - lia.
  - replace (walk_steps tr + (fuel - walk_steps tr))%nat with fuel in Hrun by lia.
    rewrite Hroot in Hrun. etrans; [exact Hrun|]. done.
Qed.

End Walk.


(** * The validator [AVL_checkBalance] and reading a heap back *)

Section Check.

Variable A : Type.
Implicit Types (h : gmap nat (AVL_NODE A)) (s : tree A).

(** The low-level shape a tree needs for the validator to read its
    balances: every flag byte holds a balance within the three bits. *)
Lemma checkBalance_height h s fuel :
  rep h s → flags_ok s → avl s → (hgt s < fuel)%nat →
  AVL_checkBalance fuel h (root s) = Ok (Z.of_nat (hgt s)).
Proof.
  revert fuel. induction s as [|a tl IHl b fl x tr IHr]; intros fuel Hrep Hfl Havl Hf.
  - destruct fuel; [simpl in Hf; lia | done].
  - destruct fuel as [|fuel]; [simpl in Hf; lia|].
    simpl in Hrep, Hfl, Havl, Hf.
    destruct Hrep as (Ha & Hl & Hr). destruct Hfl as (Hu & Hb & Hfl1 & Hfl2).
    destruct Havl as (Hbal & Hrange & Hal & Har).
    pose proof (used_fl_range _ Hu).
    simpl. rewrite (load_Some _ _ _ Ha). simpl.
    rewrite IHl by (done || lia). simpl.
    rewrite IHr by (done || lia). simpl.
    rewrite getbal_enc by lia.
    replace (Z.of_nat (hgt tl) =? -1) with false by (symmetry; apply Z.eqb_neq; lia).
    replace (Z.of_nat (hgt tr) =? -1) with false by (symmetry; apply Z.eqb_neq; lia).
    simpl. rewrite <- Hbal.
    rewrite Z.eqb_refl. simpl.
    replace (b <? -1) with false by (symmetry; apply Z.ltb_ge; lia).
    replace (b >? 1) with false by (symmetry; rewrite Z.gtb_ltb; apply Z.ltb_ge; lia).
    simpl. rewrite Z.gtb_ltb. destruct (0 <? b) eqn:Hpos; f_equal.
    + apply Z.ltb_lt in Hpos. lia.
    + apply Z.ltb_ge in Hpos. lia.
Qed.

(** Conversely, a result other than -1 means that the tree is balanced
    and that the result is its height. *)
Lemma checkBalance_sound h s : ∀ fuel v,
  rep h s → flags_ok s →
  AVL_checkBalance fuel h (root s) = Ok v → v ≠ -1 →
  avl s ∧ v = Z.of_nat (hgt s).
Proof.
  induction s as [|a tl IHl b fl x tr IHr]; intros fuel v Hrep Hfl Hrun Hv.
  - destruct fuel; [done|]. simpl in Hrun. by injection Hrun as <-.
  - destruct fuel as [|fuel]; [done|].
    simpl in Hrep, Hfl.
    destruct Hrep as (Ha & Hl & Hr). destruct Hfl as (Hu & Hb & Hfl1 & Hfl2).
    pose proof (used_fl_range _ Hu).
    simpl in Hrun. rewrite (load_Some _ _ _ Ha) in Hrun. simpl in Hrun.
    destruct (AVL_checkBalance fuel h (root tl)) as [lh|] eqn:Hlh; [|done].
    simpl in Hrun.
    destruct (AVL_checkBalance fuel h (root tr)) as [rh|] eqn:Hrh; [|done].
    simpl in Hrun. rewrite getbal_enc in Hrun by lia.
    destruct (lh =? -1) eqn:Hl1; [simpl in Hrun; congruence|].
    destruct (rh =? -1) eqn:Hr1; [simpl in Hrun; congruence|].
    apply Z.eqb_neq in Hl1, Hr1.
    destruct (IHl _ _ Hl Hfl1 Hlh Hl1) as [Hal ->].
    destruct (IHr _ _ Hr Hfl2 Hrh Hr1) as [Har ->].
    simpl in Hrun.
    destruct (Z.of_nat (hgt tr) - Z.of_nat (hgt tl) =? b) eqn:Hbb;
      [|simpl in Hrun; congruence].
    apply Z.eqb_eq in Hbb. simpl in Hrun.
    destruct (Z.of_nat (hgt tr) - Z.of_nat (hgt tl) <? -1) eqn:Hlo;
      [simpl in Hrun; congruence|].
    apply Z.ltb_ge in Hlo. simpl in Hrun.
    rewrite !Z.gtb_ltb in Hrun.
    destruct (1 <? Z.of_nat (hgt tr) - Z.of_nat (hgt tl)) eqn:Hhi;
      [simpl in Hrun; congruence|].
    apply Z.ltb_ge in Hhi.
    split; [simpl; split_and!; (done || lia)|].
    destruct (0 <? Z.of_nat (hgt tr) - Z.of_nat (hgt tl)) eqn:Hpos;
      injection Hrun as <-; simpl hgt.
    + apply Z.ltb_lt in Hpos. lia.
    + apply Z.ltb_ge in Hpos. lia.
Qed.

(** A heap that reads back as [s] holds [s]. *)
Lemma read_tree_rep h : ∀ fuel p s,
  read_tree fuel h p = Some s → rep h s ∧ root s = p.
Proof.
  induction fuel as [|fuel IH]; intros p s Hread; [done|].
  simpl in Hread. destruct p as [a|]; [|by injection Hread as <-].
  destruct (h !! a) as [n|] eqn:Ha; [|done]. simpl in Hread.
  destruct (d n) as [x|] eqn:Hd; [|done]. simpl in Hread.
  destruct (read_tree fuel h (l n)) as [tl|] eqn:Hl; [|done]. simpl in Hread.
  destruct (read_tree fuel h (r n)) as [tr|] eqn:Hr; [|done]. simpl in Hread.
  destruct ((0 <=? f n) && (f n <? 80)) eqn:Hf; [|done].
  injection Hread as <-.
  apply andb_true_iff in Hf as [Hf1%Z.leb_le Hf2%Z.ltb_lt].
  destruct (IH _ _ Hl) as [Hrl Hrootl]. destruct (IH _ _ Hr) as [Hrr Hrootr].
  split; [|done]. simpl. split_and!; [|done|done].
  rewrite Ha, Hrootl, Hrootr. f_equal. destruct n as [nl nr nf nd]; simpl in *.
  f_equal; [|done]. unfold enc.
  pose proof (Z.div_mod nf 16). lia.
Qed.

Lemma read_free_chain h : ∀ fuel p fs,
  read_free fuel h p = Some fs →
  Forall (λ a, ∃ n, h !! a = Some n ∧ 0 ≤ f n < 80 ∧ (f n mod 16 = 0 ∨ f n mod 16 = 8)) fs →
  free_list h p fs.
Proof.
  induction fuel as [|fuel IH]; intros p fs Hread Hall; [done|].
  simpl in Hread. destruct p as [a|]; [|by injection Hread as <-].
  destruct (h !! a) as [n|] eqn:Ha; [|done]. simpl in Hread.
  destruct (read_free fuel h (r n)) as [fs'|] eqn:Hr; [|done].
  injection Hread as <-. apply Forall_cons in Hall as [(n' & Hn' & Hf & Hfl) Hall].
  rewrite Ha in Hn'. injection Hn' as <-.
  simpl. split; [done|].
  exists (l n), (r n), (f n / 16 - 2), (f n mod 16), (d n).
  split_and!.
  - rewrite Ha. f_equal. destruct n as [nl nr nf nd]; simpl in *.
    f_equal. unfold enc. pose proof (Z.div_mod nf 16). lia.
  - pose proof (Z.div_mod (f n) 16). pose proof (Z.mod_pos_bound (f n) 16). lia.
  - pose proof (Z.div_mod (f n) 16). pose proof (Z.mod_pos_bound (f n) 16). lia.
  - exact Hfl.
  - by apply IH.
Qed.

(** The validator returns on every tree that the heap holds. *)
Lemma checkBalance_total h s : ∀ fuel,
  rep h s → flags_ok s → (hgt s < fuel)%nat →
  ∃ v, AVL_checkBalance fuel h (root s) = Ok v
       ∧ (v = -1 ∨ v = Z.of_nat (hgt s)).
Proof.
  induction s as [|a tl IHl b fl x tr IHr]; intros fuel Hrep Hfl Hf.
  - destruct fuel; [simpl in Hf; lia|]. exists 0. simpl. auto.
  - destruct fuel as [|fuel]; [simpl in Hf; lia|].
    simpl in Hrep, Hfl, Hf.
    destruct Hrep as (Ha & Hl & Hr). destruct Hfl as (Hu & Hb & Hfl1 & Hfl2).
    destruct (IHl fuel Hl Hfl1 ltac:(lia)) as (lh & Hlh & Hlv).
    destruct (IHr fuel Hr Hfl2 ltac:(lia)) as (rh & Hrh & Hrv).
    simpl. rewrite (load_Some _ _ _ Ha). simpl. rewrite Hlh. simpl.
    rewrite Hrh. simpl.
    destruct ((lh =? -1) || (rh =? -1)) eqn:Hm; [eauto|].
    apply orb_false_iff in Hm as [Hl1%Z.eqb_neq Hr1%Z.eqb_neq].
    destruct Hlv as [? | ->]; [done|]. destruct Hrv as [? | ->]; [done|].
    destruct (negb _ || _ || _) eqn:Hc; [eauto|].
    apply orb_false_iff in Hc as [Hc Hhi]. apply orb_false_iff in Hc as [_ Hlo].
    apply Z.ltb_ge in Hlo. rewrite Z.gtb_ltb in Hhi. apply Z.ltb_ge in Hhi.
    rewrite Z.gtb_ltb.
    destruct (0 <? Z.of_nat (hgt tr) - Z.of_nat (hgt tl)) eqn:Hpos;
      eexists; (split; [done|]); right; simpl hgt.
    + apply Z.ltb_lt in Hpos. lia.
    + apply Z.ltb_ge in Hpos. lia.
Qed.

End Check.


(** * Calls that fail, and the depth limit *)

Ltac bind_inv H :=
  repeat match type of H with
    | (?x ≫= _) = Ok _ =>
        let E := fresh "E" in
        destruct x as [?|?] eqn:E; [rewrite bind_Ok in H | discriminate H]
    | (let '(_, _) := ?x in _) = _ => destruct x
    | (match ?x with (_, _) => _ end) = _ => destruct x
    end.

Ltac case_opt H :=
  match type of H with
  | match ?p with Some _ => _ | None => _ end = _ => destruct p eqn:?
  end.

Section Fail.

Variables (A U : Type).
Implicit Types (h : gmap nat (AVL_NODE A)) (t : AVL_TREE A U) (m : mem A).
Implicit Types (s tr : tree A) (stack : list ptr).

(** ** No node: on any state at all, [AVL_newNode] that returns NULL has
    changed neither the handle nor a cell. *)

Lemma newNode_push_freeStack todo : ∀ i base t h t' h',
  newNode_push todo i base t h = Ok (t', h') →
  (todo = O ∧ t' = t ∧ h' = h) ∨ is_Some (freeStack t').
Proof.
  induction todo as [|todo IH]; intros i base t h t' h' Hrun; simpl in Hrun.
  - left. by injection Hrun as <- <-.
  - right. bind_inv Hrun.
    apply IH in Hrun as [(_ & -> & _) | Hs]; [by eexists | done].
Qed.

Lemma newNode_None t m t' m' :
  AVL_newNode t m = Ok (None, t', m') →
  t' = t ∧ cells m' = cells m ∧ blocks m' = blocks m.
Proof.
  unfold AVL_newNode, newNode_refill, newNode_pop. intros Hrun.
  destruct (freeStack t) as [a|] eqn:Hfs.
  - rewrite bind_Ok in Hrun. simpl in Hrun. rewrite Hfs in Hrun.
    bind_inv Hrun. done.
  - unfold malloc in Hrun. destruct (oracle m) as [|[|] o].
    + rewrite bind_Ok in Hrun. simpl in Hrun. rewrite Hfs in Hrun.
      by injection Hrun as <- <-.
    + simpl in Hrun.
      destruct (newNode_push (Z.to_nat (allocAtOnce t)) 0
                  (fresh_base (cells m)) t
                  (fill_block (cells m) (fresh_base (cells m))
                     (Z.to_nat (allocAtOnce t)))) as [[t1 h1]|] eqn:Hpush;
        [|done].
      rewrite bind_Ok in Hrun.
      apply newNode_push_freeStack in Hpush as [(Hz & -> & ->) | [a Ha]].
      * rewrite Hz in Hrun. simpl in Hrun. unfold upd in Hrun.
        replace (load (cells m) (Some (fresh_base (cells m))))
          with (@Err (AVL_NODE A) NullDeref) in Hrun; [done|].
        unfold load. pose proof (fresh_base_None _ (cells m) 0) as Hn.
        rewrite Nat.add_0_r in Hn. by rewrite Hn.
      * destruct (upd h1 _ _) as [h2|]; [|done]. rewrite !bind_Ok in Hrun.
        simpl in Hrun. rewrite Ha in Hrun. bind_inv Hrun. done.
    + rewrite bind_Ok in Hrun. simpl in Hrun. rewrite Hfs in Hrun.
      by injection Hrun as <- <-.
Qed.

Ltac use_newNode_None :=
  match goal with
  | H : AVL_newNode _ _ = Ok (None, _, _) |- _ =>
      apply newNode_None in H as (-> & ? & ?)
  end.

(** The search of [AVL_insert] that ends without a new node has returned
    1 or 2 and has changed nothing; with a new node it has returned 0. *)
Lemma insert_search_fail fuel : ∀ t m dd c b p rc n b' p' t' m',
  insert_search fuel t m dd c b p = Ok (rc, n, b', p', t', m') →
  match n with
  | None => (rc = 1 ∨ rc = 2) ∧ t' = t ∧ cells m' = cells m ∧ blocks m' = blocks m
  | Some _ => rc = 0
  end.
Proof.
  induction fuel as [|fuel IH]; intros t m dd c b p rc n b' p' t' m' Hrun;
    [done|].
  simpl in Hrun. bind_inv Hrun.
  destruct (eval t _ dd (user t) =? 0).
  { injection Hrun as <- <- <- <- <- <-. auto. }
  destruct (eval t _ dd (user t) <? 0).
  - destruct (l _) eqn:Hl.
    + bind_inv Hrun. destruct (negb _); by apply IH in Hrun.
    + bind_inv Hrun. case_opt Hrun.
      * bind_inv Hrun. by injection Hrun as <- <- <- <- <- <-.
      * injection Hrun as <- <- <- <- <- <-. use_newNode_None. auto.
  - destruct (r _) eqn:Hr.
    + bind_inv Hrun. destruct (negb _); by apply IH in Hrun.
    + bind_inv Hrun. case_opt Hrun.
      * bind_inv Hrun. by injection Hrun as <- <- <- <- <- <-.
      * injection Hrun as <- <- <- <- <- <-. use_newNode_None. auto.
Qed.

Lemma insert_rot_codes fuel t m k rc rot t' m' :
  AVL_insert_rot fuel t m k = Ok (rc, rot, t', m') →
  rc = 0 ∨ ((rc = 1 ∨ rc = 2) ∧ rot = NoRotation
            ∧ t' = t ∧ cells m' = cells m ∧ blocks m' = blocks m).
Proof.
  unfold AVL_insert_rot. intros Hrun. destruct (top t) eqn:Htop.
  - bind_inv Hrun.
    match goal with H : insert_search _ _ _ _ _ _ _ = _ |- _ =>
      apply insert_search_fail in H; rename H into Hs end.
    case_opt Hrun.
    + bind_inv Hrun. injection Hrun as <- <- <- <-. auto.
    + injection Hrun as <- <- <- <-. right. tauto.
  - bind_inv Hrun. case_opt Hrun.
    + bind_inv Hrun. injection Hrun as <- <- <- <-. auto.
    + injection Hrun as <- <- <- <-. use_newNode_None. right. tauto.
Qed.

(** A failed insert leaves the handle and every cell as they were. *)
Lemma insert_fail_unchanged fuel t m k rc t' m' :
  AVL_insert fuel t m k = Ok (rc, t', m') → rc ≠ 0 →
  (rc = 1 ∨ rc = 2) ∧ t' = t ∧ cells m' = cells m ∧ blocks m' = blocks m.
Proof.
  unfold AVL_insert. intros Hrun Hrc. bind_inv Hrun.
  injection Hrun as <- <- <-.
  match goal with H : AVL_insert_rot _ _ _ _ = _ |- _ =>
    apply insert_rot_codes in H as [? | (? & _ & ?)]; [done | tauto] end.
Qed.

(** A delete that returns NULL leaves the whole state as it was. *)
Lemma delete_fail_unchanged fuel t m k t' m' :
  AVL_delete fuel t m k = Ok (None, t', m') → t' = t ∧ m' = m.
Proof.
  unfold AVL_delete. intros Hrun. destruct (top t); [|by injection Hrun as <- <-].
  bind_inv Hrun. case_opt Hrun.
  - bind_inv Hrun. done.
  - by injection Hrun as <- <-.
Qed.

(** ** The depth limit of [AVL_delete] *)

(** From depth [AVL_MAX_DEPTH] on, the search loop stops and leaves the
    NULL that also stands for a key that is not there. *)
Lemma delete_search_limit fuel t h k stack top c p :
  (AVL_MAX_DEPTH ≤ top)%nat →
  delete_search (S fuel) t h k stack top c p = Ok (stack, top, c, p, None).
Proof.
  intros Htop. simpl. destruct c; [|done].
  by rewrite (proj2 (Nat.ltb_ge _ _) Htop).
Qed.

Lemma delete_search_deep t h k : ∀ s C fuel stack top p,
  rep h s → length stack = AVL_MAX_DEPTH → (hgt s < fuel)%nat →
  (∀ C' s', del_path (cmp_of t) k C s = Some (C', s') →
            (AVL_MAX_DEPTH + length C ≤ top + length C')%nat) →
  ∃ stack' top' c' p',
    delete_search fuel t h k stack top (root s) p = Ok (stack', top', c', p', None).
Proof.
  induction s as [|a tl IHl b fl x tr IHr]; intros C fuel stack top p Hrep Hlen Hf Hdeep.
  - destruct fuel; [simpl in Hf; lia|]. simpl. eauto.
  - destruct fuel as [|fuel]; [simpl in Hf; lia|].
    simpl in Hrep, Hf. destruct Hrep as (Ha & Hl & Hr).
    simpl. destruct (top <? AVL_MAX_DEPTH)%nat eqn:Htop; [|eauto].
    apply Nat.ltb_lt in Htop.
    unfold stack_set. rewrite Hlen, (proj2 (Nat.ltb_lt _ _) Htop). simpl.
    rewrite (load_Some _ _ _ Ha). simpl.
    cbn [del_path] in Hdeep. unfold cmp_of in Hdeep at 1 2.
    destruct (eval t x k (user t) =? 0).
    { specialize (Hdeep _ _ eq_refl). lia. }
    destruct (eval t x k (user t) <? 0).
    + apply (IHl (FL a b fl x tr :: C)); [done | by rewrite length_insert | lia |].
      intros C' s' HC'. specialize (Hdeep _ _ HC'). simpl length. lia.
    + apply (IHr (FR a tl b fl x :: C)); [done | by rewrite length_insert | lia |].
      intros C' s' HC'. specialize (Hdeep _ _ HC'). simpl length. lia.
Qed.

(** A key that is stored at depth [AVL_MAX_DEPTH] or deeper is found by
    [AVL_find], and [AVL_delete] answers as if it were not there. *)
Lemma delete_too_deep fuel t m tr k C s :
  rep (cells m) tr → top t = root tr →
  del_path (cmp_of t) k [] tr = Some (C, s) →
  (AVL_MAX_DEPTH ≤ length C)%nat → (hgt tr < fuel)%nat →
  AVL_delete fuel t m k = Ok (None, t, m)
  ∧ ∃ x, AVL_find fuel t m k = Ok (Some x) ∧ cmp_of t x k = 0.
Proof.
  intros Hrep Htop Hpath Hlen Hf. split.
  - unfold AVL_delete. rewrite Htop. destruct tr as [|a tl b fl x tr]; [done|].
    simpl root.
    destruct (delete_search_deep t (cells m) k (T a tl b fl x tr) [] fuel
                stack_init 0%nat None Hrep) as (stack' & top' & c' & p' & Hrun).
    + done.
    + done.
    + intros C' s' HC'. rewrite Hpath in HC'. injection HC' as <- <-.
      unfold AVL_MAX_DEPTH in *. simpl length. lia.
    + simpl root in Hrun. by rewrite Hrun.
  - unfold AVL_find. rewrite Htop, (find_loop_rep _ _ _ _ _ tr) by done.
    pose proof (del_path_lookup _ (cmp_of t) k tr []) as Hl.
    rewrite Hpath in Hl. destruct Hl as (a & tl & b & fl & x & tr1 & -> & Hl).
    exists x. split; [by rewrite Hl|].
    by apply (lookup_tree_Some _ (cmp_of t)) in Hl as [_ ?].
Qed.

End Fail.

(** * Calls that need no memory *)

Section NoMalloc.

Variables (A U : Type).
Implicit Types (h : gmap nat (AVL_NODE A)) (t : AVL_TREE A U) (m : mem A).

(** With a cell on the free stack, [AVL_newNode] does not call malloc. *)
Lemma newNode_no_malloc t m n t' m' :
  is_Some (freeStack t) → AVL_newNode t m = Ok (n, t', m') →
  blocks m' = blocks m ∧ oracle m' = oracle m.
Proof.
  intros [a Ha]. unfold AVL_newNode, newNode_refill, newNode_pop.
  rewrite Ha. rewrite bind_Ok. rewrite Ha. intros Hrun.
  bind_inv Hrun. by injection Hrun as <- <- <-.
Qed.

Lemma insert_search_no_malloc fuel : ∀ t m dd c b p rc n b' p' t' m',
  is_Some (freeStack t) →
  insert_search fuel t m dd c b p = Ok (rc, n, b', p', t', m') →
  blocks m' = blocks m ∧ oracle m' = oracle m.
Proof.
  induction fuel as [|fuel IH]; intros t m dd c b p rc n b' p' t' m' Hfs Hrun;
    [done|].
  simpl in Hrun. bind_inv Hrun.
  destruct (eval t _ dd (user t) =? 0).
  { by injection Hrun as <- <- <- <- <- <-. }
  destruct (eval t _ dd (user t) <? 0).
  - destruct (l _) eqn:Hl.
    + bind_inv Hrun. destruct (negb _); by apply IH in Hrun.
    + bind_inv Hrun.
      match goal with H : AVL_newNode _ _ = _ |- _ =>
        apply newNode_no_malloc in H as [? ?]; [|done] end.
      case_opt Hrun.
      * bind_inv Hrun. by injection Hrun as <- <- <- <- <- <-.
      * by injection Hrun as <- <- <- <- <- <-.
  - destruct (r _) eqn:Hr.
    + bind_inv Hrun. destruct (negb _); by apply IH in Hrun.
    + bind_inv Hrun.
      match goal with H : AVL_newNode _ _ = _ |- _ =>
        apply newNode_no_malloc in H as [? ?]; [|done] end.
      case_opt Hrun.
      * bind_inv Hrun. by injection Hrun as <- <- <- <- <- <-.
      * by injection Hrun as <- <- <- <- <- <-.
Qed.

(** With a cell on the free stack, [AVL_insert] does not call malloc. *)
Lemma insert_no_malloc fuel t m k rc t' m' :
  is_Some (freeStack t) → AVL_insert fuel t m k = Ok (rc, t', m') →
  blocks m' = blocks m ∧ oracle m' = oracle m.
Proof.
  unfold AVL_insert, AVL_insert_rot. intros Hfs Hrun. bind_inv Hrun.
  injection Hrun as <- <- <-.
  match goal with H : _ = Ok (_, _, _, _) |- _ => rename H into Hrot end.
  destruct (top t) eqn:Htop.
  - bind_inv Hrot.
    match goal with H : insert_search _ _ _ _ _ _ _ = _ |- _ =>
      apply insert_search_no_malloc in H as [? ?]; [|done] end.
    case_opt Hrot.
    + bind_inv Hrot. by injection Hrot as <- <- <- <-.
    + by injection Hrot as <- <- <- <-.
  - bind_inv Hrot.
    match goal with H : AVL_newNode _ _ = _ |- _ =>
      apply newNode_no_malloc in H as [? ?]; [|done] end.
    case_opt Hrot.
    + bind_inv Hrot. by injection Hrot as <- <- <- <-.
    + by injection Hrot as <- <- <- <-.
Qed.

End NoMalloc.


(** * Sequences of calls *)

Section Client.

Variables (A U : Type).
Implicit Types (h : gmap nat (AVL_NODE A)) (t : AVL_TREE A U) (m : mem A).
Implicit Types (s tr : tree A) (ks : list A).

Lemma Inv_cells t m m' tr fs :
  cells m' = cells m → Inv t m tr fs → Inv t m' tr fs.
Proof. intros Hc [Hr ? ? ? ?]. split; try done. by rewrite Hc. Qed.

Lemma Inv_height_bound t m tr fs : Inv t m tr fs → (hgt tr ≤ 44)%nat.
Proof.
  intros HI. apply avl_height_bound; [apply HI|].
  rewrite <- (inv_size HI). apply HI.
Qed.

Lemma walk_steps_le s : (walk_steps s ≤ 3 * count s)%nat.
Proof.
  induction s as [|a tl IHl b fl x tr IHr]; simpl; [lia|].
  destruct tl, tr; simpl in *; lia.
Qed.

(** [AVL_newTree] that returns a handle returns a valid empty tree. *)
Lemma newTree_Inv o n (ev : A → A → U → Z) u t o' m :
  AVL_newTree o n ev u = (Some t, o') →
  Inv t m E [] ∧ eval t = ev ∧ user t = u
  ∧ allocAtOnce t = Z.max 1 n ∧ o = true :: o'.
Proof.
  unfold AVL_newTree. destruct o as [|[|] o]; [done| |done].
  intros [= <- <-]. simpl.
  assert (1 ≤ (if n <? 1 then 1 else n) ∧ (if n <? 1 then 1 else n) = Z.max 1 n)
    as [Hge Hmax].
  { destruct (n <? 1) eqn:Hn; [apply Z.ltb_lt in Hn | apply Z.ltb_ge in Hn]; lia. }
  split; [|done].
  split; simpl; [|done|done|done|unfold INT_MAX; lia].
  split; simpl; [done|done|done|constructor|done|done].
Qed.

Lemma count_inorder s : length (inorder s) = count s.
Proof.
  induction s as [|a tl IHl b fl x tr IHr]; simpl; [done|].
  rewrite length_app. simpl. lia.
Qed.

(** One insert on a state that holds a search tree: the answer of the
    call, and the search tree it leaves. *)
Lemma insert_step t m tr fs k fuel :
  Inv t m tr fs → total_order (cmp_of t) → bst (cmp_of t) tr →
  size t < INT_MAX → (44 < fuel)%nat →
  ∃ rc t' m' tr' fs',
    AVL_insert fuel t m k = Ok (rc, t', m')
    ∧ Inv t' m' tr' fs' ∧ bst (cmp_of t') tr'
    ∧ eval t' = eval t ∧ user t' = user t ∧ allocAtOnce t' = allocAtOnce t
    ∧ ((rc = 0 ∧ lookup_tree (cmp_of t) k tr = None
        ∧ inorder tr' ≡ₚ k :: inorder tr
        ∧ (fs ≠ [] ∨ hd false (oracle m) = true))
       ∨ (rc = 1 ∧ (∃ x, lookup_tree (cmp_of t) k tr = Some x) ∧ t' = t ∧ m' = m ∧ tr' = tr)
       ∨ (rc = 2 ∧ lookup_tree (cmp_of t) k tr = None
          ∧ t' = t ∧ cells m' = cells m ∧ tr' = tr
          ∧ fs = [] ∧ hd false (oracle m) = false)).
Proof.
  intros HI Hord Hbst Hsz Hf.
  pose proof (Inv_height_bound _ _ _ _ HI) as Hh.
  pose proof (insert_ok _ _ t m tr fs k fuel HI Hsz ltac:(lia)) as Hins.
  pose proof (ins_path_lookup _ (cmp_of t) k tr []) as Hlk.
  unfold AVL_insert.
  destruct (ins_path (cmp_of t) k [] tr) as [Cf|].
  - destruct Hins as (Htr & Hpath & [(m' & Hrun & Hc & Hb & Hfs & Ho)
      | (n & fl & rot & dh & tr' & t' & m' & fs' & Hrun & _ & HI' & Hin & He & Hu & Ha & Hmem)]).
    + exists 2, t, m', tr, fs. rewrite Hrun. simpl.
      split_and!; try done; [by apply (Inv_cells _ m)|].
      right; right. done.
    + exists 0, t', m', tr', fs'. rewrite Hrun. simpl.
      assert (inorder tr = lefts Cf ++ rights Cf) as Hin0.
      { rewrite Htr, inorder_plug. done. }
      assert (cmp_of t' = cmp_of t) as Hcmp.
      { unfold cmp_of. by rewrite He, Hu. }
      split_and!; try done.
      * rewrite Hcmp. unfold bst. rewrite Hin.
        apply bst_insert; [done | done |]. by rewrite <- Hin0.
      * left. split_and!; try done.
        rewrite Hin, Hin0. by rewrite Permutation_middle.
  - exists 1, t, m, tr, fs. rewrite Hins. simpl.
    split_and!; try done. right; left.
    destruct Hlk as (x & Hx & _). split_and!; eauto.
Qed.

(** A list of inserts on a state that holds a search tree. *)
Lemma insert_all_ok ks : ∀ t m tr fs fuel,
  Inv t m tr fs → total_order (cmp_of t) → bst (cmp_of t) tr →
  size t + Z.of_nat (length ks) ≤ INT_MAX → (44 < fuel)%nat →
  ∃ t' m' ins tr' fs',
    insert_all fuel t m ks = Ok (t', m', ins)
    ∧ Inv t' m' tr' fs' ∧ bst (cmp_of t') tr'
    ∧ eval t' = eval t ∧ user t' = user t
    ∧ inorder tr' ≡ₚ ins ++ inorder tr
    ∧ sublist ins ks.
Proof.
  induction ks as [|k ks IH]; intros t m tr fs fuel HI Hord Hbst Hsz Hf.
  - exists t, m, [], tr, fs. simpl. split_and!; try done.
  - simpl length in Hsz.
    destruct (insert_step t m tr fs k fuel HI Hord Hbst ltac:(lia) Hf)
      as (rc & t1 & m1 & tr1 & fs1 & Hrun & HI1 & Hbst1 & He1 & Hu1 & _ & Hcase).
    assert (cmp_of t1 = cmp_of t) as Hcmp.
    { unfold cmp_of. by rewrite He1, Hu1. }
    assert (size t1 ≤ size t + 1) as Hsz1.
    { rewrite (inv_size HI1), (inv_size HI).
      destruct Hcase as [(_ & _ & Hp & _) | [(_ & _ & _ & _ & ->) | (_ & _ & _ & _ & -> & _)]];
        [|lia..].
      assert (length (inorder tr1) = length (k :: inorder tr)) as Hl by by rewrite Hp.
      simpl in Hl. rewrite <- !count_inorder. lia. }
    destruct (IH t1 m1 tr1 fs1 fuel HI1) as
      (t2 & m2 & ins & tr2 & fs2 & Hrun2 & HI2 & Hbst2 & He2 & Hu2 & Hp2 & Hsub);
      [by rewrite Hcmp | done | lia | done |].
    simpl. rewrite Hrun. simpl. rewrite Hrun2. simpl.
    eexists t2, m2, _, tr2, fs2. split; [done|].
    split_and!; try done; [congruence | congruence | |].
    + destruct Hcase as [(-> & _ & Hp & _) | [(-> & _ & _ & _ & ->) | (-> & _ & _ & _ & -> & _)]];
        simpl; [|done..].
      rewrite Hp2, Hp. by rewrite Permutation_middle.
    + destruct (rc =? 0); [by apply sublist_skip | by apply sublist_cons].
Qed.

(** [AVL_find] on a state that holds a tree. *)
Lemma find_ok t m tr fs k fuel :
  Inv t m tr fs → (44 < fuel)%nat →
  AVL_find fuel t m k = Ok (lookup_tree (cmp_of t) k tr).
Proof.
  intros HI Hf. pose proof (Inv_height_bound _ _ _ _ HI).
  unfold AVL_find. rewrite (rp_top (inv_rep HI)).
  apply find_loop_rep; [apply HI | lia].
Qed.

(** One delete on a state that holds a search tree. *)
Lemma delete_step t m tr fs k fuel :
  Inv t m tr fs → total_order (cmp_of t) → bst (cmp_of t) tr →
  (44 < fuel)%nat →
  ∃ dd t' m' tr' fs',
    AVL_delete fuel t m k = Ok (dd, t', m')
    ∧ Inv t' m' tr' fs' ∧ bst (cmp_of t') tr'
    ∧ eval t' = eval t ∧ user t' = user t ∧ allocAtOnce t' = allocAtOnce t
    ∧ dd = lookup_tree (cmp_of t) k tr
    ∧ lookup_tree (cmp_of t') k tr' = None
    ∧ match dd with
      | Some x => inorder tr ≡ₚ x :: inorder tr' ∧ cmp_of t x k = 0
                  ∧ ∃ a, fs' = a :: fs ∧ a ∈ addrs tr
      | None => t' = t ∧ m' = m ∧ tr' = tr ∧ fs' = fs
      end.
Proof.
  intros HI Hord Hbst Hf.
  pose proof (Inv_height_bound _ _ _ _ HI) as Hh.
  pose proof (delete_ok _ _ t m tr fs k fuel HI) as Hdel.
  pose proof (del_path_lookup _ (cmp_of t) k tr []) as Hlk.
  destruct (del_path (cmp_of t) k [] tr) as [[C s]|].
  - destruct Hdel as (a & tl & b & fl & x & tr1 & hh & tr' & t' & m' & -> & Htr
                      & Hx & _ & Hrun & HI' & Hin & He & Hu & Ha & _);
      [unfold AVL_MAX_DEPTH; lia | lia |].
    destruct Hlk as (a0 & tl0 & b0 & fl0 & x0 & tr0 & [= <- <- <- <- <- <-] & Hlk).
    assert (cmp_of t' = cmp_of t) as Hcmp.
    { unfold cmp_of. by rewrite He, Hu. }
    assert (inorder tr = (lefts C ++ inorder tl) ++ x :: inorder tr1 ++ rights C) as Hin0.
    { rewrite Htr, inorder_plug. simpl. by rewrite <- !app_assoc. }
    assert (inorder tr' = (lefts C ++ inorder tl) ++ inorder tr1 ++ rights C) as Hin1.
    { rewrite Hin. by rewrite <- !app_assoc. }
    unfold bst in Hbst. rewrite Hin0 in Hbst.
    destruct (sorted_remove _ (cmp_of t) _ _ _ Hbst) as [Hs Hne].
    exists (Some x), t', m', tr', (a :: fs).
    split_and!; try done.
    + rewrite Hcmp. unfold bst. by rewrite Hin1.
    + rewrite Hcmp. apply lookup_tree_none. intros y Hy.
      rewrite Hin1 in Hy. apply (klt_cmp_ne _ (cmp_of t) Hord x); [done|].
      by apply Hne.
    + rewrite Hin0, Hin1. symmetry. apply Permutation_middle.
    + exists a. split; [done|]. rewrite Htr, addrs_plug. simpl. set_solver.
  - exists None, t, m, tr, fs. rewrite Hdel by (unfold AVL_MAX_DEPTH; lia).
    split_and!; try done.
Qed.


(** Every insert and every delete on a valid state returns, and leaves a
    valid state that passes the validator. *)
Lemma Inv_checkBalance t m tr fs fuel :
  Inv t m tr fs → (44 < fuel)%nat →
  AVL_checkBalance fuel (cells m) (top t) = Ok (height t).
Proof.
  intros HI Hf. pose proof (Inv_height_bound _ _ _ _ HI).
  rewrite (rp_top (inv_rep HI)), (inv_height HI).
  apply checkBalance_height; [apply HI | apply HI | apply HI | lia].
Qed.

Lemma insert_Inv t m tr fs k fuel :
  Inv t m tr fs → size t < INT_MAX → (44 < fuel)%nat →
  ∃ rc t' m' tr' fs',
    AVL_insert fuel t m k = Ok (rc, t', m') ∧ Inv t' m' tr' fs'.
Proof.
  intros HI Hsz Hf.
  pose proof (Inv_height_bound _ _ _ _ HI) as Hh.
  pose proof (insert_ok _ _ t m tr fs k fuel HI Hsz ltac:(lia)) as Hins.
  unfold AVL_insert.
  destruct (ins_path (cmp_of t) k [] tr) as [Cf|].
  - destruct Hins as (Htr & Hpath & [(m' & Hrun & Hc & Hb & Hfs & Ho)
      | (n & fl & rot & dh & tr' & t' & m' & fs' & Hrun & _ & HI' & _)]).
    + exists 2, t, m', tr, fs. rewrite Hrun. split; [done|].
      by apply (Inv_cells _ m).
    + exists 0, t', m', tr', fs'. by rewrite Hrun.
  - exists 1, t, m, tr, fs. by rewrite Hins.
Qed.

Lemma delete_Inv t m tr fs k fuel :
  Inv t m tr fs → (44 < fuel)%nat →
  ∃ dd t' m' tr' fs',
    AVL_delete fuel t m k = Ok (dd, t', m') ∧ Inv t' m' tr' fs'.
Proof.
  intros HI Hf.
  pose proof (Inv_height_bound _ _ _ _ HI) as Hh.
  pose proof (delete_ok _ _ t m tr fs k fuel HI) as Hdel.
  destruct (del_path (cmp_of t) k [] tr) as [[C s]|].
  - destruct Hdel as (a & tl & b & fl & x & tr1 & hh & tr' & t' & m' & _ & _
                      & _ & _ & Hrun & HI' & _);
      [unfold AVL_MAX_DEPTH; lia | lia |].
    by exists (Some x), t', m', tr', (a :: fs).
  - exists None, t, m, tr, fs. by rewrite Hdel by (unfold AVL_MAX_DEPTH; lia).
Qed.

(** In a search tree, a search that ends on NULL has passed every
    element that could compare equal. *)
Lemma lookup_tree_None_inv (cmp : A → A → Z) k s :
  total_order cmp → bst cmp s → lookup_tree cmp k s = None →
  ∀ y, y ∈ inorder s → cmp y k ≠ 0.
Proof.
  intros Hord. induction s as [|a tl IHl b fl x tr IHr]; simpl; [set_solver|].
  unfold bst in *. simpl. intros Hs Hlk y Hy.
  apply StronglySorted_app in Hs as (Hlr & Hsl & Hsr).
  apply StronglySorted_inv in Hsr as [Hsr Hx].
  destruct (Z.eqb_spec (cmp x k) 0) as [|Hne]; [done|].
  destruct (Z.ltb_spec (cmp x k) 0) as [Hlt | Hge].
  - (* the key sorts before [x]: it is not at [x] nor to the right *)
    apply elem_of_app in Hy as [Hy | Hy]; [by apply (IHl Hsl Hlk)|].
    apply elem_of_cons in Hy as [-> | Hy]; [done|].
    rewrite Forall_forall in Hx. specialize (Hx y Hy). unfold klt in Hx.
    pose proof (cmp_trans Hord k x y Hlt Hx). lia.
  - (* the key sorts after [x] *)
    assert (0 < cmp x k) as Hgt by lia.
    apply elem_of_app in Hy as [Hy | Hy].
    + assert (klt cmp y x) as Hyx by (apply Hlr; [done | set_solver]).
      unfold klt in Hyx. apply (cmp_antisym Hord) in Hgt.
      pose proof (cmp_trans Hord y x k Hyx Hgt) as H.
      apply (cmp_antisym Hord) in H. lia.
    + apply elem_of_cons in Hy as [-> | Hy]; [done | by apply (IHr Hsr Hlk)].
Qed.

(** Two search trees with the same elements list them alike. *)
Lemma bst_perm_eq (cmp : A → A → Z) (l1 l2 : list A) :
  total_order cmp →
  StronglySorted (klt cmp) l1 → StronglySorted (klt cmp) l2 →
  l1 ≡ₚ l2 → l1 = l2.
Proof.
  intros Hord H1 H2 Hp.
  apply (StronglySorted_unique_strong (klt cmp)); try done.
  intros x1 x2 _ _ Ha Hb. unfold klt in *.
  apply (cmp_antisym Hord) in Ha. lia.
Qed.

End Client.


(** * [AVL_dealloc] *)

(** ** The marks in the flag byte *)

Ltac wf_cases H :=
  let b := fresh "b" in
  let fl := fresh "fl" in
  let Hb := fresh "Hb" in
  destruct H as (b & fl & -> & Hb & [[-> | ->] | [-> | ->]]); split_bal b.

Lemma wf_unmark_mark z :
  wf_flag z → AVL_clrbit (AVL_setbit z AVL_FLG_CLN) AVL_FLG_CLN = z.
Proof. intros H. wf_cases H; reflexivity. Qed.

Lemma wf_unmark z : wf_flag z → AVL_clrbit z AVL_FLG_CLN = z.
Proof. intros H. wf_cases H; reflexivity. Qed.

Lemma wf_marked z :
  wf_flag z → (AVL_getbit (AVL_setbit z AVL_FLG_CLN) AVL_FLG_CLN =? 0) = false.
Proof. intros H. wf_cases H; reflexivity. Qed.

Lemma wf_unmarked z : wf_flag z → (AVL_getbit z AVL_FLG_CLN =? 0) = true.
Proof. intros H. wf_cases H; reflexivity. Qed.

Lemma wf_mark_first z :
  wf_flag z →
  AVL_getbit (AVL_setbit z AVL_FLG_CLN) AVL_FLG_1ST = AVL_getbit z AVL_FLG_1ST.
Proof. intros H. wf_cases H; reflexivity. Qed.

Lemma wf_mark_used z :
  wf_flag z →
  AVL_getbit (AVL_setbit z AVL_FLG_CLN) AVL_FLG_USD = AVL_getbit z AVL_FLG_USD.
Proof. intros H. wf_cases H; reflexivity. Qed.

Lemma wf_free_fl b fl :
  -2 ≤ b ≤ 2 → free_fl fl →
  wf_flag (enc b fl) ∧ (AVL_getbit (enc b fl) AVL_FLG_USD =? 0) = true.
Proof.
  intros Hb Hfl. split; [exists b, fl; auto|].
  destruct Hfl as [-> | ->]; split_bal b; reflexivity.
Qed.

Lemma wf_used_fl b fl :
  -2 ≤ b ≤ 2 → used_fl fl →
  wf_flag (enc b fl) ∧ (AVL_getbit (enc b fl) AVL_FLG_USD =? 0) = false.
Proof.
  intros Hb Hfl. split; [exists b, fl; auto|].
  destruct Hfl as [-> | ->]; split_bal b; reflexivity.
Qed.

(** A flag byte that is not in use is that of a cell of the free
    stack. *)
Lemma wf_not_used z :
  wf_flag z → (AVL_getbit z AVL_FLG_USD =? 0) = true →
  ∃ b fl, z = enc b fl ∧ -2 ≤ b ≤ 2 ∧ free_fl fl.
Proof.
  intros (b & fl & -> & Hb & [Hu | Hf]) Hbit; [|by eauto].
  destruct (wf_used_fl b fl Hb Hu) as [_ H]. congruence.
Qed.

Arguments cells_of : simpl never.
Arguments blk : simpl never.

Ltac case_goal_decide :=
  match goal with
  | |- context [bool_decide ?P] => destruct (bool_decide P) eqn:?
  end.

Section Dealloc.

Variables (A U : Type).
Implicit Types (h : gmap nat (AVL_NODE A)) (t : AVL_TREE A U) (m : mem A).
Implicit Types (c : AVL_NODE A) (F fs rest kept : list nat).

Lemma unmark_mark_cell c : wf_flag (f c) → unmark_cell (mark_cell c) = c.
Proof.
  intros H. destruct c as [cl cr cf cd]. unfold unmark_cell, mark_cell, set_f.
  simpl in *. by rewrite wf_unmark_mark.
Qed.

Lemma unmark_cell_id c : wf_flag (f c) → unmark_cell c = c.
Proof.
  intros H. destruct c as [cl cr cf cd]. unfold unmark_cell, set_f.
  simpl in *. by rewrite wf_unmark.
Qed.

(** ** The two inner loops over a block *)

Lemma mark_run q n : ∀ todo i h j,
  (todo + i = n)%nat → j = Z.of_nat i → Z.of_nat n ≤ INT_MAX →
  (∀ k, (i ≤ k < n)%nat → is_Some (h !! (q + k)%nat)) →
  ∃ stop h',
    dealloc_mark todo i h q j = Ok (Z.of_nat stop, h')
    ∧ (i ≤ stop ≤ n)%nat
    ∧ (∀ k c, (i ≤ k < stop)%nat → h !! (q + k)%nat = Some c → in_use c = false)
    ∧ ((stop < n)%nat → ∃ c, h !! (q + stop)%nat = Some c ∧ in_use c = true)
    ∧ (∀ a, h' !! a = if bool_decide (q + i ≤ a < q + stop)%nat
                      then mark_cell <$> (h !! a) else h !! a).
Proof.
  induction todo as [|todo IH]; intros i h j Hn -> Hmax Hcells.
  - exists i, h. simpl. split; [done|]. split; [lia|].
    split; [intros; lia|]. split; [intros; lia|].
    intros a. rewrite bool_decide_eq_false_2 by lia. done.
  - destruct (Hcells i ltac:(lia)) as [c Hc].
    simpl. rewrite (load_Some _ _ _ Hc). simpl.
    destruct (AVL_getbit (f c) AVL_FLG_USD =? 0) eqn:Hu.
    + rewrite (upd_Some _ _ _ _ Hc). simpl.
      assert (wrap_int (Z.of_nat i + 1) = Z.of_nat (S i)) as ->.
      { unfold wrap_int, INT_MAX in *. rewrite Z.mod_small; lia. }
      destruct (IH (S i) (<[(q + i)%nat := set_f c (AVL_setbit (f c) AVL_FLG_CLN)]> h)
                  (Z.of_nat (S i)) ltac:(lia) eq_refl Hmax)
        as (stop & h' & Hrun & Hstop & Hfree & Hused & Hh').
      { intros k Hk. rewrite lookup_insert_ne by lia. apply Hcells. lia. }
      exists stop, h'. split; [done|]. split; [lia|]. split; [|split].
      * intros k c' Hk Hc'. destruct (decide (k = i)) as [-> | Hne].
        -- rewrite Hc in Hc'. injection Hc' as <-. unfold in_use. by rewrite Hu.
        -- apply (Hfree k c'); [lia|]. by rewrite lookup_insert_ne by lia.
      * intros Hlt. destruct (Hused Hlt) as (c' & Hc' & Hin).
        rewrite lookup_insert_ne in Hc' by lia. by exists c'.
      * intros a. rewrite Hh'.
        destruct (decide (a = (q + i)%nat)) as [-> | Hne].
        -- rewrite lookup_insert_eq, Hc.
           rewrite bool_decide_eq_false_2 by lia.
           rewrite bool_decide_eq_true_2 by lia. done.
        -- rewrite lookup_insert_ne by done.
           destruct (bool_decide (q + S i ≤ a < q + stop)%nat) eqn:Hd.
           ++ apply bool_decide_eq_true in Hd.
              rewrite bool_decide_eq_true_2 by lia. done.
           ++ apply bool_decide_eq_false in Hd.
              rewrite bool_decide_eq_false_2 by lia. done.
    + exists i, h. split; [done|]. split; [lia|].
      split; [intros; lia|]. split.
      * intros _. exists c. split; [done|]. unfold in_use. by rewrite Hu.
      * intros a. rewrite bool_decide_eq_false_2 by lia. done.
Qed.

Lemma unmark_run q n : ∀ todo i h,
  (todo + i = n)%nat →
  (∀ k, (i ≤ k < n)%nat → is_Some (h !! (q + k)%nat)) →
  ∃ h',
    dealloc_unmark todo i h q = Ok h'
    ∧ (∀ a, h' !! a = if bool_decide (q + i ≤ a < q + n)%nat
                      then unmark_cell <$> (h !! a) else h !! a).
Proof.
  induction todo as [|todo IH]; intros i h Hn Hcells.
  - exists h. split; [done|]. intros a.
    rewrite bool_decide_eq_false_2 by lia. done.
  - destruct (Hcells i ltac:(lia)) as [c Hc].
    simpl. rewrite (upd_Some _ _ _ _ Hc). simpl.
    destruct (IH (S i) (<[(q + i)%nat := set_f c (AVL_clrbit (f c) AVL_FLG_CLN)]> h)
                ltac:(lia)) as (h' & Hrun & Hh').
    { intros k Hk. rewrite lookup_insert_ne by lia. apply Hcells. lia. }
    exists h'. split; [done|]. intros a. rewrite Hh'.
    destruct (decide (a = (q + i)%nat)) as [-> | Hne].
    + rewrite lookup_insert_eq, Hc.
      rewrite bool_decide_eq_false_2 by lia.
      rewrite bool_decide_eq_true_2 by lia. done.
    + rewrite lookup_insert_ne by done.
      destruct (bool_decide (q + S i ≤ a < q + n)%nat) eqn:Hd.
      * apply bool_decide_eq_true in Hd.
        rewrite bool_decide_eq_true_2 by lia. done.
      * apply bool_decide_eq_false in Hd.
        rewrite bool_decide_eq_false_2 by lia. done.
Qed.

(** ** Chains and blocks *)

Lemma elem_cells_of n F x :
  x ∈ cells_of n F ↔ ∃ q, q ∈ F ∧ (q ≤ x < q + n)%nat.
Proof.
  unfold cells_of, blk. rewrite list_elem_of_bind. split.
  - intros (q & Hx & Hq). apply elem_of_seq in Hx. eauto.
  - intros (q & Hq & Hx). exists q. split; [|done]. by apply elem_of_seq.
Qed.

Lemma length_cells_of n F : length (cells_of n F) = (n * length F)%nat.
Proof.
  unfold cells_of. induction F as [|q F IH]; [simpl; lia|].
  change ((q :: F) ≫= blk n) with (blk n q ++ (F ≫= blk n)).
  rewrite length_app, IH. unfold blk. rewrite length_seq. simpl. lia.
Qed.

Lemma rseg_frame h h' p xs q :
  (∀ a, a ∈ xs → h' !! a = h !! a) → rseg h p xs q → rseg h' p xs q.
Proof.
  revert p. induction xs as [|a xs IH]; simpl; [done|].
  intros p Hag (-> & c & Hc & Hrest). split; [done|]. exists c. split.
  - rewrite Hag; [done | set_solver].
  - apply IH; [|done]. intros; apply Hag; set_solver.
Qed.

Lemma lseg_frame h h' p xs :
  (∀ a, a ∈ xs → h' !! a = h !! a) → lseg h p xs → lseg h' p xs.
Proof.
  revert p. induction xs as [|a xs IH]; simpl; [done|].
  intros p Hag (-> & c & Hc & Hrest). split; [done|]. exists c. split.
  - rewrite Hag; [done | set_solver].
  - apply IH; [|done]. intros; apply Hag; set_solver.
Qed.

Lemma rseg_snoc h p xs a c :
  rseg h p xs (Some a) → h !! a = Some c → rseg h p (xs ++ [a]) (r c).
Proof.
  revert p. induction xs as [|x xs IH]; simpl.
  - intros p -> Hc. split; [done|]. by exists c.
  - intros p (-> & cx & Hcx & Hrest) Hc. split; [done|]. exists cx.
    split; [done|]. by apply IH.
Qed.

(** The last cell of a chain gets another successor. *)
Lemma rseg_set_last h p xs a c q :
  rseg h p (xs ++ [a]) (r c) → h !! a = Some c → a ∉ xs →
  rseg (<[a := set_r c q]> h) p (xs ++ [a]) q.
Proof.
  revert p. induction xs as [|x xs IH]; simpl.
  - intros p (-> & c' & Hc' & _) Hc _. split; [done|].
    exists (set_r c q). by rewrite lookup_insert_eq.
  - intros p (-> & cx & Hcx & Hrest) Hc Hnot.
    apply not_elem_of_cons in Hnot as [Hne Hnot].
    split; [done|]. exists cx. rewrite lookup_insert_ne by done.
    split; [done|]. by apply IH.
Qed.

Lemma rseg_app h p xs ys q :
  rseg h p (xs ++ ys) q ↔ ∃ p', rseg h p xs p' ∧ rseg h p' ys q.
Proof.
  revert p. induction xs as [|x xs IH]; intros p; simpl.
  - split; [intros H; by exists p | by intros (p' & -> & H)].
  - split.
    + intros (-> & c & Hc & Hrest). apply IH in Hrest as (p' & H1 & H2).
      exists p'. split; [|done]. split; [done|]. by exists c.
    + intros (p' & (-> & c & Hc & H1) & H2). split; [done|]. exists c.
      split; [done|]. apply IH. by exists p'.
Qed.

Lemma free_list_rseg h p fs : free_list h p fs → rseg h p fs None.
Proof.
  revert p. induction fs as [|a fs IH]; simpl; [done|].
  intros p (-> & pl & nxt & b & fl & dd & Ha & _ & _ & Hrest).
  split; [done|]. eexists. split; [done|]. by apply IH.
Qed.

Lemma rseg_free_list h p fs :
  rseg h p fs None →
  (∀ a c, a ∈ fs → h !! a = Some c →
          ∃ b fl, f c = enc b fl ∧ -2 ≤ b ≤ 2 ∧ free_fl fl) →
  free_list h p fs.
Proof.
  revert p. induction fs as [|a fs IH]; simpl; [done|].
  intros p (-> & c & Hc & Hrest) Hfl. split; [done|].
  destruct (Hfl a c ltac:(set_solver) Hc) as (b & fl & Hf & Hb & Hfree).
  exists (l c), (r c), b, fl, (d c). split_and!; try done; try lia.
  - rewrite Hc. f_equal. destruct c; simpl in *. by rewrite Hf.
  - apply IH; [done|]. intros a' c' Ha'. apply Hfl. set_solver.
Qed.

Lemma free_block_lookup h q n a :
  free_block h q n !! a
  = (if bool_decide (q ≤ a < q + n)%nat then None else h !! a).
Proof.
  induction n as [|n IH]; simpl.
  - rewrite bool_decide_eq_false_2 by lia. done.
  - destruct (decide (a = (q + n)%nat)) as [-> | Hne].
    + rewrite lookup_delete_eq. rewrite bool_decide_eq_true_2 by lia. done.
    + rewrite lookup_delete_ne by done. rewrite IH.
      destruct (bool_decide (q ≤ a < q + n)%nat) eqn:Hd.
      * apply bool_decide_eq_true in Hd. rewrite bool_decide_eq_true_2 by lia. done.
      * apply bool_decide_eq_false in Hd. rewrite bool_decide_eq_false_2 by lia. done.
Qed.

(** ** The first loop: marking the blocks that are free *)

Section Collect.

Variables (t : AVL_TREE A U) (m : mem A) (fs0 : list nat).
Hypothesis Hsl : Slabs t m fs0.
Hypothesis Hone : 1 ≤ allocAtOnce t.

Let n : nat := Z.to_nat (allocAtOnce t).
Let isfull (a : nat) : Prop := full (cells m) n a = true.

Lemma block_of_first a c :
  cells m !! a = Some c → is_first c = true → blocks m !! a = Some n.
Proof.
  intros Hc Hf. apply (sl_first Hsl a c Hc) in Hf as [k Hk].
  by rewrite Hk, (sl_size Hsl _ _ Hk).
Qed.

Lemma block_disjoint q q' a :
  blocks m !! q = Some n → blocks m !! q' = Some n →
  (q ≤ a < q + n)%nat → (q' ≤ a < q' + n)%nat → q = q'.
Proof. intros. by eapply (sl_disj Hsl q q' n n a). Qed.

Lemma collected_first F h a c0 c :
  collected n (cells m) F h → cells m !! a = Some c0 → h !! a = Some c →
  is_first c = is_first c0 ∧ in_use c = in_use c0.
Proof.
  intros [_ Hcol] Hc0 Hc. destruct (Hcol a c0 Hc0) as (c' & Hc' & _ & _ & Hf & _).
  rewrite Hc in Hc'. injection Hc' as <-.
  pose proof (sl_flags Hsl a c0 Hc0) as Hwf.
  unfold is_first, in_use. rewrite Hf. destruct (bool_decide _); [|done].
  by rewrite wf_mark_first, wf_mark_used.
Qed.

Lemma full_false_first a c0 :
  cells m !! a = Some c0 → is_first c0 = false → ¬ isfull a.
Proof. unfold isfull, full. intros -> ->. done. Qed.

Lemma full_true a c0 :
  cells m !! a = Some c0 → is_first c0 = true →
  (∀ k c, (k < n)%nat → cells m !! (a + k)%nat = Some c → in_use c = false) →
  isfull a.
Proof.
  unfold isfull, full. intros Hc Hf Hall. rewrite Hc, Hf. simpl.
  apply Is_true_eq_true, forallb_True, Forall_forall. intros x Hx.
  apply elem_of_seq in Hx. unfold free_at.
  pose proof (block_of_first a c0 Hc Hf) as Hb.
  destruct (sl_cells Hsl a n (x - a)%nat Hb ltac:(lia)) as [cx Hcx].
  replace (a + (x - a))%nat with x in Hcx by lia. rewrite Hcx.
  rewrite (Hall (x - a)%nat cx); [done | lia |].
  by replace (a + (x - a))%nat with x by lia.
Qed.

Lemma full_false_used a k c :
  (k < n)%nat → cells m !! (a + k)%nat = Some c → in_use c = true → ¬ isfull a.
Proof.
  unfold isfull, full. intros Hk Hc Hu. destruct (cells m !! a) as [c0|]; [|done].
  intros [_ Hall]%andb_true_iff.
  apply Is_true_eq_left, forallb_True in Hall.
  rewrite Forall_forall in Hall.
  specialize (Hall (a + k)%nat). unfold free_at in Hall. rewrite Hc, Hu in Hall.
  apply Hall. apply elem_of_seq. lia.
Qed.

Lemma full_spec a :
  isfull a →
  blocks m !! a = Some n
  ∧ ∀ x, (a ≤ x < a + n)%nat →
         ∃ c, cells m !! x = Some c ∧ in_use c = false.
Proof.
  unfold isfull, full. destruct (cells m !! a) as [c0|] eqn:Hc; [|done].
  intros [Hf Hall]%andb_true_iff. split; [by eapply block_of_first|].
  apply Is_true_eq_left, forallb_True in Hall. rewrite Forall_forall in Hall.
  intros x Hx. specialize (Hall x). unfold free_at in Hall.
  destruct (cells m !! x) as [c|]; [|exfalso; apply Hall, elem_of_seq; lia].
  exists c. split; [done|].
  destruct (in_use c); [exfalso; apply Hall, elem_of_seq; lia | done].
Qed.

Lemma collect_run : ∀ rest fuel p F h,
  (length rest < fuel)%nat →
  rseg (cells m) p rest None →
  collected n (cells m) F h → lseg h (hd_ptr F) F →
  NoDup (F ++ rest) →
  (∀ q, q ∈ F → blocks m !! q = Some n) →
  allocAtOnce t * (Z.of_nat (length F) + Z.of_nat (length (filter isfull rest)))
    ≤ INT_MAX →
  ∃ h',
    dealloc_collect fuel t h p (hd_ptr F) (allocAtOnce t * Z.of_nat (length F))
    = Ok (hd_ptr (reverse (filter isfull rest) ++ F),
          allocAtOnce t * Z.of_nat (length (reverse (filter isfull rest) ++ F)),
          h')
    ∧ collected n (cells m) (reverse (filter isfull rest) ++ F) h'
    ∧ lseg h' (hd_ptr (reverse (filter isfull rest) ++ F))
        (reverse (filter isfull rest) ++ F).
Proof.
  induction rest as [|a rest IH]; intros fuel p F h Hfuel Hseg Hcol Hl Hnd HF Hbound.
  - destruct fuel; [simpl in Hfuel; lia|]. simpl in Hseg. subst p.
    exists h. simpl. done.
  - destruct fuel as [|fuel]; [simpl in Hfuel; lia|]. simpl in Hfuel.
    destruct Hseg as (-> & c0 & Hc0 & Hseg).
    destruct (proj2 Hcol a c0 Hc0) as (c & Hc & Hr & Hd & Hf & Hlc).
    destruct (collected_first F h a c0 c Hcol Hc0 Hc) as [Hfirst Huse].
    assert (a ∉ F) as HaF.
    { apply NoDup_app in Hnd as (_ & Hdisj & _). intros Hin.
      apply (Hdisj a Hin). set_solver. }
    assert (NoDup (F ++ rest)) as Hnd'.
    { apply NoDup_app in Hnd as (H1 & H2 & H3). apply NoDup_cons in H3 as [_ H3].
      apply NoDup_app. split_and!; [done | | done].
      intros x Hx Hx'. apply (H2 x Hx). set_solver. }
    assert (a ∉ rest) as Harest.
    { apply NoDup_app in Hnd as (_ & _ & H3). by apply NoDup_cons in H3 as [? _]. }
    simpl dealloc_collect. rewrite (load_Some _ _ _ Hc). simpl.
    change (negb (AVL_getbit (f c) AVL_FLG_1ST =? 0)) with (is_first c).
    rewrite Hfirst.
    destruct (is_first c0) eqn:Hf0.
    + (* the first cell of a block *)
      pose proof (block_of_first a c0 Hc0 Hf0) as Hblk.
      assert (∀ x, (a ≤ x < a + n)%nat → x ∉ cells_of n F) as Hfresh.
      { intros x Hx [q [Hq Hxq]]%elem_cells_of.
        apply HaF. by rewrite (block_disjoint a q x Hblk (HF q Hq) Hx Hxq). }
      assert (∀ k, (0 ≤ k < n)%nat → is_Some (h !! (a + k)%nat)) as Hcells.
      { intros k Hk. destruct (sl_cells Hsl a n k Hblk ltac:(lia)) as [ck Hck].
        destruct (proj2 Hcol _ ck Hck) as (ck' & Hck' & _). by eexists. }
      assert (∀ k ck, (k < n)%nat → h !! (a + k)%nat = Some ck →
                      ∃ ck0, cells m !! (a + k)%nat = Some ck0
                             ∧ f ck = f ck0) as Hsame.
      { intros k ck Hk Hck.
        destruct (sl_cells Hsl a n k Hblk Hk) as [ck0 Hck0].
        destruct (proj2 Hcol _ ck0 Hck0) as (ck' & Hck' & _ & _ & Hfk & _).
        rewrite Hck in Hck'. injection Hck' as <-. exists ck0. split; [done|].
        rewrite Hfk, bool_decide_eq_false_2; [done|]. apply Hfresh. lia. }
      destruct (mark_run a n n 0%nat h 0 ltac:(lia) eq_refl) as
        (stop & h1 & Hrun & Hstop & Hfree & Hused & Hh1).
      { subst n. pose proof (sl_max Hsl). lia. }
      { intros k Hk. apply Hcells. lia. }
      fold n. rewrite Hrun. simpl.
      assert (Z.of_nat n = allocAtOnce t) as Hnz by (subst n; lia).
      destruct (decide (stop = n)) as [-> | Hne].
      * (* every cell of the block is free *)
        assert (isfull a) as Hfull.
        { apply (full_true a c0 Hc0 Hf0). intros k ck0 Hk Hck0.
          destruct (Hcells k ltac:(lia)) as [ck Hck].
          destruct (Hsame k ck Hk Hck) as (ck0' & Hck0' & Hfk).
          rewrite Hck0 in Hck0'. injection Hck0' as <-.
          pose proof (Hfree k ck ltac:(lia) Hck) as Hu.
          unfold in_use in *. by rewrite <- Hfk. }
        rewrite Hnz, Z.eqb_refl.
        assert (h1 !! a = Some (mark_cell c)) as Hh1a.
        { rewrite Hh1, bool_decide_eq_true_2 by lia. by rewrite Hc. }
        rewrite (upd_Some _ _ _ _ Hh1a). simpl.
        erewrite load_Some by apply lookup_insert_eq. simpl.
        rewrite Hr.
        rewrite filter_cons_True in Hbound |- * by done.
        simpl length in Hbound.
        assert (wrap_int (allocAtOnce t * Z.of_nat (length F) + allocAtOnce t)
                = allocAtOnce t * Z.of_nat (length (a :: F))) as ->.
        { simpl length. unfold wrap_int, INT_MAX in *.
          rewrite Z.mod_small; nia. }
        destruct (IH fuel (r c0) (a :: F)
                    (<[a := set_l (mark_cell c) (hd_ptr F)]> h1))
          as (h' & Hrun' & Hcol' & Hl'); [lia | done | | | | | |].
        -- (* collected *)
           split.
           ++ intros x. destruct (decide (x = a)) as [-> | Hxa].
              ** rewrite lookup_insert_eq, Hc0. done.
              ** rewrite lookup_insert_ne by done. rewrite Hh1.
                 rewrite <- (proj1 Hcol x).
                 case_goal_decide; [|tauto].
                 destruct (h !! x); simpl; split; congruence.
           ++ intros x cx0 Hx0.
              destruct (proj2 Hcol x cx0 Hx0) as (cx & Hcx & Hrx & Hdx & Hfx & Hlx).
              destruct (decide (x = a)) as [-> | Hxa].
              ** rewrite lookup_insert_eq. eexists. split; [done|].
                 rewrite Hc0 in Hx0. injection Hx0 as <-.
                 simpl. split; [done|]. split; [done|].
                 split; [|intros Hn; exfalso; apply Hn; set_solver].
                 rewrite bool_decide_eq_true_2.
                 2:{ apply elem_cells_of. exists a. split; [set_solver | lia]. }
                 rewrite Hf, bool_decide_eq_false_2; [done|]. apply Hfresh. lia.
              ** rewrite lookup_insert_ne by done. rewrite Hh1, Hcx.
                 destruct (bool_decide (a + 0 ≤ x < a + n)%nat) eqn:Hin.
                 --- apply bool_decide_eq_true in Hin.
                     eexists. split; [done|]. simpl.
                     split; [done|]. split; [done|]. split.
                     +++ rewrite bool_decide_eq_true_2.
                         2:{ apply elem_cells_of. exists a. split; [set_solver | lia]. }
                         rewrite Hfx, bool_decide_eq_false_2; [done|].
                         apply Hfresh. lia.
                     +++ intros Hn. apply Hlx. set_solver.
                 --- apply bool_decide_eq_false in Hin.
                     exists cx. split; [done|]. split; [done|]. split; [done|].
                     split; [|intros Hn; apply Hlx; set_solver].
                     rewrite Hfx.
                     destruct (bool_decide (x ∈ cells_of n F)) eqn:HinF.
                     +++ apply bool_decide_eq_true in HinF.
                         rewrite bool_decide_eq_true_2; [done|].
                         apply elem_cells_of in HinF as (q & Hq & Hxq).
                         apply elem_cells_of. exists q. split; [set_solver | done].
                     +++ apply bool_decide_eq_false in HinF.
                         rewrite bool_decide_eq_false_2; [done|].
                         intros (q & Hq & Hxq)%elem_cells_of.
                         apply elem_of_cons in Hq as [-> | Hq]; [lia|].
                         apply HinF, elem_cells_of. eauto.
        -- (* the list of the blocks *)
           simpl. split; [done|]. eexists. rewrite lookup_insert_eq.
           split; [done|]. simpl.
           apply (lseg_frame h); [|done]. intros q Hq.
           rewrite lookup_insert_ne by (intros ->; done).
           rewrite Hh1, bool_decide_eq_false_2; [done|].
           intros Hin. apply HaF.
           rewrite (block_disjoint a q q Hblk (HF q Hq) ltac:(lia)); [done|].
           lia.
        -- rewrite <- Permutation_middle in Hnd. done.
        -- intros q [-> | Hq]%elem_of_cons; [done | by apply HF].
        -- simpl length. lia.
        -- exists h'. rewrite reverse_cons, <- !app_assoc. simpl app.
           split; [exact Hrun' | done].
      * (* a cell of the block is in use: the marks are taken back *)
        assert (¬ isfull a) as Hnfull.
        { destruct (Hused ltac:(lia)) as (ck & Hck & Hu).
          destruct (Hsame stop ck ltac:(lia) Hck) as (ck0 & Hck0 & Hfk).
          apply (full_false_used a stop ck0 ltac:(lia) Hck0).
          unfold in_use in *. by rewrite <- Hfk. }
        replace (Z.of_nat stop =? allocAtOnce t) with false
          by (symmetry; apply Z.eqb_neq; lia).
        destruct (unmark_run a n n 0%nat h1 ltac:(lia)) as (h2 & Hrun2 & Hh2).
        { intros k Hk. rewrite Hh1.
          destruct (Hcells k ltac:(lia)) as [ck Hck]. rewrite Hck.
          case_goal_decide; by eexists. }
        rewrite Hrun2. simpl.
        assert (h2 = h) as ->.
        { apply map_eq. intros x. rewrite Hh2, Hh1.
          destruct (bool_decide (a + 0 ≤ x < a + n)%nat) eqn:Hin.
          - apply bool_decide_eq_true in Hin.
            destruct (Hcells (x - a)%nat ltac:(lia)) as [ck Hck].
            destruct (Hsame (x - a)%nat ck ltac:(lia) Hck) as (ck0 & Hck0 & Hfk).
            replace (a + (x - a))%nat with x in * by lia.
            pose proof (sl_flags Hsl x ck0 Hck0) as Hwf. rewrite <- Hfk in Hwf.
            rewrite Hck. case_goal_decide; simpl.
            + by rewrite unmark_mark_cell.
            + by rewrite unmark_cell_id.
          - destruct (bool_decide (a + 0 ≤ x < a + stop)%nat) eqn:Hin2; [|done].
            apply bool_decide_eq_true in Hin2. apply bool_decide_eq_false in Hin.
            lia. }
        rewrite (load_Some _ _ _ Hc). simpl. rewrite Hr.
        rewrite filter_cons_False in Hbound |- * by done.
        by apply IH; [lia | ..].
    + (* not the first cell of a block *)
      assert (¬ isfull a) as Hnfull by by apply (full_false_first a c0).
      simpl. rewrite (load_Some _ _ _ Hc). simpl. rewrite Hr.
      rewrite filter_cons_False in Hbound |- * by done.
      by apply IH; [lia | ..].
Qed.

End Collect.

(** ** The second loop: the marked cells leave the free stack *)

Lemma set_freeStack_id t : set_freeStack t (freeStack t) = t.
Proof. by destruct t. Qed.

Lemma unchain_run n F : ∀ rest fuel kept t h np p,
  (length rest < fuel)%nat →
  rseg h (freeStack t) kept np →
  rseg h np rest None →
  p = (match last kept with Some a => Some a | None => None end) →
  NoDup (kept ++ rest) →
  (∀ a, a ∈ kept → a ∉ cells_of n F) →
  (∀ a c, a ∈ rest → h !! a = Some c →
          is_marked c = bool_decide (a ∈ cells_of n F)) →
  ∃ fsp h',
    dealloc_unchain fuel t h np p = Ok (set_freeStack t fsp, h')
    ∧ rseg h' fsp (kept ++ filter (λ a, a ∉ cells_of n F) rest) None
    ∧ (∀ a, a ∉ kept ++ rest → h' !! a = h !! a)
    ∧ (∀ a, a ∈ cells_of n F → h' !! a = h !! a)
    ∧ (∀ a c, h !! a = Some c →
              ∃ c', h' !! a = Some c' ∧ l c' = l c ∧ f c' = f c ∧ d c' = d c)
    ∧ (∀ a, h' !! a = None ↔ h !! a = None).
Proof.
  induction rest as [|a rest IH];
    intros fuel kept t h np p Hfuel Hk Hrest Hp Hnd Hkept Hmarks.
  - destruct fuel; [simpl in Hfuel; lia|]. simpl in Hrest. subst np.
    exists (freeStack t), h. simpl. rewrite set_freeStack_id, app_nil_r.
    split_and!; try done. intros a c Hc. by exists c.
  - destruct fuel as [|fuel]; [simpl in Hfuel; lia|]. simpl in Hfuel.
    destruct Hrest as (-> & c & Hc & Hrest).
    assert ((a ∉ kept) ∧ (a ∉ rest) ∧ NoDup (kept ++ rest)) as (Hak & Har & Hnd').
    { apply NoDup_app in Hnd as (H1 & H2 & H3). apply NoDup_cons in H3 as [H3 H4].
      split_and!; [intros H; apply (H2 a H); set_solver | done |].
      apply NoDup_app. split_and!; [done | | done].
      intros x Hx Hx'. apply (H2 x Hx). set_solver. }
    simpl dealloc_unchain. rewrite (load_Some _ _ _ Hc). simpl.
    change (negb (AVL_getbit (f c) AVL_FLG_CLN =? 0)) with (is_marked c).
    rewrite (Hmarks a c ltac:(set_solver) Hc).
    destruct (decide (a ∈ cells_of n F)) as [Hin | Hout].
    + (* a marked cell: it is skipped *)
      rewrite bool_decide_eq_true_2 by done.
      rewrite filter_cons_False by (intros H; by apply H).
      destruct kept as [|k0 kept0 _] using rev_ind.
      * (* it was the head of the stack *)
        simpl in Hp, Hk. subst p. simpl.
        rewrite (load_Some _ _ _ Hc). simpl.
        destruct (IH fuel [] (set_freeStack t (r c)) h (r c) None)
          as (fsp & h' & Hrun & Hseg & Hout & Hin' & Hfields & Hdom);
          [lia | done | done | done | done | set_solver | |].
        { intros x cx Hx. apply Hmarks. set_solver. }
        exists fsp, h'. rewrite Hrun. split; [by destruct t|].
        split; [done|]. split; [|done].
        intros x Hx. apply Hout. set_solver.
      * (* it follows the cell [k0], which gets its successor *)
        rewrite last_snoc in Hp. subst p.
        apply rseg_app in Hk as (p' & Hk1 & (-> & ck & Hck & Hk2)).
        simpl in Hk2.
        assert ((k0 ∉ kept0) ∧ k0 ≠ a ∧ (k0 ∉ rest)) as (Hk0 & Hk0a & Hk0r).
        { apply NoDup_app in Hnd as (H1 & H2 & _).
          apply NoDup_app in H1 as (_ & H1 & _).
          split_and!.
          - intros H. apply (H1 k0 H). set_solver.
          - intros ->. apply Hak. set_solver.
          - intros H. apply (H2 k0); set_solver. }
        rewrite (upd_Some _ _ _ _ Hck). simpl.
        rewrite (load_Some _ a c) by (by rewrite lookup_insert_ne).
        simpl.
        destruct (IH fuel (kept0 ++ [k0]) t (<[k0 := set_r ck (r c)]> h)
                    (r c) (Some k0))
          as (fsp & h' & Hrun & Hseg & Hout & Hin' & Hfields & Hdom); [lia | ..].
        { apply rseg_set_last; [|done|done].
          apply rseg_app. exists (Some k0). split; [done|].
          simpl. split; [done|]. exists ck. rewrite Hk2. done. }
        { apply (rseg_frame h); [|done]. intros x Hx.
          rewrite lookup_insert_ne; [done|]. intros ->. done. }
        { by rewrite last_snoc. }
        { done. }
        { done. }
        { intros x cx Hx Hcx. apply Hmarks; [set_solver|].
          rewrite lookup_insert_ne in Hcx; [done|]. intros ->. done. }
        exists fsp, h'. rewrite Hrun. split; [done|]. split; [done|].
        split; [|split; [|split]].
        -- intros x Hx. rewrite Hout by set_solver.
           rewrite lookup_insert_ne; [done|]. intros ->. set_solver.
        -- intros x Hx. rewrite Hin' by done.
           rewrite lookup_insert_ne; [done|]. intros Heq. rewrite <- Heq in Hx.
           apply (Hkept k0); [set_solver | done].
        -- intros x cx Hcx. destruct (decide (x = k0)) as [-> | Hne].
           ++ rewrite Hck in Hcx. injection Hcx as <-.
              destruct (Hfields k0 (set_r ck (r c)) ltac:(apply lookup_insert_eq))
                as (c' & Hc' & ? & ? & ?).
              by exists c'.
           ++ apply Hfields. by rewrite lookup_insert_ne.
        -- intros x. rewrite Hdom. destruct (decide (x = k0)) as [-> | Hne].
           ++ rewrite lookup_insert_eq, Hck. done.
           ++ by rewrite lookup_insert_ne.
    + (* a cell that stays *)
      rewrite bool_decide_eq_false_2 by done.
      rewrite filter_cons_True by done. simpl.
      rewrite (load_Some _ _ _ Hc). simpl.
      destruct (IH fuel (kept ++ [a]) t h (r c) (Some a))
        as (fsp & h' & Hrun & Hseg & Hout' & Hin' & Hfields & Hdom); [lia | ..].
      { by apply rseg_snoc. }
      { done. }
      { by rewrite last_snoc. }
      { by rewrite <- app_assoc. }
      { intros x [Hx | ->%list_elem_of_singleton]%elem_of_app; [by apply Hkept | done]. }
      { intros x cx Hx. apply Hmarks. set_solver. }
      exists fsp, h'. rewrite Hrun. split; [done|].
      rewrite <- app_assoc in Hseg. split; [done|].
      split; [|done]. intros x Hx. apply Hout'. set_solver.
Qed.

(** ** The third loop: the blocks go back to the memory *)

Lemma free_run n : ∀ F fuel m p,
  (0 < n)%nat → (length F < fuel)%nat →
  lseg (cells m) p F → NoDup F →
  (∀ q, q ∈ F → blocks m !! q = Some n) →
  (∀ q q' a, q ∈ F → q' ∈ F →
             (q ≤ a < q + n)%nat → (q' ≤ a < q' + n)%nat → q = q') →
  ∃ m',
    dealloc_free fuel m p = Ok m'
    ∧ (∀ a, cells m' !! a
            = (if bool_decide (a ∈ cells_of n F) then None else cells m !! a))
    ∧ (∀ q, blocks m' !! q
            = (if bool_decide (q ∈ F) then None else blocks m !! q))
    ∧ oracle m' = oracle m.
Proof.
  induction F as [|q F IH]; intros fuel m p Hn Hfuel Hl Hnd Hb Hdisj.
  - destruct fuel; [simpl in Hfuel; lia|]. simpl in Hl. subst p.
    exists m. simpl. split; [done|]. split_and!; try done.
  - destruct fuel as [|fuel]; [simpl in Hfuel; lia|]. simpl in Hfuel.
    destruct Hl as (-> & c & Hc & Hl).
    apply NoDup_cons in Hnd as [HqF Hnd].
    simpl. rewrite (load_Some _ _ _ Hc). simpl.
    unfold free. rewrite (Hb q ltac:(set_solver)). simpl.
    destruct (IH fuel (mkMem (free_block (cells m) q n) (delete q (blocks m))
                         (oracle m)) (l c) Hn ltac:(lia))
      as (m' & Hrun & Hcells & Hblocks & Ho); try done.
    { apply (lseg_frame (cells m)); [|done]. intros q' Hq'. simpl.
      rewrite free_block_lookup, bool_decide_eq_false_2; [done|].
      intros Hin. apply HqF.
      rewrite (Hdisj q q' q' ltac:(set_solver) ltac:(set_solver) Hin); [done|].
      lia. }
    { intros q' Hq'. simpl. rewrite lookup_delete_ne by (intros ->; done).
      apply Hb. set_solver. }
    { intros q1 q2 a H1 H2. apply Hdisj; set_solver. }
    exists m'. split; [done|]. split; [|split; [|done]].
    + intros a. rewrite Hcells. simpl. rewrite free_block_lookup.
      destruct (decide (a ∈ cells_of n F)) as [Hin | Hout].
      * rewrite bool_decide_eq_true_2 by done.
        rewrite bool_decide_eq_true_2; [done|].
        apply elem_cells_of in Hin as (q' & Hq' & Ha).
        apply elem_cells_of. exists q'. split; [set_solver | done].
      * rewrite bool_decide_eq_false_2 by done.
        destruct (decide (q ≤ a < q + n)%nat) as [Hr | Hr].
        -- rewrite bool_decide_eq_true_2 by done.
           rewrite bool_decide_eq_true_2; [done|].
           apply elem_cells_of. exists q. split; [set_solver | done].
        -- rewrite bool_decide_eq_false_2 by done.
           rewrite bool_decide_eq_false_2; [done|].
           intros (q' & Hq' & Ha)%elem_cells_of.
           apply elem_of_cons in Hq' as [-> | Hq']; [done|].
           apply Hout, elem_cells_of. eauto.
    + intros q'. rewrite Hblocks. simpl.
      destruct (decide (q' ∈ F)) as [Hin | Hout].
      * rewrite bool_decide_eq_true_2 by done.
        rewrite bool_decide_eq_true_2; [done | set_solver].
      * rewrite bool_decide_eq_false_2 by done.
        destruct (decide (q' = q)) as [-> | Hne].
        -- rewrite lookup_delete_eq. rewrite bool_decide_eq_true_2; [done | set_solver].
        -- rewrite lookup_delete_ne by done.
           rewrite bool_decide_eq_false_2; [done | set_solver].
Qed.

(** ** The whole of [AVL_dealloc] *)

Lemma filter_all (P : nat → Prop) `{∀ x, Decision (P x)} (xs : list nat) :
  (∀ x, x ∈ xs → P x) → filter P xs = xs.
Proof.
  induction xs as [|x xs IH]; intros Hall; [done|].
  rewrite filter_cons_True by (apply Hall; set_solver).
  f_equal. apply IH. intros; apply Hall; set_solver.
Qed.

Lemma collected_nil n h0 h : collected n h0 [] h → h = h0.
Proof.
  intros [Hdom Hcol]. apply map_eq. intros a.
  destruct (h0 !! a) as [c0|] eqn:Hc0; [|by apply Hdom].
  destruct (Hcol a c0 Hc0) as (c & Hc & Hr & Hd & Hf & Hl).
  rewrite Hc. f_equal. rewrite bool_decide_eq_false_2 in Hf by set_solver.
  specialize (Hl ltac:(set_solver)).
  destruct c, c0; simpl in *. congruence.
Qed.

Lemma rseg_collected n h0 F h p xs q :
  collected n h0 F h → rseg h0 p xs q → rseg h p xs q.
Proof.
  intros [_ Hcol]. revert p. induction xs as [|a xs IH]; simpl; [done|].
  intros p (-> & c0 & Hc0 & Hrest). split; [done|].
  destruct (Hcol a c0 Hc0) as (c & Hc & Hr & _).
  exists c. split; [done|]. rewrite Hr. by apply IH.
Qed.

Lemma cells_of_reverse n F a : a ∈ cells_of n (reverse F) ↔ a ∈ cells_of n F.
Proof.
  rewrite !elem_cells_of. split; intros (q & Hq & Ha); exists q;
    (split; [|done]); by apply elem_of_reverse.
Qed.

Lemma rep_cell_used h (s : tree A) x :
  rep h s → flags_ok s → x ∈ addrs s →
  ∃ c, h !! x = Some c ∧ in_use c = true ∧ wf_flag (f c).
Proof.
  induction s as [|a tl IHl b fl y tr1 IHr]; simpl; [set_solver|].
  intros (Ha & Hl & Hr) (Hu & Hb & Hfl1 & Hfl2) Hin.
  apply elem_of_cons in Hin as [-> | Hin].
  - eexists. split; [done|]. unfold in_use. simpl.
    destruct (wf_used_fl b fl Hb Hu) as [Hwf ->]. done.
  - apply elem_of_app in Hin as [Hin | Hin]; eauto.
Qed.

Lemma dealloc_ok t m tr fs fuel :
  Inv t m tr fs → Slabs t m fs →
  Z.of_nat (length fs) ≤ INT_MAX → (length fs < fuel)%nat →
  let n := Z.to_nat (allocAtOnce t) in
  let F := filter (λ a, full (cells m) n a = true) fs in
  let fs' := filter (λ a, a ∉ cells_of n F) fs in
  ∃ fsp m',
    AVL_dealloc fuel t m
    = Ok (allocAtOnce t * Z.of_nat (length F), set_freeStack t fsp, m')
    ∧ Inv (set_freeStack t fsp) m' tr fs'
    ∧ (∀ a, a ∈ addrs tr → cells m' !! a = cells m !! a)
    ∧ (∀ a, is_Some (cells m' !! a)
            ↔ is_Some (cells m !! a) ∧ a ∉ cells_of n F)
    ∧ (∀ q, blocks m' !! q
            = (if bool_decide (q ∈ F) then None else blocks m !! q))
    ∧ oracle m' = oracle m.
Proof.
  intros HI Hsl Hmax Hfuel n F fs'.
  pose proof (inv_rep HI) as Hrp.
  pose proof (rp_alloc Hrp) as Hone.
  assert (0 < n)%nat as Hn by (subst n; lia).
  assert (NoDup fs) as Hndfs.
  { pose proof (rp_nodup Hrp) as H. by apply NoDup_app in H as (_ & _ & ?). }
  assert (NoDup F) as HndF by by apply NoDup_filter.
  assert (∀ q, q ∈ F → q ∈ fs ∧ blocks m !! q = Some n
               ∧ ∀ x, (q ≤ x < q + n)%nat →
                      ∃ c, cells m !! x = Some c ∧ in_use c = false) as HF.
  { intros q [Hfull Hq]%list_elem_of_filter. split; [done|].
    by apply (full_spec t m fs Hsl). }
  assert (∀ x, x ∈ cells_of n F → x ∈ fs ∧ x ∉ addrs tr) as Hcells.
  { intros x (q & Hq & Hx)%elem_cells_of.
    destruct (HF q Hq) as (_ & _ & Hall). destruct (Hall x Hx) as (c & Hc & Hu).
    split; [by apply (sl_free Hsl x c)|].
    intros Hin.
    destruct (rep_cell_used _ _ x (rp_rep Hrp) (rp_flags Hrp) Hin)
      as (c' & Hc' & Hu' & _).
    congruence. }
  assert (allocAtOnce t * Z.of_nat (length F) ≤ INT_MAX) as Hbound.
  { assert (length (cells_of n F) ≤ length fs)%nat as Hle.
    { apply submseteq_length, NoDup_submseteq; [|intros x Hx; by apply Hcells].
      apply NoDup_bind; [| intros; apply NoDup_seq | done].
      intros q1 q2 y H1 H2 Hy1 Hy2. apply elem_of_seq in Hy1, Hy2.
      destruct (HF q1 H1) as (_ & Hb1 & _). destruct (HF q2 H2) as (_ & Hb2 & _).
      by apply (block_disjoint t m fs Hsl q1 q2 y). }
    rewrite length_cells_of in Hle.
    assert (Z.of_nat n = allocAtOnce t) as <- by (subst n; lia). nia. }
  (* the first loop *)
  destruct (collect_run t m fs Hsl Hone fs fuel (freeStack t) [] (cells m))
    as (h1 & Hrun1 & Hcol & Hlseg).
  { done. }
  { apply free_list_rseg, Hrp. }
  { split; [done|]. intros a c0 Hc0. exists c0.
    rewrite bool_decide_eq_false_2 by set_solver. done. }
  { done. }
  { done. }
  { set_solver. }
  { simpl. fold n F. lia. }
  fold n F in Hrun1, Hcol, Hlseg. rewrite app_nil_r in Hrun1, Hcol, Hlseg.
  simpl in Hrun1. rewrite Z.mul_0_r in Hrun1.
  unfold AVL_dealloc. rewrite Hrun1. simpl. rewrite length_reverse.
  remember (reverse F) as R eqn:HR.
  assert (∀ a, a ∈ cells_of n R ↔ a ∈ cells_of n F) as HcR.
  { intros a. rewrite HR. apply cells_of_reverse. }
  assert (∀ q, q ∈ R ↔ q ∈ F) as HqR.
  { intros q. rewrite HR. apply elem_of_reverse. }
  destruct R as [|q0 R0].
  - (* no block is free *)
    assert (F = []) as HFnil.
    { apply (f_equal reverse) in HR. by rewrite reverse_involutive in HR. }
    apply collected_nil in Hcol. subst h1.
    assert (fs' = fs) as Hfs'.
    { subst fs'. rewrite HFnil. apply filter_all. intros x _. set_solver. }
    exists (freeStack t), (set_cells m (cells m)). rewrite set_freeStack_id.
    simpl. rewrite Hfs'. split; [done|]. split.
    { destruct HI as [Hr Ha Hh Hs Hm]. split; try done. }
    split; [done|]. split.
    { intros a. rewrite HFnil. split; [intros H; split; [done | set_solver] | tauto]. }
    split; [|done]. intros q. rewrite HFnil.
    rewrite bool_decide_eq_false_2 by set_solver. done.
  - (* some blocks are free *)
    simpl hd_ptr in *.
    assert (∀ a c, a ∈ fs → h1 !! a = Some c →
                   is_marked c = bool_decide (a ∈ cells_of n F)) as Hmarks.
    { intros a c Ha Hc.
      destruct (free_list_cell _ _ _ _ a (rp_free Hrp) Ha)
        as (pl & nxt & b & fl & dd & Hc0 & Hb & Hfl).
      destruct (proj2 Hcol a _ Hc0) as (c' & Hc' & _ & _ & Hf & _).
      rewrite Hc in Hc'. injection Hc' as <-. simpl in Hf.
      unfold is_marked. rewrite Hf.
      destruct (wf_free_fl b fl Hb Hfl) as [Hwf _].
      destruct (decide (a ∈ cells_of n F)) as [Hin | Hout].
      - rewrite !bool_decide_eq_true_2 by (done || by apply HcR).
        by rewrite wf_marked.
      - rewrite !bool_decide_eq_false_2 by (done || by rewrite HcR).
        by rewrite wf_unmarked. }
    destruct (unchain_run n F fs fuel [] t h1 (freeStack t) None)
      as (fsp & h2 & Hrun2 & Hseg2 & Hout2 & Hin2 & Hfields2 & Hdom2).
    { done. }
    { done. }
    { by apply (rseg_collected n (cells m) (q0 :: R0)), free_list_rseg, Hrp. }
    { done. }
    { done. }
    { set_solver. }
    { done. }
    simpl in Hseg2. fold fs' in Hseg2.
    rewrite Hrun2. simpl.
    destruct (free_run n (q0 :: R0) fuel (set_cells m h2) (Some q0) Hn)
      as (m' & Hrun3 & Hcells3 & Hblocks3 & Ho3).
    { rewrite HR, length_reverse. pose proof (length_filter (λ a, full (cells m) n a = true) fs).
      fold F in H. lia. }
    { simpl cells. apply (lseg_frame h1); [|done].
      intros q Hq. apply Hin2, HcR, elem_cells_of. exists q. split; [done | lia]. }
    { rewrite HR. by rewrite reverse_Permutation. }
    { intros q Hq. simpl. apply HF. by apply HqR. }
    { intros q q' a Hq Hq' Ha Ha'.
      apply (block_disjoint t m fs Hsl q q' a); [apply HF, HqR, Hq | apply HF, HqR, Hq' | done | done]. }
    rewrite Hrun3. simpl.
    exists fsp, m'. split; [done|].
    assert (∀ a, a ∈ addrs tr → cells m' !! a = cells m !! a) as Htree.
    { intros a Ha.
      assert (a ∉ cells_of n F) as HaF by (intros H; by apply (Hcells a H)).
      assert (a ∉ fs) as Hafs.
      { pose proof (rp_nodup Hrp) as Hnd. apply NoDup_app in Hnd as (_ & Hd & _).
        by apply Hd. }
      rewrite Hcells3, bool_decide_eq_false_2 by (by rewrite HcR).
      simpl. rewrite Hout2 by set_solver.
      destruct (rep_cell_used _ _ a (rp_rep Hrp) (rp_flags Hrp) Ha)
        as (c0 & Hc0 & _).
      destruct (proj2 Hcol a c0 Hc0) as (c & Hc & Hr & Hd & Hf & Hl).
      rewrite Hc, Hc0. f_equal.
      rewrite bool_decide_eq_false_2 in Hf by (by rewrite HcR).
      assert (a ∉ q0 :: R0) as HaR.
      { intros H. apply HaF, elem_cells_of. exists a. split; [by apply HqR | lia]. }
      specialize (Hl HaR). destruct c, c0; simpl in *. congruence. }
    split; [|split; [done|split; [|split; [|done]]]].
    + (* the invariant *)
      destruct HI as [_ Ha Hh Hs Hm]. split; try done.
      destruct Hrp as [Htop Hrep Hfree Hnd Hflags Halloc].
      split; try done.
      * eapply rep_frame; [|exact Hrep]. intros a Ha'. by apply Htree.
      * simpl. apply rseg_free_list.
        -- apply (rseg_frame h2); [|done]. intros a Ha'.
           apply list_elem_of_filter in Ha' as [Hout Hafs].
           rewrite Hcells3, bool_decide_eq_false_2 by (by rewrite HcR). done.
        -- intros a c Ha' Hc.
           apply list_elem_of_filter in Ha' as [Hout Hafs].
           rewrite Hcells3, bool_decide_eq_false_2 in Hc by (by rewrite HcR).
           simpl in Hc.
           destruct (free_list_cell _ _ _ _ a Hfree Hafs)
             as (pl & nxt & b & fl & dd & Hc0 & Hb & Hfl).
           destruct (proj2 Hcol a _ Hc0) as (c1 & Hc1 & _ & _ & Hf1 & _).
           destruct (Hfields2 a c1 Hc1) as (c2 & Hc2 & _ & Hf2 & _).
           rewrite Hc in Hc2. injection Hc2 as <-.
           rewrite bool_decide_eq_false_2 in Hf1 by (by rewrite HcR).
           simpl in Hf1. exists b, fl. rewrite Hf2, Hf1. done.
      * apply NoDup_app in Hnd as (H1 & H2 & H3).
        apply NoDup_app. split_and!; [done | | by apply NoDup_filter].
        intros x Hx Hx'. apply (H2 x Hx).
        by apply list_elem_of_filter in Hx' as [_ ?].
    + (* the cells that are left *)
      intros a. rewrite Hcells3. simpl.
      destruct (decide (a ∈ cells_of n F)) as [Hin | Hout].
      * rewrite bool_decide_eq_true_2 by (by apply HcR).
        split; [by intros [? ?] | tauto].
      * rewrite bool_decide_eq_false_2 by (by rewrite HcR).
        rewrite <- !not_eq_None_Some, Hdom2, (proj1 Hcol a). tauto.
    + (* the blocks that are left *)
      intros q. rewrite Hblocks3. simpl.
      destruct (decide (q ∈ F)) as [Hin | Hout].
      * rewrite !bool_decide_eq_true_2 by (done || by apply HqR). done.
      * rewrite !bool_decide_eq_false_2 by (done || by rewrite HqR). done.
Qed.

End Dealloc.


(** * The path stacks are never overrun

    On any heap whatever, [AVL_delete] and [AVL_walk] do not access
    their array [stack] outside its bounds: the model reports such an
    access as [Err StackOverflow], and that is not what they return. *)

Lemma safe_bind {T V} (x : res T) (k : T → res V) :
  x ≠ Err StackOverflow →
  (∀ v, x = Ok v → k v ≠ Err StackOverflow) →
  (x ≫= k) ≠ Err StackOverflow.
Proof.
  destruct x as [v|e]; unfold mbind, res_bind.
  - intros _ H. by apply H.
  - intros H _ [= ->]. by apply H.
Qed.

Section Stack.

Variables (A U : Type).
Implicit Types (h : gmap nat (AVL_NODE A)) (t : AVL_TREE A U) (m : mem A).
Implicit Types (stack : list ptr).

Lemma load_safe h p : load h p ≠ Err StackOverflow.
Proof. unfold load. destruct p as [a|]; [destruct (h !! a)|]; done. Qed.

Lemma store_safe h p n : store h p n ≠ Err StackOverflow.
Proof. unfold store. destruct p as [a|]; [destruct (h !! a)|]; done. Qed.

Lemma upd_safe h p g : upd h p g ≠ Err StackOverflow.
Proof.
  unfold upd. apply safe_bind; [apply load_safe|]. intros; apply store_safe.
Qed.

Lemma payload_safe (n : AVL_NODE A) : payload n ≠ Err StackOverflow.
Proof. unfold payload. by destruct (d n). Qed.

Lemma stack_set_safe stack i v :
  (i < length stack)%nat →
  ∃ stack', stack_set stack i v = Ok stack' ∧ length stack' = length stack.
Proof.
  intros Hi. unfold stack_set. rewrite (proj2 (Nat.ltb_lt _ _) Hi).
  eexists. split; [done|]. by rewrite length_insert.
Qed.

Lemma stack_get_safe stack i :
  (i < length stack)%nat → stack_get stack i ≠ Err StackOverflow.
Proof.
  intros Hi. unfold stack_get.
  destruct (lookup_lt_is_Some_2 stack i Hi) as [v ->]. done.
Qed.

End Stack.

Ltac safe_step :=
  match goal with
  | |- Ok _ ≠ Err _ => discriminate
  | |- Err _ ≠ Err StackOverflow => discriminate
  | |- load _ _ ≠ Err StackOverflow => apply load_safe
  | |- store _ _ _ ≠ Err StackOverflow => apply store_safe
  | |- upd _ _ _ ≠ Err StackOverflow => apply upd_safe
  | |- payload _ ≠ Err StackOverflow => apply payload_safe
  | |- (_ ≫= _) ≠ Err StackOverflow => apply safe_bind; [|intros ? ?]
  | |- (if ?b then _ else _) ≠ Err StackOverflow => destruct b
  | |- context [match ?x with _ => _ end] => destruct x
  end.

Ltac safe := repeat safe_step.

Section Safe.

Variables (A U : Type).
Implicit Types (h : gmap nat (AVL_NODE A)) (t : AVL_TREE A U) (m : mem A).
Implicit Types (stack : list ptr).

Lemma relink_safe t h p a b : relink t h p a b ≠ Err StackOverflow.
Proof. unfold relink. safe. Qed.

Lemma delete_detach_safe h c p s : delete_detach h c p s ≠ Err StackOverflow.
Proof. unfold delete_detach. safe. Qed.

Lemma delete_rotate_r_safe t h a p : delete_rotate_r t h a p ≠ Err StackOverflow.
Proof.
  unfold delete_rotate_r.
  repeat first [ apply relink_safe | safe_step ].
Qed.

Lemma delete_rotate_l_safe t h a p : delete_rotate_l t h a p ≠ Err StackOverflow.
Proof.
  unfold delete_rotate_l.
  repeat first [ apply relink_safe | safe_step ].
Qed.

Lemma delete_rotate_safe t h a p hh : delete_rotate t h a p hh ≠ Err StackOverflow.
Proof.
  unfold delete_rotate.
  repeat first [ apply delete_rotate_r_safe | apply delete_rotate_l_safe | safe_step ].
Qed.

Lemma delete_propagate_safe h a p hh : delete_propagate h a p hh ≠ Err StackOverflow.
Proof. unfold delete_propagate. safe. Qed.

Lemma delete_rebalance_safe (n : nat) : ∀ t h stack hh,
  (n ≤ length stack)%nat →
  delete_rebalance n t h stack hh ≠ Err StackOverflow.
Proof.
  induction n as [|top IH]; intros t h stack hh Htop; [done|].
  simpl. apply safe_bind; [apply stack_get_safe; lia|]. intros a _.
  apply safe_bind.
  { destruct top; [done|]. apply stack_get_safe. lia. }
  intros p _. apply safe_bind; [apply delete_rotate_safe|].
  intros [[[hh1 a1] t1] h1] _.
  apply safe_bind; [apply delete_propagate_safe|].
  intros [hh2 h2] _. apply IH. lia.
Qed.

(** The three loops that write the stack keep its length and stay
    within it. *)
Lemma delete_search_bound fuel : ∀ t h k stack top c p,
  length stack = AVL_MAX_DEPTH →
  match delete_search fuel t h k stack top c p with
  | Ok (stack', top', _, _, dd) =>
      length stack' = AVL_MAX_DEPTH
      ∧ (is_Some dd → (top' < AVL_MAX_DEPTH)%nat)
  | Err e => e ≠ StackOverflow
  end.
Proof.
  induction fuel as [|fuel IH]; intros t h k stack top c p Hlen; [done|].
  simpl. destruct c as [a|]; [|split; [done | by intros [? ?]]].
  destruct (top <? AVL_MAX_DEPTH)%nat eqn:Htop;
    [|split; [done | by intros [? ?]]].
  apply Nat.ltb_lt in Htop.
  destruct (stack_set_safe stack top (Some a) ltac:(lia)) as (stack' & -> & Hlen').
  simpl. destruct (load h (Some a)) as [nc|e] eqn:Hl; simpl.
  2:{ intros ->. by apply (load_safe _ h (Some a)). }
  destruct (payload nc) as [x|e] eqn:Hp; simpl.
  2:{ intros ->. by apply (payload_safe _ nc). }
  destruct (eval t x k (user t) =? 0); [split; [lia | done]|].
  destruct (eval t x k (user t) <? 0); apply IH; lia.
Qed.

Lemma delete_leftmost_bound fuel : ∀ h stack top c p,
  length stack = AVL_MAX_DEPTH → (top ≤ AVL_MAX_DEPTH)%nat →
  match delete_leftmost fuel h stack top c p with
  | Ok (stack', top', _, _) =>
      length stack' = AVL_MAX_DEPTH ∧ (top' ≤ AVL_MAX_DEPTH)%nat
  | Err e => e ≠ StackOverflow
  end.
Proof.
  induction fuel as [|fuel IH]; intros h stack top c p Hlen Htop; [done|].
  simpl. destruct (load h c) as [nc|e] eqn:Hl; simpl.
  2:{ intros ->. by apply (load_safe _ h c). }
  destruct (l nc); [|done].
  destruct (top <? AVL_MAX_DEPTH)%nat eqn:Hlt; [|done].
  apply Nat.ltb_lt in Hlt.
  destruct (stack_set_safe stack top c ltac:(lia)) as (stack' & -> & Hlen').
  simpl. apply IH; lia.
Qed.

Lemma delete_rightmost_bound fuel : ∀ h stack top c p,
  length stack = AVL_MAX_DEPTH → (top ≤ AVL_MAX_DEPTH)%nat →
  match delete_rightmost fuel h stack top c p with
  | Ok (stack', top', _, _) =>
      length stack' = AVL_MAX_DEPTH ∧ (top' ≤ AVL_MAX_DEPTH)%nat
  | Err e => e ≠ StackOverflow
  end.
Proof.
  induction fuel as [|fuel IH]; intros h stack top c p Hlen Htop; [done|].
  simpl. destruct (load h c) as [nc|e] eqn:Hl; simpl.
  2:{ intros ->. by apply (load_safe _ h c). }
  destruct (r nc); [|done].
  destruct (top <? AVL_MAX_DEPTH)%nat eqn:Hlt; [|done].
  apply Nat.ltb_lt in Hlt.
  destruct (stack_set_safe stack top c ltac:(lia)) as (stack' & -> & Hlen').
  simpl. apply IH; lia.
Qed.

Lemma delete_pick_bound fuel h stack top c :
  length stack = AVL_MAX_DEPTH → (top < AVL_MAX_DEPTH)%nat →
  match delete_pick fuel h stack top c with
  | Ok (stack', top', _, _, _) =>
      length stack' = AVL_MAX_DEPTH ∧ (top' ≤ AVL_MAX_DEPTH)%nat
  | Err e => e ≠ StackOverflow
  end.
Proof.
  intros Hlen Htop. unfold delete_pick.
  destruct (load h c) as [nc|e] eqn:Hl; simpl.
  2:{ intros ->. by apply (load_safe _ h c). }
  destruct (AVL_getbal (f nc) >? 0).
  - pose proof (delete_leftmost_bound fuel h stack (S top) (r nc) c Hlen
                  ltac:(lia)) as H.
    destruct (delete_leftmost _ _ _ _ _ _) as [[[[stack' top'] c'] p']|e];
      simpl; [|done].
    destruct (load h c') as [nc'|e] eqn:Hl'; simpl; [done|].
    intros ->. by apply (load_safe _ h c').
  - pose proof (delete_rightmost_bound fuel h stack (S top) (l nc) c Hlen
                  ltac:(lia)) as H.
    destruct (delete_rightmost _ _ _ _ _ _) as [[[[stack' top'] c'] p']|e];
      simpl; [|done].
    destruct (load h c') as [nc'|e] eqn:Hl'; simpl; [done|].
    intros ->. by apply (load_safe _ h c').
Qed.

Lemma delete_replace_bound t h stack cpos c sc sp :
  length stack = AVL_MAX_DEPTH → (cpos < AVL_MAX_DEPTH)%nat →
  match delete_replace t h stack cpos c sc sp with
  | Ok (stack', _, _) => length stack' = AVL_MAX_DEPTH
  | Err e => e ≠ StackOverflow
  end.
Proof.
  intros Hlen Hpos.
  destruct (delete_replace t h stack cpos c sc sp) as [[[stack' t'] h']|e] eqn:Hrun.
  - unfold delete_replace in Hrun. bind_inv Hrun.
    injection Hrun as <- <- <-.
    match goal with H : stack_set _ _ _ = Ok _ |- _ =>
      unfold stack_set in H; destruct (_ <? _)%nat; [|done];
      injection H as <- end.
    by rewrite length_insert.
  - intros ->.
    assert (delete_replace t h stack cpos c sc sp ≠ Err StackOverflow) as Hs;
      [|done].
    unfold delete_replace.
    repeat first [ apply relink_safe | safe_step ].
    destruct (stack_set_safe stack cpos c ltac:(lia)) as (s' & -> & _). done.
Qed.

Lemma delete_unlink_bound fuel t h stack top c p :
  length stack = AVL_MAX_DEPTH → (top < AVL_MAX_DEPTH)%nat →
  match delete_unlink fuel t h stack top c p with
  | Ok (_, _, stack', top', _, _) =>
      length stack' = AVL_MAX_DEPTH ∧ (top' ≤ AVL_MAX_DEPTH)%nat
  | Err e => e ≠ StackOverflow
  end.
Proof.
  intros Hlen Htop. unfold delete_unlink.
  destruct (load h c) as [nc|e] eqn:Hl; simpl.
  2:{ intros ->. by apply (load_safe _ h c). }
  destruct (ptr_eqb (l nc) None || ptr_eqb (r nc) None).
  - destruct p as [pa|]; [|split; [done | lia]].
    destruct (delete_detach h c (Some pa) _) as [[hh h']|e] eqn:Hd; simpl.
    + split; [done | lia].
    + intros ->. by apply (delete_detach_safe h c (Some pa)) in Hd.
  - pose proof (delete_pick_bound fuel h stack top c Hlen Htop) as Hp.
    destruct (delete_pick fuel h stack top c)
      as [[[[[stack1 top1] c1] p1] s1]|e]; simpl; [|done].
    destruct Hp as [Hlen1 Htop1].
    destruct (delete_detach h c1 p1 s1) as [[hh h']|e] eqn:Hd; simpl.
    2:{ intros ->. by apply (delete_detach_safe h c1 p1) in Hd. }
    pose proof (delete_replace_bound t h' stack1 top c1 c p Hlen1 Htop) as Hr.
    destruct (delete_replace t h' stack1 top c1 c p) as [[[stack2 t2] h2]|e];
      simpl; [|done].
    done.
Qed.

(** [AVL_delete] never overruns its stack. *)
Lemma delete_never_overruns fuel t m k :
  AVL_delete fuel t m k ≠ Err StackOverflow.
Proof.
  unfold AVL_delete. destruct (top t); [|done].
  pose proof (delete_search_bound fuel t (cells m) k stack_init 0 (Some n) None
                ltac:(by unfold stack_init; rewrite length_replicate)) as Hs.
  destruct (delete_search _ _ _ _ _ _ _ _) as [[[[[stack top'] c] p] dd]|e];
    simpl; [|congruence].
  destruct Hs as [Hlen Htop]. destruct dd as [x|]; [|done].
  specialize (Htop ltac:(by eexists)).
  pose proof (delete_unlink_bound fuel t (cells m) stack top' c p Hlen Htop) as Hu.
  destruct (delete_unlink _ _ _ _ _ _ _) as [[[[[[hh c1] stack1] top1] t1] h1]|e];
    simpl; [|congruence].
  destruct Hu as [Hlen1 Htop1].
  repeat (apply safe_bind; [apply upd_safe | intros ? _]).
  apply safe_bind; [apply delete_rebalance_safe; lia|].
  intros [[? ?] ?] _. done.
Qed.

(** [AVL_walk] never overruns its stack. *)
Lemma walk_loop_never_overruns fuel : ∀ h c p stack top acc,
  length stack = AVL_MAX_DEPTH → (0 < top < AVL_MAX_DEPTH - 1)%nat →
  walk_loop fuel h c p stack top acc ≠ Err StackOverflow.
Proof.
  induction fuel as [|fuel IH]; intros h c p stack top acc Hlen Htop; [done|].
  unfold AVL_MAX_DEPTH in *.
  simpl. unfold walk_body.
  (* down *)
  assert (∃ r, walk_down h c p stack top = r
               ∧ match r with
                 | Ok (_, _, stack1, top1) =>
                     length stack1 = 64%nat ∧ (0 < top1 < 64)%nat
                 | Err e => e ≠ StackOverflow
                 end) as (r1 & Hr1 & H1).
  { eexists. split; [done|]. unfold walk_down.
    destruct top as [|top0]; [lia|].
    destruct (stack_get stack top0) as [s|e] eqn:Hg; simpl.
    2:{ intros ->. by apply (stack_get_safe stack top0 ltac:(lia)) in Hg. }
    destruct (ptr_eqb s p); [|split; [done | lia]].
    destruct (load h c) as [nc|e] eqn:Hl; simpl.
    2:{ intros ->. by apply (load_safe _ h c) in Hl. }
    destruct (l nc); [|split; [done | lia]].
    destruct (stack_set_safe stack (S top0) c ltac:(lia)) as (s' & -> & Hs').
    simpl. split; [lia | lia]. }
  rewrite Hr1. destruct r1 as [[[[c1 p1] stack1] top1]|e]; simpl; [|congruence].
  destruct H1 as [Hlen1 Htop1].
  assert (∃ r, walk_visit h c1 p1 stack1 top1 acc = r
               ∧ match r with
                 | Ok (_, _, stack2, top2, _) =>
                     length stack2 = 64%nat ∧ (0 < top2 ≤ 64)%nat
                 | Err e => e ≠ StackOverflow
                 end) as (r2 & Hr2 & H2).
  { eexists. split; [done|]. unfold walk_visit.
    destruct (load h c1) as [nc|e] eqn:Hl; simpl.
    2:{ intros ->. by apply (load_safe _ h c1) in Hl. }
    destruct (ptr_eqb p1 (l nc)); [|split; [done | lia]].
    destruct (r nc); [|split; [done | lia]].
    destruct (stack_set_safe stack1 top1 c1 ltac:(lia)) as (s' & -> & Hs').
    simpl. split; [lia | lia]. }
  rewrite Hr2. destruct r2 as [[[[[c2 p2] stack2] top2] acc2]|e]; simpl;
    [|congruence].
  destruct H2 as [Hlen2 Htop2].
  assert (∃ r, walk_up h c2 p2 stack2 top2 = r
               ∧ match r with
                 | Ok (_, _, top3) => (top3 ≤ 64)%nat
                 | Err e => e ≠ StackOverflow
                 end) as (r3 & Hr3 & H3).
  { eexists. split; [done|]. unfold walk_up.
    destruct (load h c2) as [nc|e] eqn:Hl; simpl.
    2:{ intros ->. by apply (load_safe _ h c2) in Hl. }
    destruct (ptr_eqb p2 (r nc)); [|lia].
    destruct top2 as [|top2']; [lia|].
    destruct (stack_get stack2 top2') as [s|e] eqn:Hg; simpl; [lia|].
    intros ->. by apply (stack_get_safe stack2 top2' ltac:(lia)) in Hg. }
  rewrite Hr3. destruct r3 as [[[c3 p3] top3]|e]; simpl; [|congruence].
  unfold walk_continue, AVL_MAX_DEPTH.
  destruct (0 <? top3)%nat eqn:Hpos; [|done].
  destruct (top3 <? 64 - 1)%nat eqn:Hlt; [|done].
  simpl. apply Nat.ltb_lt in Hpos, Hlt. apply IH; [done | lia].
Qed.

Lemma walk_never_overruns fuel t m : AVL_walk fuel t m ≠ Err StackOverflow.
Proof.
  unfold AVL_walk. destruct (top t) as [a|]; [|done].
  assert (length (@stack_init) = AVL_MAX_DEPTH) as Hlen
    by (unfold stack_init; by rewrite length_replicate).
  destruct (stack_set_safe stack_init 0 (Some a)
              ltac:(rewrite Hlen; unfold AVL_MAX_DEPTH; lia)) as (s' & -> & Hs').
  simpl. apply walk_loop_never_overruns; [lia | unfold AVL_MAX_DEPTH; lia].
Qed.

End Safe.



(** * Tearing the tree down: [AVL_flush] and [AVL_destroy] *)

Section Flush.

Variables (A U : Type).
Implicit Types (h : gmap nat (AVL_NODE A)) (t : AVL_TREE A U) (m : mem A).
Implicit Types (s tr : tree A) (stack : list ptr) (p : ptr).

Lemma flush_loop_S fuel t h n stack top1 :
  flush_loop (S fuel) t h n stack (S top1)
  = (nn ← load h n;
     match l nn with
     | Some _ =>
         stack ← stack_set stack (S top1) n;
         flush_loop fuel t h (l nn) stack (S (S top1))
     | None =>
         match r nn with
         | Some _ =>
             stack ← stack_set stack (S top1) n;
             flush_loop fuel t h (r nn) stack (S (S top1))
         | None =>
             m ← stack_get stack top1;
             nm ← load h m;
             h ← (if ptr_eqb (l nm) n then upd h m (fun c => set_l c None)
                  else if ptr_eqb (r nm) n then upd h m (fun c => set_r c None)
                  else Ok h);
             h ← upd h n (fun c => set_r c (freeStack t));
             let t := set_freeStack t n in
             h ← upd h n (fun c => set_f c (AVL_clrbit (f c) AVL_FLG_USD));
             flush_loop fuel t h m stack top1
         end
     end).
Proof. reflexivity. Qed.

Lemma postorder_perm s : postorder s ≡ₚ addrs s.
Proof.
  induction s as [|a tl IHl b fl x tr IHr]; [done|].
  simpl. rewrite IHl, IHr.
  rewrite (Permutation_app_comm (addrs tr) [a]). simpl.
  by rewrite Permutation_middle.
Qed.

Lemma elem_of_postorder s c : c ∈ reverse (postorder s) ↔ c ∈ addrs s.
Proof. by rewrite elem_of_reverse, (postorder_perm s). Qed.

Lemma flush_heap_frame s : ∀ h p c,
  c ∉ addrs s → flush_heap h p s !! c = h !! c.
Proof.
  induction s as [|a tl IHl b fl x tr IHr]; intros h p c Hc; [done|].
  simpl in *. rewrite !not_elem_of_cons, not_elem_of_app in Hc.
  destruct Hc as (Hca & Hcl & Hcr).
  rewrite lookup_insert_ne by done. rewrite IHr by done. by apply IHl.
Qed.

Lemma flush_heap_insert s : ∀ h p a c,
  a ∉ addrs s →
  flush_heap (<[a := c]> h) p s = <[a := c]> (flush_heap h p s).
Proof.
  induction s as [|a' tl IHl b fl x tr IHr]; intros h p a c Ha; [done|].
  simpl in *. rewrite !not_elem_of_cons, not_elem_of_app in Ha.
  destruct Ha as (Hne & Hal & Har).
  rewrite IHl, IHr by done. by apply insert_insert_ne.
Qed.

(** One turn of the loop at a node without subtrees: the node is cut
    off its parent, which is another cell, and pushed. *)
Lemma flush_leaf_parent fuel t h a fa da stack top1 pa cm :
  h !! a = Some (mkNode None None fa da) →
  stack !! top1 = Some (Some pa) → pa ≠ a → h !! pa = Some cm →
  flush_loop (S fuel) t h (Some a) stack (S top1)
  = flush_loop fuel (set_freeStack t (Some a))
      (<[a := mkNode None (freeStack t) (AVL_clrbit fa AVL_FLG_USD) da]>
         (<[pa := if ptr_eqb (l cm) (Some a) then set_l cm None
                  else if ptr_eqb (r cm) (Some a) then set_r cm None
                  else cm]> h))
      (Some pa) stack top1.
Proof.
  intros Ha Hst Hne Hpa. rewrite flush_loop_S.
  rewrite (load_Some h a _ Ha). simpl.
  rewrite (stack_get_Some _ _ _ Hst). simpl.
  rewrite (load_Some h pa _ Hpa). simpl.
  set (cm' := if ptr_eqb (l cm) (Some a) then set_l cm None
              else if ptr_eqb (r cm) (Some a) then set_r cm None else cm).
  assert ((if ptr_eqb (l cm) (Some a) then upd h (Some pa) (λ c, set_l c None)
           else if ptr_eqb (r cm) (Some a) then upd h (Some pa) (λ c, set_r c None)
           else Ok h) = Ok (<[pa := cm']> h)) as ->.
  { subst cm'. destruct (ptr_eqb (l cm) (Some a)).
    - by rewrite (upd_Some h pa cm _ Hpa).
    - destruct (ptr_eqb (r cm) (Some a)).
      + by rewrite (upd_Some h pa cm _ Hpa).
      + by rewrite insert_id. }
  simpl.
  erewrite upd_Some by (rewrite lookup_insert_ne by done; exact Ha).
  simpl. erewrite upd_Some by apply lookup_insert_eq. simpl.
  by rewrite insert_insert_eq.
Qed.

(** The same turn at the root, whose entry of the stack is the root. *)
Lemma flush_leaf_root fuel t h a fa da stack :
  h !! a = Some (mkNode None None fa da) →
  stack !! 0%nat = Some (Some a) →
  flush_loop (S fuel) t h (Some a) stack 1
  = flush_loop fuel (set_freeStack t (Some a))
      (<[a := mkNode None (freeStack t) (AVL_clrbit fa AVL_FLG_USD) da]> h)
      (Some a) stack 0.
Proof.
  intros Ha Hst. rewrite flush_loop_S.
  rewrite (load_Some h a _ Ha). simpl.
  rewrite (stack_get_Some _ _ _ Hst). simpl.
  rewrite (load_Some h a _ Ha). simpl.
  erewrite upd_Some by exact Ha.
  simpl. erewrite upd_Some by apply lookup_insert_eq. simpl.
  by rewrite insert_insert_eq.
Qed.

Lemma set_freeStack_twice t p q :
  set_freeStack (set_freeStack t p) q = set_freeStack t q.
Proof. reflexivity. Qed.

(** The loop at a node [a] of which [c] is the left subtree
    ([left = true]), or the right subtree when the left one is gone:
    it comes back to [a] with [c] gone. *)
Lemma flush_child (c : tree A) (left : bool) :
  flush_kids_spec (U := U) c →
  ∀ t h stack top1 fuel a fa da ro,
    h !! a = Some (mkNode (if left then root c else None)
                          (if left then ro else root c) fa da) →
    rep h c → NoDup (addrs c) → a ∉ addrs c →
    length stack = AVL_MAX_DEPTH →
    (c ≠ E → S top1 + hgt c ≤ AVL_MAX_DEPTH)%nat →
    ∃ stack',
      flush_loop (2 * count c + fuel) t h (Some a) stack (S top1)
      = flush_loop fuel (set_freeStack t (flush_ptr (freeStack t) c))
          (<[a := mkNode None (if left then ro else None) fa da]>
             (flush_heap h (freeStack t) c))
          (Some a) stack' (S top1)
      ∧ length stack' = AVL_MAX_DEPTH
      ∧ ∀ i, (i ≤ top1)%nat → stack' !! i = stack !! i.
Proof.
  intros K t h stack top1 fuel a fa da ro Ha Hrep Hnd Hac Hlen Hh.
  destruct c as [|al tll bl fll xl tlr].
  - exists stack. simpl. rewrite set_freeStack_id.
    rewrite insert_id; [done|]. rewrite Ha. by destruct left.
  - specialize (Hh ltac:(done)).
    assert (a ≠ al) as Hne by (simpl in Hac; set_solver).
    replace (2 * count (T al tll bl fll xl tlr) + fuel)%nat
      with (S (2 * (count tll + count tlr) + S fuel)) by (simpl; lia).
    rewrite flush_loop_S. rewrite (load_Some h a _ Ha).
    assert (S top1 < length stack)%nat as Hlt.
    { rewrite Hlen. simpl in Hh. lia. }
    set (stack1 := <[S top1 := Some a]> stack).
    assert (flush_loop (2 * (count tll + count tlr) + S fuel) t h (Some al)
              stack1 (S (S top1))
            = (Ok (mkNode (if left then root (T al tll bl fll xl tlr) else None)
                     (if left then ro else root (T al tll bl fll xl tlr)) fa da)
               ≫= λ nn, match l nn with
                  | Some _ =>
                      stack ← stack_set stack (S top1) (Some a);
                      flush_loop (2 * (count tll + count tlr) + S fuel) t h
                        (l nn) stack (S (S top1))
                  | None =>
                      match r nn with
                      | Some _ =>
                          stack ← stack_set stack (S top1) (Some a);
                          flush_loop (2 * (count tll + count tlr) + S fuel) t h
                            (r nn) stack (S (S top1))
                      | None =>
                          m ← stack_get stack top1;
                          nm ← load h m;
                          h ← (if ptr_eqb (l nm) (Some a)
                               then upd h m (fun c => set_l c None)
                               else if ptr_eqb (r nm) (Some a)
                               then upd h m (fun c => set_r c None)
                               else Ok h);
                          h ← upd h (Some a) (fun c => set_r c (freeStack t));
                          let t := set_freeStack t (Some a) in
                          h ← upd h (Some a)
                                (fun c => set_f c (AVL_clrbit (f c) AVL_FLG_USD));
                          flush_loop (2 * (count tll + count tlr) + S fuel) t h
                            m stack top1
                      end
                  end)) as <-.
    { destruct left; simpl; by rewrite (stack_set_lt _ _ _ Hlt). }
    destruct (K t h stack1 (S top1) (S fuel) Hrep Hnd) as (stackK & -> & HlenK & HstK).
    { unfold stack1. by rewrite length_insert. }
    { lia. }
    simpl in Hac. rewrite !not_elem_of_cons, not_elem_of_app in Hac.
    destruct Hac as (_ & Hall & Halr).
    set (h2 := flush_heap (flush_heap h (freeStack t) tll)
                 (flush_ptr (freeStack t) tll) tlr).
    rewrite (flush_leaf_parent _ _ _ al (enc bl fll) (Some xl) _ _ a
               (mkNode (if left then Some al else None)
                       (if left then ro else Some al) fa da)).
    + exists stackK. split; [|split; [done|]].
      * rewrite set_freeStack_twice. f_equal.
        simpl. fold h2.
        rewrite (insert_insert_ne _ al a) by done.
        rewrite insert_insert_eq.
        f_equal. destruct left; simpl.
        -- rewrite ptr_eqb_refl. reflexivity.
        -- rewrite ptr_eqb_refl. reflexivity.
      * intros i Hi. rewrite HstK by lia. unfold stack1.
        apply list_lookup_insert_ne. lia.
    + apply lookup_insert_eq.
    + rewrite HstK by lia. unfold stack1. by apply list_lookup_insert_eq.
    + done.
    + rewrite lookup_insert_ne by done.
      unfold h2. rewrite !flush_heap_frame by done. exact Ha.
Qed.

Lemma flush_kids s : flush_kids_spec (U := U) s.
Proof.
  induction s as [|a tl IHl b fl x tr IHr]; [by intros ? ? ? ? ? ? ? ? ?|].
  intros t h stack top1 fuel (Ha & Hl & Hr) Hnd Hlen Hh.
  cbv beta iota zeta. simpl in Hnd.
  apply NoDup_cons in Hnd as [Hna Hnd].
  apply NoDup_app in Hnd as (Hndl & Hdisj & Hndr).
  rewrite not_elem_of_app in Hna. destruct Hna as [Hal Har].
  simpl in Hh.
  replace (2 * (count tl + count tr) + fuel)%nat
    with (2 * count tl + (2 * count tr + fuel))%nat by lia.
  destruct (flush_child tl true IHl t h stack top1 (2 * count tr + fuel)%nat
              a (enc b fl) (Some x) (root tr) Ha Hl Hndl Hal Hlen)
    as (stackA & -> & HlenA & HstA).
  { intros _. lia. }
  set (p1 := flush_ptr (freeStack t) tl).
  set (hA := <[a := mkNode None (root tr) (enc b fl) (Some x)]>
               (flush_heap h (freeStack t) tl)).
  destruct (flush_child tr false IHr (set_freeStack t p1) hA stackA top1 fuel
              a (enc b fl) (Some x) None) as (stackB & -> & HlenB & HstB).
  { apply lookup_insert_eq. }
  { apply rep_insert; [done|]. eapply rep_frame; [|exact Hr].
    intros c Hc. apply flush_heap_frame. intros Hcl. by apply (Hdisj c). }
  { done. }
  { done. }
  { done. }
  { intros _. lia. }
  exists stackB. split; [|split; [done|]].
  - rewrite set_freeStack_twice. f_equal. simpl.
    unfold hA. rewrite flush_heap_insert by done.
    by rewrite insert_insert_eq.
  - intros i Hi. rewrite HstB by done. by apply HstA.
Qed.

(** ** The heap that the loop leaves *)

Lemma flush_ptr_free_list s h p fs :
  flags_ok s → NoDup (addrs s) → (∀ c, c ∈ addrs s → c ∉ fs) →
  free_list h p fs →
  free_list (flush_heap h p s) (flush_ptr p s) (reverse (postorder s) ++ fs).
Proof.
  revert h p fs.
  induction s as [|a tl IHl b fl x tr IHr]; intros h p fs Hfl Hnd Hdisj Hfree;
    [done|].
  destruct Hfl as (Hfl & Hb & Hfll & Hflr).
  simpl in Hnd. apply NoDup_cons in Hnd as [Hna Hnd].
  apply NoDup_app in Hnd as (Hndl & Hlr & Hndr).
  rewrite not_elem_of_app in Hna. destruct Hna as [Hal Har].
  assert (∀ c, c ∈ addrs tl → c ∉ fs) as Hdl.
  { intros c Hc. apply Hdisj. simpl. set_solver. }
  assert (∀ c, c ∈ addrs tr → c ∉ fs) as Hdr.
  { intros c Hc. apply Hdisj. simpl. set_solver. }
  assert (a ∉ fs) as Hafs by (apply Hdisj; simpl; set_solver).
  pose proof (IHl h p fs Hfll Hndl Hdl Hfree) as H1.
  assert (∀ c, c ∈ addrs tr → c ∉ reverse (postorder tl) ++ fs) as Hd2.
  { intros c Hc. rewrite elem_of_app, elem_of_postorder.
    intros [?|?]; [by apply (Hlr c) | by apply (Hdr c)]. }
  pose proof (IHr _ _ _ Hflr Hndr Hd2 H1) as H2.
  simpl. rewrite !reverse_app, reverse_singleton. simpl.
  split; [done|].
  destruct (clrbit_usd_enc b fl Hb Hfl) as [Hclr Hfree'].
  exists None, (flush_ptr (flush_ptr p tl) tr), b, (fl - 4), (Some x).
  split; [by rewrite lookup_insert_eq, Hclr|].
  split; [done|]. split; [done|].
  rewrite <- (assoc_L (++)). apply free_list_insert; [|exact H2].
  rewrite !elem_of_app, !elem_of_postorder. tauto.
Qed.

(** A node of the tree, before and after. *)
Lemma flush_heap_cell s : ∀ h p c,
  rep h s → NoDup (addrs s) → flags_ok s → c ∈ addrs s →
  ∃ pl pr b fl x q,
    h !! c = Some (mkNode pl pr (enc b fl) (Some x))
    ∧ flush_heap h p s !! c = Some (mkNode None q (enc b (fl - 4)) (Some x))
    ∧ -2 ≤ b ≤ 2 ∧ used_fl fl.
Proof.
  induction s as [|a tl IHl b fl x tr IHr]; intros h p c Hrep Hnd Hfl Hc;
    [by apply elem_of_nil in Hc|].
  destruct Hrep as (Ha & Hl & Hr). destruct Hfl as (Hfl & Hb & Hfll & Hflr).
  simpl in Hnd. apply NoDup_cons in Hnd as [Hna Hnd].
  apply NoDup_app in Hnd as (Hndl & Hlr & Hndr).
  rewrite not_elem_of_app in Hna. destruct Hna as [Hal Har].
  simpl in Hc. rewrite elem_of_cons, elem_of_app in Hc.
  destruct (clrbit_usd_enc b fl Hb Hfl) as [Hclr _].
  destruct Hc as [-> | [Hc | Hc]].
  - eexists _, _, b, fl, x, _. split; [exact Ha|]. simpl.
    rewrite lookup_insert_eq, Hclr. done.
  - destruct (IHl h p c Hl Hndl Hfll Hc) as (pl & pr & b' & fl' & x' & q & H0 & H1 & Hr').
    exists pl, pr, b', fl', x', q. split; [done|]. split; [|done].
    simpl. rewrite lookup_insert_ne by (intros ->; done).
    rewrite flush_heap_frame; [done|]. by apply Hlr.
  - assert (c ∉ addrs tl) as Hcl by (intros Hcl; by apply (Hlr c)).
    destruct (IHr (flush_heap h p tl) (flush_ptr p tl) c) as
      (pl & pr & b' & fl' & x' & q & H0 & H1 & Hr'); [|done|done|done|].
    { eapply rep_frame; [|exact Hr]. intros c' Hc'.
      apply flush_heap_frame. intros Hcl'. by apply (Hlr c'). }
    exists pl, pr, b', fl', x', q. split.
    { by rewrite flush_heap_frame in H0. }
    split; [|done].
    simpl. by rewrite lookup_insert_ne by (intros ->; done).
Qed.

(** ** [AVL_flush] *)

Lemma set_cells_id m : set_cells m (cells m) = m.
Proof. by destruct m. Qed.

Lemma flush_run t m tr fs fuel :
  Inv t m tr fs → (2 * count tr ≤ fuel)%nat →
  ∃ t',
    AVL_flush fuel t m
    = Ok (t', set_cells m (flush_heap (cells m) (freeStack t) tr))
    ∧ freeStack t' = flush_ptr (freeStack t) tr
    ∧ top t' = None ∧ height t' = 0 ∧ size t' = 0
    ∧ allocAtOnce t' = allocAtOnce t ∧ eval t' = eval t ∧ user t' = user t.
Proof.
  intros HI Hfuel. pose proof (Inv_height_bound _ _ _ _ _ _ HI) as Hh.
  destruct HI as [[Htop Hrep Hfree Hnd Hfl Hal] Havl Hhgt Hsz Hmax].
  unfold AVL_flush. rewrite Htop.
  destruct tr as [|a tl b fl x tr].
  - exists t. simpl. rewrite set_cells_id. simpl in Hhgt, Hsz. done.
  - cbn [root].
    assert (length (@stack_init) = AVL_MAX_DEPTH) as Hlen0
      by (unfold stack_init; by rewrite length_replicate).
    rewrite stack_set_lt by (rewrite Hlen0; unfold AVL_MAX_DEPTH; lia).
    rewrite bind_Ok.
    apply NoDup_app in Hnd as (Hnd & _ & _).
    cbn [count] in Hfuel.
    destruct (flush_kids (T a tl b fl x tr) t (cells m)
                (<[0%nat := (Some a : ptr)]> stack_init) 0%nat
                (fuel - 2 * (count tl + count tr))%nat
                Hrep Hnd) as (stack' & Hrun & Hlen' & Hst').
    { by rewrite length_insert. }
    { unfold AVL_MAX_DEPTH. lia. }
    replace (2 * (count tl + count tr) + (fuel - 2 * (count tl + count tr)))%nat
      with fuel in Hrun by lia.
    destruct (fuel - 2 * (count tl + count tr))%nat as [|[|f']] eqn:Hf; [lia|lia|].
    eexists. split.
    + rewrite Hrun. erewrite flush_leaf_root.
      2:{ apply lookup_insert_eq. }
      2:{ rewrite Hst' by lia. apply list_lookup_insert_eq.
          unfold stack_init. rewrite length_replicate.
          unfold AVL_MAX_DEPTH. lia. }
      cbn [flush_loop]. rewrite bind_Ok. rewrite insert_insert_eq.
      reflexivity.
    + done.
Qed.

Lemma flush_Inv t m tr fs t' :
  Inv t m tr fs →
  freeStack t' = flush_ptr (freeStack t) tr →
  top t' = None → height t' = 0 → size t' = 0 →
  allocAtOnce t' = allocAtOnce t →
  Inv t' (set_cells m (flush_heap (cells m) (freeStack t) tr)) E
    (reverse (postorder tr) ++ fs).
Proof.
  intros [[Htop Hrep Hfree Hnd Hfl Hal] Havl Hhgt Hsz Hmax] Hfs Ht Hh Hs Ha.
  pose proof Hnd as Hnd'.
  apply NoDup_app in Hnd' as (Hndt & Hdisj & Hndf).
  split; [split| | | |]; try done.
  - simpl. rewrite Hfs. by apply flush_ptr_free_list.
  - simpl. by rewrite reverse_Permutation, postorder_perm.
  - lia.
  - by rewrite Hs.
Qed.

(** The layout of the allocator survives, and no cell is in use. *)
Lemma flag_cleared b fl :
  -2 ≤ b ≤ 2 → used_fl fl →
  AVL_getbit (enc b (fl - 4)) AVL_FLG_1ST = AVL_getbit (enc b fl) AVL_FLG_1ST
  ∧ AVL_getbit (enc b (fl - 4)) AVL_FLG_USD = 0
  ∧ wf_flag (enc b (fl - 4)).
Proof.
  intros Hb Hfl. split; [|split].
  - destruct Hfl as [-> | ->]; split_bal b; reflexivity.
  - destruct Hfl as [-> | ->]; split_bal b; reflexivity.
  - exists b, (fl - 4). split; [done|]. split; [done|]. right.
    unfold free_fl. destruct Hfl as [-> | ->]; lia.
Qed.

Lemma flush_Slabs t m tr fs t' :
  Inv t m tr fs → Slabs t m fs →
  allocAtOnce t' = allocAtOnce t →
  Slabs t' (set_cells m (flush_heap (cells m) (freeStack t) tr))
    (reverse (postorder tr) ++ fs).
Proof.
  intros [[Htop Hrep Hfree Hnd Hfl Hal] Havl Hhgt Hsz Hmax]
         [Smax Ssize Scells Scover Sdisj Sfirst Sflags Sfree] Ha.
  apply NoDup_app in Hnd as (Hndt & Hdisj & Hndf).
  set (h' := flush_heap (cells m) (freeStack t) tr).
  assert (∀ a c', h' !! a = Some c' →
            ∃ c, cells m !! a = Some c ∧ is_first c' = is_first c
                 ∧ wf_flag (f c')
                 ∧ (in_use c' = false → a ∈ reverse (postorder tr) ++ fs)) as Hcell.
  { intros a c' Hc'. destruct (decide (a ∈ addrs tr)) as [Hin|Hout].
    - destruct (flush_heap_cell tr (cells m) (freeStack t) a Hrep Hndt Hfl Hin)
        as (pl & pr & b & fl & x & q & H0 & H1 & Hb & Hu).
      fold h' in H1. rewrite H1 in Hc'. injection Hc' as <-.
      destruct (flag_cleared b fl Hb Hu) as (H1st & Husd & Hwf).
      eexists. split; [exact H0|]. unfold is_first. simpl.
      split; [by rewrite H1st|]. split; [done|]. intros _.
      rewrite elem_of_app, elem_of_postorder. by left.
    - unfold h' in Hc'. rewrite flush_heap_frame in Hc' by done.
      exists c'. split; [done|]. split; [done|].
      split; [by eapply Sflags|]. intros Hu.
      rewrite elem_of_app. right. by eapply Sfree. }
  assert (∀ a, is_Some (cells m !! a) → is_Some (h' !! a)) as Hdom.
  { intros a [c Hc]. destruct (decide (a ∈ addrs tr)) as [Hin|Hout].
    - destruct (flush_heap_cell tr (cells m) (freeStack t) a Hrep Hndt Hfl Hin)
        as (pl & pr & b & fl & x & q & H0 & H1 & _). by eexists.
    - unfold h'. rewrite flush_heap_frame by done. by eexists. }
  split; simpl.
  - by rewrite Ha.
  - rewrite Ha. exact Ssize.
  - intros q n i Hq Hi. apply Hdom. by eapply Scells.
  - intros a [c' Hc']. destruct (Hcell a c' Hc') as (c & Hc & _).
    apply Scover. by eexists.
  - exact Sdisj.
  - intros a c' Hc'. destruct (Hcell a c' Hc') as (c & Hc & -> & _).
    by apply Sfirst.
  - intros a c' Hc'. by destruct (Hcell a c' Hc') as (c & Hc & _ & Hwf & _).
  - intros a c' Hc' Hu. destruct (Hcell a c' Hc') as (c & Hc & _ & _ & Hin).
    by apply Hin.
Qed.

Lemma flush_no_use t m tr fs :
  Inv t m tr fs → no_leak (cells m) tr →
  ∀ a c, flush_heap (cells m) (freeStack t) tr !! a = Some c → in_use c = false.
Proof.
  intros [[Htop Hrep Hfree Hnd Hfl Hal] Havl Hhgt Hsz Hmax] Hleak a c Hc.
  apply NoDup_app in Hnd as (Hndt & Hdisj & Hndf).
  destruct (decide (a ∈ addrs tr)) as [Hin|Hout].
  - destruct (flush_heap_cell tr (cells m) (freeStack t) a Hrep Hndt Hfl Hin)
      as (pl & pr & b & fl & x & q & H0 & H1 & Hb & Hu).
    rewrite H1 in Hc. injection Hc as <-.
    destruct (flag_cleared b fl Hb Hu) as (_ & Husd & _).
    unfold in_use. simpl. by rewrite Husd.
  - rewrite flush_heap_frame in Hc by done.
    destruct (in_use c) eqn:Hu; [|done]. by destruct (Hout (Hleak a c Hc Hu)).
Qed.

(** The loop has no bound on [top]: a path of more than [AVL_MAX_DEPTH]
    nodes takes it beyond the array. *)
Lemma flush_loop_overrun s : ∀ fuel t h stack top1,
  rep h s → s ≠ E → length stack = AVL_MAX_DEPTH →
  (AVL_MAX_DEPTH + 1 < S top1 + first_path s)%nat →
  (0 < fuel)%nat → (AVL_MAX_DEPTH < fuel + S top1)%nat →
  flush_loop fuel t h (root s) stack (S top1) = Err StackOverflow.
Proof.
  induction s as [|a tl IHl b fl x tr IHr];
    intros fuel t h stack top1 Hrep Hne Hlen Hpath Hpos Hfuel; [done|].
  destruct Hrep as (Ha & Hl & Hr).
  destruct fuel as [|fuel]; [lia|].
  cbn [root]. rewrite flush_loop_S, (load_Some h a _ Ha). rewrite bind_Ok.
  cbn [l r].
  destruct tl as [|al tll bl fll xl tlr].
  - destruct tr as [|ar trl br flr xr trr].
    + cbn [root]. unfold stack_get.
      rewrite (lookup_ge_None_2 stack top1); [done|].
      rewrite Hlen. cbn [first_path] in Hpath. unfold AVL_MAX_DEPTH in *. lia.
    + cbn [root]. unfold stack_set.
      destruct (S top1 <? length stack)%nat eqn:Hlt; [|done].
      apply Nat.ltb_lt in Hlt. rewrite bind_Ok.
      apply (IHr fuel t h _ (S top1)); try done.
      * by rewrite length_insert.
      * cbn [first_path] in Hpath. cbn [first_path]. unfold AVL_MAX_DEPTH in *. lia.
      * rewrite Hlen in Hlt. unfold AVL_MAX_DEPTH in *. lia.
      * unfold AVL_MAX_DEPTH in *. lia.
  - cbn [root]. unfold stack_set.
    destruct (S top1 <? length stack)%nat eqn:Hlt; [|done].
    apply Nat.ltb_lt in Hlt. rewrite bind_Ok.
    apply (IHl fuel t h _ (S top1)); try done.
    + by rewrite length_insert.
    + cbn [first_path] in Hpath. cbn [first_path]. unfold AVL_MAX_DEPTH in *. lia.
    + rewrite Hlen in Hlt. unfold AVL_MAX_DEPTH in *. lia.
    + unfold AVL_MAX_DEPTH in *. lia.
Qed.

Lemma flush_overrun t m tr fuel :
  rep (cells m) tr → top t = root tr →
  (AVL_MAX_DEPTH < first_path tr)%nat → (AVL_MAX_DEPTH < fuel)%nat →
  AVL_flush fuel t m = Err StackOverflow.
Proof.
  intros Hrep Htop Hpath Hfuel.
  assert (tr ≠ E) as Hne by (intros ->; simpl in Hpath; lia).
  unfold AVL_flush. rewrite Htop.
  destruct (root tr) as [a|] eqn:Hroot; [|by destruct tr].
  rewrite stack_set_lt
    by (unfold stack_init; rewrite length_replicate; unfold AVL_MAX_DEPTH; lia).
  rewrite bind_Ok. rewrite <- Hroot.
  rewrite (flush_loop_overrun tr fuel t (cells m) _ 0); try done.
  all: try (rewrite length_insert; unfold stack_init;
            by rewrite length_replicate).
  all: unfold AVL_MAX_DEPTH in *; lia.
Qed.

(** ** [AVL_destroy] *)

Lemma destroy_ok t m tr fs fuel :
  Inv t m tr fs → Slabs t m fs → no_leak (cells m) tr →
  Z.of_nat (count tr + length fs) ≤ INT_MAX →
  (2 * count tr ≤ fuel)%nat → (count tr + length fs < fuel)%nat →
  ∃ m', AVL_destroy fuel t m = Ok m'
        ∧ cells m' = ∅ ∧ blocks m' = ∅ ∧ oracle m' = oracle m.
Proof.
  intros HI Hsl Hleak Hmax Hfuel Hfuel'.
  destruct (flush_run t m tr fs fuel HI Hfuel)
    as (t1 & Hrun & Hfs & Htop & Hh & Hs & Ha & _).
  set (m1 := set_cells m (flush_heap (cells m) (freeStack t) tr)) in *.
  set (fs1 := reverse (postorder tr) ++ fs).
  pose proof (flush_Inv t m tr fs t1 HI Hfs Htop Hh Hs Ha) as HI1.
  pose proof (flush_Slabs t m tr fs t1 HI Hsl Ha) as Hsl1.
  pose proof (flush_no_use t m tr fs HI Hleak) as Hfree1.
  fold m1 fs1 in HI1, Hsl1.
  assert (length fs1 = (count tr + length fs)%nat) as Hlen1.
  { unfold fs1. rewrite length_app, length_reverse, (postorder_perm tr).
    f_equal. clear. induction tr as [|a tl IHl b fl x tr' IHr]; [done|].
    simpl. rewrite length_app. lia. }
  destruct (dealloc_ok _ _ t1 m1 E fs1 fuel HI1 Hsl1 ltac:(lia) ltac:(lia))
    as (fsp & m' & Hrun' & _ & _ & Hcells & Hblocks & Ho).
  set (n := Z.to_nat (allocAtOnce t1)) in *.
  set (F := filter (λ a, full (cells m1) n a = true) fs1) in *.
  assert (1 ≤ allocAtOnce t1) as Hone.
  { rewrite Ha. by destruct HI as [[]]. }
  assert (∀ q k, blocks m1 !! q = Some k → k = n ∧ q ∈ F) as Hall.
  { intros q k Hq. pose proof (sl_size Hsl1 q k Hq) as ->.
    split; [done|]. fold n in Hq.
    destruct (sl_cells Hsl1 q n 0%nat Hq ltac:(unfold n; lia)) as [cq Hcq].
    rewrite Nat.add_0_r in Hcq.
    assert (is_first cq = true) as H1st.
    { apply (sl_first Hsl1 q cq Hcq). by eexists. }
    apply list_elem_of_filter. split.
    - apply (full_true _ _ t1 m1 fs1 Hsl1 Hone q cq Hcq H1st).
      intros k c _ Hc. by apply (Hfree1 _ c Hc).
    - apply (sl_free Hsl1 q cq Hcq). by apply (Hfree1 q cq). }
  exists m'. split; [|split; [|split]].
  - unfold AVL_destroy. rewrite Hrun. rewrite bind_Ok.
    cbv beta iota. fold m1. rewrite Hrun'. reflexivity.
  - apply map_empty. intros a. apply eq_None_not_Some. intros Hsome.
    apply Hcells in Hsome as [Hsome Hout]. apply Hout.
    destruct (sl_cover Hsl1 a Hsome) as (q & k & Hq & Hrange).
    destruct (Hall q k Hq) as [-> HqF].
    apply elem_cells_of. by exists q.
  - apply map_empty. intros q. rewrite Hblocks.
    case_bool_decide as HqF; [done|].
    destruct (blocks m1 !! q) as [k|] eqn:Hq; [|done].
    by destruct (Hall q k Hq) as [_ HqF'].
  - rewrite Ho. done.
Qed.

End Flush.



(** * The layout of the allocator is kept *)

(** ** The mark of a first cell survives every other change of the flags *)

Lemma land8_mod16 z w : z mod 16 = w mod 16 → Z.land z 8 = Z.land w 8.
Proof.
  intros H. apply Z.bits_inj'. intros n Hn. rewrite !Z.land_spec.
  destruct (decide (n = 3)) as [-> | Hne].
  - f_equal. change 16 with (2 ^ 4) in H.
    rewrite <- (Z.mod_pow2_bits_low z 4 3), <- (Z.mod_pow2_bits_low w 4 3) by lia.
    by rewrite H.
  - replace (Z.testbit 8 n) with false; [by rewrite !andb_false_r|].
    symmetry. change 8 with (2 ^ 3). apply Z.pow2_bits_false. lia.
Qed.

Lemma wrap8_mod16 z : wrap8 z mod 16 = z mod 16.
Proof.
  unfold wrap8.
  pose proof (Z.div_mod (z + 128) 256 ltac:(lia)) as H.
  replace ((z + 128) mod 256 - 128) with (z + (- 16 * ((z + 128) / 256)) * 16)
    by lia.
  apply Z_mod_plus_full.
Qed.

Lemma getbit_1st_wrap8 z :
  AVL_getbit (wrap8 z) AVL_FLG_1ST = AVL_getbit z AVL_FLG_1ST.
Proof. unfold AVL_getbit. apply land8_mod16, wrap8_mod16. Qed.

Lemma getbit_1st_setbal f b :
  AVL_getbit (AVL_setbal f b) AVL_FLG_1ST = AVL_getbit f AVL_FLG_1ST.
Proof.
  unfold AVL_setbal. rewrite getbit_1st_wrap8. unfold AVL_getbit.
  change (Z.shiftl (wrap8 1) AVL_FLG_1ST) with 8.
  rewrite Z.land_lor_distr_l, <- Z.land_assoc.
  change (Z.land (Z.lnot AVL_FLG_BAL) 8) with 8.
  replace (Z.land (Z.shiftl (wrap8 b + 2) 4) 8) with 0; [apply Z.lor_0_r|].
  symmetry. apply Z.bits_inj'. intros n Hn.
  rewrite Z.land_spec, Z.bits_0.
  destruct (decide (n = 3)) as [-> | Hne].
  - rewrite Z.shiftl_spec_low by lia. done.
  - replace (Z.testbit 8 n) with false; [by rewrite andb_false_r|].
    symmetry. change 8 with (2 ^ 3). apply Z.pow2_bits_false. lia.
Qed.

Lemma getbit_1st_incbal f :
  AVL_getbit (AVL_incbal f) AVL_FLG_1ST = AVL_getbit f AVL_FLG_1ST.
Proof.
  unfold AVL_incbal. rewrite getbit_1st_wrap8. unfold AVL_getbit.
  apply land8_mod16. change (wrap8 16) with (1 * 16). apply Z_mod_plus_full.
Qed.

Lemma getbit_1st_decbal f :
  AVL_getbit (AVL_decbal f) AVL_FLG_1ST = AVL_getbit f AVL_FLG_1ST.
Proof.
  unfold AVL_decbal. rewrite getbit_1st_wrap8. unfold AVL_getbit.
  apply land8_mod16. change (wrap8 16) with 16.
  replace (f - 16) with (f + (-1) * 16) by lia. apply Z_mod_plus_full.
Qed.

Lemma getbit_1st_setbit f b :
  b = AVL_FLG_USD ∨ b = AVL_FLG_CLN →
  AVL_getbit (AVL_setbit f b) AVL_FLG_1ST = AVL_getbit f AVL_FLG_1ST.
Proof.
  intros Hb. unfold AVL_setbit. rewrite getbit_1st_wrap8. unfold AVL_getbit.
  change (Z.shiftl (wrap8 1) AVL_FLG_1ST) with 8.
  rewrite Z.land_lor_distr_l.
  destruct Hb as [-> | ->]; by rewrite Z.lor_0_r.
Qed.

Lemma getbit_1st_clrbit f b :
  b = AVL_FLG_USD ∨ b = AVL_FLG_CLN →
  AVL_getbit (AVL_clrbit f b) AVL_FLG_1ST = AVL_getbit f AVL_FLG_1ST.
Proof.
  intros Hb. unfold AVL_clrbit. rewrite getbit_1st_wrap8. unfold AVL_getbit.
  change (Z.shiftl (wrap8 1) AVL_FLG_1ST) with 8.
  rewrite <- Z.land_assoc.
  destruct Hb as [-> | ->]; reflexivity.
Qed.

(** ** Cells that stay, with their mark *)

Ltac run_inv :=
  repeat match goal with
  | H : Err _ = Ok _ |- _ => discriminate H
  | H : (?x ≫= _) = Ok _ |- _ =>
      let E := fresh "E" in
      destruct x as [?|?] eqn:E; [rewrite bind_Ok in H | discriminate H]
  | H : (let '(_, _) := ?x in _) = Ok _ |- _ => destruct x
  | H : (match ?x with (_, _) => _ end) = Ok _ |- _ => destruct x
  | H : (if ?c then _ else _) = Ok _ |- _ => destruct c eqn:?
  | H : (match ?p with Some _ => _ | None => _ end) = Ok _ |- _ =>
      destruct p eqn:?
  | H : Ok _ = Ok _ |- _ => injection H as ?; subst
  end.

Ltac first_tac :=
  intros; unfold is_first; simpl;
  rewrite ?getbit_1st_setbal, ?getbit_1st_incbal, ?getbit_1st_decbal;
  rewrite ?getbit_1st_clrbit by auto;
  rewrite ?getbit_1st_setbit by auto;
  rewrite ?getbit_1st_setbal;
  reflexivity.

Section Keeps.

Variables (A U : Type).
Implicit Types (h : gmap nat (AVL_NODE A)) (t : AVL_TREE A U) (m : mem A).

Lemma keeps_refl h : keeps h h.
Proof. intros a. destruct (h !! a) as [c|] eqn:E; [by exists c | done]. Qed.

Lemma keeps_trans h1 h2 h3 : keeps h1 h2 → keeps h2 h3 → keeps h1 h3.
Proof.
  intros H12 H23 a. specialize (H12 a). specialize (H23 a).
  destruct (h1 !! a) as [c1|].
  - destruct H12 as (c2 & E2 & Hf2). rewrite E2 in H23.
    destruct H23 as (c3 & E3 & Hf3). exists c3. split; [done | congruence].
  - by rewrite H12 in H23.
Qed.

Lemma keeps_insert h a c c' :
  h !! a = Some c → is_first c' = is_first c → keeps h (<[a := c']> h).
Proof.
  intros Ha Hf a'. destruct (decide (a' = a)) as [-> | Hne].
  - rewrite Ha, lookup_insert_eq. by exists c'.
  - rewrite lookup_insert_ne by done.
    destruct (h !! a') as [c0|] eqn:E; [by exists c0 | done].
Qed.

Lemma keeps_upd h p (g : AVL_NODE A → AVL_NODE A) h' :
  upd h p g = Ok h' → (∀ c, is_first (g c) = is_first c) → keeps h h'.
Proof.
  unfold upd, load, store. intros Hrun Hg.
  destruct p as [a|]; [|done]. destruct (h !! a) as [c|] eqn:Ha; [|done].
  simpl in Hrun. injection Hrun as <-.
  by apply (keeps_insert h a c).
Qed.

Lemma keeps_is_Some h h' a : keeps h h' → is_Some (h' !! a) ↔ is_Some (h !! a).
Proof.
  intros H. specialize (H a). destruct (h !! a) as [c|].
  - destruct H as (c' & -> & _). split; by eexists.
  - rewrite H. done.
Qed.

Lemma keeps_first h h' a c c' :
  keeps h h' → h !! a = Some c → h' !! a = Some c' → is_first c' = is_first c.
Proof.
  intros H Ha Ha'. specialize (H a). rewrite Ha in H.
  destruct H as (c'' & E & Hf). congruence.
Qed.

End Keeps.

Ltac keeps_step :=
  match goal with
  | |- keeps ?h ?h => apply keeps_refl
  | H : upd ?h _ _ = Ok ?h' |- keeps ?h _ =>
      apply (keeps_trans _ h h');
      [apply (keeps_upd _ _ _ _ _ H); first_tac | clear H]
  end.

Section KeepsInsert.

Variables (A U : Type).
Implicit Types (h : gmap nat (AVL_NODE A)) (t : AVL_TREE A U) (m : mem A).

Lemma insert_setbal_keeps fuel : ∀ t h dd c n h',
  insert_setbal fuel t h dd c n = Ok h' → keeps h h'.
Proof.
  induction fuel as [|fuel IH]; intros t h dd c n h' Hrun; [done|].
  simpl in Hrun. run_inv; try apply keeps_refl.
  all: apply IH in Hrun; repeat keeps_step; exact Hrun.
Qed.

Lemma insert_single_keeps h a b r' c h' :
  insert_single h a b r' = Ok (c, h') → keeps h h'.
Proof. unfold insert_single. intros Hrun. run_inv; repeat keeps_step. Qed.

Lemma insert_double_keeps h a b r' c h' :
  insert_double h a b r' = Ok (c, h') → keeps h h'.
Proof. unfold insert_double. intros Hrun. run_inv; repeat keeps_step. Qed.

Lemma relink_keeps t h p a b t' h' :
  relink t h p a b = Ok (t', h') →
  keeps h h' ∧ freeStack t' = freeStack t ∧ allocAtOnce t' = allocAtOnce t.
Proof.
  unfold relink. intros Hrun. run_inv; (split; [repeat keeps_step | done]).
Qed.

Lemma insert_rebalance_keeps fuel t h dd n b p rot t' h' :
  insert_rebalance fuel t h dd n b p = Ok (rot, t', h') →
  keeps h h' ∧ freeStack t' = freeStack t ∧ allocAtOnce t' = allocAtOnce t.
Proof.
  unfold insert_rebalance. intros Hrun. run_inv.
  all: repeat match goal with
       | H : insert_setbal _ _ _ _ _ _ = Ok _ |- _ =>
           apply insert_setbal_keeps in H
       | H : insert_single _ _ _ _ = Ok _ |- _ =>
           apply insert_single_keeps in H
       | H : insert_double _ _ _ _ = Ok _ |- _ =>
           apply insert_double_keeps in H
       | H : relink _ _ _ _ _ = Ok _ |- _ =>
           apply relink_keeps in H as (? & ? & ?)
       end.
  all: split; [|done].
  all: repeat first [ keeps_step
                    | match goal with
                      | H : keeps ?h ?h' |- keeps ?h _ =>
                          apply (keeps_trans _ h h'); [exact H | clear H]
                      end ].
Qed.

Lemma keeps_store h p (c n : AVL_NODE A) h' :
  load h p = Ok c → store h p n = Ok h' → is_first n = is_first c →
  keeps h h'.
Proof.
  unfold load, store. intros Hl Hs Hf.
  destruct p as [a|]; [|done]. destruct (h !! a) as [c0|] eqn:Ha; [|done].
  injection Hl as ->. injection Hs as <-. by apply (keeps_insert _ h a c).
Qed.

Lemma newNode_pop_keeps t m n t' m' :
  newNode_pop t m = Ok (n, t', m') →
  keeps (cells m) (cells m') ∧ blocks m' = blocks m ∧ oracle m' = oracle m
  ∧ allocAtOnce t' = allocAtOnce t.
Proof.
  unfold newNode_pop. intros Hrun. run_inv; [|by split; [apply keeps_refl|]].
  split; [|done]. simpl.
  match goal with
  | Hl : load _ _ = Ok _, Hs : store _ _ _ = Ok _ |- _ =>
      apply (keeps_store _ _ _ _ _ Hl Hs)
  end.
  first_tac.
Qed.

(** The search loop of [AVL_insert] writes nothing before it calls
    [AVL_newNode]. *)
Lemma insert_search_keeps fuel : ∀ t m dd c b p rc n b' p' t' m',
  insert_search fuel t m dd c b p = Ok (rc, n, b', p', t', m') →
  (n = None ∧ rc = 1 ∧ t' = t ∧ m' = m)
  ∨ ∃ t1 m1,
      newNode_refill t m = Ok (t1, m1)
      ∧ keeps (cells m1) (cells m')
      ∧ blocks m' = blocks m1 ∧ oracle m' = oracle m1
      ∧ allocAtOnce t' = allocAtOnce t1.
Proof.
  induction fuel as [|fuel IH]; intros t m dd c b p rc n b' p' t' m' Hrun;
    [done|].
  simpl in Hrun. unfold AVL_newNode in Hrun. run_inv; auto.
  all: try (by eapply IH).
  all: right;
    match goal with
    | H : newNode_refill _ _ = Ok (?t1, ?m1) |- _ => exists t1, m1
    end;
    match goal with
    | H : newNode_pop _ _ = Ok _ |- _ =>
        apply newNode_pop_keeps in H as (Hk & Hb & Ho & Ha)
    end;
    (split; [done|]); simpl; split_and!; try done.
  all: apply (keeps_trans _ _ _ _ Hk); repeat keeps_step.
Qed.

Lemma insert_keeps fuel t m k rc t' m' :
  AVL_insert fuel t m k = Ok (rc, t', m') →
  (rc = 1 ∧ t' = t ∧ m' = m)
  ∨ ∃ t1 m1,
      newNode_refill t m = Ok (t1, m1)
      ∧ keeps (cells m1) (cells m')
      ∧ blocks m' = blocks m1 ∧ oracle m' = oracle m1
      ∧ allocAtOnce t' = allocAtOnce t1.
Proof.
  unfold AVL_insert, AVL_insert_rot, AVL_newNode. intros Hrun. run_inv.
  all: repeat match goal with
       | H : insert_search _ _ _ _ _ _ _ = Ok _ |- _ =>
           apply insert_search_keeps in H
             as [(? & -> & -> & ->) | (? & ? & Hre & Hk1 & Hb1 & Ho1 & Ha1)]
       | H : insert_rebalance _ _ _ _ _ _ _ = Ok _ |- _ =>
           apply insert_rebalance_keeps in H as (Hk2 & Hf2 & Ha2)
       | H : newNode_pop _ _ = Ok _ |- _ =>
           apply newNode_pop_keeps in H as (Hk & Hb & Ho & Ha)
       end.
  all: try discriminate.
  all: try (by left).
  all: right.
  all: eexists _, _; (split; [first [exact Hre | reflexivity]|]); simpl;
    split_and!; try done; try congruence.
  all: first [ exact Hk1
             | by apply (keeps_trans _ _ _ _ Hk1)
             | apply (keeps_trans _ _ _ _ Hk); repeat keeps_step ].
Qed.

End KeepsInsert.

Ltac keeps_sub :=
  repeat match goal with
  | H : relink _ _ _ _ _ = Ok _ |- _ =>
      apply relink_keeps in H as (? & ? & ?)
  end.

Ltac keeps_chain :=
  repeat first [ keeps_step
               | match goal with
                 | H : keeps ?h ?h' |- keeps ?h _ =>
                     apply (keeps_trans _ h h'); [exact H | clear H]
                 end ].

Section KeepsDelete.

Variables (A U : Type).
Implicit Types (h : gmap nat (AVL_NODE A)) (t : AVL_TREE A U) (m : mem A).

Lemma delete_detach_keeps h c p s hh h' :
  delete_detach h c p s = Ok (hh, h') → keeps h h'.
Proof. unfold delete_detach. intros Hrun. run_inv; keeps_chain. Qed.

Lemma delete_replace_keeps t h stack cpos c sc sp stack' t' h' :
  delete_replace t h stack cpos c sc sp = Ok (stack', t', h') →
  keeps h h' ∧ freeStack t' = freeStack t ∧ allocAtOnce t' = allocAtOnce t.
Proof.
  unfold delete_replace. intros Hrun. run_inv. keeps_sub.
  split; [keeps_chain | done].
Qed.

Lemma delete_unlink_keeps fuel t h stack top c p hh c' stack' top' t' h' :
  delete_unlink fuel t h stack top c p = Ok (hh, c', stack', top', t', h') →
  keeps h h' ∧ freeStack t' = freeStack t ∧ allocAtOnce t' = allocAtOnce t.
Proof.
  unfold delete_unlink. intros Hrun. run_inv.
  all: repeat match goal with
       | H : delete_detach _ _ _ _ = Ok _ |- _ =>
           apply delete_detach_keeps in H
       | H : delete_replace _ _ _ _ _ _ _ = Ok _ |- _ =>
           apply delete_replace_keeps in H as (? & ? & ?)
       end.
  all: split; [keeps_chain | done].
Qed.

Lemma delete_rotate_r_keeps t h a p hh b t' h' :
  delete_rotate_r t h a p = Ok (hh, b, t', h') →
  keeps h h' ∧ freeStack t' = freeStack t ∧ allocAtOnce t' = allocAtOnce t.
Proof.
  unfold delete_rotate_r. intros Hrun. run_inv; keeps_sub.
  all: split; [keeps_chain | done].
Qed.

Lemma delete_rotate_l_keeps t h a p hh b t' h' :
  delete_rotate_l t h a p = Ok (hh, b, t', h') →
  keeps h h' ∧ freeStack t' = freeStack t ∧ allocAtOnce t' = allocAtOnce t.
Proof.
  unfold delete_rotate_l. intros Hrun. run_inv; keeps_sub.
  all: split; [keeps_chain | done].
Qed.

Lemma delete_rotate_keeps t h a p hh0 hh b t' h' :
  delete_rotate t h a p hh0 = Ok (hh, b, t', h') →
  keeps h h' ∧ freeStack t' = freeStack t ∧ allocAtOnce t' = allocAtOnce t.
Proof.
  unfold delete_rotate. intros Hrun. run_inv.
  - by eapply delete_rotate_r_keeps.
  - by eapply delete_rotate_l_keeps.
  - split; [apply keeps_refl | done].
Qed.

Lemma delete_propagate_keeps h a p hh0 hh h' :
  delete_propagate h a p hh0 = Ok (hh, h') → keeps h h'.
Proof. unfold delete_propagate. intros Hrun. run_inv; keeps_chain. Qed.

Lemma delete_rebalance_keeps (n : nat) : ∀ t h stack hh0 hh t' h',
  delete_rebalance n t h stack hh0 = Ok (hh, t', h') →
  keeps h h' ∧ freeStack t' = freeStack t ∧ allocAtOnce t' = allocAtOnce t.
Proof.
  induction n as [|n IH]; intros t h stack hh0 hh t' h' Hrun; simpl in Hrun.
  - injection Hrun as <- <- <-. split; [apply keeps_refl | done].
  - run_inv.
    all: repeat match goal with
         | H : delete_rotate _ _ _ _ _ = Ok _ |- _ =>
             apply delete_rotate_keeps in H as (? & ? & ?)
         | H : delete_propagate _ _ _ _ = Ok _ |- _ =>
             apply delete_propagate_keeps in H
         | H : delete_rebalance _ _ _ _ _ = Ok _ |- _ =>
             apply IH in H as (? & ? & ?)
         end.
    all: split; [keeps_chain | split; congruence].
Qed.

Lemma delete_keeps fuel t m k dd t' m' :
  AVL_delete fuel t m k = Ok (dd, t', m') →
  keeps (cells m) (cells m') ∧ blocks m' = blocks m ∧ oracle m' = oracle m
  ∧ allocAtOnce t' = allocAtOnce t.
Proof.
  unfold AVL_delete. intros Hrun. run_inv.
  all: try (split; [apply keeps_refl | done]).
  all: repeat match goal with
       | H : delete_unlink _ _ _ _ _ _ _ = Ok _ |- _ =>
           apply delete_unlink_keeps in H as (? & ? & ?)
       | H : delete_rebalance _ _ _ _ _ = Ok _ |- _ =>
           apply delete_rebalance_keeps in H as (? & ? & ?)
       end.
  all: simpl in *; split;
    [keeps_chain | split_and!; try done; repeat case_match; simpl; congruence].
Qed.

End KeepsDelete.

(** ** From the cells to the layout *)

Section Layout.

Variables (A U : Type).
Implicit Types (h : gmap nat (AVL_NODE A)) (t : AVL_TREE A U) (m : mem A).
Implicit Types (s tr : tree A).

Lemma length_addrs s : length (addrs s) = count s.
Proof.
  induction s as [|a tl IHl b fl x tr IHr]; [done|].
  simpl. rewrite length_app. lia.
Qed.

(** With the layout, every cell is a node of the tree or on the free
    stack. *)
Lemma Slabs_tight t m tr fs a :
  Slabs t m fs → no_leak (cells m) tr →
  is_Some (cells m !! a) → a ∈ addrs tr ∨ a ∈ fs.
Proof.
  intros Hsl Hleak [c Hc]. destruct (in_use c) eqn:Hu.
  - left. by apply (Hleak a c).
  - right. by apply (sl_free Hsl a c).
Qed.

Lemma free_cell_not_used h p fs a c :
  free_list h p fs → a ∈ fs → h !! a = Some c →
  in_use c = false ∧ wf_flag (f c).
Proof.
  intros Hfree Ha Hc.
  destruct (free_list_cell _ _ _ _ _ Hfree Ha)
    as (pl & nxt & b & fl & dd & Hc' & Hb & Hfl).
  rewrite Hc in Hc'. injection Hc' as ->.
  destruct (wf_free_fl b fl Hb Hfl) as [Hwf Hbit].
  unfold in_use. simpl. by rewrite Hbit.
Qed.

(** The blocks, the marks of the first cells, and the fact that every
    cell is a node of the tree or on the free stack, make the layout. *)
Lemma Slabs_intro t m tr fs :
  Inv t m tr fs →
  allocAtOnce t ≤ INT_MAX →
  (∀ q n, blocks m !! q = Some n → n = Z.to_nat (allocAtOnce t)) →
  (∀ q n i, blocks m !! q = Some n → (i < n)%nat →
            is_Some (cells m !! (q + i)%nat)) →
  (∀ a, is_Some (cells m !! a) →
        ∃ q n, blocks m !! q = Some n ∧ (q ≤ a < q + n)%nat) →
  (∀ q q' n n' a,
     blocks m !! q = Some n → blocks m !! q' = Some n' →
     (q ≤ a < q + n)%nat → (q' ≤ a < q' + n')%nat → q = q') →
  (∀ a c, cells m !! a = Some c →
          is_first c = true ↔ is_Some (blocks m !! a)) →
  (∀ a, is_Some (cells m !! a) → a ∈ addrs tr ∨ a ∈ fs) →
  Slabs t m fs ∧ no_leak (cells m) tr.
Proof.
  intros HI Hmax Hsize Hcells Hcover Hdisj Hfirst Htight.
  destruct HI as [[Htop Hrep Hfree Hnd Hfl Hal] _ _ _ _].
  assert (∀ a c, cells m !! a = Some c →
            (a ∈ addrs tr ∧ in_use c = true ∧ wf_flag (f c))
            ∨ (a ∈ fs ∧ in_use c = false ∧ wf_flag (f c))) as Hcase.
  { intros a c Hc. destruct (Htight a ltac:(by eexists)) as [Ha | Ha].
    - left. destruct (rep_cell_used _ _ _ _ Hrep Hfl Ha) as (c' & Hc' & Hu & Hwf).
      rewrite Hc in Hc'. injection Hc' as <-. done.
    - right. split; [done|]. by apply (free_cell_not_used _ _ _ _ _ Hfree Ha). }
  split; [split; try done|].
  - intros a c Hc. by destruct (Hcase a c Hc) as [(_ & _ & ?) | (_ & _ & ?)].
  - intros a c Hc Hu.
    destruct (Hcase a c Hc) as [(_ & Hu' & _) | (? & _ & _)]; [congruence | done].
  - intros a c Hc Hu.
    destruct (Hcase a c Hc) as [(? & _ & _) | (_ & Hu' & _)]; [done | congruence].
Qed.

(** Counting: a valid state whose cells all lie in a list without
    repetition that is no longer than tree and free stack together. *)
Lemma tight_count t m tr fs (L : list nat) :
  Inv t m tr fs → NoDup L →
  (∀ a, is_Some (cells m !! a) → a ∈ L) →
  (length L ≤ count tr + length fs)%nat →
  ∀ a, is_Some (cells m !! a) → a ∈ addrs tr ∨ a ∈ fs.
Proof.
  intros [[Htop Hrep Hfree Hnd Hfl Hal] _ _ _ _] HndL Hin Hlen a Ha.
  assert (addrs tr ++ fs ≡ₚ L) as Hperm.
  { apply submseteq_length_Permutation.
    - apply NoDup_submseteq; [done|]. intros x Hx. apply Hin.
      apply elem_of_app in Hx as [Hx | Hx].
      + by eapply rep_is_Some.
      + by eapply free_list_is_Some.
    - by rewrite length_app, length_addrs. }
  apply elem_of_app. rewrite Hperm. by apply Hin.
Qed.

(** The layout goes over to a state with the same blocks whose cells
    are those of the old state, with their marks of a first cell. *)
Lemma layout_keeps t m fs t' m' tr' fs' :
  Slabs t m fs → keeps (cells m) (cells m') → blocks m' = blocks m →
  allocAtOnce t' = allocAtOnce t →
  Inv t' m' tr' fs' →
  (∀ a, is_Some (cells m' !! a) → a ∈ addrs tr' ∨ a ∈ fs') →
  Slabs t' m' fs' ∧ no_leak (cells m') tr'.
Proof.
  intros Hsl Hk Hb Ha HI Htight.
  apply Slabs_intro; try done.
  - rewrite Ha. apply (sl_max Hsl).
  - rewrite Hb, Ha. apply (sl_size Hsl).
  - rewrite Hb. intros q n i Hq Hi.
    apply (keeps_is_Some _ _ _ _ Hk). by apply (sl_cells Hsl q n).
  - rewrite Hb. intros a Hs. apply (sl_cover Hsl).
    by apply (keeps_is_Some _ _ _ _ Hk).
  - rewrite Hb. apply (sl_disj Hsl).
  - rewrite Hb. intros a c' Hc'.
    destruct (proj1 (keeps_is_Some _ _ _ a Hk) ltac:(by eexists)) as [c Hc].
    rewrite (keeps_first _ _ _ _ _ _ Hk Hc Hc'). by apply (sl_first Hsl).
Qed.

(** *** [AVL_delete] *)

Lemma delete_layout t m tr fs k fuel dd t' m' :
  Inv t m tr fs → Slabs t m fs → no_leak (cells m) tr →
  (hgt tr < fuel)%nat →
  AVL_delete fuel t m k = Ok (dd, t', m') →
  ∃ tr' fs', Inv t' m' tr' fs' ∧ Slabs t' m' fs' ∧ no_leak (cells m') tr'.
Proof.
  intros HI Hsl Hleak Hfuel Hrun.
  pose proof (Inv_height_bound _ _ _ _ _ _ HI) as Hh.
  pose proof (delete_ok _ _ t m tr fs k fuel HI
                ltac:(unfold AVL_MAX_DEPTH; lia) Hfuel) as Hok.
  destruct (del_path (cmp_of t) k [] tr) as [[C s]|].
  2:{ rewrite Hrun in Hok. injection Hok as _ <- <-. by exists tr, fs. }
  destruct Hok as (a & tl & b & fl & x & tr1 & hh & tr' & t2 & m2 & -> & Htr
                   & _ & _ & Hrun' & HI' & Hin & _ & _ & _ & _ & _).
  rewrite Hrun in Hrun'. injection Hrun' as _ <- <-.
  destruct (delete_keeps _ _ _ _ _ _ _ _ _ Hrun) as (Hk & Hb & Ho & Ha).
  exists tr', (a :: fs). split; [done|].
  apply (layout_keeps t m fs); try done.
  apply (tight_count t' m' tr' (a :: fs) (addrs tr ++ fs) HI').
  - by destruct HI as [[]].
  - intros y Hy. apply elem_of_app. apply (Slabs_tight t m tr fs y Hsl Hleak).
    by apply (keeps_is_Some _ _ _ _ Hk).
  - rewrite length_app, length_addrs. simpl.
    rewrite <- !count_inorder, Hin, Htr, inorder_plug. simpl.
    rewrite !length_app. simpl. lia.
Qed.

End Layout.

(** ** A fresh block *)

Section Refill.

Variables (A U : Type).
Implicit Types (h : gmap nat (AVL_NODE A)) (t : AVL_TREE A U) (m : mem A).
Implicit Types (s tr : tree A).

Lemma upd_inv h a (g : AVL_NODE A → AVL_NODE A) h' :
  upd h (Some a) g = Ok h' → ∃ c, h !! a = Some c ∧ h' = <[a := g c]> h.
Proof.
  unfold upd, load, store. destruct (h !! a) as [c|] eqn:Ha; [|done].
  simpl. intros [= <-]. by exists c.
Qed.

(** The loop that stacks the cells of the block clears their flags. *)
Lemma newNode_push_flags todo : ∀ i base t h t' h',
  newNode_push todo i base t h = Ok (t', h') →
  (∀ a, (base + i ≤ a < base + i + todo)%nat →
        ∃ c, h' !! a = Some c ∧ f c = 0)
  ∧ (∀ a, ¬ (base + i ≤ a < base + i + todo)%nat → h' !! a = h !! a)
  ∧ allocAtOnce t' = allocAtOnce t.
Proof.
  induction todo as [|todo IH]; intros i base t h t' h' Hrun; simpl in Hrun.
  - injection Hrun as <- <-. split; [intros; lia | done].
  - run_inv.
    match goal with
    | H1 : upd h _ _ = Ok ?h1, H2 : upd ?h1 _ _ = Ok ?h2 |- _ =>
        apply upd_inv in H1 as (c1 & Hc1 & ->);
        apply upd_inv in H2 as (c2 & Hc2 & ->)
    end.
    rewrite lookup_insert_eq in Hc2. injection Hc2 as <-.
    apply IH in Hrun as (Hnew & Hold & Ha).
    split; [|split; [|done]].
    + intros a Ha'. destruct (decide (a = base + i)%nat) as [-> | Hne].
      * rewrite Hold by lia. rewrite lookup_insert_eq. by eexists.
      * apply Hnew. lia.
    + intros a Ha'. rewrite Hold by lia.
      rewrite !lookup_insert_ne by lia. done.
Qed.

(** The cells and the blocks after [AVL_newNode] has fetched a block. *)
Lemma refill_cells t m o t1 m1 :
  freeStack t = None → oracle m = true :: o →
  newNode_refill t m = Ok (t1, m1) →
  let base := fresh_base (cells m) in
  let N := Z.to_nat (allocAtOnce t) in
  blocks m1 = <[base := N]> (blocks m)
  ∧ allocAtOnce t1 = allocAtOnce t
  ∧ (∀ a, (base ≤ a < base + N)%nat →
          ∃ c, cells m1 !! a = Some c
               ∧ f c = (if decide (a = base) then 8 else 0))
  ∧ (∀ a, ¬ (base ≤ a < base + N)%nat → cells m1 !! a = cells m !! a).
Proof.
  intros Hfs Ho Hrun base N. unfold newNode_refill, malloc in Hrun.
  rewrite Hfs, Ho in Hrun. fold base N in Hrun.
  assert (cells m !! base = None) as Hfresh.
  { pose proof (fresh_base_None _ (cells m) 0) as Hn.
    by rewrite Nat.add_0_r in Hn. }
  clearbody base N. run_inv. simpl.
  match goal with
  | H : newNode_push _ _ _ _ _ = Ok _ |- _ =>
      apply newNode_push_flags in H as (Hnew & Hold & Ha)
  end.
  match goal with
  | H : upd _ _ _ = Ok _ |- _ => apply upd_inv in H as (c0 & Hc0 & ->)
  end.
  replace (base + 0)%nat with base in * by lia.
  split; [done|]. split; [done|]. split.
  - intros a Ha'. destruct (decide (a = base)) as [-> | Hne].
    + rewrite lookup_insert_eq. eexists. split; [done|]. simpl.
      destruct (Hnew base ltac:(lia)) as (c & Hc & Hf).
      rewrite Hc0 in Hc. injection Hc as <-. by rewrite Hf.
    + rewrite lookup_insert_ne by done. by apply Hnew.
  - intros a Ha'. destruct (decide (a = base)) as [-> | Hne].
    + (* the block is empty: the assignment to its first cell fails *)
      rewrite Hold in Hc0 by lia. simpl in Hc0.
      rewrite fill_block_lookup in Hc0.
      rewrite decide_False in Hc0 by lia. congruence.
    + rewrite lookup_insert_ne by done. rewrite Hold by lia.
      simpl. rewrite fill_block_lookup. by rewrite decide_False by lia.
Qed.

Lemma below_fresh_base h a : is_Some (h !! a) → (a < fresh_base h)%nat.
Proof.
  intros [c Hc]. destruct (decide (a < fresh_base h)%nat); [done|].
  pose proof (fresh_base_None _ h (a - fresh_base h)) as Hn.
  replace (fresh_base h + (a - fresh_base h))%nat with a in Hn by lia.
  congruence.
Qed.

(** The layout with the fresh block. *)
Lemma refill_layout t m tr o t1 m1 :
  Inv t m tr [] → Slabs t m [] → no_leak (cells m) tr →
  oracle m = true :: o →
  newNode_refill t m = Ok (t1, m1) →
  let base := fresh_base (cells m) in
  let N := Z.to_nat (allocAtOnce t) in
  allocAtOnce t1 = allocAtOnce t
  ∧ blocks m1 = <[base := N]> (blocks m)
  ∧ Slabs t1 m1 (reverse (seq base N))
  ∧ (∀ a, a ∈ addrs tr → (a < base)%nat)
  ∧ (∀ a, is_Some (cells m1 !! a) → a ∈ addrs tr ∨ a ∈ seq base N).
Proof.
  intros HI Hsl Hleak Ho Hrun base N.
  assert (freeStack t = None) as Hfs.
  { destruct HI as [[_ _ Hfree _ _ _] _ _ _ _]. exact Hfree. }
  assert (1 ≤ allocAtOnce t) as Hal by (by destruct HI as [[]]).
  assert (1 ≤ N)%nat as HN by (unfold N; lia).
  destruct (refill_cells t m o t1 m1 Hfs Ho Hrun) as (Hb & Ha & Hnew & Hold).
  fold base N in Hb, Hnew, Hold.
  assert (∀ a, is_Some (cells m !! a) → (a < base)%nat) as Hlow
    by (intros a Hs; by apply below_fresh_base).
  assert (∀ q n, blocks m !! q = Some n → n = N ∧ (q + n ≤ base)%nat) as Hblk.
  { intros q n Hq. pose proof (sl_size Hsl q n Hq) as ->. split; [done|].
    fold N. fold N in Hq.
    pose proof (Hlow _ (sl_cells Hsl q N (N - 1)%nat Hq ltac:(lia))). lia. }
  assert (∀ a, a ∈ addrs tr → (a < base)%nat) as Htree.
  { intros a Hin. apply Hlow. destruct HI as [[_ Hrep _ _ _ _] _ _ _ _].
    by eapply rep_is_Some. }
  assert (∀ a, is_Some (cells m1 !! a) →
               (base ≤ a < base + N)%nat ∨ (a < base ∧ is_Some (cells m !! a))%nat)
    as Hdom.
  { intros a Hs. destruct (decide (base ≤ a < base + N)%nat); [by left|].
    right. rewrite Hold in Hs by done. split; [by apply Hlow | done]. }
  split; [done|]. split; [done|]. split; [|split; [done|]].
  - split.
    + rewrite Ha. apply (sl_max Hsl).
    + rewrite Hb, Ha. intros q n Hq.
      destruct (decide (q = base)) as [-> | Hne].
      * rewrite lookup_insert_eq in Hq. by injection Hq as <-.
      * rewrite lookup_insert_ne in Hq by done. by apply (sl_size Hsl q).
    + rewrite Hb. intros q n i Hq Hi.
      destruct (decide (q = base)) as [-> | Hne].
      * rewrite lookup_insert_eq in Hq. injection Hq as <-.
        destruct (Hnew (base + i)%nat ltac:(lia)) as (c & Hc & _). by eexists.
      * rewrite lookup_insert_ne in Hq by done.
        destruct (Hblk q n Hq) as [-> Hle].
        rewrite Hold by lia. by apply (sl_cells Hsl q N).
    + rewrite Hb. intros a Hs. destruct (Hdom a Hs) as [Hr | [Hlt Hs']].
      * exists base, N. by rewrite lookup_insert_eq.
      * destruct (sl_cover Hsl a Hs') as (q & n & Hq & Hr).
        exists q, n. split; [|done]. rewrite lookup_insert_ne; [done|].
        destruct (Hblk q n Hq). lia.
    + rewrite Hb. intros q q' n n' a Hq Hq' Hr Hr'.
      destruct (decide (q = base)) as [-> | Hne];
        destruct (decide (q' = base)) as [-> | Hne']; [done | | |].
      * rewrite lookup_insert_ne in Hq' by done.
        destruct (Hblk q' n' Hq'). lia.
      * rewrite lookup_insert_ne in Hq by done.
        destruct (Hblk q n Hq). lia.
      * rewrite lookup_insert_ne in Hq, Hq' by done.
        by apply (sl_disj Hsl q q' n n' a).
    + rewrite Hb. intros a c Hc.
      destruct (Hdom a ltac:(by eexists)) as [Hr | [Hlt Hs']].
      * destruct (Hnew a Hr) as (c' & Hc' & Hf).
        rewrite Hc in Hc'. injection Hc' as <-.
        unfold is_first. rewrite Hf.
        destruct (decide (a = base)) as [-> | Hne].
        -- rewrite lookup_insert_eq. split; [by eexists | done].
        -- rewrite lookup_insert_ne by done. split; [done|].
           intros [n Hq]. destruct (Hblk a n Hq). lia.
      * rewrite Hold in Hc by lia.
        rewrite lookup_insert_ne by lia. by apply (sl_first Hsl).
    + intros a c Hc.
      destruct (Hdom a ltac:(by eexists)) as [Hr | [Hlt Hs']].
      * destruct (Hnew a Hr) as (c' & Hc' & Hf).
        rewrite Hc in Hc'. injection Hc' as <-. rewrite Hf.
        destruct (decide (a = base)).
        -- exists (-2), 8. split; [done|]. split; [lia|]. right. by right.
        -- exists (-2), 0. split; [done|]. split; [lia|]. right. by left.
      * rewrite Hold in Hc by lia. by apply (sl_flags Hsl a).
    + intros a c Hc Hu. rewrite elem_of_reverse, elem_of_seq.
      destruct (Hdom a ltac:(by eexists)) as [Hr | [Hlt Hs']]; [done|].
      rewrite Hold in Hc by lia.
      pose proof (sl_free Hsl a c Hc Hu) as Hin. by apply elem_of_nil in Hin.
  - intros a Hs. destruct (Hdom a Hs) as [Hr | [Hlt Hs']].
    + right. by apply elem_of_seq.
    + left. destruct (Slabs_tight _ _ t m tr [] a Hsl Hleak Hs') as [? | Hin];
        [done | by apply elem_of_nil in Hin].
Qed.

End Refill.

(** ** [AVL_insert] *)

Section InsertLayout.

Variables (A U : Type).
Implicit Types (h : gmap nat (AVL_NODE A)) (t : AVL_TREE A U) (m : mem A).
Implicit Types (s tr : tree A).

Lemma Slabs_cells t m m' fs :
  Slabs t m fs → cells m' = cells m → blocks m' = blocks m → Slabs t m' fs.
Proof.
  intros [H1 H2 H3 H4 H5 H6 H7 H8] Hc Hb.
  split; rewrite ?Hc, ?Hb; done.
Qed.

Lemma insert_layout t m tr fs k fuel rc t0 m0 :
  Inv t m tr fs → Slabs t m fs → no_leak (cells m) tr →
  size t < INT_MAX → (hgt tr < fuel)%nat →
  AVL_insert fuel t m k = Ok (rc, t0, m0) →
  ∃ tr' fs', Inv t0 m0 tr' fs' ∧ Slabs t0 m0 fs' ∧ no_leak (cells m0) tr'.
Proof.
  intros HI Hsl Hleak Hsz Hfuel Hrun.
  pose proof (insert_ok_fs _ _ t m tr fs k fuel HI Hsz Hfuel) as Hok.
  pose proof (insert_keeps _ _ _ _ _ _ _ _ _ Hrun) as Hkeeps.
  unfold AVL_insert in Hrun.
  destruct (AVL_insert_rot fuel t m k) as [[[[rc1 rot1] t1] m1]|] eqn:Hrot;
    [|done].
  simpl in Hrun. injection Hrun as -> -> ->.
  destruct (ins_path (cmp_of t) k [] tr) as [Cf|].
  2:{ injection Hok as _ _ -> ->. by exists tr, fs. }
  destruct Hok as (Htr & Hpath & [(m2 & Hrun2 & Hc & Hb & _) | Hyes]).
  { injection Hrun2 as _ _ -> ->. exists tr, fs.
    split; [by apply (Inv_cells _ _ t m)|].
    split; [by apply (Slabs_cells t m)|]. by rewrite Hc. }
  destruct Hyes as (n & fl & rot & dh & tr' & t' & m' & fs' & Hrun2 & Hins & HI'
                    & Hin & _ & _ & Ha & Ho & Hpop).
  injection Hrun2 as -> _ -> ->.
  destruct Hkeeps as [(Hrc & _) | (t1 & m1 & Hre & Hk & Hb & Ho1 & Ha1)]; [done|].
  exists tr', fs'. split; [done|].
  assert (count tr' = S (count tr)) as Hcount.
  { rewrite <- !count_inorder, Hin, Htr, inorder_plug. simpl.
    rewrite !length_app. simpl. lia. }
  pose proof HI as [[_ Hrep Hfree Hnd _ _] _ _ _ _].
  destruct fs as [|a0 fs0].
  - (* a fresh block *)
    destruct Ho as [Ho | Ho]; [done|].
    destruct (oracle m) as [|[|] o] eqn:Hor; try done.
    destruct (refill_layout _ _ t m tr o t1 m1 HI Hsl Hleak Hor Hre)
      as (Ha1' & Hb1 & Hsl1 & Htree & Hdom1).
    simpl in Hpop.
    set (base := fresh_base (cells m)) in *.
    set (N := Z.to_nat (allocAtOnce t)) in *.
    apply (layout_keeps _ _ t1 m1 (reverse (seq base N))); try done.
    apply (tight_count _ _ t' m' tr' fs' (addrs tr ++ seq base N) HI').
    + apply NoDup_app. split; [by apply NoDup_app in Hnd as (? & _)|].
      split; [|apply NoDup_seq].
      intros x Hx. rewrite elem_of_seq. apply Htree in Hx. lia.
    + intros x Hx. apply elem_of_app. apply Hdom1.
      by apply (keeps_is_Some _ _ _ _ Hk).
    + rewrite length_app, length_addrs, length_seq, Hcount.
      assert (length (reverse (seq base N)) = length (n :: fs')) as Hl
        by by rewrite Hpop.
      rewrite length_reverse, length_seq in Hl. simpl in Hl. lia.
  - (* a cell of the free stack *)
    assert (freeStack t = Some a0) as Hfs by (simpl in Hfree; tauto).
    unfold newNode_refill in Hre. rewrite Hfs in Hre. injection Hre as <- <-.
    simpl in Hpop. injection Hpop as -> ->.
    apply (layout_keeps _ _ t m (n :: fs')); try done.
    apply (tight_count _ _ t' m' tr' fs' (addrs tr ++ n :: fs') HI').
    + done.
    + intros x Hx. apply elem_of_app.
      apply (Slabs_tight _ _ t m tr (n :: fs') x Hsl Hleak).
      by apply (keeps_is_Some _ _ _ _ Hk).
    + rewrite length_app, length_addrs, Hcount. simpl. lia.
Qed.

End InsertLayout.


(** * The depth limit of the traversals, and the shape after an insert *)

Section Limits.

Variables (A U : Type).
Implicit Types (h : gmap nat (AVL_NODE A)) (t : AVL_TREE A U) (m : mem A).
Implicit Types (s tr : tree A) (stack : list ptr) (C : list (frame A)).

Local Arguments walk_loop : simpl never.

Lemma left_spine_le_hgt s : (left_spine s ≤ hgt s)%nat.
Proof. induction s as [|a tl IHl b fl x tr _]; simpl; lia. Qed.

Lemma first_path_le_hgt s : (first_path s ≤ hgt s)%nat.
Proof.
  induction s as [|a tl IHl b fl x tr IHr]; [done|].
  cbn [first_path hgt]. destruct tl; lia.
Qed.

(** ** [AVL_walk] on a long leftmost path *)

(** The loop on its way down the leftmost path, [n] steps before its
    stack holds [AVL_MAX_DEPTH]-1 entries: it goes down [n] times, makes
    no call of the callback, and ends. *)
Lemma walk_left_spine h : ∀ (n : nat) s a pe stack k acc fuel,
  rep h s → NoDup (addrs s) → root s = Some a →
  stack !! k = Some pe → length stack = AVL_MAX_DEPTH →
  (S k + S n = AVL_MAX_DEPTH - 1)%nat → (S n < left_spine s)%nat →
  (n < fuel)%nat →
  walk_loop fuel h (Some a) pe stack (S k) acc = Ok acc.
Proof.
  induction n as [|n IH];
    intros s a pe stack k acc fuel Hrep Hnd Hroot Hst Hlen Hk Hsp Hf.
  all: destruct fuel as [|fuel]; [lia|].
  all: destruct s as [|a0 tl b fl x tr]; [done|].
  all: injection Hroot as ->.
  all: destruct tl as [|al tll bl fll xl tlr] eqn:Htl; [simpl in Hsp; lia|].
  all: rewrite <- Htl in *.
  all: destruct Hrep as (Ha & Hl & Hr).
  all: assert (a ∉ addrs tl) as Hnotin
      by (simpl in Hnd; apply NoDup_cons in Hnd as [Hn _];
          intros Hin; apply Hn; apply elem_of_app; by left).
  all: assert (root tl = Some al) as Hrl by (by rewrite Htl).
  all: destruct (child_ptr_ne _ h tl a al Hl Hnotin Hrl) as (nc & Hnc & Hlc & Hrc).
  all: rewrite walk_loop_S; unfold walk_body, walk_down, walk_visit, walk_up.
  all: rewrite (stack_get_Some _ _ _ Hst); simpl.
  all: rewrite ptr_eqb_refl, (load_Some _ _ _ Ha); simpl.
  all: rewrite Hrl.
  all: rewrite stack_set_lt by (rewrite Hlen; unfold AVL_MAX_DEPTH in *; lia).
  all: simpl; rewrite (load_Some _ _ _ Hnc); simpl.
  all: rewrite (ptr_eqb_ne (Some a) (l nc)) by congruence; simpl.
  all: rewrite (load_Some _ _ _ Hnc); simpl.
  all: rewrite (ptr_eqb_ne (Some a) (r nc)) by congruence; simpl.
  - unfold walk_continue.
    replace (S (S k) <? AVL_MAX_DEPTH - 1)%nat with false
      by (symmetry; apply Nat.ltb_ge; lia).
    by rewrite andb_false_r.
  - rewrite walk_continue_true by (unfold AVL_MAX_DEPTH in *; lia).
    apply (IH tl).
    + done.
    + simpl in Hnd. apply NoDup_cons in Hnd as [_ Hnd].
      by apply NoDup_app in Hnd as [Hnd _].
    + done.
    + apply list_lookup_insert_eq. rewrite Hlen. unfold AVL_MAX_DEPTH in *. lia.
    + by rewrite length_insert.
    + lia.
    + simpl in Hsp. lia.
    + lia.
Qed.

(** On a tree whose leftmost path has [AVL_MAX_DEPTH]-1 nodes or more,
    [AVL_walk] returns without a call of the callback. *)
Lemma walk_too_deep t m tr fuel :
  rep (cells m) tr → NoDup (addrs tr) → top t = root tr →
  (AVL_MAX_DEPTH - 1 ≤ left_spine tr)%nat → (AVL_MAX_DEPTH ≤ fuel)%nat →
  AVL_walk fuel t m = Ok [].
Proof.
  intros Hrep Hnd Htop Hsp Hf. unfold AVL_walk. rewrite Htop.
  destruct tr as [|a tl b fl x tr1] eqn:Htr; [done|]. rewrite <- Htr in *.
  assert (root tr = Some a) as Hroot by (by rewrite Htr).
  rewrite Hroot.
  rewrite stack_set_lt
    by (unfold stack_init; rewrite length_replicate; unfold AVL_MAX_DEPTH; lia).
  simpl.
  apply (walk_left_spine (cells m) 61 tr).
  - done.
  - done.
  - done.
  - reflexivity.
  - reflexivity.
  - unfold AVL_MAX_DEPTH. lia.
  - unfold AVL_MAX_DEPTH in *. lia.
  - unfold AVL_MAX_DEPTH in *. lia.
Qed.

(** ** The outcomes of [AVL_delete] *)

Lemma delete_search_result fuel t h k : ∀ stack top c p stack' top' c' p' dd,
  delete_search fuel t h k stack top c p = Ok (stack', top', c', p', dd) →
  dd = None ∨ ∃ x, dd = Some x ∧ eval t x k (user t) = 0.
Proof.
  induction fuel as [|fuel IH]; intros stack top c p stack' top' c' p' dd Hrun;
    [done|].
  simpl in Hrun. destruct c as [a|]; [|injection Hrun as <- <- <- <- <-; by left].
  destruct (top <? AVL_MAX_DEPTH)%nat;
    [|injection Hrun as <- <- <- <- <-; by left].
  destruct (stack_set stack top (Some a)) as [stack1|]; [|done].
  rewrite bind_Ok in Hrun.
  destruct (load h (Some a)) as [nc|]; [|done]. rewrite bind_Ok in Hrun.
  destruct (payload nc) as [x|] eqn:Hx; [|done]. rewrite bind_Ok in Hrun.
  destruct (Z.eqb_spec (eval t x k (user t)) 0) as [He | _].
  - injection Hrun as <- <- <- <- <-. right. exists x. split; [|done].
    unfold payload in Hx. by destruct (d nc); [injection Hx as ->|].
  - destruct (eval t x k (user t) <? 0); by eapply IH.
Qed.

(** Whatever the state: [AVL_delete] returns NULL or a payload that
    compares equal to the key; it has no other answer. *)
Lemma delete_result fuel t m k dd t' m' :
  AVL_delete fuel t m k = Ok (dd, t', m') →
  dd = None ∨ ∃ x, dd = Some x ∧ eval t x k (user t) = 0.
Proof.
  unfold AVL_delete. intros Hrun.
  destruct (top t); [|injection Hrun as <- <- <-; by left].
  destruct (delete_search _ _ _ _ _ _ _ _) as [[[[[stack top1] c] p] d1]|] eqn:Hs;
    [|done].
  rewrite bind_Ok in Hrun.
  apply delete_search_result in Hs.
  destruct d1 as [x|]; [|injection Hrun as <- <- <-; by left].
  bind_inv Hrun. injection Hrun as <- <- <-. done.
Qed.

(** From depth [AVL_MAX_DEPTH] on, the two loops that go down to the
    in-order neighbour stop where they are, whatever lies below. *)
Lemma delete_leftmost_limit fuel h stack top c p nc :
  (AVL_MAX_DEPTH ≤ top)%nat → load h c = Ok nc →
  delete_leftmost (S fuel) h stack top c p = Ok (stack, top, c, p).
Proof.
  intros Htop Hc. simpl. rewrite Hc. simpl.
  rewrite (proj2 (Nat.ltb_ge _ _) Htop). by destruct (l nc).
Qed.

Lemma delete_rightmost_limit fuel h stack top c p nc :
  (AVL_MAX_DEPTH ≤ top)%nat → load h c = Ok nc →
  delete_rightmost (S fuel) h stack top c p = Ok (stack, top, c, p).
Proof.
  intros Htop Hc. simpl. rewrite Hc. simpl.
  rewrite (proj2 (Nat.ltb_ge _ _) Htop). by destruct (r nc).
Qed.

(** ** The tree after the rebalancing of [AVL_insert] *)


End Limits.


(** * The states on integer payloads *)

Lemma Z_eval_total u : total_order (λ x y, Z_eval x y u).
Proof. split; unfold Z_eval; intros; lia. Qed.

(** A state given cell by cell is valid when its tree and its free stack
    read back from the heap and the checks below compute. *)
Ltac concrete_rep :=
  match goal with
  | |- rep ?h ?s =>
      let H := fresh in
      assert (read_tree 100 h (root s) = Some s) as H by (vm_compute; reflexivity);
      exact (proj1 (read_tree_rep _ _ _ _ _ H))
  end.

Ltac concrete_free :=
  match goal with
  | |- free_list ?h ?p ?fs =>
      apply (read_free_chain _ h 100 p fs); [vm_compute; reflexivity|];
      match goal with
      | |- Forall ?P ?l => let l' := eval vm_compute in l in change (Forall P l')
      end;
      repeat (apply Forall_cons; split;
              [eexists; split; [reflexivity|];
               split; [vm_compute; split; [discriminate | reflexivity]|];
               vm_compute; (left; reflexivity) || (right; reflexivity) |]);
      apply Forall_nil_2
  end.

Ltac concrete_flags :=
  simpl; unfold used_fl; repeat split; (lia || (left; reflexivity) || (right; reflexivity)).

Ltac concrete_represents :=
  split;
  [ reflexivity
  | concrete_rep
  | concrete_free
  | apply (bool_decide_unpack _); vm_compute; exact I
  | concrete_flags
  | vm_compute; discriminate ].

Ltac concrete_avl := simpl; repeat split; (reflexivity || lia).

Ltac concrete_Inv :=
  split;
  [ concrete_represents
  | concrete_avl
  | reflexivity
  | reflexivity
  | vm_compute; discriminate ].

Lemma ex_Inv : Inv ex_t ex_m ex_tr ex_fs.
Proof. concrete_Inv. Qed.


Lemma ex_bst : bst (cmp_of ex_t) ex_tr.
Proof.
  unfold bst, klt, cmp_of. simpl.
  repeat (apply SSorted_cons; [|repeat (apply Forall_cons; split; [unfold Z_eval; lia|]); apply Forall_nil_2]).
  apply SSorted_nil.
Qed.

(** The first state is the one that the inserts build. *)
Lemma ex_built : insert_all 50 ex_t0 ex_m0 ex_keys = Ok (ex_t, ex_m, ex_keys).
Proof. vm_compute. reflexivity. Qed.

Lemma deep_rep : rep (cells deep_m) deep_tr.
Proof. concrete_rep. Qed.

Lemma slab_Inv : Inv slab_t slab_m slab_tr slab_fs.
Proof. concrete_Inv. Qed.

(** The second state is the first after three deletes. *)
Lemma slab_built :
  ('(_, t, m) ← AVL_delete 50 ex_t ex_m 9;
   '(_, t, m) ← AVL_delete 50 t m 7;
   '(_, t, m) ← AVL_delete 50 t m 4;
   Ok (t, m)) = Ok (slab_t, slab_m).
Proof. vm_compute. reflexivity. Qed.

Ltac each_cell H :=
  apply elem_of_map_to_list in H; vm_compute in H;
  repeat (apply elem_of_cons in H as [H | H];
          [injection H as -> -> |]);
  [.. | by apply elem_of_nil in H].

Lemma slab_Slabs : Slabs slab_t slab_m slab_fs.
Proof.
  split.
  - vm_compute. discriminate.
  - intros q n H. each_cell H; reflexivity.
  - intros q n i H Hi. each_cell H;
      (do 4 (destruct i as [|i]; [vm_compute; by eexists|])); lia.
  - intros a [c H]. each_cell H;
      first [ by (exists 1%nat, 4%nat; split; [vm_compute; reflexivity | lia])
            | by (exists 5%nat, 4%nat; split; [vm_compute; reflexivity | lia]) ].
  - intros q q' n n' a H H'. each_cell H; each_cell H'; lia.
  - intros a c H. each_cell H; vm_compute; split; (done || by eexists || by intros [? ?]).
  - intros a c H. each_cell H; simpl f;
      match goal with
      | |- wf_flag ?z =>
          exists (z / 16 - 2), (z mod 16); vm_compute;
          split; [reflexivity|]; split; [split; discriminate|];
          first [ left; left; reflexivity | left; right; reflexivity
                | right; left; reflexivity | right; right; reflexivity ]
      end.
  - intros a c H. each_cell H; vm_compute; intros Hu;
      first [ discriminate Hu | set_solver ].
Qed.

(** * The claims *)

(** C1. After every completed insert and every completed delete on a
    valid state, the state is valid again: the cells reachable from the
    root hold a tree [tr'] in which every node stores the balance
    height(right) - height(left), within {-1,0,1} ([avl tr']), the
    cached height is the height of [tr'], and the validator
    [AVL_checkBalance] returns that height. The calls return. *)
Theorem avl_invariant_after_insert_delete {A U : Type}
    (t : AVL_TREE A U) (m : mem A) (tr : tree A) (fs : list nat) (k : A)
    (fuel : nat) :
  Inv t m tr fs → size t < INT_MAX → (44 < fuel)%nat →
  (∃ rc t' m' tr' fs',
     AVL_insert fuel t m k = Ok (rc, t', m')
     ∧ Inv t' m' tr' fs'
     ∧ rep (cells m') tr' ∧ top t' = root tr' ∧ avl tr'
     ∧ height t' = Z.of_nat (hgt tr')
     ∧ AVL_checkBalance fuel (cells m') (top t') = Ok (height t'))
  ∧ (∃ dd t' m' tr' fs',
       AVL_delete fuel t m k = Ok (dd, t', m')
       ∧ Inv t' m' tr' fs'
       ∧ rep (cells m') tr' ∧ top t' = root tr' ∧ avl tr'
       ∧ height t' = Z.of_nat (hgt tr')
       ∧ AVL_checkBalance fuel (cells m') (top t') = Ok (height t')).
Proof.
  intros HI Hsz Hf. split.
  - destruct (insert_Inv _ _ t m tr fs k fuel HI Hsz Hf)
      as (rc & t' & m' & tr' & fs' & Hrun & HI').
    exists rc, t', m', tr', fs'. split; [done|]. split; [done|].
    split; [apply HI'|]. split; [apply HI'|]. split; [apply HI'|].
    split; [apply HI'|]. by apply (Inv_checkBalance _ _ t' m' tr' fs').
  - destruct (delete_Inv _ _ t m tr fs k fuel HI Hf)
      as (dd & t' & m' & tr' & fs' & Hrun & HI').
    exists dd, t', m', tr', fs'. split; [done|]. split; [done|].
    split; [apply HI'|]. split; [apply HI'|]. split; [apply HI'|].
    split; [apply HI'|]. by apply (Inv_checkBalance _ _ t' m' tr' fs').
Qed.

Lemma avl_invariant_after_insert_delete_witness :
  Inv ex_t ex_m ex_tr ex_fs ∧ size ex_t < INT_MAX ∧ (44 < 50)%nat
  ∧ (∃ rc t' m' tr' fs',
       AVL_insert 50 ex_t ex_m 6 = Ok (rc, t', m')
       ∧ Inv t' m' tr' fs'
       ∧ rep (cells m') tr' ∧ top t' = root tr' ∧ avl tr'
       ∧ height t' = Z.of_nat (hgt tr')
       ∧ AVL_checkBalance 50 (cells m') (top t') = Ok (height t'))
  ∧ (∃ dd t' m' tr' fs',
       AVL_delete 50 ex_t ex_m 6 = Ok (dd, t', m')
       ∧ Inv t' m' tr' fs'
       ∧ rep (cells m') tr' ∧ top t' = root tr' ∧ avl tr'
       ∧ height t' = Z.of_nat (hgt tr')
       ∧ AVL_checkBalance 50 (cells m') (top t') = Ok (height t')).
Proof.
  split; [exact ex_Inv|]. split; [vm_compute; reflexivity|]. split; [lia|].
  apply (avl_invariant_after_insert_delete ex_t ex_m ex_tr ex_fs 6 50 ex_Inv);
    [vm_compute; reflexivity | lia].
Defined.

(** C2. A tree is created and the elements of any list [ks] are
    inserted one by one; [ins] are those whose insert returned 0 (an
    element that compares equal to an earlier one, or that found no
    memory, is not among them). Then [AVL_walk] returns, and it has
    called the callback on a list [l] of payloads that is strictly
    increasing in the order of the comparator and that holds exactly the
    inserted elements, each once: [l] is a permutation of [ins], as long
    as the size of the tree. *)
Theorem walk_visits_inserted_in_order {A U : Type}
    (o o' : list bool) (n : Z) (ev : A → A → U → Z) (u : U)
    (t0 : AVL_TREE A U) (m0 : mem A) (ks : list A) (fuel : nat) :
  AVL_newTree o n ev u = (Some t0, o') →
  total_order (λ x y, ev x y u) →
  Z.of_nat (length ks) ≤ INT_MAX →
  (44 < fuel)%nat → (3 * length ks ≤ fuel)%nat →
  ∃ t m ins l,
    insert_all fuel t0 m0 ks = Ok (t, m, ins)
    ∧ AVL_walk fuel t m = Ok (Some <$> l)
    ∧ StronglySorted (klt (λ x y, ev x y u)) l
    ∧ l ≡ₚ ins ∧ sublist ins ks
    ∧ size t = Z.of_nat (length l).
Proof.
  intros Hnew Hord Hlen Hf Hf3.
  destruct (newTree_Inv _ _ o n ev u t0 o' m0 Hnew) as (HI0 & He0 & Hu0 & _).
  assert (cmp_of t0 = λ x y, ev x y u) as Hcmp0.
  { unfold cmp_of. by rewrite He0, Hu0. }
  destruct (insert_all_ok _ _ ks t0 m0 E [] fuel HI0) as
    (t & m & ins & tr & fs & Hrun & HI & Hbst & He & Hu & Hp & Hsub).
  { by rewrite Hcmp0. }
  { apply SSorted_nil. }
  { rewrite (inv_size HI0). simpl. lia. }
  { done. }
  assert (cmp_of t = λ x y, ev x y u) as Hcmp.
  { unfold cmp_of. by rewrite He, Hu, He0, Hu0. }
  simpl in Hp. rewrite app_nil_r in Hp.
  pose proof (Inv_height_bound _ _ _ _ _ _ HI) as Hh.
  pose proof (sublist_length _ _ Hsub) as Hsl.
  assert (length (inorder tr) = length ins) as Hli by by rewrite Hp.
  exists t, m, ins, (inorder tr). split; [done|]. split.
  { apply (walk_ok _ _ t m tr fs fuel); [apply HI | lia |].
    pose proof (walk_steps_le _ tr). rewrite <- (count_inorder _) in *. lia. }
  split; [by rewrite <- Hcmp|]. split; [done|]. split; [done|].
  rewrite (inv_size HI). by rewrite count_inorder.
Qed.

Lemma walk_visits_inserted_in_order_witness :
  AVL_newTree [true; true; true; true] 4 Z_eval tt = (Some ex_t0, [true; true; true])
  ∧ total_order (λ x y, Z_eval x y tt)
  ∧ Z.of_nat (length ex_keys) ≤ INT_MAX
  ∧ (44 < 50)%nat ∧ (3 * length ex_keys ≤ 50)%nat
  ∧ ∃ t m ins l,
      insert_all 50 ex_t0 ex_m0 ex_keys = Ok (t, m, ins)
      ∧ AVL_walk 50 t m = Ok (Some <$> l)
      ∧ StronglySorted (klt (λ x y, Z_eval x y tt)) l
      ∧ l ≡ₚ ins ∧ sublist ins ex_keys
      ∧ size t = Z.of_nat (length l).
Proof.
  split; [reflexivity|]. split; [exact (Z_eval_total tt)|].
  split; [vm_compute; discriminate|]. split; [lia|]. split; [simpl; lia|].
  apply (walk_visits_inserted_in_order [true; true; true; true] [true; true; true]
           4 Z_eval tt ex_t0 ex_m0 ex_keys 50);
    [reflexivity | exact (Z_eval_total tt) | vm_compute; discriminate | lia
    | simpl; lia].
Defined.

(** C3. On a valid state that holds a search tree for a comparator that
    is a total order: a delete of [k] followed by a find of [k] returns
    NULL; and when find does not find [k], an insert of [k] that returns
    0 (which it does whenever a node is to be had: from the free stack or
    from malloc) is followed by a find that returns [k]. *)
Theorem delete_find_insert_find {A U : Type}
    (t : AVL_TREE A U) (m : mem A) (tr : tree A) (fs : list nat) (k : A)
    (fuel : nat) :
  Inv t m tr fs → total_order (cmp_of t) → bst (cmp_of t) tr →
  size t < INT_MAX → (44 < fuel)%nat →
  (∃ dd t' m',
     AVL_delete fuel t m k = Ok (dd, t', m')
     ∧ AVL_find fuel t' m' k = Ok None)
  ∧ (AVL_find fuel t m k = Ok None →
     ∃ rc t' m',
       AVL_insert fuel t m k = Ok (rc, t', m')
       ∧ (rc = 0 ∨ rc = 2)
       ∧ (fs ≠ [] ∨ hd false (oracle m) = true → rc = 0)
       ∧ (rc = 0 → AVL_find fuel t' m' k = Ok (Some k))).
Proof.
  intros HI Hord Hbst Hsz Hf. split.
  - destruct (delete_step _ _ t m tr fs k fuel HI Hord Hbst Hf)
      as (dd & t' & m' & tr' & fs' & Hrun & HI' & _ & _ & _ & _ & _ & Hnone & _).
    exists dd, t', m'. split; [done|].
    rewrite (find_ok _ _ t' m' tr' fs') by done. by rewrite Hnone.
  - intros Hfind. rewrite (find_ok _ _ t m tr fs) in Hfind by done.
    injection Hfind as Hfind.
    destruct (insert_step _ _ t m tr fs k fuel HI Hord Hbst Hsz Hf)
      as (rc & t' & m' & tr' & fs' & Hrun & HI' & Hbst' & He & Hu & _ & Hcase).
    assert (cmp_of t' = cmp_of t) as Hcmp.
    { unfold cmp_of. by rewrite He, Hu. }
    exists rc, t', m'. split; [done|].
    destruct Hcase as [(-> & _ & Hp & Hmem)
      | [(-> & (x & Hx) & _) | (-> & _ & _ & _ & _ & Hfs & Ho)]].
    + split; [by left|]. split; [done|]. intros _.
      rewrite (find_ok _ _ t' m' tr' fs') by done. f_equal.
      apply lookup_tree_in; [by rewrite Hcmp | done |].
      rewrite Hp. apply list_elem_of_here.
    + congruence.
    + split; [by right|]. split; [|done].
      intros [Hne | Ht]; [done | congruence].
Qed.

Lemma delete_find_insert_find_witness :
  Inv ex_t ex_m ex_tr ex_fs ∧ total_order (cmp_of ex_t) ∧ bst (cmp_of ex_t) ex_tr
  ∧ size ex_t < INT_MAX ∧ (44 < 50)%nat
  ∧ (∃ dd t' m',
       AVL_delete 50 ex_t ex_m 8 = Ok (dd, t', m')
       ∧ AVL_find 50 t' m' 8 = Ok None)
  ∧ (AVL_find 50 ex_t ex_m 8 = Ok None →
     ∃ rc t' m',
       AVL_insert 50 ex_t ex_m 8 = Ok (rc, t', m')
       ∧ (rc = 0 ∨ rc = 2)
       ∧ (ex_fs ≠ [] ∨ hd false (oracle ex_m) = true → rc = 0)
       ∧ (rc = 0 → AVL_find 50 t' m' 8 = Ok (Some 8))).
Proof.
  split; [exact ex_Inv|]. split; [exact (Z_eval_total tt)|].
  split; [exact ex_bst|]. split; [vm_compute; reflexivity|]. split; [lia|].
  apply (delete_find_insert_find ex_t ex_m ex_tr ex_fs 8 50 ex_Inv
           (Z_eval_total tt) ex_bst);
    [vm_compute; reflexivity | lia].
Defined.

(** C4. On any state whatever: an insert that returns a code other than
    0 has returned 1 (already there) or 2 (no memory) and has left the
    handle (root, size, height, free stack) and every cell (links,
    balances) as they were; a delete that returns NULL has left the whole
    state as it was, and the same delete again returns NULL again. On a
    valid state these are the calls that happen: the insert of an element
    that is found returns 1, the delete of one that is not found returns
    NULL. *)
Theorem failed_mutation_changes_nothing {A U : Type}
    (t : AVL_TREE A U) (m : mem A) (k : A) (fuel : nat) :
  (∀ rc t' m',
     AVL_insert fuel t m k = Ok (rc, t', m') → rc ≠ 0 →
     (rc = 1 ∨ rc = 2) ∧ t' = t ∧ cells m' = cells m ∧ blocks m' = blocks m)
  ∧ (∀ t' m',
       AVL_delete fuel t m k = Ok (None, t', m') →
       t' = t ∧ m' = m ∧ AVL_delete fuel t' m' k = Ok (None, t', m'))
  ∧ (∀ tr fs,
       Inv t m tr fs → size t < INT_MAX → (44 < fuel)%nat →
       (is_Some (lookup_tree (cmp_of t) k tr) →
        AVL_insert fuel t m k = Ok (1, t, m))
       ∧ (lookup_tree (cmp_of t) k tr = None →
          AVL_delete fuel t m k = Ok (None, t, m))).
Proof.
  split; [|split].
  - intros rc t' m' Hrun Hrc. by apply (insert_fail_unchanged _ _ fuel t m k).
  - intros t' m' Hrun.
    destruct (delete_fail_unchanged _ _ fuel t m k t' m' Hrun) as [-> ->].
    done.
  - intros tr fs HI Hsz Hf.
    pose proof (Inv_height_bound _ _ _ _ _ _ HI) as Hh. split.
    + intros [x Hx].
      pose proof (insert_ok _ _ t m tr fs k fuel HI Hsz ltac:(lia)) as Hins.
      pose proof (ins_path_lookup _ (cmp_of t) k tr []) as Hlk.
      destruct (ins_path (cmp_of t) k [] tr); [congruence|].
      unfold AVL_insert. by rewrite Hins.
    + intros Hnone.
      pose proof (delete_ok _ _ t m tr fs k fuel HI) as Hdel.
      pose proof (del_path_lookup _ (cmp_of t) k tr []) as Hlk.
      destruct (del_path (cmp_of t) k [] tr) as [[C s]|].
      * destruct Hlk as (? & ? & ? & ? & ? & ? & _ & ?). congruence.
      * apply Hdel; [unfold AVL_MAX_DEPTH|]; lia.
Qed.

Lemma failed_mutation_changes_nothing_witness :
  Inv ex_t ex_m ex_tr ex_fs ∧ size ex_t < INT_MAX ∧ (44 < 50)%nat
  ∧ is_Some (lookup_tree (cmp_of ex_t) 5 ex_tr)
  ∧ AVL_insert 50 ex_t ex_m 5 = Ok (1, ex_t, ex_m).
Proof.
  split; [exact ex_Inv|]. split; [vm_compute; reflexivity|]. split; [lia|].
  split; [exists 5; reflexivity|].
  apply (proj2 (proj2 (failed_mutation_changes_nothing ex_t ex_m 5 50))
           ex_tr ex_fs ex_Inv);
    [vm_compute; reflexivity | lia | exists 5; reflexivity].
Defined.



(** C6. [AVL_delete] on a valid state, for a key that matches a node [a]
    with two subtrees [tl] and [tr1], below the context [C]: it returns
    the payload of [a], puts the cell [a] on the free stack, and leaves
    a valid state that holds the tree [tr']. When the balance [b] of [a]
    is positive, the node [c] that takes the place of [a] is the
    leftmost node of [tr1], whose payload [xc] follows that of [a] in
    order; otherwise (balance negative or 0) it is the rightmost node of
    [tl], whose payload comes right before. The node [c] stands where
    [a] stood, below [C], with the balance and the other subtree of [a];
    the subtree [sub] that hung under [c] is where [c] was, at the end
    of the way [D] down to it; and [tr'] is that tree after the
    rebalancing for a place that has lost one level: the cell [c] is in
    it, the cell [a] is not. *)
Theorem delete_picks_inorder_neighbour {A U : Type}
    (t : AVL_TREE A U) (m : mem A) (tr : tree A) (fs : list nat) (k : A)
    (fuel : nat) (C : list (frame A)) (a : nat) (tl : tree A) (b fl : Z)
    (x : A) (tr1 : tree A) :
  Inv t m tr fs → (44 < fuel)%nat →
  del_path (cmp_of t) k [] tr = Some (C, T a tl b fl x tr1) →
  tl ≠ E → tr1 ≠ E →
  ∃ D c bc flc xc sub hh tr' t' m',
    AVL_delete fuel t m k = Ok (Some x, t', m')
    ∧ Inv t' m' tr' (a :: fs)
    ∧ tr = plug C (T a tl b fl x tr1)
    ∧ (c ∈ addrs tr') ∧ (a ∉ addrs tr')
    ∧ ((0 < b
        ∧ tr1 = plug D (T c E bc flc xc sub)
        ∧ Forall (λ fr, fside fr = -1) D
        ∧ (∃ rest, inorder tr1 = xc :: rest)
        ∧ del_shrink (D ++ FR c tl b flc xc :: C) sub = Some (hh, tr'))
       ∨ (b ≤ 0
          ∧ tl = plug D (T c sub bc flc xc E)
          ∧ Forall (λ fr, fside fr = 1) D
          ∧ (∃ rest, inorder tl = rest ++ [xc])
          ∧ del_shrink (D ++ FL c b flc xc tr1 :: C) sub = Some (hh, tr'))).
Proof.
  intros HI Hf Hpath Htl Htr1.
  pose proof (Inv_height_bound _ _ _ _ _ _ HI) as Hh.
  pose proof (delete_ok _ _ t m tr fs k fuel HI
                ltac:(unfold AVL_MAX_DEPTH; lia) ltac:(lia)) as Hdel.
  rewrite Hpath in Hdel.
  destruct Hdel as (a' & tl' & b' & fl' & x' & tr1' & hh & tr' & t' & m'
                    & [= <- <- <- <- <- <-] & Hplug & _ & Htree & Hrun & HI' & _).
  unfold del_tree in Htree. rewrite Hpath in Htree.
  destruct (del_pick_spec _ a tl b fl x tr1 Htl Htr1)
    as (Fa & D & c & cl & bc & flc & xc & cr & s' & Hpick & Hcase).
  assert (del_unlink C (T a tl b fl x tr1)
          = Some (D ++ freplace Fa c flc xc :: C, s')) as Hun.
  { unfold del_unlink. rewrite Hpick.
    destruct tl; [done|]. by destruct tr1. }
  rewrite Hun in Htree.
  destruct (del_shrink (D ++ freplace Fa c flc xc :: C) s')
    as [[hh1 tr1']|] eqn:Hsh; [|done].
  injection Htree as <- <-.
  assert (c ∈ addrs tr1') as Hc.
  { destruct (del_shrink_inv _ _ _ _ _ Hsh) as (_ & _ & Hperm & _).
    rewrite Hperm, addrs_plug, addrs_ctx_app.
    apply elem_of_app. right. apply elem_of_app. right.
    destruct Fa; simpl; apply elem_of_cons; by left. }
  assert (a ∉ addrs tr1') as Ha.
  { pose proof (rp_nodup (inv_rep HI')) as Hnd.
    apply NoDup_app in Hnd as (_ & Hdisj & _).
    intros Hin. apply (Hdisj a Hin). apply elem_of_cons. by left. }
  destruct Hcase as [(Hpos & -> & Hpl & -> & -> & Hall)
                    | (Hneg & -> & Hpl & -> & -> & Hall)].
  - exists D, c, bc, flc, xc, cr, hh1, tr1', t', m'.
    split; [done|]. split; [done|]. split; [done|].
    split; [done|]. split; [done|]. left.
    split; [done|]. split; [done|]. split; [done|]. split; [|done].
    rewrite <- Hpl, inorder_plug, (lefts_all_left _ D Hall). simpl. eauto.
  - exists D, c, bc, flc, xc, cl, hh1, tr1', t', m'.
    split; [done|]. split; [done|]. split; [done|].
    split; [done|]. split; [done|]. right.
    split; [done|]. split; [done|]. split; [done|]. split; [|done].
    rewrite <- Hpl, inorder_plug, (rights_all_right _ D Hall). simpl.
    rewrite app_nil_r. exists (lefts D ++ inorder cl).
    by rewrite <- app_assoc.
Qed.

Lemma delete_picks_inorder_neighbour_witness :
  ∃ D c bc flc xc sub hh tr' t' m',
    AVL_delete 50 ex_t ex_m 5 = Ok (Some 5, t', m')
    ∧ Inv t' m' tr' (4%nat :: ex_fs)
    ∧ ex_tr = plug [] (T 4 (T 3 (T 1 E 0 12 1 E) 0 4 3 (T 8 E 0 4 4 E)) 0 4 5
                          (T 2 (T 7 E 0 4 7 E) 0 4 8 (T 6 E 0 4 9 E)))
    ∧ (c ∈ addrs tr') ∧ (4%nat ∉ addrs tr')
    ∧ ((0 < 0
        ∧ T 2 (T 7 E 0 4 7 E) 0 4 8 (T 6 E 0 4 9 E)
          = plug D (T c E bc flc xc sub)
        ∧ Forall (λ fr, fside fr = -1) D
        ∧ (∃ rest, inorder (T 2 (T 7 E 0 4 7 E) 0 4 8 (T 6 E 0 4 9 E))
                   = xc :: rest)
        ∧ del_shrink
            (D ++ FR c (T 3 (T 1 E 0 12 1 E) 0 4 3 (T 8 E 0 4 4 E)) 0 flc xc
               :: [])
            sub = Some (hh, tr'))
       ∨ (0 ≤ 0
          ∧ T 3 (T 1 E 0 12 1 E) 0 4 3 (T 8 E 0 4 4 E)
            = plug D (T c sub bc flc xc E)
          ∧ Forall (λ fr, fside fr = 1) D
          ∧ (∃ rest, inorder (T 3 (T 1 E 0 12 1 E) 0 4 3 (T 8 E 0 4 4 E))
                     = rest ++ [xc])
          ∧ del_shrink
              (D ++ FL c 0 flc xc (T 2 (T 7 E 0 4 7 E) 0 4 8 (T 6 E 0 4 9 E))
                 :: [])
              sub = Some (hh, tr'))).
Proof.
  apply (delete_picks_inorder_neighbour ex_t ex_m ex_tr ex_fs 5 50 [] 4
           (T 3 (T 1 E 0 12 1 E) 0 4 3 (T 8 E 0 4 4 E)) 0 4 5
           (T 2 (T 7 E 0 4 7 E) 0 4 8 (T 6 E 0 4 9 E)) ex_Inv).
  - lia.
  - vm_compute. reflexivity.
  - discriminate.
  - discriminate.
Defined.

(** C8, as the code has it. No operation reports that a path has reached
    the depth [AVL_MAX_DEPTH], and not every one stays within its path
    stack. [AVL_delete] and [AVL_walk] never leave the stack, on any
    state. [AVL_delete] has two answers, NULL and a payload that
    compares equal to the key: its search stops at depth
    [AVL_MAX_DEPTH], and for a key stored at that depth or deeper, which
    [AVL_find] returns, it returns the NULL that also stands for "not
    found" and changes nothing; its two descents to the in-order
    neighbour stop at the same depth, whatever lies below. [AVL_walk]
    leaves its loop as soon as its stack holds [AVL_MAX_DEPTH]-1 entries
    and returns as it does after a complete traversal: on a leftmost
    path of that many nodes, without a call of the callback.
    [AVL_flush] has no check: when the path that it goes down first has
    more than [AVL_MAX_DEPTH] nodes, it writes past the end of its
    stack. *)
Theorem depth_limit_is_not_reported {A U : Type}
    (t : AVL_TREE A U) (m : mem A) (tr : tree A) (k : A) (fuel : nat) :
  rep (cells m) tr → NoDup (addrs tr) → top t = root tr →
  (hgt tr < fuel)%nat →
  (AVL_delete fuel t m k ≠ Err StackOverflow
   ∧ AVL_walk fuel t m ≠ Err StackOverflow)
  ∧ (∀ dd t' m',
       AVL_delete fuel t m k = Ok (dd, t', m') →
       dd = None ∨ ∃ x, dd = Some x ∧ eval t x k (user t) = 0)
  ∧ (∀ C s,
       del_path (cmp_of t) k [] tr = Some (C, s) →
       (AVL_MAX_DEPTH ≤ length C)%nat →
       AVL_delete fuel t m k = Ok (None, t, m)
       ∧ ∃ x, AVL_find fuel t m k = Ok (Some x) ∧ eval t x k (user t) = 0)
  ∧ (∀ stack top c p,
       (AVL_MAX_DEPTH ≤ top)%nat →
       delete_search fuel t (cells m) k stack top c p
       = Ok (stack, top, c, p, None))
  ∧ (∀ stack top c p nc,
       (AVL_MAX_DEPTH ≤ top)%nat → load (cells m) c = Ok nc →
       delete_leftmost fuel (cells m) stack top c p = Ok (stack, top, c, p)
       ∧ delete_rightmost fuel (cells m) stack top c p = Ok (stack, top, c, p))
  ∧ (∀ c p stack top acc c' p' stack' top' acc',
       walk_body (cells m) c p stack top acc = Ok (c', p', stack', top', acc') →
       (AVL_MAX_DEPTH - 1 ≤ top')%nat →
       walk_loop fuel (cells m) c p stack top acc = Ok acc')
  ∧ ((AVL_MAX_DEPTH - 1 ≤ left_spine tr)%nat → AVL_walk fuel t m = Ok [])
  ∧ ((AVL_MAX_DEPTH < first_path tr)%nat →
     AVL_flush fuel t m = Err StackOverflow).
Proof.
  intros Hrep Hnd Htop Hf.
  split; [split; [apply delete_never_overruns | apply walk_never_overruns]|].
  split; [intros dd t' m'; apply delete_result|].
  split; [intros C s Hpath Hlen; by apply (delete_too_deep _ _ fuel t m tr k C s)|].
  split.
  { intros stack top c p Htop'. destruct fuel as [|fuel]; [lia|].
    by apply delete_search_limit. }
  split.
  { intros stack top c p nc Htop' Hc. destruct fuel as [|fuel]; [lia|].
    split; [by eapply delete_leftmost_limit | by eapply delete_rightmost_limit]. }
  split.
  { intros c p stack top acc c' p' stack' top' acc' Hbody Ht.
    destruct fuel as [|fuel]; [lia|].
    rewrite walk_loop_S, Hbody. simpl.
    unfold walk_continue.
    replace (top' <? AVL_MAX_DEPTH - 1)%nat with false
      by (symmetry; by apply Nat.ltb_ge).
    by rewrite andb_false_r. }
  split.
  - intros Hsp. apply (walk_too_deep _ _ t m tr); try done.
    pose proof (left_spine_le_hgt _ tr). lia.
  - intros Hfp. apply (flush_overrun _ _ t m tr); try done.
    pose proof (first_path_le_hgt _ tr). lia.
Qed.

Lemma depth_limit_is_not_reported_witness :
  rep (cells deep_m) deep_tr ∧ NoDup (addrs deep_tr)
  ∧ top deep_t = root deep_tr ∧ (hgt deep_tr < 100)%nat
  ∧ del_path (cmp_of deep_t) 36 [] deep_tr = Some (deep_C, deep_s)
  ∧ (AVL_MAX_DEPTH ≤ length deep_C)%nat
  ∧ (AVL_MAX_DEPTH - 1 ≤ left_spine deep_tr)%nat
  ∧ (AVL_MAX_DEPTH < first_path deep_tr)%nat
  ∧ AVL_delete 100 deep_t deep_m 36 = Ok (None, deep_t, deep_m)
  ∧ (∃ x, AVL_find 100 deep_t deep_m 36 = Ok (Some x)
          ∧ eval deep_t x 36 (user deep_t) = 0)
  ∧ AVL_walk 100 deep_t deep_m = Ok []
  ∧ AVL_flush 100 deep_t deep_m = Err StackOverflow.
Proof.
  assert (NoDup (addrs deep_tr)) as Hnd
    by (apply (bool_decide_unpack _); vm_compute; exact I).
  assert (hgt deep_tr < 100)%nat as Hh by (vm_compute; lia).
  assert (del_path (cmp_of deep_t) 36 [] deep_tr = Some (deep_C, deep_s)) as Hp
    by (vm_compute; reflexivity).
  assert (AVL_MAX_DEPTH ≤ length deep_C)%nat as Hlen by (vm_compute; lia).
  assert (AVL_MAX_DEPTH - 1 ≤ left_spine deep_tr)%nat as Hsp
    by (vm_compute; lia).
  assert (AVL_MAX_DEPTH < first_path deep_tr)%nat as Hfp by (vm_compute; lia).
  destruct (depth_limit_is_not_reported deep_t deep_m deep_tr 36 100
              deep_rep Hnd eq_refl Hh)
    as (_ & _ & Hdel & _ & _ & _ & Hwalk & Hflush).
  destruct (Hdel deep_C deep_s Hp Hlen) as [Hd Hfind].
  split; [exact deep_rep|]. split; [exact Hnd|]. split; [reflexivity|].
  split; [exact Hh|]. split; [exact Hp|]. split; [exact Hlen|].
  split; [exact Hsp|]. split; [exact Hfp|]. split; [exact Hd|].
  split; [exact Hfind|]. split; [exact (Hwalk Hsp) | exact (Hflush Hfp)].
Defined.

(** The claim C8 fails on trees that are deeper than the limit. In a
    chain of 65 nodes the key 36 lies at depth 64: [AVL_find] returns
    it, [AVL_delete] returns NULL for it as it does for the key 0 that
    is not there, [AVL_walk] returns without a single call of the
    callback, and [AVL_flush] leaves its stack. In the second tree the
    in-order successor of 500 lies at depth 70: [AVL_delete] of 500
    returns 500 and puts the node at depth 64 in its place, and the
    payload 936 below that node, which [AVL_find] returned before, is
    no longer found although its cell still holds it and is marked as
    in use. *)
Lemma deep_key_deleted_as_not_found :
  AVL_find 100 deep_t deep_m 36 = Ok (Some 36)
  ∧ AVL_delete 100 deep_t deep_m 36 = Ok (None, deep_t, deep_m)
  ∧ AVL_delete 100 deep_t deep_m 0 = Ok (None, deep_t, deep_m)
  ∧ AVL_walk 1000 deep_t deep_m = Ok []
  ∧ AVL_flush 1000 deep_t deep_m = Err StackOverflow
  ∧ rep (cells lost_m) lost_tr ∧ top lost_t = root lost_tr
  ∧ AVL_find 200 lost_t lost_m 936 = Ok (Some 936)
  ∧ ∃ t' m',
      AVL_delete 200 lost_t lost_m 500 = Ok (Some 500, t', m')
      ∧ AVL_find 200 t' m' 937 = Ok (Some 937)
      ∧ AVL_find 200 t' m' 936 = Ok None
      ∧ cells m' !! 65%nat = Some (mkNode (Some 66%nat) None 36 (Some 936)).
Proof.
  split; [vm_compute; reflexivity|]. split; [vm_compute; reflexivity|].
  split; [vm_compute; reflexivity|]. split; [vm_compute; reflexivity|].
  split; [vm_compute; reflexivity|]. split; [concrete_rep|].
  split; [reflexivity|]. split; [vm_compute; reflexivity|].
  eexists _, _. split; [vm_compute; reflexivity|].
  split; [vm_compute; reflexivity|]. split; vm_compute; reflexivity.
Qed.

(** C9. For an [allocAtOnce] below 1, [AVL_newTree] behaves as for 1:
    it fails only when malloc does not give the handle; otherwise it
    returns a valid empty tree that allocates one node at a time. *)
Theorem newTree_clamps_batch_size {A U : Type}
    (o : list bool) (n : Z) (ev : A → A → U → Z) (u : U) (m : mem A) :
  n < 1 →
  AVL_newTree o n ev u = AVL_newTree o 1 ev u
  ∧ (hd false o = true →
     ∃ t, AVL_newTree o n ev u = (Some t, tail o)
       ∧ allocAtOnce t = 1
       ∧ top t = None ∧ size t = 0 ∧ height t = 0 ∧ freeStack t = None
       ∧ Inv t m E []).
Proof.
  intros Hn. unfold AVL_newTree.
  rewrite (proj2 (Z.ltb_lt n 1) Hn). split; [done|].
  destruct o as [|[|] o]; simpl; [done| |done]. intros _.
  eexists. split; [done|]. simpl. split_and!; try done.
  eapply (newTree_Inv _ _ (true :: o) 1 ev u _ o m). reflexivity.
Qed.

Lemma newTree_clamps_batch_size_witness :
  -3 < 1
  ∧ AVL_newTree [true] (-3) Z_eval tt = AVL_newTree [true] 1 Z_eval tt
  ∧ (hd false [true] = true →
     ∃ t, AVL_newTree [true] (-3) Z_eval tt = (Some t, tail [true])
       ∧ allocAtOnce t = 1
       ∧ top t = None ∧ size t = 0 ∧ height t = 0 ∧ freeStack t = None
       ∧ Inv t ex_m0 E []).
Proof.
  split; [lia|].
  apply (newTree_clamps_batch_size [true] (-3) Z_eval tt ex_m0). lia.
Defined.

(** C10. The three operations on a valid state that holds the tree
    [tr], for a key [k]. There is a way [C] from the root down to a
    subtree [s] on which the comparator, called on the stored payload
    first and on [k] second, is negative at every node that the way
    leaves to the left and positive at every node that it leaves to the
    right, and that ends on an empty place or on a node [a] where the
    comparator, called the same way, is 0. The three searches take that
    way. When it ends on an empty place, [AVL_find] and [AVL_delete]
    return NULL, and [AVL_insert], unless there is no memory, puts the
    new node in that very place, before the rebalancing. When it ends on
    the node [a], [AVL_find] returns the payload of [a], [AVL_insert]
    returns 1, and [AVL_delete] returns that payload and takes [a] out
    of the tree. *)
Theorem search_compares_stored_with_key {A U : Type}
    (t : AVL_TREE A U) (m : mem A) (tr : tree A) (fs : list nat) (k : A)
    (fuel : nat) :
  Inv t m tr fs → size t < INT_MAX → (44 < fuel)%nat →
  ∃ C s,
    tr = plug C s
    ∧ Forall (λ fr, match fr with
                    | FL _ _ _ x _ => eval t x k (user t) < 0
                    | FR _ _ _ _ x => 0 < eval t x k (user t)
                    end) C
    ∧ match s with
      | E =>
          AVL_find fuel t m k = Ok None
          ∧ AVL_delete fuel t m k = Ok (None, t, m)
          ∧ ins_path (cmp_of t) k [] tr = Some C
          ∧ ((∃ m', AVL_insert fuel t m k = Ok (2, t, m')
                    ∧ cells m' = cells m)
             ∨ (∃ n fl rot dh tr' t' m' fs',
                  AVL_insert fuel t m k = Ok (0, t', m')
                  ∧ ins_tree C (leaf n fl k) = Some (rot, dh, tr')
                  ∧ Inv t' m' tr' fs'
                  ∧ inorder tr' = lefts C ++ k :: rights C))
      | T a tl b fl x tr1 =>
          eval t x k (user t) = 0
          ∧ AVL_find fuel t m k = Ok (Some x)
          ∧ AVL_insert fuel t m k = Ok (1, t, m)
          ∧ del_path (cmp_of t) k [] tr = Some (C, s)
          ∧ ∃ hh tr' t' m',
              AVL_delete fuel t m k = Ok (Some x, t', m')
              ∧ del_tree (cmp_of t) k tr = Some (x, hh, tr')
              ∧ Inv t' m' tr' (a :: fs)
              ∧ inorder tr' = lefts C ++ (inorder tl ++ inorder tr1) ++ rights C
      end.
Proof.
  intros HI Hsz Hf.
  pose proof (Inv_height_bound _ _ _ _ _ _ HI) as Hh.
  pose proof (find_ok _ _ t m tr fs k fuel HI Hf) as Hfind.
  pose proof (insert_ok _ _ t m tr fs k fuel HI Hsz ltac:(lia)) as Hins.
  pose proof (delete_ok _ _ t m tr fs k fuel HI
                ltac:(unfold AVL_MAX_DEPTH; lia) ltac:(lia)) as Hdel.
  pose proof (del_path_lookup _ (cmp_of t) k tr []) as Hdl.
  pose proof (ins_path_lookup _ (cmp_of t) k tr []) as Hil.
  assert (∀ C0 : list (frame A), Forall (on_path (cmp_of t) k) C0 →
            Forall (λ fr, match fr with
                          | FL _ _ _ x _ => eval t x k (user t) < 0
                          | FR _ _ _ _ x => 0 < eval t x k (user t)
                          end) C0) as Hon.
  { intros C0 H0. eapply Forall_impl; [exact H0|]. by intros []. }
  destruct (del_path (cmp_of t) k [] tr) as [[C s]|] eqn:Hpath.
  - destruct Hdel as (a & tl & b & fl & x & tr1 & hh & tr' & t' & m'
                      & -> & Hplug & Hx & Htree & Hrun & HI' & Hin & _).
    destruct Hdl as (a2 & tl2 & b2 & fl2 & x2 & tr2 & [= <- <- <- <- <- <-] & Hlk).
    destruct (del_path_plug _ _ _ _ _ _ _ Hpath) as (_ & _ & _ & HF).
    exists C, (T a tl b fl x tr1). split; [done|].
    split; [apply Hon, HF; constructor|].
    split; [done|]. split; [by rewrite Hfind, Hlk|].
    split.
    { destruct (ins_path (cmp_of t) k [] tr); [congruence|].
      unfold AVL_insert. by rewrite Hins. }
    split; [done|]. by exists hh, tr', t', m'.
  - rewrite Hdl in Hfind.
    destruct (ins_path (cmp_of t) k [] tr) as [Cf|];
      [|destruct Hil as (x & Hx & _); congruence].
    destruct Hins as (Htr & HF & Hcase).
    exists Cf, E. split; [done|]. split; [by apply Hon|].
    split; [done|]. split; [done|]. split; [done|].
    destruct Hcase as [(m' & Hrun & Hc & _)
      | (n & fl & rot & dh & tr' & t' & m' & fs' & Hrun & Htree & HI' & Hin & _)].
    + left. exists m'. split; [|done]. unfold AVL_insert. by rewrite Hrun.
    + right. exists n, fl, rot, dh, tr', t', m', fs'.
      split; [|done]. unfold AVL_insert. by rewrite Hrun.
Qed.

Lemma search_compares_stored_with_key_witness :
  Inv ex_t ex_m ex_tr ex_fs ∧ size ex_t < INT_MAX ∧ (44 < 50)%nat
  ∧ ∃ C s,
      ex_tr = plug C s
      ∧ Forall (λ fr, match fr with
                      | FL _ _ _ x _ => eval ex_t x 7 (user ex_t) < 0
                      | FR _ _ _ _ x => 0 < eval ex_t x 7 (user ex_t)
                      end) C
      ∧ match s with
        | E =>
            AVL_find 50 ex_t ex_m 7 = Ok None
            ∧ AVL_delete 50 ex_t ex_m 7 = Ok (None, ex_t, ex_m)
            ∧ ins_path (cmp_of ex_t) 7 [] ex_tr = Some C
            ∧ ((∃ m', AVL_insert 50 ex_t ex_m 7 = Ok (2, ex_t, m')
                      ∧ cells m' = cells ex_m)
               ∨ (∃ n fl rot dh tr' t' m' fs',
                    AVL_insert 50 ex_t ex_m 7 = Ok (0, t', m')
                    ∧ ins_tree C (leaf n fl 7) = Some (rot, dh, tr')
                    ∧ Inv t' m' tr' fs'
                    ∧ inorder tr' = lefts C ++ 7 :: rights C))
        | T a tl b fl x tr1 =>
            eval ex_t x 7 (user ex_t) = 0
            ∧ AVL_find 50 ex_t ex_m 7 = Ok (Some x)
            ∧ AVL_insert 50 ex_t ex_m 7 = Ok (1, ex_t, ex_m)
            ∧ del_path (cmp_of ex_t) 7 [] ex_tr = Some (C, s)
            ∧ ∃ hh tr' t' m',
                AVL_delete 50 ex_t ex_m 7 = Ok (Some x, t', m')
                ∧ del_tree (cmp_of ex_t) 7 ex_tr = Some (x, hh, tr')
                ∧ Inv t' m' tr' (a :: ex_fs)
                ∧ inorder tr'
                  = lefts C ++ (inorder tl ++ inorder tr1) ++ rights C
        end.
Proof.
  split; [exact ex_Inv|]. split; [vm_compute; reflexivity|]. split; [lia|].
  apply (search_compares_stored_with_key ex_t ex_m ex_tr ex_fs 7 50 ex_Inv);
    [vm_compute; reflexivity | lia].
Defined.




(** * Further properties of the operations *)

Lemma slab_no_leak : no_leak (cells slab_m) slab_tr.
Proof.
  intros a c H. each_cell H; vm_compute; intros Hu;
    first [ discriminate Hu | set_solver ].
Qed.

(** X1. [AVL_find] on a valid state that holds a search tree returns a
    stored payload that compares equal to the key, and NULL only when no
    stored payload compares equal to it. *)
Theorem find_returns_the_match {A U : Type}
    (t : AVL_TREE A U) (m : mem A) (tr : tree A) (fs : list nat) (k : A)
    (fuel : nat) :
  Inv t m tr fs → total_order (cmp_of t) → bst (cmp_of t) tr →
  (44 < fuel)%nat →
  ∃ r, AVL_find fuel t m k = Ok r
       ∧ match r with
         | Some x => x ∈ inorder tr ∧ cmp_of t x k = 0
         | None => ∀ y, y ∈ inorder tr → cmp_of t y k ≠ 0
         end.
Proof.
  intros HI Hord Hbst Hf.
  exists (lookup_tree (cmp_of t) k tr). split; [by apply (find_ok _ _ t m tr fs)|].
  destruct (lookup_tree (cmp_of t) k tr) as [x|] eqn:Hlk.
  - by apply (lookup_tree_Some _ (cmp_of t)) in Hlk.
  - by apply lookup_tree_None_inv.
Qed.

Lemma find_returns_the_match_witness :
  Inv ex_t ex_m ex_tr ex_fs ∧ total_order (cmp_of ex_t) ∧ bst (cmp_of ex_t) ex_tr
  ∧ (44 < 50)%nat
  ∧ ∃ r, AVL_find 50 ex_t ex_m 7 = Ok r
         ∧ match r with
           | Some x => x ∈ inorder ex_tr ∧ cmp_of ex_t x 7 = 0
           | None => ∀ y, y ∈ inorder ex_tr → cmp_of ex_t y 7 ≠ 0
           end.
Proof.
  split; [exact ex_Inv|]. split; [exact (Z_eval_total tt)|].
  split; [exact ex_bst|]. split; [lia|].
  apply (find_returns_the_match ex_t ex_m ex_tr ex_fs 7 50 ex_Inv
           (Z_eval_total tt) ex_bst). lia.
Defined.

(** X2. [AVL_newNode] on a state that holds a tree and a free stack:
    when the free stack is empty and malloc fails it returns NULL and
    leaves the handle and the cells as they are; otherwise it returns a
    cell that is not part of the tree, marked in use and cleared (no
    subtrees, balance 0, no data), counts it in the size, and leaves
    every cell of the tree as it is. *)
Theorem newNode_gives_fresh_cell {A U : Type}
    (t : AVL_TREE A U) (m : mem A) (tr : tree A) (fs : list nat) :
  represents t (cells m) tr fs →
  (fs = [] ∧ hd false (oracle m) = false →
   ∃ m', AVL_newNode t m = Ok (None, t, m') ∧ cells m' = cells m
         ∧ blocks m' = blocks m)
  ∧ (fs ≠ [] ∨ hd false (oracle m) = true →
     ∃ n t' m' fs' fl,
       AVL_newNode t m = Ok (Some n, t', m')
       ∧ cells m' !! n = Some (mkNode None None (enc 0 fl) None)
       ∧ used_fl fl
       ∧ (n ∉ addrs tr) ∧ (n ∉ fs')
       ∧ free_list (cells m') (freeStack t') fs'
       ∧ NoDup (addrs tr ++ fs')
       ∧ size t' = wrap_int (size t + 1)
       ∧ top t' = top t ∧ height t' = height t
       ∧ (∀ a, a ∈ addrs tr → cells m' !! a = cells m !! a)).
Proof.
  intros Hrp.
  destruct (newNode_spec _ _ t m tr fs Hrp)
    as [(m' & Hrun & Hc & Hb & Hfs & Ho)
       | (n & fsp & m' & fs' & fl & Hrun & Hn & Hu & Hfree & Hnd & Htree & Hmem
          & _)].
  - split; [intros _; by exists m'|].
    intros [Hne | Ht]; [done | congruence].
  - split.
    { intros [-> Ho]. destruct Hmem; congruence. }
    intros _. exists n, (set_size (set_freeStack t fsp) (wrap_int (size t + 1))),
      m', fs', fl.
    apply NoDup_cons in Hnd as [Hnot Hnd].
    apply not_elem_of_app in Hnot as [Hn1 Hn2].
    split_and!; done.
Qed.

Lemma newNode_gives_fresh_cell_witness :
  represents ex_t (cells ex_m) ex_tr ex_fs
  ∧ (ex_fs ≠ [] ∨ hd false (oracle ex_m) = true)
  ∧ ∃ n t' m' fs' fl,
      AVL_newNode ex_t ex_m = Ok (Some n, t', m')
      ∧ cells m' !! n = Some (mkNode None None (enc 0 fl) None)
      ∧ used_fl fl
      ∧ (n ∉ addrs ex_tr) ∧ (n ∉ fs')
      ∧ free_list (cells m') (freeStack t') fs'
      ∧ NoDup (addrs ex_tr ++ fs')
      ∧ size t' = wrap_int (size ex_t + 1)
      ∧ top t' = top ex_t ∧ height t' = height ex_t
      ∧ (∀ a, a ∈ addrs ex_tr → cells m' !! a = cells ex_m !! a).
Proof.
  split; [exact (inv_rep ex_Inv)|]. split; [left; discriminate|].
  apply (proj2 (newNode_gives_fresh_cell ex_t ex_m ex_tr ex_fs (inv_rep ex_Inv))).
  left. discriminate.
Defined.

(** X3. [AVL_checkBalance] on a heap that holds a tree (balanced or
    not) returns; the result is the height of the tree when every node
    stores its balance and that lies within {-1,0,1}, and it is -1
    when that fails somewhere. *)
Theorem checkBalance_decides_balance {A : Type}
    (h : gmap nat (AVL_NODE A)) (s : tree A) (fuel : nat) :
  rep h s → flags_ok s → (hgt s < fuel)%nat →
  ∃ v, AVL_checkBalance fuel h (root s) = Ok v
       ∧ (avl s → v = Z.of_nat (hgt s))
       ∧ (¬ avl s → v = -1)
       ∧ (v ≠ -1 → avl s).
Proof.
  intros Hrep Hfl Hf.
  destruct (checkBalance_total _ h s fuel Hrep Hfl Hf) as (v & Hrun & Hv).
  exists v. split; [done|].
  assert (v ≠ -1 → avl s) as Hsound.
  { intros Hne. by destruct (checkBalance_sound _ h s fuel v Hrep Hfl Hrun Hne). }
  split; [|split; [|done]].
  - intros Ha. rewrite (checkBalance_height _ h s fuel Hrep Hfl Ha Hf) in Hrun.
    by injection Hrun as <-.
  - intros Hna. destruct (decide (v = -1)); [done|]. exfalso. auto.
Qed.

Lemma checkBalance_decides_balance_witness :
  rep (cells deep_m) deep_tr ∧ flags_ok deep_tr ∧ (hgt deep_tr < 100)%nat
  ∧ ∃ v, AVL_checkBalance 100 (cells deep_m) (root deep_tr) = Ok v
         ∧ (avl deep_tr → v = Z.of_nat (hgt deep_tr))
         ∧ (¬ avl deep_tr → v = -1)
         ∧ (v ≠ -1 → avl deep_tr).
Proof.
  assert (∀ n a x, flags_ok (chain_tree n a x)) as Hchain.
  { induction n as [|n IH]; intros a x; simpl; [done|].
    split; [by left|]. split; [lia|]. split; [apply IH | done]. }
  pose proof (Hchain 65%nat 1%nat 100) as Hfl. fold deep_tr in Hfl.
  split; [exact deep_rep|]. split; [exact Hfl|]. split; [vm_compute; lia|].
  apply (checkBalance_decides_balance (cells deep_m) deep_tr 100 deep_rep Hfl).
  vm_compute. lia.
Defined.

(** X4. A valid state never comes near the depth limit: the tree has at
    least [min_count (height)] nodes (0, 1, 2, 4, 7, 12, ...), so that
    with a size that fits an [int] its height is at most 44, below the
    [AVL_MAX_DEPTH] of the path stacks. *)
Theorem valid_tree_is_shallow {A U : Type}
    (t : AVL_TREE A U) (m : mem A) (tr : tree A) (fs : list nat) :
  Inv t m tr fs →
  min_count (Z.to_nat (height t)) ≤ size t
  ∧ 0 ≤ height t ≤ 44
  ∧ (Z.to_nat (height t) < AVL_MAX_DEPTH - 1)%nat.
Proof.
  intros HI. pose proof (Inv_height_bound _ _ _ _ _ _ HI) as Hh.
  rewrite (inv_height HI), (inv_size HI), Nat2Z.id.
  split; [apply avl_min_count, HI|]. unfold AVL_MAX_DEPTH. lia.
Qed.

Lemma valid_tree_is_shallow_witness :
  Inv ex_t ex_m ex_tr ex_fs
  ∧ min_count (Z.to_nat (height ex_t)) ≤ size ex_t
  ∧ 0 ≤ height ex_t ≤ 44
  ∧ (Z.to_nat (height ex_t) < AVL_MAX_DEPTH - 1)%nat.
Proof.
  split; [exact ex_Inv|].
  exact (valid_tree_is_shallow ex_t ex_m ex_tr ex_fs ex_Inv).
Defined.

(** X5. An insert on a valid state that holds a search tree returns
    0, 1 or 2 and leaves a valid state that holds a search tree. With 0
    the key was not there, the new tree holds the old payloads and the
    new one, and the size has grown by one; 0 is what it returns
    whenever the key is not there and a cell is to be had. With 1 the
    key was there; with 2 it was not and neither the free stack nor
    malloc had a cell; in both cases the tree is the old one. *)
Theorem insert_adds_one_payload {A U : Type}
    (t : AVL_TREE A U) (m : mem A) (tr : tree A) (fs : list nat) (k : A)
    (fuel : nat) :
  Inv t m tr fs → total_order (cmp_of t) → bst (cmp_of t) tr →
  size t < INT_MAX → (44 < fuel)%nat →
  ∃ rc t' m' tr' fs',
    AVL_insert fuel t m k = Ok (rc, t', m')
    ∧ Inv t' m' tr' fs' ∧ bst (cmp_of t') tr'
    ∧ eval t' = eval t ∧ user t' = user t
    ∧ ((rc = 0 ∧ lookup_tree (cmp_of t) k tr = None
        ∧ inorder tr' ≡ₚ k :: inorder tr
        ∧ size t' = size t + 1
        ∧ (fs ≠ [] ∨ hd false (oracle m) = true))
       ∨ (rc = 1 ∧ is_Some (lookup_tree (cmp_of t) k tr)
          ∧ t' = t ∧ m' = m ∧ tr' = tr)
       ∨ (rc = 2 ∧ lookup_tree (cmp_of t) k tr = None
          ∧ t' = t ∧ cells m' = cells m ∧ tr' = tr
          ∧ fs = [] ∧ hd false (oracle m) = false)).
Proof.
  intros HI Hord Hbst Hsz Hf.
  destruct (insert_step _ _ t m tr fs k fuel HI Hord Hbst Hsz Hf)
    as (rc & t' & m' & tr' & fs' & Hrun & HI' & Hbst' & He & Hu & _ & Hcase).
  exists rc, t', m', tr', fs'. split_and!; try done.
  destruct Hcase as [(-> & Hlk & Hp & Hmem) | [(-> & Hlk & H) | H]].
  - left. split_and!; try done.
    rewrite (inv_size HI'), (inv_size HI), <- !count_inorder.
    assert (length (inorder tr') = length (k :: inorder tr)) as Hl by by rewrite Hp.
    simpl in Hl. lia.
  - right; left. tauto.
  - right; right. tauto.
Qed.

Lemma insert_adds_one_payload_witness :
  Inv ex_t ex_m ex_tr ex_fs ∧ total_order (cmp_of ex_t) ∧ bst (cmp_of ex_t) ex_tr
  ∧ size ex_t < INT_MAX ∧ (44 < 50)%nat
  ∧ ∃ rc t' m' tr' fs',
      AVL_insert 50 ex_t ex_m 6 = Ok (rc, t', m')
      ∧ Inv t' m' tr' fs' ∧ bst (cmp_of t') tr'
      ∧ eval t' = eval ex_t ∧ user t' = user ex_t
      ∧ ((rc = 0 ∧ lookup_tree (cmp_of ex_t) 6 ex_tr = None
          ∧ inorder tr' ≡ₚ 6 :: inorder ex_tr
          ∧ size t' = size ex_t + 1
          ∧ (ex_fs ≠ [] ∨ hd false (oracle ex_m) = true))
         ∨ (rc = 1 ∧ is_Some (lookup_tree (cmp_of ex_t) 6 ex_tr)
            ∧ t' = ex_t ∧ m' = ex_m ∧ tr' = ex_tr)
         ∨ (rc = 2 ∧ lookup_tree (cmp_of ex_t) 6 ex_tr = None
            ∧ t' = ex_t ∧ cells m' = cells ex_m ∧ tr' = ex_tr
            ∧ ex_fs = [] ∧ hd false (oracle ex_m) = false)).
Proof.
  split; [exact ex_Inv|]. split; [exact (Z_eval_total tt)|].
  split; [exact ex_bst|]. split; [vm_compute; reflexivity|]. split; [lia|].
  apply (insert_adds_one_payload ex_t ex_m ex_tr ex_fs 6 50 ex_Inv
           (Z_eval_total tt) ex_bst);
    [vm_compute; reflexivity | lia].
Defined.



(** X9. Whatever the descriptor, the memory and the key, [AVL_delete]
    and [AVL_walk] never read or write their local array [stack] outside
    [0 .. AVL_MAX_DEPTH-1]: the model reports such an access as
    [StackOverflow], and neither function ends with it. *)
Theorem path_stack_never_overrun {A U : Type}
    (fuel : nat) (t : AVL_TREE A U) (m : mem A) (k : A) :
  AVL_delete fuel t m k ≠ Err StackOverflow
  ∧ AVL_walk fuel t m ≠ Err StackOverflow.
Proof.
  split; [apply delete_never_overruns | apply walk_never_overruns].
Qed.

(** X7. Insert and delete undo each other: on a valid state that holds
    a search tree without the key [k], and with a cell to be had, the
    insert of [k] returns 0, the delete of [k] that follows returns [k],
    and the tree then holds the payloads it held before, in the same
    order, with the size it had. *)
Theorem insert_then_delete_restores {A U : Type}
    (t : AVL_TREE A U) (m : mem A) (tr : tree A) (fs : list nat) (k : A)
    (fuel : nat) :
  Inv t m tr fs → total_order (cmp_of t) → bst (cmp_of t) tr →
  size t < INT_MAX → (44 < fuel)%nat →
  (∀ y, y ∈ inorder tr → cmp_of t y k ≠ 0) →
  fs ≠ [] ∨ hd false (oracle m) = true →
  ∃ t1 m1 t2 m2 tr2 fs2,
    AVL_insert fuel t m k = Ok (0, t1, m1)
    ∧ AVL_delete fuel t1 m1 k = Ok (Some k, t2, m2)
    ∧ Inv t2 m2 tr2 fs2
    ∧ inorder tr2 = inorder tr
    ∧ size t2 = size t.
Proof.
  intros HI Hord Hbst Hsz Hf Hnew Hcell.
  destruct (insert_step _ _ t m tr fs k fuel HI Hord Hbst Hsz Hf)
    as (rc & t1 & m1 & tr1 & fs1 & Hrun1 & HI1 & Hbst1 & He1 & Hu1 & _ & Hcase).
  assert (cmp_of t1 = cmp_of t) as Hcmp1 by (unfold cmp_of; by rewrite He1, Hu1).
  pose proof (lookup_tree_none _ (cmp_of t) k tr Hnew) as Hnone.
  destruct Hcase as [(-> & _ & Hperm1 & _)
                    | [(_ & [x Hx] & _) | (_ & _ & _ & _ & _ & -> & Ho)]].
  2:{ rewrite Hnone in Hx. done. }
  2:{ destruct Hcell as [Hc | Hc]; [done | by rewrite Ho in Hc]. }
  rewrite Hcmp1 in Hbst1.
  destruct (delete_step _ _ t1 m1 tr1 fs1 k fuel HI1
              ltac:(by rewrite Hcmp1) ltac:(by rewrite Hcmp1) Hf)
    as (dd & t2 & m2 & tr2 & fs2 & Hrun2 & HI2 & Hbst2 & He2 & Hu2 & _ & Hdd
        & _ & Hcase).
  assert (cmp_of t2 = cmp_of t) as Hcmp2.
  { unfold cmp_of. by rewrite He2, Hu2, He1, Hu1. }
  rewrite Hcmp1 in Hdd. rewrite Hcmp2 in Hbst2.
  rewrite (lookup_tree_in _ (cmp_of t) Hord k tr1 Hbst1) in Hdd.
  2:{ rewrite Hperm1. apply list_elem_of_here. }
  subst dd. destruct Hcase as (Hperm2 & _ & _).
  assert (inorder tr2 = inorder tr) as Hin.
  { apply (bst_perm_eq _ (cmp_of t)); [done | done | done |].
    apply (Permutation_cons_inv (a := k)). by rewrite <- Hperm2, Hperm1. }
  exists t1, m1, t2, m2, tr2, fs2. split_and!; try done.
  rewrite (inv_size HI2), (inv_size HI), <- !count_inorder. by rewrite Hin.
Qed.

Lemma insert_then_delete_restores_witness :
  Inv ex_t ex_m ex_tr ex_fs ∧ total_order (cmp_of ex_t)
  ∧ bst (cmp_of ex_t) ex_tr
  ∧ size ex_t < INT_MAX ∧ (44 < 50)%nat
  ∧ (∀ y, y ∈ inorder ex_tr → cmp_of ex_t y 6 ≠ 0)
  ∧ (ex_fs ≠ [] ∨ hd false (oracle ex_m) = true)
  ∧ ∃ t1 m1 t2 m2 tr2 fs2,
      AVL_insert 50 ex_t ex_m 6 = Ok (0, t1, m1)
      ∧ AVL_delete 50 t1 m1 6 = Ok (Some 6, t2, m2)
      ∧ Inv t2 m2 tr2 fs2
      ∧ inorder tr2 = inorder ex_tr
      ∧ size t2 = size ex_t.
Proof.
  assert (∀ y, y ∈ inorder ex_tr → cmp_of ex_t y 6 ≠ 0) as Hnew.
  { intros y Hy. vm_compute in Hy. unfold cmp_of, ex_t, Z_eval. simpl.
    repeat (apply elem_of_cons in Hy as [-> | Hy]; [lia|]).
    by apply elem_of_nil in Hy. }
  assert (ex_fs ≠ [] ∨ hd false (oracle ex_m) = true) as Hcell
    by (left; discriminate).
  split; [exact ex_Inv|]. split; [exact (Z_eval_total tt)|].
  split; [exact ex_bst|]. split; [vm_compute; reflexivity|]. split; [lia|].
  split; [exact Hnew|]. split; [exact Hcell|].
  apply (insert_then_delete_restores ex_t ex_m ex_tr ex_fs 6 50 ex_Inv
           (Z_eval_total tt) ex_bst); [vm_compute; reflexivity | lia | exact Hnew
           | exact Hcell].
Defined.

(** X8. [AVL_find] and [AVL_walk] agree: on a valid state that holds a
    search tree the walk hands the callback a sorted list of payloads,
    and for every key [AVL_find] returns a payload of that list that
    compares equal to the key, and NULL exactly when the list has
    none. *)
Theorem find_agrees_with_walk {A U : Type}
    (t : AVL_TREE A U) (m : mem A) (tr : tree A) (fs : list nat)
    (fuel : nat) :
  Inv t m tr fs → total_order (cmp_of t) → bst (cmp_of t) tr →
  (44 < fuel)%nat → (3 * Z.to_nat (size t) ≤ fuel)%nat →
  ∃ xs,
    AVL_walk fuel t m = Ok (Some <$> xs)
    ∧ StronglySorted (klt (cmp_of t)) xs
    ∧ Z.of_nat (length xs) = size t
    ∧ ∀ k, ∃ r,
        AVL_find fuel t m k = Ok r
        ∧ (∀ x, r = Some x → x ∈ xs ∧ cmp_of t x k = 0)
        ∧ (r = None ↔ ∀ y, y ∈ xs → cmp_of t y k ≠ 0).
Proof.
  intros HI Hord Hbst Hf Hfw.
  pose proof (Inv_height_bound _ _ _ _ _ _ HI) as Hh.
  exists (inorder tr). split_and!.
  - apply (walk_ok _ _ t m tr fs); [by destruct HI | lia |].
    pose proof (walk_steps_le _ tr). rewrite (inv_size HI) in Hfw. lia.
  - done.
  - by rewrite count_inorder, (inv_size HI).
  - intros k. exists (lookup_tree (cmp_of t) k tr).
    split; [by apply (find_ok _ _ t m tr fs)|]. split.
    + intros x Hx. by apply lookup_tree_Some.
    + split.
      * by apply lookup_tree_None_inv.
      * apply lookup_tree_none.
Qed.

Lemma find_agrees_with_walk_witness :
  Inv ex_t ex_m ex_tr ex_fs ∧ total_order (cmp_of ex_t)
  ∧ bst (cmp_of ex_t) ex_tr
  ∧ (44 < 50)%nat ∧ (3 * Z.to_nat (size ex_t) ≤ 50)%nat
  ∧ ∃ xs,
      AVL_walk 50 ex_t ex_m = Ok (Some <$> xs)
      ∧ StronglySorted (klt (cmp_of ex_t)) xs
      ∧ Z.of_nat (length xs) = size ex_t
      ∧ ∀ k, ∃ r,
          AVL_find 50 ex_t ex_m k = Ok r
          ∧ (∀ x, r = Some x → x ∈ xs ∧ cmp_of ex_t x k = 0)
          ∧ (r = None ↔ ∀ y, y ∈ xs → cmp_of ex_t y k ≠ 0).
Proof.
  split; [exact ex_Inv|]. split; [exact (Z_eval_total tt)|].
  split; [exact ex_bst|]. split; [lia|]. split; [vm_compute; lia|].
  apply (find_agrees_with_walk ex_t ex_m ex_tr ex_fs 50 ex_Inv
           (Z_eval_total tt) ex_bst); [lia | vm_compute; lia].
Defined.

(** X10. [AVL_flush] on a valid state returns and leaves a valid state
    with the empty tree: every node of the old tree is on the free stack,
    the last one freed first, above the old free stack; its cell keeps the
    data pointer and the mark of a first cell and has lost the mark of
    use. No other cell changes, no block is allocated or released, and
    the layout of the allocator is as it was. *)
Theorem flush_returns_every_node {A U : Type}
    (t : AVL_TREE A U) (m : mem A) (tr : tree A) (fs : list nat)
    (fuel : nat) :
  Inv t m tr fs → (2 * count tr ≤ fuel)%nat →
  ∃ t' m',
    AVL_flush fuel t m = Ok (t', m')
    ∧ Inv t' m' E (reverse (postorder tr) ++ fs)
    ∧ eval t' = eval t ∧ user t' = user t ∧ allocAtOnce t' = allocAtOnce t
    ∧ blocks m' = blocks m ∧ oracle m' = oracle m
    ∧ (∀ a, a ∉ addrs tr → cells m' !! a = cells m !! a)
    ∧ (∀ a, a ∈ addrs tr →
         ∃ c c', cells m !! a = Some c ∧ cells m' !! a = Some c'
                 ∧ d c' = d c ∧ is_first c' = is_first c
                 ∧ in_use c = true ∧ in_use c' = false)
    ∧ (Slabs t m fs → Slabs t' m' (reverse (postorder tr) ++ fs)).
Proof.
  intros HI Hfuel.
  destruct (flush_run _ _ t m tr fs fuel HI Hfuel)
    as (t' & Hrun & Hfs & Htop & Hh & Hs & Ha & He & Hu).
  eexists t', _. split; [exact Hrun|].
  split; [by apply flush_Inv|]. split_and!; try done.
  - intros a Ha'. simpl. by apply flush_heap_frame.
  - intros a Ha'. destruct HI as [[Ht Hrep Hfree Hnd Hfl Hal] _ _ _ _].
    apply NoDup_app in Hnd as (Hnd & _ & _).
    destruct (flush_heap_cell _ tr (cells m) (freeStack t) a Hrep Hnd Hfl Ha')
      as (pl & pr & b & fl & x & q & H0 & H1 & Hb & Hused).
    destruct (flag_cleared b fl Hb Hused) as (H1st & Husd & _).
    destruct (wf_used_fl b fl Hb Hused) as [_ Hbit].
    eexists _, _. split; [exact H0|]. split; [exact H1|].
    unfold is_first, in_use. simpl. rewrite H1st, Husd, Hbit. done.
  - intros Hsl. by apply flush_Slabs.
Qed.

Lemma flush_returns_every_node_witness :
  Inv slab_t slab_m slab_tr slab_fs ∧ (2 * count slab_tr ≤ 8)%nat
  ∧ ∃ t' m',
      AVL_flush 8 slab_t slab_m = Ok (t', m')
      ∧ Inv t' m' E (reverse (postorder slab_tr) ++ slab_fs)
      ∧ eval t' = eval slab_t ∧ user t' = user slab_t
      ∧ allocAtOnce t' = allocAtOnce slab_t
      ∧ blocks m' = blocks slab_m ∧ oracle m' = oracle slab_m
      ∧ (∀ a, a ∉ addrs slab_tr → cells m' !! a = cells slab_m !! a)
      ∧ (∀ a, a ∈ addrs slab_tr →
           ∃ c c', cells slab_m !! a = Some c ∧ cells m' !! a = Some c'
                   ∧ d c' = d c ∧ is_first c' = is_first c
                   ∧ in_use c = true ∧ in_use c' = false)
      ∧ (Slabs slab_t slab_m slab_fs
         → Slabs t' m' (reverse (postorder slab_tr) ++ slab_fs)).
Proof.
  split; [exact slab_Inv|]. split; [simpl; lia|].
  apply (flush_returns_every_node slab_t slab_m slab_tr slab_fs 8 slab_Inv).
  simpl. lia.
Defined.

(** X11. [AVL_destroy] hands back all the memory: on a valid state with
    the layout of the allocator in which every cell in use is a node of
    the tree, it returns, and no cell and no block is left. *)
Theorem destroy_releases_all_memory {A U : Type}
    (t : AVL_TREE A U) (m : mem A) (tr : tree A) (fs : list nat)
    (fuel : nat) :
  Inv t m tr fs → Slabs t m fs → no_leak (cells m) tr →
  Z.of_nat (count tr + length fs) ≤ INT_MAX →
  (2 * count tr ≤ fuel)%nat → (count tr + length fs < fuel)%nat →
  ∃ m', AVL_destroy fuel t m = Ok m'
        ∧ cells m' = ∅ ∧ blocks m' = ∅ ∧ oracle m' = oracle m.
Proof.
  intros HI Hsl Hleak Hmax Hfuel Hfuel'.
  destruct (destroy_ok _ _ t m tr fs fuel HI Hsl Hleak Hmax Hfuel Hfuel')
    as (m' & Hrun & Hcells & Hblocks & Ho).
  exists m'. by split_and!.
Qed.

Lemma destroy_releases_all_memory_witness :
  Inv slab_t slab_m slab_tr slab_fs ∧ Slabs slab_t slab_m slab_fs
  ∧ no_leak (cells slab_m) slab_tr
  ∧ Z.of_nat (count slab_tr + length slab_fs) ≤ INT_MAX
  ∧ (2 * count slab_tr ≤ 50)%nat ∧ (count slab_tr + length slab_fs < 50)%nat
  ∧ ∃ m', AVL_destroy 50 slab_t slab_m = Ok m'
          ∧ cells m' = ∅ ∧ blocks m' = ∅ ∧ oracle m' = oracle slab_m.
Proof.
  split; [exact slab_Inv|]. split; [exact slab_Slabs|].
  split; [exact slab_no_leak|]. split; [vm_compute; discriminate|].
  split; [simpl; lia|]. split; [simpl; lia|].
  apply (destroy_releases_all_memory slab_t slab_m slab_tr slab_fs 50
           slab_Inv slab_Slabs slab_no_leak);
    [vm_compute; discriminate | simpl; lia | simpl; lia].
Defined.

(** X12. [AVL_flush] does not check the depth: when the path that its
    loop goes down first (to the left where it can, else to the right)
    has more than [AVL_MAX_DEPTH] nodes, it writes beyond its local array
    [stack]. *)
Theorem flush_overruns_on_deep_path {A U : Type}
    (t : AVL_TREE A U) (m : mem A) (tr : tree A) (fuel : nat) :
  rep (cells m) tr → top t = root tr →
  (AVL_MAX_DEPTH < first_path tr)%nat → (AVL_MAX_DEPTH < fuel)%nat →
  AVL_flush fuel t m = Err StackOverflow.
Proof.
  intros Hrep Htop Hpath Hfuel.
  by apply (flush_overrun _ _ t m tr fuel Hrep Htop).
Qed.

Lemma flush_overruns_on_deep_path_witness :
  rep (cells deep_m) deep_tr ∧ top deep_t = root deep_tr
  ∧ (AVL_MAX_DEPTH < first_path deep_tr)%nat ∧ (AVL_MAX_DEPTH < 100)%nat
  ∧ AVL_flush 100 deep_t deep_m = Err StackOverflow.
Proof.
  split; [exact deep_rep|]. split; [reflexivity|].
  split; [vm_compute; lia|]. split; [vm_compute; lia|].
  apply (flush_overruns_on_deep_path deep_t deep_m deep_tr 100 deep_rep eq_refl);
    vm_compute; lia.
Defined.

(** X13. A deleted node is used again: after a delete that has returned
    a payload, the next insert on that state never reports "no memory"
    (it returns 0 or 1) and never calls malloc: the blocks and the
    answers that malloc has yet to give are as before. *)
Theorem insert_after_delete_needs_no_malloc {A U : Type}
    (t : AVL_TREE A U) (m : mem A) (tr : tree A) (fs : list nat) (k k' : A)
    (fuel : nat) (x : A) (t1 : AVL_TREE A U) (m1 : mem A) :
  Inv t m tr fs → total_order (cmp_of t) → bst (cmp_of t) tr →
  (44 < fuel)%nat →
  AVL_delete fuel t m k = Ok (Some x, t1, m1) →
  ∃ rc t2 m2,
    AVL_insert fuel t1 m1 k' = Ok (rc, t2, m2)
    ∧ (rc = 0 ∨ rc = 1)
    ∧ blocks m2 = blocks m ∧ oracle m2 = oracle m.
Proof.
  intros HI Hord Hbst Hf Hdel.
  pose proof (Inv_height_bound _ _ _ _ _ _ HI) as Hh.
  pose proof (delete_ok _ _ t m tr fs k fuel HI
                ltac:(unfold AVL_MAX_DEPTH; lia) ltac:(lia)) as Hok.
  destruct (delete_step _ _ t m tr fs k fuel HI Hord Hbst Hf)
    as (dd & t1' & m1' & tr1 & fs1 & Hrun & HI1 & Hbst1 & He & Hu & _ & _
        & _ & Hcase).
  rewrite Hdel in Hrun. injection Hrun as <- <- <-.
  destruct Hcase as (Hperm & _ & a & -> & _).
  destruct (del_path (cmp_of t) k [] tr) as [[C s]|].
  2:{ rewrite Hdel in Hok. done. }
  destruct Hok as (a' & tl & b & fl & x' & tr1' & hh & tr' & t' & m' & _ & _
                   & _ & _ & Hrun & _ & _ & _ & _ & _ & Hb & Ho).
  rewrite Hdel in Hrun. injection Hrun as _ <- <-.
  assert (cmp_of t1 = cmp_of t) as Hcmp by (unfold cmp_of; by rewrite He, Hu).
  assert (size t1 < INT_MAX) as Hsz.
  { rewrite (inv_size HI1). pose proof (inv_size_max HI) as Hmax.
    rewrite (inv_size HI) in Hmax. rewrite <- !count_inorder in *.
    assert (length (inorder tr) = length (x :: inorder tr1)) as Hl
      by by rewrite Hperm.
    simpl in Hl. lia. }
  destruct (insert_step _ _ t1 m1 tr1 (a :: fs) k' fuel HI1
              ltac:(by rewrite Hcmp) Hbst1 Hsz Hf)
    as (rc & t2 & m2 & tr2 & fs2 & Hrun2 & _ & _ & _ & _ & _ & Hcase).
  exists rc, t2, m2. split; [done|].
  assert (is_Some (freeStack t1)) as Hfree.
  { destruct HI1 as [[_ _ Hfl _ _ _] _ _ _ _]. destruct Hfl as [-> _]. by eexists. }
  destruct (insert_no_malloc _ _ fuel t1 m1 k' rc t2 m2 Hfree Hrun2) as [Hb2 Ho2].
  split; [|by rewrite Hb2, Ho2, Hb, Ho].
  destruct Hcase as [(-> & _) | [(-> & _) | (_ & _ & _ & _ & _ & Hnil & _)]];
    [by left | by right | done].
Qed.

Lemma insert_after_delete_needs_no_malloc_witness :
  Inv ex_t ex_m ex_tr ex_fs ∧ total_order (cmp_of ex_t)
  ∧ bst (cmp_of ex_t) ex_tr ∧ (44 < 50)%nat
  ∧ ∃ t1 m1,
      AVL_delete 50 ex_t ex_m 3 = Ok (Some 3, t1, m1)
      ∧ ∃ rc t2 m2,
          AVL_insert 50 t1 m1 6 = Ok (rc, t2, m2)
          ∧ (rc = 0 ∨ rc = 1)
          ∧ blocks m2 = blocks ex_m ∧ oracle m2 = oracle ex_m.
Proof.
  split; [exact ex_Inv|]. split; [exact (Z_eval_total tt)|].
  split; [exact ex_bst|]. split; [lia|].
  eexists _, _. split; [vm_compute; reflexivity|].
  eapply (insert_after_delete_needs_no_malloc ex_t ex_m ex_tr ex_fs 3 6 50 3
            _ _ ex_Inv (Z_eval_total tt) ex_bst); [lia | vm_compute; reflexivity].
Defined.

(** X14. The layout of the allocator is an invariant of the two
    mutations: on a valid state whose memory has that layout and in
    which every cell marked as in use is a node of the tree,
    [AVL_insert] and [AVL_delete] return, and the state each of them
    leaves is valid again, has the layout, and has no cell in use
    outside the tree. *)
Theorem layout_kept_by_insert_and_delete {A U : Type}
    (t : AVL_TREE A U) (m : mem A) (tr : tree A) (fs : list nat) (k : A)
    (fuel : nat) :
  Inv t m tr fs → Slabs t m fs → no_leak (cells m) tr →
  size t < INT_MAX → (44 < fuel)%nat →
  (∃ rc t' m' tr' fs',
     AVL_insert fuel t m k = Ok (rc, t', m')
     ∧ Inv t' m' tr' fs' ∧ Slabs t' m' fs' ∧ no_leak (cells m') tr')
  ∧ (∃ dd t' m' tr' fs',
       AVL_delete fuel t m k = Ok (dd, t', m')
       ∧ Inv t' m' tr' fs' ∧ Slabs t' m' fs' ∧ no_leak (cells m') tr').
Proof.
  intros HI Hsl Hleak Hsz Hf.
  pose proof (Inv_height_bound _ _ _ _ _ _ HI) as Hh.
  split.
  - assert (∃ rc t' m', AVL_insert fuel t m k = Ok (rc, t', m'))
      as (rc & t' & m' & Hrun).
    { pose proof (insert_ok _ _ t m tr fs k fuel HI Hsz ltac:(lia)) as Hins.
      unfold AVL_insert.
      destruct (ins_path (cmp_of t) k [] tr) as [Cf|].
      - destruct Hins as (_ & _ & [(m' & Hrun & _)
          | (n & fl & rot & dh & tr' & t' & m' & fs' & Hrun & _)]);
          rewrite Hrun; by eexists _, _, _.
      - rewrite Hins. by eexists _, _, _. }
    destruct (insert_layout _ _ t m tr fs k fuel rc t' m' HI Hsl Hleak Hsz
                ltac:(lia) Hrun) as (tr' & fs' & H).
    by exists rc, t', m', tr', fs'.
  - assert (∃ dd t' m', AVL_delete fuel t m k = Ok (dd, t', m'))
      as (dd & t' & m' & Hrun).
    { pose proof (delete_ok _ _ t m tr fs k fuel HI
                    ltac:(unfold AVL_MAX_DEPTH; lia) ltac:(lia)) as Hdel.
      destruct (del_path (cmp_of t) k [] tr) as [[C s]|].
      - destruct Hdel as (a & tl & b & fl & x & tr1 & hh & tr' & t' & m' & _ & _
                          & _ & _ & Hrun & _).
        by eexists _, _, _.
      - by eexists _, _, _. }
    destruct (delete_layout _ _ t m tr fs k fuel dd t' m' HI Hsl Hleak
                ltac:(lia) Hrun) as (tr' & fs' & H).
    by exists dd, t', m', tr', fs'.
Qed.

Lemma layout_kept_by_insert_and_delete_witness :
  Inv slab_t slab_m slab_tr slab_fs ∧ Slabs slab_t slab_m slab_fs
  ∧ no_leak (cells slab_m) slab_tr ∧ size slab_t < INT_MAX ∧ (44 < 50)%nat
  ∧ (∃ rc t' m' tr' fs',
       AVL_insert 50 slab_t slab_m 6 = Ok (rc, t', m')
       ∧ Inv t' m' tr' fs' ∧ Slabs t' m' fs' ∧ no_leak (cells m') tr')
  ∧ (∃ dd t' m' tr' fs',
       AVL_delete 50 slab_t slab_m 6 = Ok (dd, t', m')
       ∧ Inv t' m' tr' fs' ∧ Slabs t' m' fs' ∧ no_leak (cells m') tr').
Proof.
  split; [exact slab_Inv|]. split; [exact slab_Slabs|].
  split; [exact slab_no_leak|]. split; [vm_compute; reflexivity|].
  split; [lia|].
  apply (layout_kept_by_insert_and_delete slab_t slab_m slab_tr slab_fs 6 50
           slab_Inv slab_Slabs slab_no_leak); [vm_compute; reflexivity | lia].
Defined.

